(* ===== verification/_CoqProject ===== *)
-Q . S2P
Prelude.v
JsValue.v
Json.v
JsonRoundTrip.v
WebrtcConstants.v
SignalingTypes.v
WebrtcTypes.v
Async.v
Browser.v
Messages.v
ReferenceBrowser.v
React.v
WebrtcHelpers.v
Page.v
PageHears.v
PageExamples.v
PageInvariant.v
PageSdp.v
PageProperties.v
PageCallee.v
PageTermination.v
PageTypes.v
PageView.v
UseMediaStream.v
UseMediaStreamProperties.v
UseSignaling.v
UseSignalingProperties.v
UseWebRTC.v
UseWebRTCProperties.v
SignalingServer.v
SignalingServerProperties.v
EndToEnd.v
Network.v
Delivery.v
Utf8.v
WasmGlue.v
WasmStrings.v
WasmReference.v
WasmTable.v
WasmClosures.v
WasmLoader.v
