(* ===== verification/Prelude.v ===== *)
(** * web_rtccam: a verification library

    The repository is a two-party video chat.  A Next.js page (TypeScript, under
    [src/webrtc/src]) negotiates a peer connection by exchanging offers, answers
    and candidates as JSON texts through a WebSocket signaling server (Rust,
    [src/signaling/src/main.rs]).  The page contains the whole protocol; three
    hooks offer the same parts for reuse (media stream, signaling, peer
    connection).  The parts share their helpers, constants and message types.
    Beside them stand the bindings of a WebAssembly module that opens the camera
    ([wasm/web_rtccam.js]).

    ** The model

    JavaScript code is a computation of the resumption monad of [Async]: it runs
    atomically on the state of its component until it returns, throws or reaches
    an [await], where it is a value that waits to be resumed.  [Async] has a
    rely-guarantee logic for such computations: [wp] for one, [promise_ok] for
    one that waits, [safe] for code that keeps an invariant wherever it runs.

    [Browser] is what the code sees of the browser: sockets, peer connections and
    tracks on a heap, a trace of the calls made, and the promise-valued
    operations as requests.  What the browser computes is the class
    [BrowserAPI], a parameter of every theorem; [ReferenceBrowser] (with the
    codec of [Json]) is the instance the examples run on.

    [React] is the contract of the runtime: renders apply the queued updates in
    order, effects run when their dependencies changed, a closure holds the
    state of the render it was made in.  A component is a [step] function of an
    event (a render, a message, a click, a settled promise, an event of a
    connection) on a configuration: the state and the promises that wait.
    Events come in any order, a promise settles at any time and in any way, so a
    theorem about reachable configurations covers every interleaving.  [Answer]
    chooses how a promise settles.

    ** The files

    - [Prelude]: automation and list lemmas.  [JsValue]: JavaScript values,
      coercions and exceptions.  [Json]: a codec; [JsonRoundTrip]: its parser
      reads back what its printer writes, for every value up to the properties
      that JSON leaves out.
    - [WebrtcConstants], [SignalingTypes], [WebrtcTypes], [WebrtcHelpers]: the
      modules [utils/webrtc-constants.ts], [types/signaling.ts],
      [types/webrtc.ts] and [utils/webrtc-helpers.ts], a definition per function.
    - [Messages]: what a trace says of the messages received.
    - [Page]: the component [Home] of [app/page.tsx].  [Refs] are its [useRef]
      cells and [State] its [useState] values; each handler is a definition with
      the name of the source.  The mount effect is [first_render] with
      [initLocalStream] and [connect]; its handlers hold the state of the first
      render, [mount_env].
    - [PageInvariant]: the atomic actions of the page ([act]), the invariant
      [page_inv], and that every reachable configuration keeps it.
      [PageExamples]: runs.
    - [PageSdp]: the pending SDP message: processed in order, by every render
      with an id, lost when overtaken.
    - [PageHears]: relations of states that a walk along the handlers shows every
      step to be in ([calm]); with one of them, only the arrival of a text adds
      to what the page received or assigns an id.
    - [PageProperties]: what is sent, the caller's protocol, one negotiation at a
      time.  [PageCallee]: the callee's protocol, received candidates, the end
      of the page.
    - [PageTermination]: its async functions end.  [PageTypes]: its declared
      types.  [PageView]: the markup of [app/page.tsx] and [app/layout.tsx], a
      tree of elements with the handlers of the render it belongs to.
    - [UseMediaStream], [UseSignaling], [UseWebRTC]: the hooks of [hooks/], with
      their effects run again, the handlers of every socket or connection they
      ever created and the functions of every render; the [...Properties] file
      of each has its invariant and theorems.
    - [SignalingServer]: the actors of [main.rs] with their mailboxes; the class
      [SerdeJson] stands for serde_json.  [SignalingServerProperties]: the map of
      sessions, order and content of what is forwarded, delivery.
    - [Utf8]: the platform's strings and encoders: UTF-16 code units, the
      replacement of lone surrogates, UTF-8 in both directions.
    - [WasmGlue]: the bindings, a definition per function and import, on the
      module variables ([Glue]) and an instance with its memory, its table of
      references and its private state.  The functions of the module, the
      platform and the values of the page are classes ([WasmModule], [Program],
      [Platform], [JSHost]).  [WasmStrings]: strings across the border, for any
      module with an [Allocator].  [WasmTable]: references and exceptions, for
      any [TableAllocator].  [WasmReference]: a module with a bump allocator,
      which has both.
    - [WasmClosures]: the functions that stand for closures of the module, with
      the finalizer and the executor of a promise, and the specification of
      their environment.  [WasmLoader]: the asynchronous initialization.
    - [EndToEnd]: what the ends agree on.  The class [Wire] says that a text
      means the same at both ends and in the server; the reference codec is an
      instance.  [Network]: any number of pages around the server, whose runs
      are runs of its parts; the invariants of page and server compose.
      [Delivery]: the way of a text through the network.

    ** What the theorems show

    - The protocol: [connect_offers], [handleSDPMessage_protocol],
      [createOffer_protocol] and [handleOffer_protocol] say what each async
      function does on every branch and how every await goes on, from any state
      the component is in by then; every failure resets the negotiation flag.
    - Safety of what is sent: [sent_messages], [sent_with_assigned_id],
      [calls_use_own_render].  In a network of pages, [network_is_authentic]: what
      a page receives was sent to it by the page it names; [network_ids_are_own]:
      the ids of the pages are those of their sessions, and different.  The
      server does not check senders ([sender_is_not_checked]), so the pages'
      code is what this rests on.
    - One negotiation at a time ([one_offer_at_a_time]): for every event, an
      offer is requested only by a click while none is under way, and a
      negotiation is over only when it is reported stable or a function ends.
    - Progress: [promises_settle], [accepted_message_is_delivered],
      [inits_resolve_started]; [sdp_message_reaches_peer]: what a page of a network
      wrote is processed by the page it is addressed to, by the steps that carry
      texts and one render.
    - Types: [page_is_typed] says that the declared types hold as long as what
      arrives is of the declared union; [page_shows_state] and
      [typed_text_is_shown] say what the document shows then.
    - Delivery: [processed_in_order] and [render_processes_pending] in the page,
      [message_routing] in the hook, [delivered_in_order], [sessions_exact] and
      [accepted_message_is_delivered] in the server; from the server to the page
      [welcome_assigns_session_id], from one page to the other
      [sdp_message_reaches_peer].
    - Resources: sockets and connections are closed exactly once
      ([sockets_closed_exactly_once], [connections_closed_exactly_once]),
      streams are stopped or reported ([superseded_stream_is_stopped],
      [current_stream_is_reported], [unmount_releases]).
    - The bindings: a string arrives as its UTF-8 encoding inside the memory
      ([passString_encodes], [passString_bounds], [start_camera_passes_id]) and
      comes back as itself ([string_roundtrip]), also when the memory grows in
      between; references and exceptions get a slot of their own
      ([optional_ref_reads], [handleError_reports], [init_externref_table]); the
      environment of a closure is lent to one call at a time and released once
      ([closure_refines], [closure_exclusive], [closure_released_once]);
      [inits_resolve_started] and [default_init_loads] are about the loader.
    - Defects, stated about the code as it is: the page never sends a
      candidate ([candidates_are_dropped]), a received one replaces the chosen
      peer ([candidate_replaces_peer]), an SDP message can be lost
      ([unprocessed_message_is_lost]), one that fails ends a negotiation it has no
      part in ([failed_message_lowers_flag]), cameras can stay on
      ([late_stream_is_leaked], [unmount_leaks_camera]), the hooks reconnect in
      every render with inline callbacks ([unstable_callbacks_reconnect]), report
      a wrong state ([stale_close_disconnects], [refused_access],
      [returned_connection_is_stale]) or negotiate twice ([offers_pile_up]); two
      initializations at once replace the module in use
      ([concurrent_inits_replace]), and one that fails leaves it there
      ([failed_start_is_kept]).

    ** Bounds

    No definition of a component uses fuel.  The parser of [Json] takes the
    length of its input as fuel, and every call consumes a character or returns.
    The server has handled its mailbox after as many turns as the mailbox holds
    messages.  Numbers of JSON are integers.  Addresses of the module are 32-bit
    integers that JavaScript reads as signed: [uint32] is the [>>> 0] of the code,
    and the memory has at most 2^32 bytes.  An async function of the page is
    resumed at most three times, an initialization at most five times.

    ** What is not modelled

    Logging; the second mount of React's StrictMode in development builds;
    renders that apply only a part of the queued updates (transitions); the time
    between the commit of a render and its effects, which are one step here (a
    message that arrives in between is cleared by the effect of page.tsx:197
    that processes the one before it); a browser without [navigator.mediaDevices],
    whose exception is a rejected request here, handled a turn later; what
    React does after a render that throws ([view_object_id] says when it does);
    the content of session descriptions and media; the transport between a socket
    and the server beyond the order of its texts, and the server's HTTP layer.
    [types/index.ts] and [hooks/index.ts] are re-exports.  The WebAssembly module
    itself is built from [src/wasm/src/lib.rs], one function of calls to web-sys:
    it is a parameter of the bindings.  Style sheets and deployment files hold
    no program. *)
From Stdlib Require Export ZArith Lia.
From stdpp Require Export prelude gmap strings.


(** ** Automation shared by the components *)

Create HintDb webrtc.
Create Rewrite HintDb webrtc.
#[export] Set Warnings "-clear-no-such-hyp".

(** Destruct every conjunction and existential of the context. *)
Ltac destr_all :=
  repeat match goal with
  | H : _ ∧ _ |- _ => destruct H
  | H : ∃ _, _ |- _ => destruct H
  end.

(** Split a goal into the conjuncts [eauto] with the library's hints cannot
    close on its own. *)
Ltac split_auto := repeat split; eauto with webrtc.

(** Case analysis on the innermost [match] of the goal, then simplification. *)
Ltac case_step :=
  match goal with
  | |- context [match ?x with _ => _ end] => destruct x eqn:?; simplify_eq/=
  end.

(** ** Lists *)

Section Lists.
Context {A : Type}.
Implicit Types (l : list A) (x : A).

Lemma Forall_snoc (P : A → Prop) l x :
  Forall P l → P x → Forall P (l ++ [x]).
Proof. intros. apply Forall_app. auto. Qed.

Lemma Forall_update (P : A → Prop) l i x :
  Forall P l → P x → Forall P (<[i := x]> l).
Proof. intros. by apply Forall_insert. Qed.

Lemma Forall_forallb (f : A → bool) (P : A → Prop) l :
  Forall (λ x, f x = true → P x) l → forallb f l = true → Forall P l.
Proof.
  induction 1 as [|x l Hx _ IH]; simpl; [by constructor|]. rewrite andb_true_iff. intros [? ?].
  constructor; auto.
Qed.

Lemma lookup_snoc_new l x : (l ++ [x]) !! length l = Some x.
Proof. rewrite lookup_app_r; [|lia]. by rewrite Nat.sub_diag. Qed.

Lemma lookup_snoc_old l x i y : l !! i = Some y → (l ++ [x]) !! i = Some y.
Proof. intros H. rewrite lookup_app_l; eauto using lookup_lt_Some. Qed.
End Lists.

#[export] Hint Resolve Forall_snoc Forall_update lookup_snoc_old : webrtc.
