(* ===== verification/JsValue.v ===== *)
(** * JavaScript values and the exceptions of the program

    The values the program's dynamically typed code handles: the results of
    [JSON.parse], message objects and SDP or candidate payloads.  An object is
    the list of its own properties in insertion order; numbers are the
    integers that occur in signaling messages. *)
From S2P Require Import Prelude.
From stdpp Require Import pretty.

#[warnings="-register-all"]
Inductive jsval : Type :=
| JUndef
| JNull
| JBool (b : bool)
| JNum (n : Z)
| JStr (s : string)
| JArr (l : list jsval)
| JObj (fields : list (string * jsval)).

(** What [throw] and a rejected promise carry: an instance of [Error] with its
    name and message, or any other value. *)
Inductive thrown : Type :=
| ErrorObj (name message : string)
| NonError (v : jsval).

Definition TypeError (msg : string) : thrown := ErrorObj "TypeError" msg.

(** Code that may throw, as [thrown + A]. *)
#[global] Instance thrown_ret : MRet (sum thrown) := λ _, inr.
#[global] Instance thrown_bind : MBind (sum thrown) := λ _ _ f r,
  match r with inl e => inl e | inr x => f x end.

(** ** Induction and decidable equality through the nested lists *)

Section Induction.
Context (P : jsval → Prop).
Context (HU : P JUndef) (HN : P JNull) (HB : ∀ b, P (JBool b)) (HZ : ∀ n, P (JNum n))
  (HS : ∀ s, P (JStr s)) (HA : ∀ l, Forall P l → P (JArr l))
  (HO : ∀ fs, Forall (λ kv, P kv.2) fs → P (JObj fs)).

Fixpoint jsval_nested_ind (v : jsval) : P v :=
  match v with
  | JUndef => HU | JNull => HN | JBool b => HB b | JNum n => HZ n | JStr s => HS s
  | JArr l => HA l ((fix go l : Forall P l :=
      match l with
      | [] => Forall_nil_2 _
      | x :: l => Forall_cons_2 _ _ _ (jsval_nested_ind x) (go l)
      end) l)
  | JObj fs => HO fs ((fix go fs : Forall (λ kv, P kv.2) fs :=
      match fs with
      | [] => Forall_nil_2 _
      | kv :: fs => Forall_cons_2 (λ kv, P kv.2) kv fs (jsval_nested_ind kv.2) (go fs)
      end) fs)
  end.
End Induction.

#[global] Instance jsval_eq_dec : EqDecision jsval.
Proof.
  refine (fix go v w : {v = w} + {v ≠ w} :=
    let _ : EqDecision jsval := go in
    match v, w with
    | JUndef, JUndef | JNull, JNull => left _
    | JBool a, JBool b => cast_if (decide (a = b))
    | JNum a, JNum b => cast_if (decide (a = b))
    | JStr a, JStr b => cast_if (decide (a = b))
    | JArr a, JArr b => cast_if (decide (a = b))
    | JObj a, JObj b => cast_if (decide (a = b))
    | _, _ => right _
    end); abstract congruence.
Defined.

#[global] Instance thrown_eq_dec : EqDecision thrown.
Proof. solve_decision. Defined.

(** ** Objects *)

(** The own property [k] of an object, [undefined] when it has none. *)
Fixpoint obj_get (fs : list (string * jsval)) (k : string) : jsval :=
  match fs with
  | [] => JUndef
  | (k', v) :: fs => if decide (k = k') then v else obj_get fs k
  end.

(** [o[k] = v]: in place when the property exists, else added last. *)
Fixpoint obj_set (fs : list (string * jsval)) (k : string) (v : jsval)
    : list (string * jsval) :=
  match fs with
  | [] => [(k, v)]
  | (k', v') :: fs => if decide (k = k') then (k, v) :: fs else (k', v') :: obj_set fs k v
  end.

(** [{ ...base, ...ext }] *)
Definition obj_spread (base ext : list (string * jsval)) : list (string * jsval) :=
  foldl (λ acc kv, obj_set acc kv.1 kv.2) base ext.

(** [v.k]: a [TypeError] on [undefined] and [null]; the other primitive values
    and arrays have none of the properties the program reads. *)
Definition get_prop (v : jsval) (k : string) : thrown + jsval :=
  match v with
  | JUndef => inl (TypeError "Cannot read properties of undefined")
  | JNull => inl (TypeError "Cannot read properties of null")
  | JObj fs => inr (obj_get fs k)
  | _ => inr JUndef
  end.

(** The property [k] of a value that is known to be an object. *)
Definition field (v : jsval) (k : string) : jsval :=
  match get_prop v k with inr x => x | inl _ => JUndef end.

(** ** Coercions *)

Definition truthy (v : jsval) : bool :=
  match v with
  | JUndef | JNull => false
  | JBool b => b
  | JNum n => bool_decide (n ≠ 0%Z)
  | JStr s => bool_decide (s ≠ "")
  | JArr _ | JObj _ => true
  end.

(** [v === s] for a string [s] *)
Definition is_str (v : jsval) (s : string) : bool := bool_decide (v = JStr s).

(** The truth value of a [string | null | undefined] expression. *)
Definition truthy_str (o : option string) : bool :=
  match o with Some s => bool_decide (s ≠ "") | None => false end.

(** [String(v)].  The values of the program hold no functions, so an own
    property [toString] or [valueOf] of an object is not callable: with the
    first the conversion fails, an object without it is [[object Object]]. *)
Fixpoint to_string (v : jsval) : thrown + string :=
  match v with
  | JUndef => inr "undefined"
  | JNull => inr "null"
  | JBool b => inr (if b then "true" else "false")
  | JNum n => inr (pretty n)
  | JStr s => inr s
  | JArr l =>
      (fix join l := match l with
       | [] => inr ""
       | x :: l =>
           a ← match x with JUndef | JNull => inr "" | _ => to_string x end;
           b ← join l;
           mret (if l is [] then a else a +:+ "," +:+ b)
       end) l
  | JObj fs =>
      if decide ("toString" ∈ fs.*1) then inl (TypeError "Cannot convert object to primitive value")
      else inr "[object Object]"
  end.

(** [e instanceof Error ? e : new Error(String(e))] *)
Definition to_error (e : thrown) : thrown + thrown :=
  match e with
  | ErrorObj _ _ => inr e
  | NonError v => s ← to_string v; mret (ErrorObj "Error" s)
  end.

(** ** Lemmas *)

Lemma obj_get_set_eq fs k v : obj_get (obj_set fs k v) k = v.
Proof. induction fs as [|[k' v'] fs IH]; simpl; repeat case_decide; simpl; try case_decide; naive_solver. Qed.

Lemma obj_get_set_ne fs k k' v : k ≠ k' → obj_get (obj_set fs k v) k' = obj_get fs k'.
Proof.
  intros Hne. induction fs as [|[k0 v0] fs IH]; simpl; repeat (case_decide; simpl);
    simplify_eq; auto.
Qed.

(** A property of the extension wins; the others are the base's. *)
Lemma obj_get_spread base ext k :
  NoDup ext.*1 →
  obj_get (obj_spread base ext) k =
    if decide (k ∈ ext.*1) then obj_get ext k else obj_get base k.
Proof.
  unfold obj_spread. revert base. induction ext as [|[k0 v0] ext IH]; intros base Hnd; [done|].
  rewrite fmap_cons, NoDup_cons in Hnd. destruct Hnd as [Hnin Hnd].
  cbn [foldl]. rewrite IH by done. rewrite fmap_cons. cbn [fst snd obj_get].
  destruct (decide (k = k0)) as [->|Hne].
  - rewrite decide_False by done. rewrite decide_True by (by left). apply obj_get_set_eq.
  - rewrite obj_get_set_ne by done. apply decide_ext. rewrite elem_of_cons. naive_solver.
Qed.

Lemma is_str_true v s : is_str v s = true ↔ v = JStr s.
Proof. apply bool_decide_eq_true. Qed.

Lemma truthy_str_Some o : truthy_str o = true ↔ ∃ s, o = Some s ∧ s ≠ "".
Proof. destruct o as [s|]; simpl; [rewrite bool_decide_eq_true|]; naive_solver. Qed.

#[export] Hint Rewrite obj_get_set_eq : webrtc.
