(* ===== verification/Json.v ===== *)
(** * A JSON codec

    Printing and parsing of the values signaling messages are made of, with
    integers for numbers.  It is the codec of the reference browser the
    examples run on; the components are proved for any codec. *)
From S2P Require Import Prelude JsValue.
From stdpp Require Import pretty.
From Stdlib Require Import Ascii.

Definition quote : ascii := "034"%char.
Definition backslash : ascii := "092"%char.

(** ** Printing *)

Definition hex_digit (n : nat) : ascii :=
  ascii_of_nat (if decide (n < 10) then 48 + n else 87 + n).

Definition print_char (c : ascii) : string :=
  if decide (c = quote ∨ c = backslash) then String backslash (String c "")
  else if decide (nat_of_ascii c < 32) then
    String backslash (String "u" (String "0" (String "0"
      (String (hex_digit (nat_of_ascii c / 16)) (String (hex_digit (nat_of_ascii c mod 16)) "")))))
  else String c "".

Fixpoint print_chars (s : string) : string :=
  match s with
  | "" => ""
  | String c s => print_char c +:+ print_chars s
  end.

Definition print_string (s : string) : string :=
  String quote (print_chars s +:+ String quote "").

(** A property whose value is [undefined] is left out of an object; in an array
    it is [null]. *)
Fixpoint print (v : jsval) : string :=
  match v with
  | JUndef | JNull => "null"
  | JBool true => "true"
  | JBool false => "false"
  | JNum n => pretty n
  | JStr s => print_string s
  | JArr l =>
      "[" +:+
      (fix elems sep l := match l with
                          | [] => ""
                          | x :: l => sep +:+ print x +:+ elems "," l
                          end) "" l +:+ "]"
  | JObj fs =>
      "{" +:+
      (fix members sep fs := match fs with
                             | [] => ""
                             | (_, JUndef) :: fs => members sep fs
                             | (k, x) :: fs =>
                                 sep +:+ print_string k +:+ ":" +:+ print x +:+ members "," fs
                             end) "" fs +:+ "}"
  end.

(** ** Parsing *)

Definition is_ws (c : ascii) : bool :=
  bool_decide (c = " "%char ∨ c = "009"%char ∨ c = "010"%char ∨ c = "013"%char).

Fixpoint skip_ws (s : string) : string :=
  match s with
  | String c s' => if is_ws c then skip_ws s' else s
  | "" => ""
  end.

Definition digit (c : ascii) : option nat :=
  let n := nat_of_ascii c in
  if decide (48 ≤ n ∧ n ≤ 57) then Some (n - 48) else None.

Definition hex (c : ascii) : option nat :=
  let n := nat_of_ascii c in
  if decide (48 ≤ n ∧ n ≤ 57) then Some (n - 48)
  else if decide (97 ≤ n ∧ n ≤ 102) then Some (n - 87)
  else if decide (65 ≤ n ∧ n ≤ 70) then Some (n - 55) else None.

Definition unescape (c : ascii) : option ascii :=
  if decide (c = quote ∨ c = backslash ∨ c = "/"%char) then Some c
  else if decide (c = "n"%char) then Some "010"%char
  else if decide (c = "t"%char) then Some "009"%char
  else if decide (c = "r"%char) then Some "013"%char
  else if decide (c = "b"%char) then Some "008"%char
  else if decide (c = "f"%char) then Some "012"%char
  else None.

(** The characters up to the closing quote, and the rest. *)
Fixpoint parse_chars (s : string) : option (string * string) :=
  match s with
  | "" => None
  | String c s =>
      if decide (c = quote) then Some ("", s)
      else if decide (c = backslash) then
        match s with
        | String e s =>
            if decide (e = "u"%char) then
              match s with
              | String a (String b (String c (String d s))) =>
                  '(a, b, (c, d)) ← (a ← hex a; b ← hex b; c ← hex c; d ← hex d;
                                     Some (a, b, (c, d)));
                  let n := ((a * 16 + b) * 16 + c) * 16 + d in
                  if decide (n < 128) then
                    '(t, r) ← parse_chars s; Some (String (ascii_of_nat n) t, r)
                  else None
              | _ => None
              end
            else
              e ← unescape e; '(t, r) ← parse_chars s; Some (String e t, r)
        | "" => None
        end
      else if decide (nat_of_ascii c < 32) then None
      else '(t, r) ← parse_chars s; Some (String c t, r)
  end.

(** Decimal digits, accumulated onto [acc]. *)
Fixpoint parse_digits (acc : Z) (s : string) : Z * string :=
  match s with
  | String c s' =>
      match digit c with
      | Some d => parse_digits (acc * 10 + Z.of_nat d)%Z s'
      | None => (acc, s)
      end
  | "" => (acc, "")
  end.

Definition parse_number (s : string) : option (jsval * string) :=
  match s with
  | String c s' =>
      if decide (c = "-"%char) then
        match s' with
        | String d _ => _ ← digit d; let '(n, r) := parse_digits 0 s' in Some (JNum (- n), r)
        | "" => None
        end
      else _ ← digit c; let '(n, r) := parse_digits 0 s in Some (JNum n, r)
  | "" => None
  end.

(** [s] after the prefix [p]. *)
Fixpoint strip (p s : string) : option string :=
  match p, s with
  | "", _ => Some s
  | String a p, String b s => if decide (a = b) then strip p s else None
  | _, _ => None
  end.

Fixpoint parse_value (fuel : nat) (s : string) : option (jsval * string) :=
  match fuel with
  | 0 => None
  | S fuel =>
      match skip_ws s with
      | String c s' as s0 =>
          if decide (c = "{"%char) then
            match skip_ws s' with
            | String d r => if decide (d = "}"%char) then Some (JObj [], r)
                            else '(fs, r) ← parse_members fuel [] s'; Some (JObj fs, r)
            | "" => None
            end
          else if decide (c = "["%char) then
            match skip_ws s' with
            | String d r => if decide (d = "]"%char) then Some (JArr [], r)
                            else '(l, r) ← parse_elems fuel s'; Some (JArr l, r)
            | "" => None
            end
          else if decide (c = quote) then '(t, r) ← parse_chars s'; Some (JStr t, r)
          else if decide (c = "t"%char) then r ← strip "true" s0; Some (JBool true, r)
          else if decide (c = "f"%char) then r ← strip "false" s0; Some (JBool false, r)
          else if decide (c = "n"%char) then r ← strip "null" s0; Some (JNull, r)
          else parse_number s0
      | "" => None
      end
  end
with parse_elems (fuel : nat) (s : string) : option (list jsval * string) :=
  match fuel with
  | 0 => None
  | S fuel =>
      '(x, r) ← parse_value fuel s;
      match skip_ws r with
      | String d r =>
          if decide (d = ","%char) then '(l, r) ← parse_elems fuel r; Some (x :: l, r)
          else if decide (d = "]"%char) then Some ([x], r) else None
      | "" => None
      end
  end
with parse_members (fuel : nat) (acc : list (string * jsval)) (s : string)
    : option (list (string * jsval) * string) :=
  match fuel with
  | 0 => None
  | S fuel =>
      match skip_ws s with
      | String q r =>
          if decide (q = quote) then
            '(k, r) ← parse_chars r;
            match skip_ws r with
            | String d r =>
                if decide (d = ":"%char) then
                  '(x, r) ← parse_value fuel r;
                  let acc := obj_set acc k x in
                  match skip_ws r with
                  | String d r =>
                      if decide (d = ","%char) then parse_members fuel acc r
                      else if decide (d = "}"%char) then Some (acc, r) else None
                  | "" => None
                  end
                else None
            | "" => None
            end
          else None
      | "" => None
      end
  end.

Definition stringify (fs : list (string * jsval)) : string := print (JObj fs).

Definition parse (s : string) : thrown + jsval :=
  match parse_value (S (String.length s)) s with
  | Some (v, r) => if decide (skip_ws r = "") then inr v
                   else inl (ErrorObj "SyntaxError" "Unexpected non-whitespace character after JSON")
  | None => inl (ErrorObj "SyntaxError" "Unexpected token in JSON")
  end.

Example parse_stringify_example :
  let m := [("from", JStr "a\b"); ("sdp", JObj [("x", JNum (-12)); ("l", JArr [JBool true; JNull])]);
            ("n", JStr (String "010" ""))] in
  parse (stringify m) = inr (JObj m).
Proof. vm_compute. reflexivity. Qed.
