(* ===== verification/JsonRoundTrip.v ===== *)
(** * The codec reads back what it prints

    The text of any value is parsed, whatever follows it, as the [normal] form of
    the value: without the properties that are [undefined].  A value that JSON
    can hold ([canonical]) is its own normal form. *)
From S2P Require Import Prelude JsValue Json.
From stdpp Require Import pretty.
From Stdlib Require Import Ascii.

(** ** Strings *)

Lemma append_cons c (a b : string) : String c a +:+ b = String c (a +:+ b).
Proof. done. Qed.

Lemma append_assoc (a b c : string) : (a +:+ b) +:+ c = a +:+ (b +:+ c).
Proof. induction a as [|x a IH]; [done|]. by rewrite !append_cons, IH. Qed.

Lemma length_append (a b : string) :
  String.length (a +:+ b) = String.length a + String.length b.
Proof. induction a as [|x a IH]; [done|]. rewrite append_cons. simpl. by rewrite IH. Qed.

(** One printed character is read back. *)
Lemma parse_print_char c r :
  parse_chars (print_char c +:+ r) = '(t, r) ← parse_chars r; Some (String c t, r).
Proof. destruct c as [[] [] [] [] [] [] [] []]; reflexivity. Qed.

Lemma parse_print_chars s r :
  parse_chars (print_chars s +:+ String quote r) = Some (s, r).
Proof.
  induction s as [|c s IH]; [done|]. cbn [print_chars].
  by rewrite append_assoc, parse_print_char, IH.
Qed.

(** ** Numbers *)

(** What may follow a number. *)
Definition no_digit (r : string) : Prop :=
  match r with String c _ => digit c = None | "" => True end.

Lemma digit_char d : (d < 10)%N → digit (pretty_N_char d) = Some (N.to_nat d).
Proof.
  intros Hd. assert (d = 0 ∨ d = 1 ∨ d = 2 ∨ d = 3 ∨ d = 4 ∨ d = 5 ∨ d = 6 ∨ d = 7 ∨ d = 8 ∨ d = 9)%N
    as Hcases by lia.
  by repeat destruct Hcases as [->|Hcases]; subst.
Qed.

Lemma pretty_N_go_app x s r : pretty_N_go x s +:+ r = pretty_N_go x (s +:+ r).
Proof.
  revert s. induction (N.lt_wf_0 x) as [x _ IH]; intros s.
  destruct (decide (x = 0)%N) as [->|Hx]; [done|].
  rewrite !(pretty_N_go_step x) by lia. apply (IH (x `div` 10)%N). apply N.div_lt; lia.
Qed.

Lemma parse_pretty_N_go x :
  ∃ k, ∀ acc s, parse_digits acc (pretty_N_go x s) = parse_digits (acc * 10 ^ Z.of_nat k + Z.of_N x)%Z s.
Proof.
  induction (N.lt_wf_0 x) as [x _ IH]. destruct (decide (x = 0)%N) as [->|Hx].
  { exists 0. intros acc s. f_equal. lia. }
  destruct (IH (x `div` 10)%N) as [k Hk]; [by apply N.div_lt; lia|].
  exists (S k). intros acc s. rewrite pretty_N_go_step by lia. rewrite Hk. cbn [parse_digits].
  pose proof (N.mod_lt x 10 ltac:(done)). rewrite digit_char by done. f_equal.
  rewrite Nat2Z.inj_succ, Z.pow_succ_r by lia.
  pose proof (N.div_mod x 10 ltac:(done)). lia.
Qed.

Lemma parse_digits_stop acc r : no_digit r → parse_digits acc r = (acc, r).
Proof. destruct r as [|c r]; simpl; [done|]. by intros ->. Qed.

(** The text of a positive number starts with a digit. *)
Lemma pretty_go_head x s :
  (0 < x)%N → ∃ d s', pretty_N_go x s = String (pretty_N_char d) s' ∧ (d < 10)%N.
Proof.
  revert s. induction (N.lt_wf_0 x) as [x _ IH]; intros s Hx. rewrite pretty_N_go_step by done.
  destruct (decide (x `div` 10 = 0)%N) as [->|Hd].
  - eexists _, _. split; [done|]. by apply N.mod_lt.
  - apply IH; [by apply N.div_lt|by apply N.neq_0_lt_0].
Qed.

Lemma parse_number_pretty n r : no_digit r → parse_number (pretty n +:+ r) = Some (JNum n, r).
Proof.
  intros Hr.
  assert (∀ p, ∃ d s, pretty (N.pos p) +:+ r = String (pretty_N_char d) s ∧ (d < 10)%N ∧
    parse_digits 0 (pretty (N.pos p) +:+ r) = (Z.pos p, r)) as Hpos.
  { intros p. unfold pretty, pretty_N. rewrite decide_False by done. rewrite pretty_N_go_app.
    destruct (pretty_go_head (N.pos p) r) as (d & s & Hd & Hlt); [done|].
    exists d, s. split_and!; [done|done|]. destruct (parse_pretty_N_go (N.pos p)) as [k ->].
    rewrite parse_digits_stop by done. f_equal. }
  destruct n as [|p|p].
  - simpl. by rewrite parse_digits_stop.
  - destruct (Hpos p) as (d & s & Heq & Hd & Hp). change (pretty (Z.pos p)) with (pretty (N.pos p)).
    rewrite Heq in *. cbn [parse_number].
    assert (pretty_N_char d ≠ "-"%char) as Hne.
    { intros Hd'. pose proof (digit_char d Hd) as Hdig. by rewrite Hd' in Hdig. }
    rewrite decide_False by done. rewrite digit_char by done. unfold mbind, option_bind. by rewrite Hp.
  - destruct (Hpos p) as (d & s & Heq & Hd & Hp).
    change (pretty (Z.neg p) +:+ r) with (String "-" (pretty (N.pos p) +:+ r)).
    rewrite Heq in *. cbn [parse_number]. rewrite decide_True by done.
    rewrite digit_char by done. unfold mbind, option_bind. by rewrite Hp.
Qed.

(** ** Values *)

(** The values JSON can hold. *)
Fixpoint canonical (v : jsval) : bool :=
  match v with
  | JUndef => false
  | JArr l => forallb canonical l
  | JObj fs => bool_decide (NoDup fs.*1) && forallb (λ kv, canonical kv.2) fs
  | _ => true
  end.

Definition defined (x : jsval) : bool := match x with JUndef => false | _ => true end.

(** What is left of a value: [undefined] is [null] where a value has to be, and
    no property where it is that of a property. *)
Fixpoint normal (v : jsval) : jsval :=
  match v with
  | JUndef => JNull
  | JArr l => JArr (map normal l)
  | JObj fs => JObj (foldl (λ acc kv, if defined kv.2 then obj_set acc kv.1 (normal kv.2) else acc) [] fs)
  | _ => v
  end.

Definition set_fields (acc fs : list (string * jsval)) : list (string * jsval) :=
  foldl (λ acc kv, if defined kv.2 then obj_set acc kv.1 (normal kv.2) else acc) acc fs.

(** More fuel than any value needs. *)
Fixpoint size (v : jsval) : nat :=
  match v with
  | JArr l => foldr (λ x n, S (size x + n)) 1 l
  | JObj fs => foldr (λ kv n, if defined kv.2 then S (size kv.2 + n) else n) 1 fs
  | _ => 1
  end.

Fixpoint elems (sep : string) (l : list jsval) : string :=
  match l with
  | [] => ""
  | x :: l => sep +:+ print x +:+ elems "," l
  end.

Fixpoint members (sep : string) (fs : list (string * jsval)) : string :=
  match fs with
  | [] => ""
  | (_, JUndef) :: fs => members sep fs
  | (k, x) :: fs => sep +:+ print_string k +:+ ":" +:+ print x +:+ members "," fs
  end.

Lemma print_arr l : print (JArr l) = "[" +:+ elems "" l +:+ "]".
Proof. reflexivity. Qed.

Lemma print_obj fs : print (JObj fs) = "{" +:+ members "" fs +:+ "}".
Proof. reflexivity. Qed.

Lemma members_cons sep k x fs :
  defined x = true →
  members sep ((k, x) :: fs) = sep +:+ print_string k +:+ ":" +:+ print x +:+ members "," fs.
Proof. by destruct x. Qed.

(** The properties that are printed. *)
Definition printed (fs : list (string * jsval)) : list (string * jsval) :=
  List.filter (λ kv, defined kv.2) fs.

Lemma printed_spec fs :
  Forall (λ kv, defined kv.2 = true) (printed fs) ∧ (∀ P, Forall P fs → Forall P (printed fs)) ∧
  (∀ sep, members sep (printed fs) = members sep fs) ∧
  size (JObj (printed fs)) = size (JObj fs) ∧
  ∀ acc, set_fields acc (printed fs) = set_fields acc fs.
Proof.
  induction fs as [|[k x] fs (Hd & Hsub & Hm & Hz & Hs)]; [by split_and!; [constructor|..]|].
  change (printed ((k, x) :: fs)) with (if defined x then (k, x) :: printed fs else printed fs).
  destruct (defined x) eqn:Hx.
  - split_and!; [by constructor| | | |].
    + intros P [? ?]%Forall_cons. constructor; auto.
    + intros sep. rewrite !members_cons by done. by rewrite Hm.
    + simpl in *. by rewrite Hx, Hz.
    + intros acc. unfold set_fields in *. simpl. by rewrite Hx, Hs.
  - destruct x; try done. split_and!; [done| |done|done|done]. intros P [_ ?]%Forall_cons. auto.
Qed.

(** What the text of a value starts with. *)
Definition starts (c : ascii) : bool :=
  negb (is_ws c) && bool_decide (c ≠ "]"%char) && bool_decide (c ≠ "}"%char).

Lemma starts_digit d : (d < 10)%N → starts (pretty_N_char d) = true.
Proof.
  intros Hd. assert (d = 0 ∨ d = 1 ∨ d = 2 ∨ d = 3 ∨ d = 4 ∨ d = 5 ∨ d = 6 ∨ d = 7 ∨ d = 8 ∨ d = 9)%N
    as Hcases by lia.
  by repeat destruct Hcases as [->|Hcases]; subst.
Qed.

Lemma print_head v : ∃ c s, print v = String c s ∧ starts c = true.
Proof.
  destruct v as [| |[]|[|p|p]|s|l|fs]; try done; try (by eexists _, _).
  change (print (JNum (Z.pos p))) with (pretty (N.pos p)).
  unfold pretty, pretty_N. rewrite decide_False by done.
  destruct (pretty_go_head (N.pos p) "") as (d & s & -> & Hd); [done|].
  eexists _, _. split; [done|]. by apply starts_digit.
Qed.

Lemma starts_spec c : starts c = true → is_ws c = false ∧ c ≠ "]"%char ∧ c ≠ "}"%char.
Proof.
  unfold starts. rewrite !andb_true_iff, negb_true_iff, !bool_decide_eq_true. tauto.
Qed.

Lemma skip_ws_id c s : is_ws c = false → skip_ws (String c s) = String c s.
Proof. simpl. by intros ->. Qed.

Definition parsed (v : jsval) : Prop :=
  ∀ fuel r, size v ≤ fuel → no_digit r → parse_value fuel (print v +:+ r) = Some (normal v, r).

Lemma size_pos v : 1 ≤ size v.
Proof.
  destruct v as [| | | | |[]|fs]; simpl; try lia.
  induction fs as [|[k x] fs IH]; simpl; [lia|]. destruct (defined x); lia.
Qed.

Lemma parse_elems_print x l fuel r :
  Forall parsed (x :: l) → size (JArr (x :: l)) ≤ S fuel →
  parse_elems fuel (print x +:+ elems "," l +:+ String "]" r) = Some (map normal (x :: l), r).
Proof.
  revert x fuel. induction l as [|y l IH]; intros x fuel Hp Hf;
    apply Forall_cons in Hp as [Hx Hl];
    destruct fuel as [|fuel]; simpl in Hf; try lia; cbn [parse_elems].
  - rewrite Hx by (simpl; lia || done). done.
  - assert (no_digit (elems "," (y :: l) +:+ String "]" r)) as Hnd by done.
    rewrite Hx by (simpl; lia || done). unfold mbind, option_bind.
    cbn [elems]. rewrite !append_assoc, !append_cons.
    rewrite skip_ws_id by done. rewrite decide_True by done.
    change ("" +:+ print y +:+ elems "," l +:+ String "]" r) with
      (print y +:+ elems "," l +:+ String "]" r).
    rewrite IH; [done|done|simpl; lia].
Qed.

Lemma obj_set_fresh acc k x : k ∉ acc.*1 → obj_set acc k x = acc ++ [(k, x)].
Proof.
  induction acc as [|[k' x'] acc IH]; simpl; [done|]. intros Hk.
  rewrite decide_False by set_solver. rewrite IH by set_solver. done.
Qed.

(** Reading a property up to its value. *)
Lemma parse_member_step fuel acc k s :
  parse_members (S fuel) acc (print_string k +:+ ":" +:+ s) =
    '(x, r) ← parse_value fuel s;
    match skip_ws r with
    | String d r =>
        if decide (d = ","%char) then parse_members fuel (obj_set acc k x) r
        else if decide (d = "}"%char) then Some (obj_set acc k x, r) else None
    | "" => None
    end.
Proof.
  cbn [parse_members]. unfold print_string. rewrite append_cons, skip_ws_id by done.
  rewrite decide_True by done. rewrite append_assoc, append_cons.
  change ("" +:+ ":" +:+ s) with (String ":" s). rewrite parse_print_chars.
  unfold mbind at 1, option_bind at 1. rewrite skip_ws_id by done. by rewrite decide_True.
Qed.

Lemma parse_members_print k x fs fuel acc r :
  Forall (λ kv, parsed kv.2) ((k, x) :: fs) →
  Forall (λ kv, defined kv.2 = true) ((k, x) :: fs) → size (JObj ((k, x) :: fs)) ≤ S fuel →
  parse_members fuel acc
    (print_string k +:+ ":" +:+ print x +:+ members "," fs +:+ String "}" r) =
  Some (set_fields acc ((k, x) :: fs), r).
Proof.
  revert k x fuel acc. induction fs as [|[k2 x2] fs IH]; intros k x fuel acc Hp Hd Hf;
    apply Forall_cons in Hp as [Hx Hl]; apply Forall_cons in Hd as [Hdx Hd];
    simpl in Hx, Hdx, Hf; rewrite Hdx in Hf; pose proof (size_pos x);
    destruct fuel as [|fuel]; try lia; rewrite parse_member_step.
  - rewrite Hx by (simpl; lia || done). unfold mbind, option_bind. cbn [members].
    change ("" +:+ String "}" r) with (String "}" r). rewrite skip_ws_id by done.
    rewrite decide_False, decide_True by done. unfold set_fields. simpl. by rewrite Hdx.
  - pose proof Hd as [Hd2 _]%Forall_cons. simpl in Hd2, Hf. rewrite Hd2 in Hf.
    rewrite (members_cons _ _ _ _ Hd2), !append_assoc, append_cons.
    rewrite Hx by (simpl; lia || done). unfold mbind, option_bind.
    rewrite skip_ws_id by done. rewrite decide_True by done.
    match goal with |- parse_members _ _ ?s = _ => change s with
      (print_string k2 +:+ ":" +:+ print x2 +:+ members "," fs +:+ String "}" r) end.
    rewrite IH; [|done|done|simpl; rewrite Hd2; lia].
    unfold set_fields. simpl. by rewrite Hdx.
Qed.

(** The branches of [parse_value] by the first character. *)
Lemma parse_value_number fuel n r :
  no_digit r → parse_value (S fuel) (pretty n +:+ r) = Some (JNum n, r).
Proof.
  intros Hr. destruct (print_head (JNum n)) as (c & s & Heq & Hc).
  change (print (JNum n)) with (pretty n) in Heq.
  assert (c = "-"%char ∨ ∃ d, (d < 10)%N ∧ c = pretty_N_char d) as Hcase.
  { destruct n as [|p|p]; [right; exists 0%N; split; [done|by injection Heq]| |left; by injection Heq].
    right. change (pretty (Z.pos p)) with (pretty (N.pos p)) in Heq. revert Heq.
    unfold pretty, pretty_N. rewrite decide_False by done.
    destruct (pretty_go_head (N.pos p) "") as (d & s' & -> & Hd); [done|]. intros [= <- _]. eauto. }
  assert (c ≠ "{"%char ∧ c ≠ "["%char ∧ c ≠ quote ∧ c ≠ "t"%char ∧ c ≠ "f"%char ∧ c ≠ "n"%char)
    as (H1 & H2 & H3 & H4 & H5 & H6).
  { destruct Hcase as [->|(d & Hd & ->)]; [done|].
    assert (∀ x, digit x = None → pretty_N_char d ≠ x) as Hne
      by (intros x Hx Heq'; pose proof (digit_char d Hd) as Hdig; congruence).
    split_and!; by apply Hne. }
  apply starts_spec in Hc as (Hws & _ & _).
  pose proof (parse_number_pretty n r Hr) as Hn. rewrite Heq, append_cons in *.
  cbn [parse_value]. rewrite skip_ws_id by done. rewrite !decide_False by done. exact Hn.
Qed.

Lemma parse_value_array fuel c s r :
  starts c = true →
  parse_value (S fuel) ("[" +:+ String c s +:+ r) =
    '(l, r) ← parse_elems fuel (String c s +:+ r); Some (JArr l, r).
Proof.
  intros (Hws & Hb & _)%starts_spec. cbn [parse_value]. rewrite append_cons, skip_ws_id by done.
  rewrite decide_False, decide_True by done.
  change ("" +:+ String c s +:+ r) with (String c (s +:+ r)).
  rewrite skip_ws_id by done. by rewrite decide_False.
Qed.

Lemma parse_value_object fuel k s :
  parse_value (S fuel) ("{" +:+ print_string k +:+ s) =
    '(fs, r) ← parse_members fuel [] (print_string k +:+ s); Some (JObj fs, r).
Proof. done. Qed.

Lemma parse_print_normal v : parsed v.
Proof.
  induction v as [| |b|n|s|l IH|fs IH] using jsval_nested_ind; intros fuel r Hf Hr;
    (match type of Hf with size ?v ≤ _ => pose proof (size_pos v) end;
     destruct fuel as [|fuel]; [lia|]).
  - done.
  - done.
  - by destruct b.
  - by apply parse_value_number.
  - change (print (JStr s)) with (print_string s). unfold print_string.
    rewrite append_cons, append_assoc, append_cons.
    change ("" +:+ r) with r. cbn [parse_value]. rewrite skip_ws_id by done.
    do 2 rewrite decide_False by done. rewrite decide_True by done. by rewrite parse_print_chars.
  - rewrite print_arr. destruct l as [|x l]; [done|].
    destruct (print_head x) as (c & s & Hpx & Hs). cbn [elems]. rewrite !append_assoc.
    change ("]" +:+ r) with (String "]" r).
    change ("" +:+ print x +:+ elems "," l +:+ String "]" r) with
      (print x +:+ elems "," l +:+ String "]" r).
    pose proof (parse_elems_print x l fuel r IH) as He. rewrite Hpx in *.
    rewrite parse_value_array by done. rewrite He; [done|]. simpl in *. lia.
  - rewrite print_obj. destruct (printed_spec fs) as (Hd & Hsub & Hm & Hz & Hset).
    change (normal (JObj fs)) with (JObj (set_fields [] fs)). rewrite <-Hm, <-Hset. rewrite <-Hz in Hf.
    assert (Forall (λ kv, parsed kv.2) (printed fs)) as Hp by auto.
    destruct (printed fs) as [|[k x] gs]; [done|].
    pose proof Hd as [Hdx _]%Forall_cons. rewrite members_cons by done. rewrite !append_assoc.
    change ("}" +:+ r) with (String "}" r).
    match goal with |- parse_value _ ("{" +:+ ?s) = _ => change s with
      (print_string k +:+ ":" +:+ print x +:+ members "," gs +:+ String "}" r) end.
    rewrite parse_value_object, parse_members_print; [done|done|done|]. simpl in *. lia.
Qed.

(** A value that JSON can hold is its own normal form. *)
Lemma set_fields_fresh acc fs :
  Forall (λ kv, defined kv.2 = true ∧ normal kv.2 = kv.2) fs → NoDup (acc.*1 ++ fs.*1) →
  set_fields acc fs = acc ++ fs.
Proof.
  revert acc. induction fs as [|[k x] fs IH]; intros acc Hf Hnd; [by rewrite app_nil_r|].
  apply Forall_cons in Hf as [[Hd Hn] Hf]. simpl in *. unfold set_fields. simpl. rewrite Hd, Hn.
  rewrite obj_set_fresh.
  - change (set_fields (acc ++ [(k, x)]) fs = acc ++ (k, x) :: fs).
    rewrite IH; [by rewrite <-app_assoc|done|]. by rewrite fmap_app, <-app_assoc.
  - apply NoDup_app in Hnd as (_ & Hdis & _). intros Hk. by apply (Hdis k Hk); left.
Qed.

Lemma normal_canonical v : canonical v = true → normal v = v.
Proof.
  induction v as [| |b|n|s|l IH|fs IH] using jsval_nested_ind; intros Hc; try done; simpl in Hc.
  - simpl. f_equal.
    induction IH as [|x l Hx _ IHl]; [done|]. simpl in *. apply andb_true_iff in Hc as [? ?].
    by rewrite Hx, IHl.
  - apply andb_true_iff in Hc as [Hnd%bool_decide_eq_true Hc].
    change (normal (JObj fs)) with (JObj (set_fields [] fs)). f_equal.
    apply (set_fields_fresh [] fs); [|done]. clear Hnd.
    induction IH as [|[k x] fs Hx _ IHfs]; [constructor|]. simpl in *.
    apply andb_true_iff in Hc as [Hcx Hc]. constructor; [|by apply IHfs]. simpl.
    split; [by destruct x|auto].
Qed.

(** ** The codec *)

Lemma size_elems l :
  Forall (λ x, size x ≤ String.length (print x)) l →
  foldr (λ x n, S (size x + n)) 1 l ≤ S (String.length (elems "," l)).
Proof.
  induction 1 as [|x l Hx _ IH]; simpl; [lia|]. rewrite !length_append. simpl. lia.
Qed.

Lemma size_members fs :
  Forall (λ kv, size kv.2 ≤ String.length (print kv.2)) fs →
  size (JObj fs) ≤ S (String.length (members "," fs)).
Proof.
  induction 1 as [|[k x] fs Hx _ IH]; [simpl; lia|]. simpl in *.
  destruct (defined x) eqn:Hd; [|by destruct x].
  pose proof (members_cons "," k x fs Hd) as Hm. simpl in Hm. rewrite Hm.
  rewrite !length_append. simpl in *. lia.
Qed.

Lemma size_length v : size v ≤ String.length (print v).
Proof.
  induction v as [| |[]|n|s|l IH|fs IH] using jsval_nested_ind; try (simpl; lia).
  - destruct (print_head (JNum n)) as (c & s & -> & _). simpl. lia.
  - rewrite print_arr, !length_append. destruct l as [|x l]; [simpl; lia|].
    apply Forall_cons in IH as [Hx Hl]. pose proof (size_elems l Hl). cbn [elems].
    rewrite !length_append. simpl in *. lia.
  - rewrite print_obj, !length_append. destruct (printed_spec fs) as (Hd & Hsub & Hm & Hz & _).
    rewrite <-Hm, <-Hz.
    assert (Forall (λ kv, size kv.2 ≤ String.length (print kv.2)) (printed fs)) as Hp
      by auto.
    destruct (printed fs) as [|[k x] gs]; [simpl; lia|].
    apply Forall_cons in Hp as [Hx Hl]. pose proof Hd as [Hdx _]%Forall_cons.
    pose proof (size_members gs Hl). rewrite members_cons, !length_append by done.
    simpl in *. rewrite Hdx. lia.
Qed.

(** What is printed is parsed, up to what JSON leaves out. *)
Lemma parse_print_any v : parse (print v) = inr (normal v).
Proof.
  unfold parse. pose proof (size_length v).
  pose proof (parse_print_normal v (S (String.length (print v))) "") as Hp.
  assert (print v +:+ "" = print v) as Hnil.
  { generalize (print v). intros s. induction s as [|c s IH]; [done|]. by rewrite append_cons, IH. }
  rewrite Hnil in Hp. by rewrite Hp by (done || lia).
Qed.

Lemma parse_print_value v : canonical v = true → parse (print v) = inr v.
Proof. intros Hc. by rewrite parse_print_any, normal_canonical. Qed.

(** A property of an object whose value JSON can hold is one of its text's value. *)
Lemma set_fields_other acc fs k : k ∉ fs.*1 → obj_get (set_fields acc fs) k = obj_get acc k.
Proof.
  revert acc. induction fs as [|[k' x] fs IH]; intros acc Hk; [done|]. unfold set_fields. simpl.
  change (obj_get (set_fields (if defined x then obj_set acc k' (normal x) else acc) fs) k = obj_get acc k).
  rewrite IH by set_solver. destruct (defined x); [|done]. apply obj_get_set_ne. set_solver.
Qed.

Lemma set_fields_canonical acc fs k x :
  NoDup fs.*1 → obj_get fs k = x → canonical x = true → obj_get (set_fields acc fs) k = x.
Proof.
  intros Hnd Hx Hc. revert acc Hnd Hx. induction fs as [|[k' x'] fs IH]; intros acc Hnd Hx; [by subst|].
  apply NoDup_cons in Hnd as [Hk Hnd]. unfold set_fields. simpl.
  change (obj_get (set_fields (if defined x' then obj_set acc k' (normal x') else acc) fs) k = x).
  simpl in Hx. case_decide as Heq; [|by apply IH]. subst.
  rewrite normal_canonical by done. assert (defined x = true) as -> by by destruct x.
  rewrite set_fields_other by done. apply obj_get_set_eq.
Qed.
