(* ===== verification/WebrtcConstants.v ===== *)
(** * The constants of [webrtc-constants.ts] *)
From S2P Require Import Prelude JsValue.

Record SignalingServerConfig := {
  DEFAULT_PORT : Z;
  WS_PATH : string;
  DEFAULT_HOST : string;
}.

Definition SIGNALING_SERVER : SignalingServerConfig :=
  {| DEFAULT_PORT := 8080; WS_PATH := "/ws"; DEFAULT_HOST := "localhost" |}.

Definition ICE_SERVERS : list jsval :=
  [ JObj [("urls", JStr "stun:stun.l.google.com:19302")];
    JObj [("urls", JStr "stun:stun1.l.google.com:19302")] ].

Definition RTC_CONFIGURATION : jsval := JObj [("iceServers", JArr ICE_SERVERS)].

Definition MEDIA_CONSTRAINTS : jsval := JObj [("video", JBool true); ("audio", JBool true)].

Record MessageTypes := { WELCOME : string; OFFER : string; ANSWER : string; CANDIDATE : string }.

Definition MESSAGE_TYPES : MessageTypes :=
  {| WELCOME := "welcome"; OFFER := "offer"; ANSWER := "answer"; CANDIDATE := "candidate" |}.

Record ConnectionStates :=
  { CONNECTED : string; CONNECTING : string; DISCONNECTED : string; FAILED : string }.

Definition CONNECTION_STATES : ConnectionStates :=
  {| CONNECTED := "connected"; CONNECTING := "connecting";
     DISCONNECTED := "disconnected"; FAILED := "failed" |}.

Record SignalingStates := { STABLE : string }.

Definition SIGNALING_STATES : SignalingStates := {| STABLE := "stable" |}.
