(* ===== verification/SignalingTypes.v ===== *)
(** * The messages of the signaling protocol ([types/signaling.ts])

    [SignalingMessage] is the union type of the interfaces and [encode] the
    object each of its members is.  The type guards run on what [JSON.parse]
    returned, which nothing has checked: they are functions of an arbitrary
    value, and reading [type] of [null] throws. *)
From S2P Require Import Prelude JsValue.

Inductive MessageType := MtWelcome | MtOffer | MtAnswer | MtCandidate.

Definition MessageType_string (t : MessageType) : string :=
  match t with
  | MtWelcome => "welcome" | MtOffer => "offer"
  | MtAnswer => "answer" | MtCandidate => "candidate"
  end.

#[global] Instance MessageType_eq_dec : EqDecision MessageType.
Proof. solve_decision. Defined.

Inductive SignalingMessage :=
| WelcomeMessage (id : string)
| SDPOfferMessage (from to : string) (sdp : jsval)
| SDPAnswerMessage (from to : string) (sdp : jsval)
| ICECandidateMessage (from to : string) (candidate : jsval).

Definition message_type (m : SignalingMessage) : MessageType :=
  match m with
  | WelcomeMessage _ => MtWelcome
  | SDPOfferMessage _ _ _ => MtOffer
  | SDPAnswerMessage _ _ _ => MtAnswer
  | ICECandidateMessage _ _ _ => MtCandidate
  end.

Definition encode (m : SignalingMessage) : jsval :=
  JObj match m with
  | WelcomeMessage id => [("type", JStr "welcome"); ("id", JStr id)]
  | SDPOfferMessage from to sdp =>
      [("from", JStr from); ("to", JStr to); ("sdp", sdp); ("type", JStr "offer")]
  | SDPAnswerMessage from to sdp =>
      [("from", JStr from); ("to", JStr to); ("sdp", sdp); ("type", JStr "answer")]
  | ICECandidateMessage from to c =>
      [("from", JStr from); ("to", JStr to); ("candidate", c); ("type", JStr "candidate")]
  end.

(** [OutgoingMessage]: everything but the welcome. *)
Definition is_outgoing (m : SignalingMessage) : bool :=
  match m with WelcomeMessage _ => false | _ => true end.

(** [message.type === t] *)
Definition type_is (message : jsval) (t : string) : thrown + bool :=
  v ← get_prop message "type"; mret (is_str v t).

Definition isWelcomeMessage (message : jsval) : thrown + bool := type_is message "welcome".

Definition isSDPMessage (message : jsval) : thrown + bool :=
  b ← type_is message "offer";
  if b : bool then mret true else type_is message "answer".

Definition isOfferMessage (message : jsval) : thrown + bool := type_is message "offer".

Definition isAnswerMessage (message : jsval) : thrown + bool := type_is message "answer".

Definition isICECandidateMessage (message : jsval) : thrown + bool :=
  type_is message "candidate".

(** ** Properties *)

(** A value a guard can read [type] of. *)
Definition readable (v : jsval) : bool :=
  match v with JUndef | JNull => false | _ => true end.

Lemma type_is_readable v t :
  readable v = true → type_is v t = inr (is_str (field v "type") t).
Proof. by destruct v. Qed.

Lemma get_prop_readable v k : readable v = true → get_prop v k = inr (field v k).
Proof. by destruct v. Qed.

(** On a member of the union each guard tells its member apart; an SDP message
    is an offer or an answer. *)
Theorem guards_decide_message m :
  isWelcomeMessage (encode m) = inr (bool_decide (message_type m = MtWelcome)) ∧
  isOfferMessage (encode m) = inr (bool_decide (message_type m = MtOffer)) ∧
  isAnswerMessage (encode m) = inr (bool_decide (message_type m = MtAnswer)) ∧
  isICECandidateMessage (encode m) = inr (bool_decide (message_type m = MtCandidate)) ∧
  isSDPMessage (encode m) =
    inr (bool_decide (message_type m = MtOffer ∨ message_type m = MtAnswer)).
Proof. by destruct m. Qed.

(** On any value that was received: the guards throw on [null] and
    [undefined]; otherwise they are decided by the [type] property, at most
    one of the four basic guards accepts, and [isSDPMessage] accepts exactly
    what one of [isOfferMessage] and [isAnswerMessage] accepts. *)
Theorem guards_on_received v :
  if readable v then
    ∃ w o a c : bool,
      isWelcomeMessage v = inr w ∧ isOfferMessage v = inr o ∧
      isAnswerMessage v = inr a ∧ isICECandidateMessage v = inr c ∧
      isSDPMessage v = inr (o || a) ∧
      length (filter Is_true [w; o; a; c]) ≤ 1
  else
    ∀ guard, guard ∈ [isWelcomeMessage; isOfferMessage; isAnswerMessage;
                      isICECandidateMessage; isSDPMessage] →
      ∃ msg, guard v = inl (TypeError msg).
Proof.
  destruct (readable v) eqn:Hr.
  - exists (is_str (field v "type") "welcome"), (is_str (field v "type") "offer"),
      (is_str (field v "type") "answer"), (is_str (field v "type") "candidate").
    unfold isWelcomeMessage, isOfferMessage, isAnswerMessage, isICECandidateMessage, isSDPMessage.
    rewrite !type_is_readable by done. split_and!; try done.
    + cbn. by destruct (is_str _ "offer").
    + unfold is_str. repeat case_bool_decide; simpl; first [lia|congruence].
  - intros guard Hg. repeat (apply elem_of_cons in Hg as [->|Hg]; [destruct v; try done; by eexists|]).
    by apply not_elem_of_nil in Hg.
Qed.
