(* ===== verification/WebrtcTypes.v ===== *)
(** * The WebRTC state types of [types/webrtc.ts] *)
From S2P Require Import Prelude.

(** [RTCIceConnectionState] *)
Inductive ConnectionState :=
| CsNew | CsChecking | CsConnected | CsCompleted | CsFailed | CsDisconnected | CsClosed.

(** [RTCSignalingState] *)
Inductive SignalingState :=
| SsStable | SsHaveLocalOffer | SsHaveRemoteOffer
| SsHaveLocalPranswer | SsHaveRemotePranswer | SsClosed.

(** [RTCIceGatheringState] *)
Inductive IceGatheringState := GsNew | GsGathering | GsComplete.

#[global] Instance ConnectionState_eq_dec : EqDecision ConnectionState.
Proof. solve_decision. Defined.
#[global] Instance SignalingState_eq_dec : EqDecision SignalingState.
Proof. solve_decision. Defined.

Definition ConnectionState_string (s : ConnectionState) : string :=
  match s with
  | CsNew => "new" | CsChecking => "checking" | CsConnected => "connected"
  | CsCompleted => "completed" | CsFailed => "failed"
  | CsDisconnected => "disconnected" | CsClosed => "closed"
  end.

Definition SignalingState_string (s : SignalingState) : string :=
  match s with
  | SsStable => "stable" | SsHaveLocalOffer => "have-local-offer"
  | SsHaveRemoteOffer => "have-remote-offer" | SsHaveLocalPranswer => "have-local-pranswer"
  | SsHaveRemotePranswer => "have-remote-pranswer" | SsClosed => "closed"
  end.

Record PeerInfo := {
  peer_id : string;
  connectionState : ConnectionState;
  signalingState : SignalingState;
}.

Record MediaStreamInfo := {
  info_id : string;
  hasVideo : bool;
  hasAudio : bool;
  active : bool;
}.

(** [WebRTCConfig] and [MediaDeviceConstraints], over the browser's own types. *)
Record WebRTCConfig (RTCIceServer RTCIceTransportPolicy RTCBundlePolicy : Type) := {
  iceServers : list RTCIceServer;
  iceTransportPolicy : option RTCIceTransportPolicy;
  bundlePolicy : option RTCBundlePolicy;
}.

Record MediaDeviceConstraints (MediaTrackConstraints : Type) := {
  video_constraint : bool + MediaTrackConstraints;
  audio_constraint : bool + MediaTrackConstraints;
}.

(** The predicates compare the state's string, as the source does. *)
Definition isConnecting (state : ConnectionState) : bool :=
  bool_decide (ConnectionState_string state = "new") ||
  bool_decide (ConnectionState_string state = "checking").

Definition isConnected (state : ConnectionState) : bool :=
  bool_decide (ConnectionState_string state = "connected") ||
  bool_decide (ConnectionState_string state = "completed").

Definition isDisconnected (state : ConnectionState) : bool :=
  bool_decide (ConnectionState_string state = "disconnected") ||
  bool_decide (ConnectionState_string state = "failed") ||
  bool_decide (ConnectionState_string state = "closed").

Definition isStable (state : SignalingState) : bool :=
  bool_decide (SignalingState_string state = "stable").

(** The three predicates partition the connection states: every state is
    exactly one of connecting, connected and disconnected. *)
Theorem connection_states_partition s :
  length (filter Is_true [isConnecting s; isConnected s; isDisconnected s]) = 1.
Proof. by destruct s. Qed.

Lemma SignalingState_string_inj s s' :
  SignalingState_string s = SignalingState_string s' → s = s'.
Proof. by destruct s, s'. Qed.
