(* ===== verification/Async.v ===== *)
(** * Asynchronous JavaScript code as a resumption monad

    A computation runs atomically on the state of the page until it returns,
    throws, or reaches an [await]; an awaiting computation is a value that
    holds the promise it waits for and its continuation, so that other
    handlers of the page can run before it is resumed. *)
From S2P Require Import Prelude.

Declare Scope js_scope.
Delimit Scope js_scope with js.

Section Monad.
(** [St] is the state of the page, [Exn] the values that can be thrown,
    [Req] the operations that return a promise and [Reply r] what the
    promise of [r] resolves with. *)
Context {St Exn Req : Type} {Reply : Req → Type}.

#[warnings="-register-all"]
Inductive Outcome (A : Type) : Type :=
| Returned (a : A)
| Threw (e : Exn)
| Awaiting (r : Req) (k : Exn + Reply r → St → St * Outcome A).

Definition JS (A : Type) : Type := St → St * Outcome A.

End Monad.
Arguments Outcome St {Exn Req} Reply A.
Arguments JS St {Exn Req} Reply A.
Arguments Returned {St Exn Req Reply A} a.
Arguments Threw {St Exn Req Reply A} e.
Arguments Awaiting {St Exn Req Reply A} r k.

Section Operations.
Context {St Exn Req : Type} {Reply : Req → Type}.
Local Abbreviation Out := (@Outcome St Exn Req Reply).
Local Abbreviation M := (@JS St Exn Req Reply).

(** Induction over the awaits of a computation. *)
Definition Outcome_resume_ind {A} (P : Out A → Prop)
    (HR : ∀ a, P (Returned a)) (HT : ∀ e, P (Threw e))
    (HA : ∀ r k, (∀ v s, P (snd (k v s))) → P (Awaiting r k)) : ∀ o, P o :=
  fix go o := match o with
  | Returned a => HR a
  | Threw e => HT e
  | Awaiting r k => HA r k (λ v s,
      match k v s as p return P (snd p) with (_, o') => go o' end)
  end.

Definition ret {A} (a : A) : M A := λ s, (s, Returned a).

Definition throw {A} (e : Exn) : M A := λ s, (s, Threw e).

(** [await] on the promise of [r]: resumed with the value it resolves with,
    or throwing the reason it is rejected with. *)
Definition await (r : Req) : M (Reply r) := λ s,
  (s, Awaiting r (λ v s', match v with
                          | inr x => (s', Returned x)
                          | inl e => (s', Threw e)
                          end)).

Fixpoint bind_out {A B} (f : A → M B) (s : St) (o : Out A) : St * Out B :=
  match o with
  | Returned a => f a s
  | Threw e => (s, Threw e)
  | Awaiting r k => (s, Awaiting r (λ v s',
      match k v s' with (s'', o') => bind_out f s'' o' end))
  end.

Definition bind {A B} (m : M A) (f : A → M B) : M B := λ s,
  match m s with (s', o) => bind_out f s' o end.

(** [try { m } catch (e) { h e }] *)
Fixpoint catch_out {A} (h : Exn → M A) (s : St) (o : Out A) : St * Out A :=
  match o with
  | Returned a => (s, Returned a)
  | Threw e => h e s
  | Awaiting r k => (s, Awaiting r (λ v s',
      match k v s' with (s'', o') => catch_out h s'' o' end))
  end.

Definition try_catch {A} (m : M A) (h : Exn → M A) : M A := λ s,
  match m s with (s', o) => catch_out h s' o end.

(** Calling an [async] function without awaiting it: the call runs up to the
    first [await] and returns the promise. *)
Definition start {A} (m : M A) : M (Out A) := λ s,
  match m s with (s', o) => (s', Returned o) end.

Definition gets {X} (f : St → X) : M X := λ s, (s, Returned (f s)).
Definition modify (f : St → St) : M unit := λ s, (f s, Returned tt).

(** A synchronous operation of the browser that may throw. *)
Definition sync {X} (f : St → Exn + St * X) : M X := λ s,
  match f s with
  | inl e => (s, Threw e)
  | inr (s', x) => (s', Returned x)
  end.

(** Settle the promise a suspended computation waits for. *)
Definition resume {A} (f : ∀ r, Exn + Reply r) (o : Out A) (s : St) : option (St * Out A) :=
  match o with
  | Awaiting r k => Some (k (f r) s)
  | _ => None
  end.

(** The first step of a sequence that returned. *)
Lemma bind_returned {A B} (m : M A) (f : A → M B) s s' a :
  m s = (s', Returned a) → bind m f s = f a s'.
Proof. unfold bind. by intros ->. Qed.

Lemma start_run {A} (m : M A) s s' o : m s = (s', o) → start m s = (s', Returned o).
Proof. unfold start. by intros ->. Qed.
End Operations.

Notation "x <- m ;; f" := (bind m (λ x, f))
  (at level 20, m at level 99, f at level 200, right associativity,
   format "x  <-  m  ;;  '/' f") : js_scope.
Notation "m ;; f" := (bind m (λ _, f)) (at level 100, f at level 200, right associativity) : js_scope.
Notation "'if!' b 'then' m" := (if b then m else ret tt)
  (at level 95, b at level 80, m at level 95) : js_scope.
Open Scope js_scope.

(** [forEach] on an array *)
Fixpoint forEach {St Exn Req Reply A} (f : A → @JS St Exn Req Reply unit) (l : list A)
    : @JS St Exn Req Reply unit :=
  match l with
  | [] => ret tt
  | x :: l => f x ;; forEach f l
  end.

(** ** A rely-guarantee logic for interleaved computations

    [I] is an invariant of the page's state, [rely] what the other handlers
    may do to the state while this computation awaits, and [guar] what its own
    atomic steps do.  [wp m Q E s]: run from [s], the computation [m] keeps [I]
    and respects [guar] at every atomic step, and it ends in [Q] when it
    returns and in [E] when it throws. *)
Class RelyGuarantee {St} (rely guar : relation St) : Prop := {
  rely_preorder :: PreOrder rely;
  guar_preorder :: PreOrder guar;
  guar_rely s s' : guar s s' → rely s s';
}.

Section Logic.
Context {St Exn Req : Type} {Reply : Req → Type}.
Local Abbreviation Out := (@Outcome St Exn Req Reply).
Local Abbreviation M := (@JS St Exn Req Reply).
Context (I : St → Prop) (rely guar : relation St) `{!RelyGuarantee rely guar}.

Fixpoint out_ok {A} (Q : A → St → Prop) (E : Exn → St → Prop) (s : St) (o : Out A) : Prop :=
  match o with
  | Returned a => Q a s
  | Threw e => E e s
  | Awaiting r k => ∀ v s', rely s s' → I s' →
      match k v s' with
      | (s'', o') => I s'' ∧ guar s' s'' ∧ out_ok Q E s'' o'
      end
  end.

Definition wp {A} (m : M A) (Q : A → St → Prop) (E : Exn → St → Prop) (s : St) : Prop :=
  match m s with (s', o) => I s' ∧ guar s s' ∧ out_ok Q E s' o end.

(** A promise nobody awaits: its later steps keep [I] and respect [guar]. *)
Definition promise_ok {A} (s : St) (o : Out A) : Prop :=
  out_ok (λ _ _, True) (λ _ _, True) s o.

Lemma out_ok_mono {A} (Q Q' : A → St → Prop) (E E' : Exn → St → Prop) s o :
  I s → out_ok Q E s o →
  (∀ a s, I s → Q a s → Q' a s) → (∀ e s, I s → E e s → E' e s) → out_ok Q' E' s o.
Proof.
  intros HI H HQ HE. revert s HI H.
  induction o as [a|e|r k IH] using Outcome_resume_ind; simpl; auto.
  intros s HI H v s' Hle HI'. specialize (H v s' Hle HI'). specialize (IH v s').
  destruct (k v s') as [s'' o'], H as (? & ? & ?). auto.
Qed.

Lemma wp_mono {A} (m : M A) (Q Q' : A → St → Prop) (E E' : Exn → St → Prop) s :
  wp m Q E s →
  (∀ a s, I s → Q a s → Q' a s) → (∀ e s, I s → E e s → E' e s) → wp m Q' E' s.
Proof. unfold wp. destruct (m s). intros (? & ? & ?) ? ?. eauto using out_ok_mono. Qed.

Lemma promise_ok_later {A} s s' (o : Out A) : rely s s' → promise_ok s o → promise_ok s' o.
Proof.
  destruct o; simpl; auto. intros Hle H v s'' ? ?. apply H; auto. by etrans.
Qed.

Lemma wp_ret {A} (a : A) Q E s : I s → Q a s → wp (ret a) Q E s.
Proof. done. Qed.

Lemma wp_throw {A} e (Q : A → _) (E : Exn → _) s : I s → E e s → wp (throw e) Q E s.
Proof. done. Qed.

(** The step from [s] to [s'] composed with what [f] does next. *)
Lemma after_step {A} (p : St * Out A) (Q : A → _) (E : Exn → _) s s' :
  guar s s' →
  match p with (s'', o) => I s'' ∧ guar s' s'' ∧ out_ok Q E s'' o end →
  match p with (s'', o) => I s'' ∧ guar s s'' ∧ out_ok Q E s'' o end.
Proof. destruct p. intros ? (? & ? & ?). split_and!; [done|by etrans|done]. Qed.

Lemma bind_out_ok {A B} (f : A → M B) Q E o s :
  I s → out_ok (λ a s', wp (f a) Q E s') E s o →
  match bind_out f s o with (s', o') => I s' ∧ guar s s' ∧ out_ok Q E s' o' end.
Proof.
  revert s. induction o as [a|e|r k IH] using Outcome_resume_ind; simpl; intros s HI H;
    [done|done|].
  split_and!; [done..|]. intros v s' Hle HI'. specialize (H v s' Hle HI'). specialize (IH v s').
  destruct (k v s') as [s'' o']; simpl in *. destruct H as (HI'' & Hle' & Ho).
  apply (after_step _ _ _ s' s''); [done|by apply IH].
Qed.

Lemma wp_bind {A B} (m : M A) (f : A → M B) Q E s :
  wp m (λ a s', wp (f a) Q E s') E s → wp (bind m f) Q E s.
Proof.
  unfold wp at 1, bind. unfold wp. destruct (m s) as [s' o]. intros (HI & Hle & Ho).
  apply (after_step _ _ _ s s'); [done|by apply bind_out_ok].
Qed.

Lemma catch_out_ok {A} (h : Exn → M A) Q E o s :
  I s → out_ok Q (λ e s', wp (h e) Q E s') s o →
  match catch_out h s o with (s', o') => I s' ∧ guar s s' ∧ out_ok Q E s' o' end.
Proof.
  revert s. induction o as [a|e|r k IH] using Outcome_resume_ind; simpl; intros s HI H;
    [done|done|].
  split_and!; [done..|]. intros v s' Hle HI'. specialize (H v s' Hle HI'). specialize (IH v s').
  destruct (k v s') as [s'' o']; simpl in *. destruct H as (HI'' & Hle' & Ho).
  apply (after_step _ _ _ s' s''); [done|by apply IH].
Qed.

Lemma wp_try {A} (m : M A) h Q E s :
  wp m Q (λ e s', wp (h e) Q E s') s → wp (try_catch m h) Q E s.
Proof.
  unfold wp at 1, try_catch. unfold wp. destruct (m s) as [s' o]. intros (HI & Hle & Ho).
  apply (after_step _ _ _ s s'); [done|by apply catch_out_ok].
Qed.

Lemma wp_await r (Q : Reply r → _) (E : Exn → _) s :
  I s →
  (∀ s', rely s s' → I s' → (∀ x, Q x s') ∧ (∀ e, E e s')) →
  wp (await r) Q E s.
Proof.
  intros HI H. split_and!; [done..|]. intros v s' Hle HI'.
  destruct (H s' Hle HI'). destruct v; (split_and!; [done|reflexivity|simpl; auto]).
Qed.

Lemma wp_gets {X} (f : St → X) (Q : X → _) E s : I s → Q (f s) s → wp (gets f) Q E s.
Proof. done. Qed.

Lemma wp_modify f (Q : unit → _) E s :
  I (f s) → guar s (f s) → Q tt (f s) → wp (modify f) Q E s.
Proof. done. Qed.

Lemma wp_sync {X} (f : St → Exn + St * X) (Q : X → _) (E : Exn → _) s :
  I s →
  (∀ e, f s = inl e → E e s) →
  (∀ s' x, f s = inr (s', x) → I s' ∧ guar s s' ∧ Q x s') →
  wp (sync f) Q E s.
Proof.
  intros HI HE HQ. unfold wp, sync. destruct (f s) as [e|[s' x]] eqn:Hf; simpl.
  - split_and!; [done|reflexivity|auto].
  - by apply HQ.
Qed.

Lemma wp_start {A} (m : M A) Q E s :
  wp m (λ _ _, True) (λ _ _, True) s →
  (∀ o s', I s' → guar s s' → promise_ok s' o → Q o s') →
  wp (start m) Q E s.
Proof.
  unfold wp, start. destruct (m s) as [s' o]. intros (? & ? & ?) HQ. simpl.
  split_and!; auto.
Qed.

Lemma wp_forEach {A} (f : A → M unit) l (P : list A → St → Prop) E s :
  P l s →
  I s →
  (∀ x l s, I s → P (x :: l) s → wp (f x) (λ _ s', P l s') E s) →
  wp (forEach f l) (λ _ s', P [] s') E s.
Proof.
  intros HP HI Hf. revert s HP HI. induction l as [|x l IH]; intros s HP HI; [done|].
  apply wp_bind. eapply wp_mono; [exact (Hf x l s HI HP)| |done]. auto.
Qed.

(** Resuming a promise that is fine keeps [I] and leaves it fine. *)
Lemma promise_ok_resume {A} (f : ∀ r, Exn + Reply r) s (o : Out A) s' o' :
  I s → promise_ok s o → resume f o s = Some (s', o') →
  I s' ∧ guar s s' ∧ promise_ok s' o'.
Proof.
  destruct o as [| |r k]; simpl; [done..|]. intros HI Hok [= Hk].
  specialize (Hok (f r) s (reflexivity s) HI). by rewrite Hk in Hok.
Qed.

(** ** Computations that keep the invariant wherever they run *)

Definition safe {A} (m : M A) : Prop := ∀ s, I s → wp m (λ _ _, True) (λ _ _, True) s.

Lemma safe_ret {A} (a : A) : safe (ret a).
Proof. intros s HI. by apply wp_ret. Qed.

Lemma safe_bind {A B} (m : M A) (f : A → M B) : safe m → (∀ a, safe (f a)) → safe (bind m f).
Proof.
  intros Hm Hf s HI. apply wp_bind. eapply wp_mono; [by apply Hm| |done].
  intros a s' HI' _. by apply Hf.
Qed.

Lemma safe_try {A} (m : M A) h : safe m → (∀ e, safe (h e)) → safe (try_catch m h).
Proof.
  intros Hm Hh s HI. apply wp_try. eapply wp_mono; [by apply Hm|done|].
  intros e s' HI' _. by apply Hh.
Qed.

Lemma safe_gets {X} (f : St → X) : safe (gets f).
Proof. intros s HI. by apply wp_gets. Qed.

Lemma safe_await r : safe (await r).
Proof. intros s HI. by apply wp_await. Qed.

Lemma safe_modify f : (∀ s, I s → I (f s) ∧ guar s (f s)) → safe (modify f).
Proof. intros Hf s HI. destruct (Hf s HI). by apply wp_modify. Qed.

Lemma safe_sync {X} (f : St → Exn + St * X) :
  (∀ s s' x, I s → f s = inr (s', x) → I s' ∧ guar s s') → safe (sync f).
Proof.
  intros Hf s HI. apply wp_sync; [done|done|]. intros s' x Heq.
  destruct (Hf s s' x HI Heq). auto.
Qed.

Lemma safe_forEach {A} (f : A → M unit) l : (∀ x, safe (f x)) → safe (forEach f l).
Proof. intros Hf. induction l as [|x l IH]; [apply safe_ret|]. by apply safe_bind. Qed.
End Logic.

(** The relation that says nothing. *)
Definition anything {St} : relation St := λ _ _, True.

#[global] Instance anything_preorder {St} : PreOrder (@anything St).
Proof. by split. Qed.

Lemma anything_guarantee {St} (guar : relation St) (Hg : PreOrder guar) :
  RelyGuarantee anything guar.
Proof. by split; [apply _..|]. Qed.

(** ** Code without awaits

    [runs m Q E s]: from [s] the computation ends without suspending, in [Q]
    when it returns and in [E] when it throws. *)
Section Synchronous.
Context {St Exn Req : Type} {Reply : Req → Type}.
Local Abbreviation M := (@JS St Exn Req Reply).

Definition runs {A} (m : M A) (Q : A → St → Prop) (E : Exn → St → Prop) (s : St) : Prop :=
  match m s with
  | (s', Returned a) => Q a s'
  | (s', Threw e) => E e s'
  | (_, Awaiting _ _) => False
  end.

Lemma runs_mono {A} (m : M A) (Q Q' : A → St → Prop) (E E' : Exn → St → Prop) s :
  runs m Q E s → (∀ a s, Q a s → Q' a s) → (∀ e s, E e s → E' e s) → runs m Q' E' s.
Proof. unfold runs. destruct (m s) as [s' []]; auto. Qed.

Lemma runs_ret {A} (a : A) (Q : A → _) (E : Exn → _) s : Q a s → runs (ret a) Q E s.
Proof. done. Qed.

Lemma runs_bind {A B} (m : M A) (f : A → M B) Q E s :
  runs m (λ a s', runs (f a) Q E s') E s → runs (bind m f) Q E s.
Proof. unfold runs, bind. by destruct (m s) as [s' []]. Qed.

Lemma runs_try {A} (m : M A) h Q E s :
  runs m Q (λ e s', runs (h e) Q E s') s → runs (try_catch m h) Q E s.
Proof. unfold runs, try_catch. by destruct (m s) as [s' []]. Qed.

Lemma runs_gets {X} (f : St → X) (Q : X → _) (E : Exn → _) s : Q (f s) s → runs (gets f) Q E s.
Proof. done. Qed.

Lemma runs_modify f (Q : unit → _) (E : Exn → _) s : Q tt (f s) → runs (modify f) Q E s.
Proof. done. Qed.
End Synchronous.

(** ** Termination

    [within n o]: however its promises settle, [o] suspends at most [n] times
    before it has returned or thrown. *)
Section Termination.
Context {St Exn Req : Type} {Reply : Req → Type}.
Local Abbreviation Out := (@Outcome St Exn Req Reply).
Local Abbreviation M := (@JS St Exn Req Reply).

Fixpoint within {A} (n : nat) (o : Out A) : Prop :=
  match o, n with
  | Awaiting r k, S n => ∀ v s, within n (snd (k v s))
  | Awaiting r k, O => False
  | _, _ => True
  end.

Definition bounded {A} (n : nat) (m : M A) : Prop := ∀ s, within n (snd (m s)).

Lemma within_mono {A} n n' (o : Out A) : n ≤ n' → within n o → within n' o.
Proof.
  revert n' o. induction n as [|n IH]; intros n' [a|e|r k] Hle; try (by destruct n').
  destruct n' as [|n']; [lia|]. simpl. intros H v s. apply IH; [lia|done].
Qed.

Lemma bounded_mono {A} n n' (m : M A) : n ≤ n' → bounded n m → bounded n' m.
Proof. intros Hle Hm s. by eapply within_mono. Qed.

Lemma bind_within {A B} a b (f : A → M B) s (o : Out A) :
  within a o → (∀ x, bounded b (f x)) → within (a + b) (snd (bind_out f s o)).
Proof.
  intros Ho Hf. revert s o Ho.
  induction a as [|a IH]; intros s [x|e|r k] Ho; cbn [bind_out snd]; try done.
  - apply Hf.
  - by destruct b.
  - eapply within_mono; [|apply Hf]. lia.
  - intros v s'. specialize (Ho v s'). destruct (k v s') as [s'' o']. by apply IH.
Qed.

Lemma bounded_bind {A B} a b (m : M A) (f : A → M B) :
  bounded a m → (∀ x, bounded b (f x)) → bounded (a + b) (bind m f).
Proof. intros Hm Hf s. unfold bind. specialize (Hm s). destruct (m s). by apply bind_within. Qed.

Lemma catch_within {A} a b (h : Exn → M A) s (o : Out A) :
  within a o → (∀ e, bounded b (h e)) → within (a + b) (snd (catch_out h s o)).
Proof.
  intros Ho Hh. revert s o Ho.
  induction a as [|a IH]; intros s [x|e|r k] Ho; cbn [catch_out snd]; try done.
  - by destruct b.
  - apply Hh.
  - eapply within_mono; [|apply Hh]. lia.
  - intros v s'. specialize (Ho v s'). destruct (k v s') as [s'' o']. by apply IH.
Qed.

Lemma bounded_try {A} a b (m : M A) (h : Exn → M A) :
  bounded a m → (∀ e, bounded b (h e)) → bounded (a + b) (try_catch m h).
Proof. intros Hm Hh s. unfold try_catch. specialize (Hm s). destruct (m s). by apply catch_within. Qed.

Lemma bounded_await (r : Req) : bounded 1 (await r : M _).
Proof. intros s [] ?; done. Qed.

Lemma bounded_ret {A} n (a : A) : bounded n (ret a : M A).
Proof. intros s. by destruct n. Qed.

Lemma bounded_throw {A} n e : bounded n (throw e : M A).
Proof. intros s. by destruct n. Qed.

Lemma bounded_gets {X} n (f : St → X) : bounded n (gets f : M X).
Proof. intros s. by destruct n. Qed.

Lemma bounded_modify n (f : St → St) : bounded n (modify f : M unit).
Proof. intros s. by destruct n. Qed.

Lemma bounded_sync {X} n (f : St → Exn + St * X) : bounded n (sync f : M X).
Proof. intros s. unfold sync. by destruct n, (f s) as [|[]]. Qed.

Lemma bounded_forEach {A} (f : A → M unit) l : (∀ x, bounded 0 (f x)) → bounded 0 (forEach f l).
Proof. intros Hf. induction l as [|x l IH]; [apply bounded_ret|]. by apply (bounded_bind 0 0). Qed.

Lemma within_resume {A} n (f : ∀ r, Exn + Reply r) (o o' : Out A) s s' :
  within n o → resume f o s = Some (s', o') → ∃ n', n = S n' ∧ within n' o'.
Proof.
  destruct o as [| |r k]; [done..|]. simpl. intros Hw [= Hk]. destruct n as [|n]; [done|].
  exists n. split; [done|]. specialize (Hw (f r) s). by rewrite Hk in Hw.
Qed.

(** The promises a handler starts. *)
Definition starts_within {A} (n : nat) (m : M (list (Out A))) : Prop :=
  ∀ s, match m s with (_, Returned ps) => Forall (within n) ps | _ => True end.

Lemma starts_bind {A X} n (m : M X) (f : X → M (list (Out A))) :
  bounded 0 m → (∀ x, starts_within n (f x)) → starts_within n (bind m f).
Proof.
  intros Hm Hf s. unfold bind. specialize (Hm s). destruct (m s) as [s' [x|e|r k]]; [apply Hf|done..].
Qed.

Lemma starts_none {A} n : starts_within n (ret [] : M (list (Out A))).
Proof. intros s. constructor. Qed.

Lemma starts_one {A X} n (m : M A) (f : M X) :
  bounded n m → bounded 0 f → starts_within n (p <- start m ;; f ;; ret [p]).
Proof.
  intros Hm Hf s. unfold bind, start, ret. specialize (Hm s). destruct (m s) as [s' o]. simpl.
  specialize (Hf s'). destruct (f s') as [s'' []]; [|done..]. by repeat constructor.
Qed.
End Termination.

(** Bound a computation by the bounds of its parts. *)
Ltac bounded_step :=
  lazymatch goal with
  | |- bounded _ (ret _) => apply bounded_ret
  | |- bounded _ (gets _) => apply bounded_gets
  | |- bounded _ (modify _) => apply bounded_modify
  | |- bounded _ (sync _) => apply bounded_sync
  | |- bounded _ (match ?x with _ => _ end) => destruct x
  | |- bounded 0 (bind _ _) => apply (bounded_bind 0 0); [|intros ?]
  | |- bounded 0 (forEach _ _) => apply bounded_forEach; intros ?
  end.

(** Symbolic execution: apply a rule of the logic to a [wp] goal. *)
Tactic Notation "js" uconstr(rule) :=
  lazymatch goal with |- wp ?I ?rely ?guar _ _ _ _ =>
    eapply (rule I rely guar);
    try lazymatch goal with |- RelyGuarantee _ _ => typeclasses eauto end
  end.
