(* ===== verification/Browser.v ===== *)
(** * The browser and React, as the program sees them

    The browser's objects are not code of the repository.  What they compute is
    the parameter [BrowserAPI]; what they do on their own (events, settled
    promises) is left to the environment of each component.  The promise-valued
    operations are the [Request]s of the async monad.  [World] is the state
    the handlers of one mounted component act on. *)
From S2P Require Import Prelude JsValue Async.

(** ** Objects *)

Record Track := mkTrack { track_id : nat; track_kind : string; track_label : string }.

Record MediaStream := mkMediaStream { stream_id : nat; getTracks : list Track }.

Inductive ReadyState := WS_CONNECTING | WS_OPEN | WS_CLOSING | WS_CLOSED.

Record WebSocket := mkWebSocket { ws_url : string; readyState : ReadyState }.

#[global] Instance Track_eq_dec : EqDecision Track.
Proof. solve_decision. Defined.
#[global] Instance MediaStream_eq_dec : EqDecision MediaStream.
Proof. solve_decision. Defined.
#[global] Instance ReadyState_eq_dec : EqDecision ReadyState.
Proof. solve_decision. Defined.
#[global] Instance WebSocket_eq_dec : EqDecision WebSocket.
Proof. solve_decision. Defined.

(** The browser's own computations.  [PC] is the state of an
    [RTCPeerConnection]; an operation that can throw returns the exception on
    the left. *)
Class BrowserAPI := {
  PC : Type;
  newRTCPeerConnection : jsval → PC;
  getSenders : PC → list Track;
  addTrack : Track → MediaStream → PC → thrown + PC;
  closePC : PC → PC;
  newRTCSessionDescription : jsval → thrown + jsval;
  newRTCIceCandidate : jsval → thrown + jsval;
  newWebSocket : string → thrown + WebSocket;
  (** [socket.send] in the given state: the exception it throws, if any. *)
  ws_send : ReadyState → option thrown;
  ws_close : ReadyState → ReadyState;
  (** [JSON.stringify] of an object and [JSON.parse]. *)
  JSON_stringify : list (string * jsval) → string;
  JSON_parse : string → thrown + jsval;
}.

(** The operations that return a promise, with the object they are called on
    (its address) and their arguments. *)
Inductive Request : Type :=
| GetUserMedia (constraints : jsval)
| CreateOffer (pc : nat)
| CreateAnswer (pc : nat)
| SetLocalDescription (pc : nat) (d : jsval)
| SetRemoteDescription (pc : nat) (d : jsval)
| AddIceCandidate (pc : nat) (c : jsval).

Definition Reply (r : Request) : Type :=
  match r with
  | GetUserMedia _ => MediaStream
  | CreateOffer _ | CreateAnswer _ => jsval
  | _ => unit
  end.

#[global] Instance Request_eq_dec : EqDecision Request.
Proof. solve_decision. Defined.

(** How the environment answers any request it is asked to settle. *)
Abbreviation Answer := (∀ r, thrown + Reply r).

(** The trace of a component: its calls to the browser and to its callbacks,
    the messages it received ([IoReceive]) and the received message objects it
    started to process, by the position of their receipt ([IoHandle]).  A
    callback of a hook is a function known by its identity. *)
Inductive IO : Type :=
| IoRequest (r : Request)
| IoNewWebSocket (ws : nat) (url : string)
| IoSend (ws : nat) (text : string)
| IoCloseWs (ws : nat)
| IoNewPC (pc : nat)
| IoAddTrack (pc : nat) (t : Track)
| IoClosePC (pc : nat)
| IoStopTrack (t : Track)
| IoSrcObject (element : string) (s : MediaStream)
| IoAlert (text : string)
| IoReceive (message : jsval)
| IoHandle (object : nat)
| IoCallback (callback : nat) (arg : jsval).

#[global] Instance IO_eq_dec : EqDecision IO.
Proof. solve_decision. Defined.

Section World.
Context {B : BrowserAPI}.

(** The heap of the page: an object's address is its position. *)
Record Host := mkHost {
  sockets : list WebSocket;
  peers : list PC;
  stopped : gset nat;  (** ids of the tracks [stop()] was called on *)
  io : list IO;
}.

Definition emptyHost : Host := mkHost [] [] ∅ [].

(** A mounted component: the heap, its [useRef] cells, its committed
    [useState] values, the updates asked for since the last render, and
    what its effects keep between renders. *)
Record World {R S U F : Type} := mkWorld {
  host : Host;
  refs : R;
  hooks : S;
  queue : list U;
  fiber : F;
}.
End World.
Arguments World {B} R S U F.
Arguments mkWorld {B R S U F} _ _ _ _ _.
Arguments Host B : clear implicits.
Arguments mkHost {B} _ _ _ _.

Section Updates.
Context {B : BrowserAPI} {R S U F : Type}.
Implicit Types (w : World R S U F) (h : Host B).

Definition on_host (f : Host B → Host B) w : World R S U F :=
  mkWorld (f (host w)) (refs w) (hooks w) (queue w) (fiber w).
Definition on_refs (f : R → R) w : World R S U F :=
  mkWorld (host w) (f (refs w)) (hooks w) (queue w) (fiber w).
Definition with_hooks (s : S) w : World R S U F :=
  mkWorld (host w) (refs w) s (queue w) (fiber w).
Definition with_queue (q : list U) w : World R S U F :=
  mkWorld (host w) (refs w) (hooks w) q (fiber w).
Definition with_fiber (f : F) w : World R S U F :=
  mkWorld (host w) (refs w) (hooks w) (queue w) f.

(** More updates queued at once. *)
Definition enqueue (us : list U) w : World R S U F := with_queue (queue w ++ us) w.

Definition log (e : IO) h : Host B :=
  mkHost (sockets h) (peers h) (stopped h) (io h ++ [e]).
Definition with_sockets (l : list WebSocket) h : Host B :=
  mkHost l (peers h) (stopped h) (io h).
Definition with_peers (l : list PC) h : Host B :=
  mkHost (sockets h) l (stopped h) (io h).
Definition stop_id (t : Track) h : Host B :=
  mkHost (sockets h) (peers h) ({[track_id t]} ∪ stopped h) (io h).
End Updates.

(** ** The operations handlers are written with *)

Section Primitives.
Context {B : BrowserAPI} {R S U F : Type}.
Local Abbreviation W := (World R S U F).
Local Abbreviation M := (@JS W thrown Request Reply).

Definition ref {X} (f : R → X) : M X := gets (λ w, f (refs w)).
Definition set_ref (f : R → R) : M unit := modify (on_refs f).

(** A [useState] setter: the update is queued for the next render. *)
Definition setState (u : U) : M unit := modify (λ w, with_queue (queue w ++ [u]) w).

Definition emit (e : IO) : M unit := modify (on_host (log e)).
Definition alert (text : string) : M unit := emit (IoAlert text).

(** Call an operation that returns a promise and await the promise. *)
Definition request (r : Request) : M (Reply r) := emit (IoRequest r) ;; await r.

(** A constructor or parser of the browser that may throw. *)
Definition may_throw {X} (r : thrown + X) : M X :=
  sync (λ w, match r with inl e => inl e | inr x => inr (w, x) end).

(** The optional chaining call [o?.m()]. *)
Definition when_some {X} (o : option X) (f : X → M unit) : M unit :=
  match o with Some x => f x | None => ret tt end.

Definition new_WebSocket (url : string) : M nat :=
  sync (λ w, let h := host w in
    match newWebSocket url with
    | inl e => inl e
    | inr s => inr (on_host (λ h, log (IoNewWebSocket (length (sockets h)) url)
                                    (with_sockets (sockets h ++ [s]) h)) w,
                    length (sockets h))
    end).

(** [socket.send(text)]: the text is logged when the call does not throw. *)
Definition send_text (ws : nat) (text : string) : M unit :=
  sync (λ w,
    match sockets (host w) !! ws with
    | None => inr (w, tt)
    | Some s =>
        match ws_send (readyState s) with
        | Some e => inl e
        | None => inr (on_host (log (IoSend ws text)) w, tt)
        end
    end).

Definition set_ready_state (ws : nat) (f : ReadyState → ReadyState) (h : Host B) : Host B :=
  with_sockets (alter (λ s, mkWebSocket (ws_url s) (f (readyState s))) ws (sockets h)) h.

Definition close_socket (ws : nat) : M unit :=
  modify (on_host (λ h, log (IoCloseWs ws) (set_ready_state ws ws_close h))).

Definition new_RTCPeerConnection (config : jsval) : M nat :=
  sync (λ w, inr (on_host (λ h, log (IoNewPC (length (peers h)))
                             (with_peers (peers h ++ [newRTCPeerConnection config]) h)) w,
                  length (peers (host w)))).

Definition get_senders (pc : nat) : M (list Track) :=
  gets (λ w, match peers (host w) !! pc with Some p => getSenders p | None => [] end).

Definition pc_addTrack (pc : nat) (t : Track) (s : MediaStream) : M unit :=
  sync (λ w,
    match peers (host w) !! pc with
    | None => inr (w, tt)
    | Some p =>
        match addTrack t s p with
        | inl e => inl e
        | inr p' => inr (on_host (λ h, log (IoAddTrack pc t)
                                         (with_peers (<[pc := p']> (peers h)) h)) w, tt)
        end
    end).

Definition close_pc (pc : nat) : M unit :=
  modify (on_host (λ h, log (IoClosePC pc) (with_peers (alter closePC pc (peers h)) h))).

Definition stop_track (t : Track) : M unit :=
  modify (on_host (λ h, log (IoStopTrack t) (stop_id t h))).

(** [stream.getTracks().forEach(track => track.stop())] *)
Definition stop_tracks (s : MediaStream) : M unit := forEach stop_track (getTracks s).
End Primitives.

Section Running.
Context {B : BrowserAPI} {R S U F : Type}.
Local Abbreviation W := (World R S U F).
Local Abbreviation M := (@JS W thrown Request Reply).

(** A request under a handler of exceptions: the call suspends, and goes on
    from the state the page is in when the promise settles. *)
Lemma catch_request {A} (r : Request) (f : Reply r → M A) (h : thrown → M A) (w : W) :
  ∃ k, (∀ v w', k v w' = match v with
                         | inr x => try_catch (f x) h w'
                         | inl e => h e w'
                         end) ∧
    try_catch (bind (request r) f) h w = (on_host (log (IoRequest r)) w, Awaiting r k).
Proof. eexists. split; [|reflexivity]. by intros [] w'. Qed.

Lemma try_returned {A X} (m : M X) (f : X → M A) (h : thrown → M A) w w' x :
  m w = (w', Returned x) → try_catch (bind m f) h w = try_catch (f x) h w'.
Proof. intros Hm. unfold try_catch. by rewrite (bind_returned m f _ _ _ Hm). Qed.

Lemma try_threw {A X} (m : M X) (f : X → M A) (h : thrown → M A) w w' e :
  m w = (w', Threw e) → try_catch (bind m f) h w = h e w'.
Proof. intros Hm. unfold try_catch, bind. by rewrite Hm. Qed.
End Running.

(** ** The loops over tracks *)

Section Stopping.
Context {B : BrowserAPI} {R S U F : Type}.
Local Abbreviation W := (World R S U F).
Local Abbreviation M := (@JS W thrown Request Reply).
Implicit Types (w : W) (h : Host B).

Definition stop_all (ts : list Track) h : Host B :=
  mkHost (sockets h) (peers h) (list_to_set (track_id <$> ts) ∪ stopped h)
    (io h ++ (IoStopTrack <$> ts)).

(** Stopping a stream stops each of its tracks, in order, and nothing else. *)
Lemma stop_tracks_run (s : MediaStream) w :
  (stop_tracks s : M unit) w = (on_host (stop_all (getTracks s)) w, Returned tt).
Proof.
  unfold stop_tracks. generalize (getTracks s); intros ts. revert w.
  induction ts as [|t ts IH]; intros w; simpl.
  - unfold ret, on_host, stop_all. destruct w as [[] ????]; simpl.
    rewrite app_nil_r, (left_id_L ∅ (∪)). done.
  - unfold bind, stop_track at 1, modify. simpl. rewrite IH. f_equal.
    unfold on_host, stop_all. simpl. f_equal. f_equal; [set_solver|by rewrite <-app_assoc].
Qed.
End Stopping.

(** ** Counting events of the trace *)

Definition occurrences (e : IO) (tr : list IO) : nat := length (filter (eq e) tr).

Lemma occurrences_app e tr1 tr2 :
  occurrences e (tr1 ++ tr2) = occurrences e tr1 + occurrences e tr2.
Proof. unfold occurrences. by rewrite filter_app, length_app. Qed.

Lemma occurrences_one e e' : occurrences e [e'] = if decide (e = e') then 1 else 0.
Proof. unfold occurrences. rewrite filter_cons, filter_nil. by case_decide. Qed.

Lemma occurrences_none e tr : e ∉ tr → occurrences e tr = 0.
Proof.
  unfold occurrences. induction tr as [|e' tr IH]; [done|]. intros Hn.
  rewrite filter_cons, decide_False by set_solver. apply IH. set_solver.
Qed.
