(* ===== verification/Messages.v ===== *)
(** * What a trace says of the messages received *)
From S2P Require Import Prelude JsValue SignalingTypes Browser.

Implicit Types (tr : list IO).

(** The values received, in order. *)
Definition received tr : list jsval :=
  omap (λ e, match e with IoReceive v => Some v | _ => None end) tr.

Lemma elem_of_received tr v : v ∈ received tr ↔ IoReceive v ∈ tr.
Proof.
  unfold received. rewrite list_elem_of_omap. split; [|by exists (IoReceive v)].
  intros ([] & ? & ?); by simplify_eq.
Qed.

(** [id] is the id some received welcome message carried. *)
Definition welcomed tr (id : jsval) : Prop :=
  ∃ v, IoReceive v ∈ tr ∧ isWelcomeMessage v = inr true ∧ get_prop v "id" = inr id.

(** [v] is the SDP message received at position [n]. *)
Definition received_sdp tr (n : nat) (v : jsval) : Prop :=
  tr !! n = Some (IoReceive v) ∧ isSDPMessage v = inr true.

(** Some received offer came from [from]. *)
Definition received_offer tr (from : jsval) : Prop :=
  ∃ n v sdp, received_sdp tr n v ∧ get_prop v "from" = inr from ∧
    get_prop v "sdp" = inr sdp ∧ get_prop sdp "type" = inr (JStr "offer").

(** [p] was typed by the user, or is the sender of some received message. *)
Definition named_peer tr (p : jsval) : Prop :=
  (∃ s, p = JStr s) ∨
  ∃ v, IoReceive v ∈ tr ∧ (isSDPMessage v = inr true ∨ isICECandidateMessage v = inr true) ∧
    get_prop v "from" = inr p.

(** What was received stays received. *)
Lemma named_peer_prefix tr tr' p : tr `prefix_of` tr' → named_peer tr p → named_peer tr' p.
Proof.
  intros [l ->] [?|(v & ? & ? & ?)]; [by left|right]. exists v. rewrite elem_of_app. auto.
Qed.

Lemma welcomed_prefix tr tr' id : tr `prefix_of` tr' → welcomed tr id → welcomed tr' id.
Proof. intros [l ->] (v & ? & ?). exists v. rewrite elem_of_app. auto. Qed.

Lemma received_sdp_prefix tr tr' n v :
  tr `prefix_of` tr' → received_sdp tr n v → received_sdp tr' n v.
Proof. intros ? [? ?]. split; [by eapply prefix_lookup_Some|done]. Qed.
