(* ===== verification/ReferenceBrowser.v ===== *)
(** * A concrete browser

    An instance of the [BrowserAPI] parameter that follows the documented
    behaviour of the interfaces, on which the examples of the development
    compute. *)
From S2P Require Import Prelude JsValue Browser Json.

Record RefPC := mkRefPC { ref_senders : list Track; ref_closed : bool }.

Definition ref_addTrack (t : Track) (s : MediaStream) (p : RefPC) : thrown + RefPC :=
  if ref_closed p then inl (ErrorObj "InvalidStateError" "The connection is closed.")
  else if decide (t ∈ ref_senders p) then
    inl (ErrorObj "InvalidAccessError" "A sender already exists for the track.")
  else inr (mkRefPC (ref_senders p ++ [t]) false).

Definition ref_description (v : jsval) : thrown + jsval :=
  match v with
  | JObj fs =>
      if decide (obj_get fs "type" ∈ [JStr "offer"; JStr "answer"; JStr "pranswer"; JStr "rollback"])
      then inr v else inl (TypeError "Failed to construct RTCSessionDescription")
  | _ => inl (TypeError "Failed to construct RTCSessionDescription")
  end.

Definition ref_candidate (v : jsval) : thrown + jsval :=
  match v with
  | JObj fs =>
      if decide (obj_get fs "sdpMid" ∈ [JUndef; JNull] ∧ obj_get fs "sdpMLineIndex" ∈ [JUndef; JNull])
      then inl (TypeError "sdpMid and sdpMLineIndex are both null") else inr v
  | _ => inl (TypeError "Failed to construct RTCIceCandidate")
  end.

Definition ref_send (rs : ReadyState) : option thrown :=
  match rs with
  | WS_CONNECTING => Some (ErrorObj "InvalidStateError" "Still in CONNECTING state.")
  | _ => None
  end.

Definition ref_close (rs : ReadyState) : ReadyState :=
  match rs with WS_CLOSED => WS_CLOSED | _ => WS_CLOSING end.

Definition RefBrowser : BrowserAPI := {|
  PC := RefPC;
  newRTCPeerConnection _ := mkRefPC [] false;
  getSenders := ref_senders;
  addTrack := ref_addTrack;
  closePC p := mkRefPC (ref_senders p) true;
  newRTCSessionDescription := ref_description;
  newRTCIceCandidate := ref_candidate;
  newWebSocket url := inr (mkWebSocket url WS_CONNECTING);
  ws_send := ref_send;
  ws_close := ref_close;
  JSON_stringify := stringify;
  JSON_parse := parse;
|}.
