(* ===== verification/React.v ===== *)
(** * The contract of the React runtime and the event loop

    - [run_effect]: an effect runs after its first render and again when one
      of its dependencies changed ([Object.is]), after its clean-up.
    - [flush]: a render applies the queued updates in order.
    - [Config]: a mounted component with the promises still pending;
      [dispatch] runs a handler to completion, [settle] resumes a promise.
    - [reachable]: the configurations a list of events leads to.

    The rest of the file is the rule that lifts the async program logic to
    all reachable configurations. *)
From S2P Require Import Prelude JsValue Async Browser.

(** A dependency, up to [Object.is]: a primitive value, or the identity of an
    object or function. *)
Inductive dep : Type :=
| DepVal (v : jsval)
| DepRef (id : nat).

#[global] Instance dep_eq_dec : EqDecision dep.
Proof. solve_decision. Defined.

(** An object that may be [null] or [undefined]. *)
Definition dep_ref (missing : jsval) (o : option nat) : dep :=
  match o with Some id => DepRef id | None => DepVal missing end.

(** What React keeps of an effect: the dependencies of its last run and what
    its clean-up closure captured. *)
Record Slot (H : Type) := mkSlot { slot_deps : list dep; slot_data : H }.
Arguments mkSlot {H} _ _.
Arguments slot_deps {H} _.
Arguments slot_data {H} _.

Section Effects.
Context {B : BrowserAPI} {R S U F : Type}.
Local Abbreviation W := (World R S U F).
Local Abbreviation M := (@JS W thrown Request Reply).

(** [useEffect(setup, deps)], [setup] returning the data of its clean-up. *)
Definition run_effect {H} (old : option (Slot H)) (deps : list dep)
    (setup : M H) (cleanup : H → M unit) : M (Slot H) :=
  match old with
  | None => h <- setup ;; ret (mkSlot deps h)
  | Some sl =>
      if bool_decide (slot_deps sl = deps) then ret sl
      else cleanup (slot_data sl) ;;
           h <- setup ;; ret (mkSlot deps h)
  end.
End Effects.

(** [useCallback(f, deps)]: the function of the render that first had these
    dependencies; a function is what its closure captured. *)
Definition use_callback {X} (old : option (Slot X)) (deps : list dep) (f : X) : Slot X :=
  match old with
  | Some sl => if bool_decide (slot_deps sl = deps) then sl else mkSlot deps f
  | None => mkSlot deps f
  end.

(** The life of a component that uses a hook. *)
Inductive Phase := Fresh | Mounted | Unmounted.

#[global] Instance Phase_eq_dec : EqDecision Phase.
Proof. solve_decision. Defined.

(** The state a render sees: the queued updates applied in order. *)
Definition flush {S U} (apply : U → S → S) (q : list U) (s : S) : S :=
  foldl (λ s u, apply u s) s q.

Lemma flush_app {S U} (apply : U → S → S) q1 q2 s :
  flush apply (q1 ++ q2) s = flush apply q2 (flush apply q1 s).
Proof. apply foldl_app. Qed.

(** ** Configurations *)

Section Configurations.
Context {B : BrowserAPI} {R S U F A : Type}.
Local Abbreviation W := (World R S U F).
Local Abbreviation M := (@JS W thrown Request Reply).
Local Abbreviation Promise := (@Outcome W thrown Request Reply A).

Record Config := mkConfig { world : W; tasks : list Promise }.

(** Run a handler to completion; the promises of the async functions it
    called join the pending ones, also when it throws afterwards. *)
Definition dispatch (m : M (list Promise)) (c : Config) : Config :=
  match m (world c) with
  | (w, Returned ps) => mkConfig w (tasks c ++ ps)
  | (w, _) => mkConfig w (tasks c)
  end.

(** A handler that calls nothing asynchronous. *)
Definition sync_handler (m : M unit) : M (list Promise) := m ;; ret [].

(** A handler that is an async function. *)
Definition async_handler (m : M A) : M (list Promise) := p <- start m ;; ret [p].

Definition settle (i : nat) (f : Answer) (c : Config) : option Config :=
  o ← tasks c !! i;
  '(w, o') ← resume f o (world c);
  Some (mkConfig w (<[i := o']> (tasks c))).

Definition env_world (f : W → W) (c : Config) : Config := mkConfig (f (world c)) (tasks c).

(** A synchronous handler that does not await is a change of the state. *)
Definition settled {X} (o : @Outcome W thrown Request Reply X) : bool :=
  match o with Awaiting _ _ => false | _ => true end.

Lemma dispatch_sync (m : M unit) c :
  settled (snd (m (world c))) = true →
  dispatch (sync_handler m) c = env_world (λ w, fst (m w)) c.
Proof.
  unfold dispatch, sync_handler, bind, env_world.
  destruct (m (world c)) as [w []]; simpl; [by rewrite app_nil_r|done|done].
Qed.

(** ** Termination *)

Lemma starts_sync_handler n (m : M unit) : bounded 0 m → starts_within n (sync_handler m).
Proof. intros Hm. apply starts_bind; [done|]. intros _. apply starts_none. Qed.

Lemma starts_async_handler n (m : M A) : bounded n m → starts_within n (async_handler m).
Proof.
  intros Hm s. unfold async_handler, bind, start. specialize (Hm s). destruct (m s) as [s' o].
  by repeat constructor.
Qed.

Definition tasks_within (n : nat) (c : Config) : Prop := Forall (within n) (tasks c).

Lemma dispatch_within n m c :
  starts_within n m → tasks_within n c →
  tasks_within n (dispatch m c) ∧ tasks c `prefix_of` tasks (dispatch m c).
Proof.
  unfold tasks_within, dispatch. intros Hm Hc. specialize (Hm (world c)).
  destruct (m (world c)) as [w [ps|e|r k]]; simpl; [|done..].
  split; [by apply Forall_app|by apply prefix_app_r].
Qed.

Lemma env_world_within n f c : tasks_within n c → tasks_within n (env_world f c).
Proof. done. Qed.

Lemma settle_within n i f c c' :
  tasks_within n c → settle i f c = Some c' →
  tasks_within n c' ∧ (∀ j, j ≠ i → tasks c' !! j = tasks c !! j) ∧
  ∀ k o, tasks c !! i = Some o → within k o → ∃ k' o', k = 1 + k' ∧ tasks c' !! i = Some o' ∧ within k' o'.
Proof.
  unfold tasks_within, settle. intros Hc Hs. destruct (tasks c !! i) as [o|] eqn:Hi; [|done].
  simpl in Hs. destruct (resume f o (world c)) as [[w o']|] eqn:Hr; simplify_eq/=.
  pose proof (Forall_lookup_1 _ _ _ _ Hc Hi) as Ho. split_and!.
  - destruct (within_resume n f o o' _ _ Ho Hr) as (n' & -> & Ho'). apply Forall_update; [done|].
    eapply within_mono; [|done]. lia.
  - intros j Hj. by apply list_lookup_insert_ne.
  - intros k ? [= <-] Hk. destruct (within_resume k f o o' _ _ Hk Hr) as (k' & -> & Hk').
    exists k', o'. split_and!; [done| |done]. apply list_lookup_insert_eq. by eapply lookup_lt_Some.
Qed.

(** ** Lifting the program logic *)

Context (I : W → Prop) (rely guar : relation W) `{!RelyGuarantee rely guar}.

Definition config_ok (c : Config) : Prop :=
  I (world c) ∧ Forall (promise_ok I rely guar (world c)) (tasks c).

Lemma tasks_later w w' (ts : list Promise) :
  rely w w' → Forall (promise_ok I rely guar w) ts → Forall (promise_ok I rely guar w') ts.
Proof. intros Hle Hts. eapply Forall_impl; [done|]. intros o. by apply promise_ok_later. Qed.

Lemma dispatch_ok m c :
  config_ok c →
  wp I rely guar m (λ ps w, Forall (promise_ok I rely guar w) ps) (λ _ _, True) (world c) →
  config_ok (dispatch m c) ∧ guar (world c) (world (dispatch m c)).
Proof.
  intros [HI Hts]. unfold wp, dispatch. destruct (m (world c)) as [w o].
  intros (HI' & Hg & Ho). pose proof (tasks_later _ _ _ (guar_rely _ _ Hg) Hts).
  destruct o; split; (split || done); simpl in *; auto. by apply Forall_app.
Qed.

Lemma wp_sync_handler m w :
  wp I rely guar m (λ _ _, True) (λ _ _, True) w →
  wp I rely guar (sync_handler m)
    (λ ps w, Forall (promise_ok I rely guar w) ps) (λ _ _, True) w.
Proof.
  intros H. js wp_bind. eapply wp_mono; [exact H| |done]. intros ? w' HI _.
  by js wp_ret; [|constructor].
Qed.

Lemma wp_async_handler m w :
  wp I rely guar m (λ _ _, True) (λ _ _, True) w →
  wp I rely guar (async_handler m)
    (λ ps w, Forall (promise_ok I rely guar w) ps) (λ _ _, True) w.
Proof.
  intros H. js wp_bind. js wp_start; [done|].
  intros o w' HI Hg Ho. js wp_ret; auto.
Qed.

Lemma settle_ok i f c c' :
  config_ok c → settle i f c = Some c' → config_ok c' ∧ guar (world c) (world c').
Proof.
  intros [HI Hts] Hs. unfold settle in Hs.
  destruct (tasks c !! i) as [o|] eqn:Hi; [|done]; simpl in Hs.
  destruct (resume f o (world c)) as [[w o']|] eqn:Hr; simplify_eq/=.
  pose proof (Forall_lookup_1 _ _ _ _ Hts Hi) as Ho.
  destruct (promise_ok_resume _ _ _ _ _ _ _ _ HI Ho Hr) as (HI' & Hg & Ho').
  split_and!; auto. split; [done|]. apply Forall_update; [|done].
  eapply tasks_later; [by apply guar_rely|done].
Qed.

(** A change of the state outside any handler. *)
Lemma env_world_ok f c :
  config_ok c → I (f (world c)) → rely (world c) (f (world c)) → config_ok (env_world f c).
Proof. intros [HI Hts] HI' Hle. split; simpl; eauto using tasks_later. Qed.
End Configurations.
Arguments Config {B} R S U F A.

(** An event that can only happen when [b] holds. *)
Definition enabled {A} (b : bool) (a : A) : option A := if b then Some a else None.

Lemma enabled_Some {A} b (a a' : A) : enabled b a = Some a' ↔ b = true ∧ a = a'.
Proof. destruct b; naive_solver. Qed.

(** ** Runs *)

Section Runs.
Context {C Event : Type} (step : Event → C → option C) (init : C).

Fixpoint run (es : list Event) (c : C) : option C :=
  match es with
  | [] => Some c
  | e :: es => c' ← step e c; run es c'
  end.

Inductive reachable : C → Prop :=
| reach_init : reachable init
| reach_step c e c' : reachable c → step e c = Some c' → reachable c'.

(** Any sequence of events out of the initial configuration. *)
Lemma run_reachable es c c' : reachable c → run es c = Some c' → reachable c'.
Proof.
  revert c. induction es as [|e es IH]; simpl; intros c Hc Hr; [by simplify_eq|].
  destruct (step e c) as [c1|] eqn:He; [|done]. eapply IH; [|done]. by eapply reach_step.
Qed.

(** The configuration a list of events leads to from the start. *)
Definition final (es : list Event) : C := default init (run es init).

Lemma reachable_final es :
  bool_decide (is_Some (run es init)) = true → reachable (final es).
Proof.
  unfold final. destruct (run es init) as [c|] eqn:Hr; [|done]. intros _.
  eapply run_reachable; [apply reach_init|done].
Qed.

Lemma run_final es : bool_decide (is_Some (run es init)) = true → run es init = Some (final es).
Proof. unfold final. by destruct (run es init). Qed.

(** An event or a list of events that is known to be possible. *)
Definition next (e : Event) (c : C) : C := default c (step e c).
Definition after (es : list Event) (c : C) : C := default c (run es c).

Lemma step_next e c : bool_decide (is_Some (step e c)) = true → step e c = Some (next e c).
Proof. unfold next. by destruct (step e c). Qed.

Lemma run_after es c : bool_decide (is_Some (run es c)) = true → run es c = Some (after es c).
Proof. unfold after. by destruct (run es c). Qed.

Lemma run_app es1 es2 c : run (es1 ++ es2) c = run es1 c ≫= run es2.
Proof. revert c. induction es1 as [|e es IH]; intros c; simpl; [done|]. destruct (step e c); simpl; auto. Qed.

Lemma reachable_ind_inv (Inv : C → Prop) :
  Inv init → (∀ e c c', Inv c → step e c = Some c' → Inv c') →
  ∀ c, reachable c → Inv c.
Proof. intros H0 Hs c Hc. induction Hc; eauto. Qed.
End Runs.

(** Discharge the hypotheses of a theorem about runs on an example. *)
Ltac by_run :=
  lazymatch goal with
  | |- reachable _ _ _ => apply reachable_final; vm_compute; reflexivity
  | |- _ = Some (next _ _ _) => apply step_next; vm_compute; reflexivity
  | |- _ = Some (after _ _ _) => apply run_after; vm_compute; reflexivity
  | |- _ => vm_compute; reflexivity
  end.
