(* ===== verification/WebrtcHelpers.v ===== *)
(** * The helpers of [utils/webrtc-helpers.ts]

    The environment variable and the [window] of the page are arguments;
    [addTracksToConnection] and [hasTracksAdded] act on the page's heap. *)
From S2P Require Import Prelude JsValue WebrtcConstants WebrtcTypes Async Browser.
From stdpp Require Import pretty.

(** [window.location] *)
Record Location := { protocol : string; location_host : string }.

(** [envUrl] is [process.env.NEXT_PUBLIC_SIGNALING_SERVER_URL] and [window] is
    [None] where [typeof window === 'undefined']. *)
Definition getWebSocketUrl (envUrl : option string) (window : option Location) : string :=
  if truthy_str envUrl then default "" envUrl
  else match window with
  | Some location =>
      let protocol := if bool_decide (protocol location = "https:") then "wss:" else "ws:" in
      let currentHost := location_host location in
      protocol +:+ "//" +:+ currentHost +:+ WS_PATH SIGNALING_SERVER
  | None =>
      "ws://" +:+ DEFAULT_HOST SIGNALING_SERVER +:+ ":" +:+
      pretty (DEFAULT_PORT SIGNALING_SERVER) +:+ WS_PATH SIGNALING_SERVER
  end.

Definition getConnectionStateColor (state : string) : string :=
  if bool_decide (state = "connected") then "bg-green-500"
  else if bool_decide (state = "connecting") then "bg-yellow-500"
  else if bool_decide (state = "failed") || bool_decide (state = "disconnected")
       then "bg-red-500"
  else "bg-gray-500".

(** The state variable is typed [string] but holds what a message carried. *)
Definition isPeerIdEmpty (peerId : jsval) : bool :=
  negb (truthy peerId) || is_str peerId "".

Definition isMediaStreamReady (isReady : bool) (stream : option MediaStream) : bool :=
  isReady && bool_decide (stream ≠ None).

Section Tracks.
Context {B : BrowserAPI} {R S U F : Type}.
Local Abbreviation W := (World R S U F).
Local Abbreviation M := (@JS W thrown Request Reply).

Definition addTracksToConnection (peerConnection : nat) (stream : MediaStream) : M unit :=
  let tracks := getTracks stream in
  forEach (λ track, pc_addTrack peerConnection track stream) tracks.

Definition hasTracksAdded (peerConnection : nat) : M bool :=
  senders <- get_senders peerConnection ;;
  ret (bool_decide (0 < length senders)).
End Tracks.

(** ** Adding tracks *)

Section TracksFacts.
Context {B : BrowserAPI} {R S U F : Type}.
Local Abbreviation W := (World R S U F).
Implicit Types (w : W) (pc : nat).

Definition senders_of w (pc : nat) : list Track :=
  match peers (host w) !! pc with Some p => getSenders p | None => [] end.

(** The host after [k] successful calls that left the peers [ps]. *)
Definition after_add_tracks pc (ts : list Track) (ps : list PC) w : W :=
  on_host (λ h, mkHost (sockets h) ps (stopped h) (io h ++ (IoAddTrack pc <$> ts))) w.

Lemma after_add_nothing pc w : after_add_tracks pc [] (peers (host w)) w = w.
Proof.
  unfold after_add_tracks, on_host. destruct w as [h ?? ??], h; simpl. by rewrite app_nil_r.
Qed.

Lemma after_add_tracks_cons pc t ts ps ps' w :
  after_add_tracks pc ts ps (after_add_tracks pc [t] ps' w) = after_add_tracks pc (t :: ts) ps w.
Proof. unfold after_add_tracks, on_host. simpl. by rewrite <-app_assoc. Qed.

Lemma pc_addTrack_run pc t s w p :
  peers (host w) !! pc = Some p →
  pc_addTrack pc t s w =
    match addTrack t s p with
    | inl e => (w, Threw e)
    | inr p' => (after_add_tracks pc [t] (<[pc := p']> (peers (host w))) w, Returned tt)
    end.
Proof. intros Hp. unfold pc_addTrack, sync. rewrite Hp. by destruct (addTrack t s p). Qed.

Lemma addTracks_no_connection pc s w :
  peers (host w) !! pc = None → addTracksToConnection pc s w = (w, Returned tt).
Proof.
  intros Hp. unfold addTracksToConnection. induction (getTracks s) as [|t ts IH]; [done|].
  simpl. unfold bind, pc_addTrack at 1, sync. by rewrite Hp.
Qed.

(** The loop never awaits: it adds the tracks in order, all of them unless
    [addTrack] throws. *)
Lemma addTracks_run pc s w p :
  peers (host w) !! pc = Some p →
  ∃ k ps o,
    addTracksToConnection pc s w = (after_add_tracks pc (take k (getTracks s)) ps w, o) ∧
    (o = Returned tt ∧ k = length (getTracks s) ∨
     ∃ e, o = Threw e ∧ k < length (getTracks s)).
Proof.
  unfold addTracksToConnection. generalize (getTracks s); intros ts.
  revert w p. induction ts as [|t ts IH]; intros w p Hp.
  { exists 0, (peers (host w)), (Returned tt). rewrite after_add_nothing. auto. }
  simpl. unfold bind. rewrite (pc_addTrack_run _ _ _ _ _ Hp).
  destruct (addTrack t s p) as [e|p'].
  - exists 0, (peers (host w)), (Threw e). rewrite after_add_nothing. simpl. eauto with lia.
  - simpl. destruct (IH (after_add_tracks pc [t] (<[pc:=p']> (peers (host w))) w) p') as
      (k & ps & o & Hr & Ho).
    { simpl. apply list_lookup_insert_eq. by eapply lookup_lt_Some. }
    exists (Datatypes.S k), ps, o. rewrite Hr, after_add_tracks_cons. split; [done|].
    destruct Ho as [[-> ->]|(e & -> & ?)]; [by left|]. right. exists e. split; [done|simpl; lia].
Qed.

(** Add the tracks of a stream unless the connection has senders. *)
Definition ensure_tracks pc (s : MediaStream) w : W * @Outcome W thrown Request Reply unit :=
  if decide (senders_of w pc = []) then addTracksToConnection pc s w else (w, Returned tt).

Lemma ensure_tracks_run pc s w :
  ∃ ts ps o, ensure_tracks pc s w = (after_add_tracks pc ts ps w, o) ∧
    (o = Returned tt ∨ ∃ e, o = Threw e).
Proof.
  unfold ensure_tracks. case_decide.
  - destruct (peers (host w) !! pc) as [p|] eqn:Hp.
    + destruct (addTracks_run pc s w p Hp) as (k & ps & o & -> & Ho).
      exists (take k (getTracks s)), ps, o. split; [done|]. destruct Ho as [[-> _]|(e & -> & _)]; eauto.
    + rewrite addTracks_no_connection by done. exists [], (peers (host w)), (Returned tt).
      rewrite after_add_nothing. auto.
  - exists [], (peers (host w)), (Returned tt). rewrite after_add_nothing. auto.
Qed.

Lemma hasTracksAdded_run pc w :
  hasTracksAdded pc w = (w, Returned (bool_decide (senders_of w pc ≠ []))).
Proof.
  unfold hasTracksAdded, senders_of, get_senders, gets, bind, ret. simpl. do 2 f_equal.
  apply bool_decide_ext. destruct (peers (host w) !! pc) as [p|]; simpl; [|naive_solver lia].
  destruct (getSenders p); simpl; naive_solver lia.
Qed.
(** The local tracks are added to a connection without senders. *)
Definition add_local_tracks (stream : option MediaStream) pc w : W * @Outcome W thrown Request Reply unit :=
  match stream with Some s => ensure_tracks pc s w | None => (w, Returned tt) end.

Lemma add_local_tracks_run stream pc w :
  snd (add_local_tracks stream pc w) = Returned tt ∨
  ∃ e, snd (add_local_tracks stream pc w) = Threw e.
Proof.
  destruct stream as [s|]; [|by left]. simpl.
  by destruct (ensure_tracks_run pc s w) as (ts & ps & o & -> & Ho).
Qed.

Lemma ensure_tracks_eq pc s w :
  (hasTracks <- hasTracksAdded pc ;;
   if negb hasTracks then addTracksToConnection pc s else ret tt : @JS W thrown Request Reply unit) w = ensure_tracks pc s w.
Proof.
  erewrite bind_returned by apply hasTracksAdded_run. unfold ensure_tracks.
  case_bool_decide; case_decide; done.
Qed.

End TracksFacts.

(** ** The state indicator *)

(** The colour of every state the browser reports: green for connected only
    (not completed), red for failed and disconnected (not closed), gray for
    the rest; yellow is never shown. *)
Theorem color_of_ice_state s :
  getConnectionStateColor (ConnectionState_string s) =
    match s with
    | CsConnected => "bg-green-500"
    | CsFailed | CsDisconnected => "bg-red-500"
    | CsNew | CsChecking | CsCompleted | CsClosed => "bg-gray-500"
    end.
Proof. by destruct s. Qed.

Lemma isPeerIdEmpty_spec p : isPeerIdEmpty p = negb (truthy p).
Proof.
  unfold isPeerIdEmpty, is_str. destruct (truthy p) eqn:Hp; [|done].
  case_bool_decide; by subst.
Qed.

Lemma isMediaStreamReady_spec b s :
  isMediaStreamReady b s = true ↔ b = true ∧ ∃ x, s = Some x.
Proof.
  unfold isMediaStreamReady. rewrite andb_true_iff, bool_decide_eq_true. destruct s; naive_solver.
Qed.

#[export] Hint Rewrite isPeerIdEmpty_spec : webrtc.
