(* ===== verification/Page.v ===== *)
(** * The page ([app/page.tsx], component [Home])

    The state is in [Refs] ([useRef]) and [State] ([useState]).  A handler is
    a function of the [State] its closure captured: the render a button
    handler or effect belongs to, and the first render for everything the
    mount effect installs.  [step] is one turn of the event loop. *)
From S2P Require Import Prelude JsValue WebrtcConstants SignalingTypes Async Browser React WebrtcHelpers.

(** ** State *)

Record Refs := mkRefs {
  peerConnectionRef : option nat;
  localVideoRef : option string;
  remoteVideoRef : option string;
  localStreamRef : option MediaStream;
  peerIdRef : jsval;
  isNegotiatingRef : bool;
}.

(** [pendingSDP] is a message object with its identity: the position of its
    receipt in the trace. *)
Record State := mkState {
  socket : option nat;
  clientId : jsval;
  peerId : jsval;
  pendingSDP : option (nat * jsval);
  connectionState : string;
  isLocalStreamReady : bool;
}.

Definition initRefs : Refs := mkRefs None None None None (JStr "") false.

Definition initState : State := mkState None JNull (JStr "") None "disconnected" false.

Inductive Update :=
| SetSocket (ws : nat)
| SetClientId (id : jsval)
| SetPeerId (id : jsval)
| SetPendingSDP (m : option (nat * jsval))
| SetConnectionState (s : string)
| SetIsLocalStreamReady (b : bool).

Definition apply_update (u : Update) (s : State) : State :=
  match s with
  | mkState sock cid pid sdp cs rdy =>
      match u with
      | SetSocket ws => mkState (Some ws) cid pid sdp cs rdy
      | SetClientId id => mkState sock id pid sdp cs rdy
      | SetPeerId id => mkState sock cid id sdp cs rdy
      | SetPendingSDP m => mkState sock cid pid m cs rdy
      | SetConnectionState c => mkState sock cid pid sdp c rdy
      | SetIsLocalStreamReady b => mkState sock cid pid sdp cs b
      end
  end.

(** [renders] are the states of the renders so far: a closure holds one of them.
    What the mount effect's handlers captured: the state of its render and the
    objects it created. *)
Record Mount := mkMount { mount_env : State; mount_ws : nat; mount_pc : nat }.

Record Fiber := mkFiber {
  mount : option Mount;
  mounted : bool;
  peerIdSlot : option (Slot unit);
  sdpSlot : option (Slot unit);
  renders : list State;
}.

Definition initFiber : Fiber := mkFiber None false None None [].

(** ** Field updates *)

Definition set_peerConnection (pc : nat) (r : Refs) : Refs :=
  mkRefs (Some pc) (localVideoRef r) (remoteVideoRef r) (localStreamRef r) (peerIdRef r)
    (isNegotiatingRef r).
Definition set_videos (l v : option string) (r : Refs) : Refs :=
  mkRefs (peerConnectionRef r) l v (localStreamRef r) (peerIdRef r) (isNegotiatingRef r).
Definition set_localStream (s : MediaStream) (r : Refs) : Refs :=
  mkRefs (peerConnectionRef r) (localVideoRef r) (remoteVideoRef r) (Some s) (peerIdRef r)
    (isNegotiatingRef r).
Definition set_peerId (p : jsval) (r : Refs) : Refs :=
  mkRefs (peerConnectionRef r) (localVideoRef r) (remoteVideoRef r) (localStreamRef r) p
    (isNegotiatingRef r).
Definition set_isNegotiating (b : bool) (r : Refs) : Refs :=
  mkRefs (peerConnectionRef r) (localVideoRef r) (remoteVideoRef r) (localStreamRef r)
    (peerIdRef r) b.

Section Page.
Context {B : BrowserAPI}.
Local Abbreviation W := (World Refs State Update Fiber).
Local Abbreviation M := (@JS W thrown Request Reply).
Local Abbreviation Promise := (@Outcome W thrown Request Reply unit).
Local Abbreviation Page := (Config Refs State Update Fiber unit).

(** ** Sending *)

Definition sendMessage (env : State) (message : list (string * jsval)) : M unit :=
  if negb (truthy (clientId env)) then ret tt
  else when_some (socket env) (λ ws,
         send_text ws (JSON_stringify (obj_spread [("from", clientId env)] message))).

(** ** The caller's side *)

(** The part of [createOffer] inside [try]. *)
Definition createOffer_body (env : State) (pc : nat) (localStream : MediaStream) : M unit :=
  set_ref (set_isNegotiating true) ;;
  alreadyHasTracks <- hasTracksAdded pc ;;
  (if negb alreadyHasTracks then addTracksToConnection pc localStream else ret tt) ;;
  offer <- request (CreateOffer pc) ;;
  request (SetLocalDescription pc offer) ;;
  sendMessage env [("to", peerId env); ("sdp", offer);
                   ("type", JStr (OFFER MESSAGE_TYPES))].

Definition createOffer (env : State) : M unit :=
  peerConnection <- ref peerConnectionRef ;;
  localStream <- ref localStreamRef ;;
  isAlreadyNegotiating <- ref isNegotiatingRef ;;
  let hasPeerId := negb (isPeerIdEmpty (peerId env)) in
  let isStreamReady := isMediaStreamReady (isLocalStreamReady env) localStream in
  match peerConnection, hasPeerId with
  | Some pc, true =>
      match isStreamReady, localStream with
      | true, Some stream =>
          if isAlreadyNegotiating : bool then ret tt
          else try_catch (createOffer_body env pc stream)
                 (λ _, set_ref (set_isNegotiating false))
      | _, _ => alert "カメラの準備ができていません"
      end
  | _, _ => alert "接続先のClient IDを入力してください"
  end.

(** ** The callee's side *)

Definition adopt_peer (from : jsval) : M unit :=
  setState (SetPeerId from) ;;
  set_ref (set_peerId from).

(** The part of [handleSDPMessage] inside [try]. *)
Definition handleSDPMessage_body (env : State) (data : jsval) (pc : nat)
    (localStream : option MediaStream) : M unit :=
  from <- may_throw (get_prop data "from") ;;
  let hasSenderInfo := bool_decide (from ≠ JUndef) in
  let currentPeerIdIsEmpty := isPeerIdEmpty (peerId env) in
  (if hasSenderInfo && currentPeerIdIsEmpty then adopt_peer from else ret tt) ;;
  sdp <- may_throw (get_prop data "sdp") ;;
  type <- may_throw (get_prop sdp "type") ;;
  let isOfferMessage := is_str type (OFFER MESSAGE_TYPES) in
  hasTracks <- hasTracksAdded pc ;;
  match isOfferMessage, localStream, negb hasTracks with
  | true, Some stream, true => addTracksToConnection pc stream
  | _, _, _ => ret tt
  end ;;
  description <- may_throw (newRTCSessionDescription sdp) ;;
  request (SetRemoteDescription pc description) ;;
  if isOfferMessage then
    set_ref (set_isNegotiating true) ;;
    answer <- request (CreateAnswer pc) ;;
    request (SetLocalDescription pc answer) ;;
    sendMessage env [("to", from); ("sdp", answer); ("type", JStr (ANSWER MESSAGE_TYPES))]
  else ret tt.

Definition handleSDPMessage (env : State) (data : jsval) : M unit :=
  peerConnection <- ref peerConnectionRef ;;
  localStream <- ref localStreamRef ;;
  when_some peerConnection (λ pc,
    try_catch (handleSDPMessage_body env data pc localStream)
      (λ _, set_ref (set_isNegotiating false))).

Definition handleIceCandidateMessage (env : State) (data : jsval) : M unit :=
  peerConnection <- ref peerConnectionRef ;;
  when_some peerConnection (λ pc,
    try_catch
      (from <- may_throw (get_prop data "from") ;;
       let hasSenderInfo := bool_decide (from ≠ JUndef) in
       let currentPeerIdIsEmpty := isPeerIdEmpty (peerId env) in
       (if hasSenderInfo && currentPeerIdIsEmpty then adopt_peer from else ret tt) ;;
       payload <- may_throw (get_prop data "candidate") ;;
       candidate <- may_throw (newRTCIceCandidate payload) ;;
       request (AddIceCandidate pc candidate))
      (λ _, ret tt)).

(** ** The handlers the mount effect installs *)

(** [ws.onmessage] *)
Definition onmessage (env : State) (data : string) : M (list Promise) :=
  message <- may_throw (JSON_parse data) ;;
  object <- gets (λ w, length (io (host w))) ;;
  emit (IoReceive message) ;;
  isWelcome <- may_throw (isWelcomeMessage message) ;;
  if isWelcome : bool then
    id <- may_throw (get_prop message "id") ;;
    setState (SetClientId id) ;;
    ret []
  else
    isSDP <- may_throw (isSDPMessage message) ;;
    if isSDP : bool then
      setState (SetPendingSDP (Some (object, message))) ;;
      ret []
    else
      isCandidate <- may_throw (isICECandidateMessage message) ;;
      if isCandidate : bool then async_handler (handleIceCandidateMessage env message)
      else ret [].

(** [peerConnection.onicecandidate]; [None] is the end of the gathering. *)
Definition onicecandidate (env : State) (candidate : option jsval) : M unit :=
  to <- ref peerIdRef ;;
  let hasPeerId := negb (is_str to "") in
  match candidate with
  | Some c =>
      if hasPeerId then
        sendMessage env [("to", to); ("candidate", c); ("type", JStr (CANDIDATE MESSAGE_TYPES))]
      else ret tt
  | None => ret tt
  end.

(** [peerConnection.oniceconnectionstatechange], with the state it reads *)
Definition oniceconnectionstatechange (iceConnectionState : string) : M unit :=
  setState (SetConnectionState iceConnectionState).

(** [peerConnection.ontrack], with [event.streams[0]] *)
Definition ontrack (remoteStream : option MediaStream) : M unit :=
  remoteVideoElement <- ref remoteVideoRef ;;
  when_some remoteVideoElement (λ el,
    when_some remoteStream (λ s, emit (IoSrcObject el s))).

(** [peerConnection.onsignalingstatechange], with the state it reads *)
Definition onsignalingstatechange (currentState : string) : M unit :=
  let isNegotiationComplete := bool_decide (currentState = STABLE SIGNALING_STATES) in
  if isNegotiationComplete then set_ref (set_isNegotiating false) else ret tt.

(** ** The effects *)

(** A browser without [navigator.mediaDevices], where the call throws, is one
    whose request is rejected. *)
Definition initLocalStream : M unit :=
  try_catch
    (stream <- request (GetUserMedia MEDIA_CONSTRAINTS) ;;
     set_ref (set_localStream stream) ;;
     localVideoElement <- ref localVideoRef ;;
     when_some localVideoElement (λ el, emit (IoSrcObject el stream)) ;;
     setState (SetIsLocalStreamReady true))
    (λ _, alert "カメラ・マイクへのアクセスが拒否されました").

Definition set_fiber (f : Fiber → Fiber) : M unit := modify (λ w, with_fiber (f (fiber w)) w).

(** The mount effect after the call of [initLocalStream]. *)
Definition connect (envUrl : option string) (window : option Location) (env : State) : M unit :=
  ws <- new_WebSocket (getWebSocketUrl envUrl window) ;;
  setState (SetSocket ws) ;;
  pc <- new_RTCPeerConnection RTC_CONFIGURATION ;;
  set_ref (set_peerConnection pc) ;;
  set_fiber (λ f, mkFiber (Some (mkMount env ws pc)) true (peerIdSlot f) (sdpSlot f)
                    (renders f)).

(** The clean-up of the mount effect. *)
Definition disconnect (m : Mount) : M unit :=
  close_socket (mount_ws m) ;;
  pc <- ref peerConnectionRef ;;
  when_some pc close_pc ;;
  stream <- ref localStreamRef ;;
  when_some stream stop_tracks.

(** [useEffect(() => { peerIdRef.current = peerId }, [peerId])] *)
Definition peerIdEffect (env : State) : M unit :=
  slot <- gets (λ w, peerIdSlot (fiber w)) ;;
  slot' <- run_effect slot [DepVal (peerId env)]
             (set_ref (set_peerId (peerId env))) (λ _, ret tt) ;;
  set_fiber (λ f, mkFiber (mount f) (mounted f) (Some slot') (sdpSlot f) (renders f)).

(** The body of the effect on [[clientId, pendingSDP]]. *)
Definition process_pending (env : State) : M (list Promise) :=
  match truthy (clientId env), pendingSDP env with
  | true, Some (object, message) =>
      emit (IoHandle object) ;;
      p <- start (handleSDPMessage env message) ;;
      setState (SetPendingSDP None) ;;
      ret [p]
  | _, _ => ret []
  end.

Definition sdp_deps (env : State) : list dep :=
  [DepVal (clientId env); dep_ref JNull (fst <$> pendingSDP env)].

Definition sdpEffect (env : State) : M (list Promise) :=
  slot <- gets (λ w, sdpSlot (fiber w)) ;;
  if bool_decide (slot_deps <$> slot = Some (sdp_deps env)) then ret []
  else
    set_fiber (λ f, mkFiber (mount f) (mounted f) (peerIdSlot f)
                      (Some (mkSlot (sdp_deps env) tt)) (renders f)) ;;
    process_pending env.

(** ** The event loop *)

Inductive Event :=
| EvMount (envUrl : option string) (window : option Location)
| EvRender
| EvUnmount
| EvMessage (data : string)
| EvReadyState (ws : nat) (rs : ReadyState)
| EvIceCandidate (candidate : option jsval)
| EvIceConnectionState (s : string)
| EvTrack (s : option MediaStream)
| EvSignalingState (s : string)
| EvPeer (pc : nat) (p : PC)
| EvInput (text : string)
| EvConnect
| EvSettle (i : nat) (f : Answer).

(** A render calls [Home] with the current state, which closures capture. *)
Definition record_render (w : W) : W :=
  let f := fiber w in
  with_fiber (mkFiber (mount f) (mounted f) (peerIdSlot f) (sdpSlot f)
                (renders f ++ [hooks w])) w.

(** A re-render: the queued updates become the current state first. *)
Definition commit_state (w : W) : W :=
  record_render (with_queue [] (with_hooks (flush apply_update (queue w) (hooks w)) w)).

(** A render after the first: only the effects whose dependencies changed
    run; the mount effect has none.  The commit and its effects are one step:
    events that arrive between the two are not modelled. *)
Definition render (c : Page) : Page :=
  let c := env_world commit_state c in
  let env := hooks (world c) in
  let c := dispatch (sync_handler (peerIdEffect env)) c in
  dispatch (sdpEffect env) c.

(** The first render: React attaches the video elements and all effects run
    in order. *)
Definition first_render (envUrl : option string) (window : option Location) (c : Page) : Page :=
  let c := env_world record_render c in
  let c := env_world (on_refs (set_videos (Some "local") (Some "remote"))) c in
  let env := hooks (world c) in
  let c := dispatch (sync_handler (peerIdEffect env)) c in
  let c := dispatch (async_handler initLocalStream) c in
  let c := dispatch (sync_handler (connect envUrl window env)) c in
  dispatch (sdpEffect env) c.

Definition unmount (m : Mount) (c : Page) : Page :=
  let c := env_world (on_refs (set_videos None None)) c in
  dispatch (sync_handler
    (disconnect m ;;
     set_fiber (λ f, mkFiber (mount f) false (peerIdSlot f) (sdpSlot f) (renders f)))) c.

(** [disabled={!isLocalStreamReady || !peerId}] *)
Definition connect_disabled (env : State) : bool :=
  negb (isLocalStreamReady env) || negb (truthy (peerId env)).

(** A turn of the event loop; React's work for a render is one turn. *)
Definition step (e : Event) (c : Page) : option Page :=
  let w := world c in
  let env := hooks w in
  match e, mount (fiber w) with
  | EvMount envUrl window, None =>
      enabled (bool_decide (renders (fiber w) = [])) (first_render envUrl window c)
  | EvRender, Some _ => enabled (mounted (fiber w)) (render c)
  | EvUnmount, Some m => enabled (mounted (fiber w)) (unmount m c)
  | EvMessage data, Some m => Some (dispatch (onmessage (mount_env m) data) c)
  | EvReadyState ws rs, _ =>
      Some (env_world (on_host (set_ready_state ws (λ _, rs))) c)
  | EvIceCandidate cand, Some m =>
      Some (dispatch (sync_handler (onicecandidate (mount_env m) cand)) c)
  | EvIceConnectionState s, Some _ =>
      Some (dispatch (sync_handler (oniceconnectionstatechange s)) c)
  | EvTrack s, Some _ => Some (dispatch (sync_handler (ontrack s)) c)
  | EvSignalingState s, Some _ => Some (dispatch (sync_handler (onsignalingstatechange s)) c)
  | EvPeer pc p, _ =>
      Some (env_world (on_host (λ h, with_peers (<[pc := p]> (peers h)) h)) c)
  | EvInput text, Some _ =>
      enabled (mounted (fiber w))
        (dispatch (sync_handler (setState (SetPeerId (JStr text)))) c)
  | EvConnect, Some _ =>
      enabled (mounted (fiber w) && negb (connect_disabled env))
        (dispatch (async_handler (createOffer env)) c)
  | EvSettle i f, _ => settle i f c
  | _, _ => None
  end.

Definition init : Page := mkConfig (mkWorld emptyHost initRefs initState [] initFiber) [].

Abbreviation page_reachable := (reachable step init).
End Page.
