(* ===== verification/PageHears.v ===== *)
(** * What the page hears

    [calm]: every step of some code, also after an await, is in a relation of
    states; [hush] walks along a handler to show it, for any relation that
    routine events have no part in ([Ignores]) and that allows the changes the
    handler makes ([Harmless]).  With the relation [unheard]: only the arrival of
    a message adds a received message to the trace, which is the value of its
    text, and only a welcome assigns an id. *)
From S2P Require Import Prelude JsValue SignalingTypes Async Browser Messages React WebrtcHelpers Page.

Local Abbreviation World' := (World Refs State Update Fiber).

Definition always {B : BrowserAPI} (w : World') : Prop := True.

(** The events of the trace other than receipts and requests of an offer. *)
Definition routine (e : IO) : Prop :=
  match e with IoReceive _ | IoRequest (CreateOffer _) => False | _ => True end.

(** A relation of states that routine events and the fiber have no part in. *)
Class Ignores {B : BrowserAPI} (guar : relation World') : Prop := {
  ignores_preorder :: PreOrder guar;
  ignores_routine w w' es :
    io (host w') = io (host w) ++ es → Forall routine es →
    refs w' = refs w → hooks w' = hooks w → queue w' = queue w → guar w w';
}.

(** A change of the state that the relation allows. *)
Class Harmless {B : BrowserAPI} (guar : relation World') (f : World' → World') : Prop :=
  harmless w : guar w (f w).

#[export] Instance ignores_rely_guarantee {B : BrowserAPI} (guar : relation World') :
  Ignores guar → RelyGuarantee anything guar.
Proof. intros Hg. apply anything_guarantee, Hg. Qed.

Section Calm.
Context {B : BrowserAPI} (guar : relation World') {HI : Ignores guar}.
Local Abbreviation W := World'.
Local Abbreviation M := (@JS W thrown Request Reply).
Implicit Types (w : W).

(** Code whose every step, also after an await, is in the relation. *)
Definition calm {A} (m : M A) : Prop := safe always anything guar m.

Lemma ignores_event w w' e :
  io (host w') = io (host w) ++ [e] → routine e →
  refs w' = refs w → hooks w' = hooks w → queue w' = queue w → guar w w'.
Proof. intros Hio He. apply (ignores_routine _ _ [e]); [done|]. by constructor. Qed.

Lemma calm_modify f : Harmless guar f → calm (modify f).
Proof. intros Hf. apply safe_modify. intros w _. split; [done|apply Hf]. Qed.

Lemma calm_told f e :
  (∀ w, io (host (f w)) = io (host w) ++ [e] ∧
     refs (f w) = refs w ∧ hooks (f w) = hooks w ∧ queue (f w) = queue w) → routine e →
  calm (modify f).
Proof.
  intros Hf He. apply calm_modify. intros w. destruct (Hf w) as (? & ? & ? & ?).
  by apply (ignores_event _ _ e).
Qed.

Lemma calm_emit e : routine e → calm (emit e).
Proof. intros He. by apply (calm_told _ e). Qed.

Lemma calm_set_fiber f : calm (set_fiber f).
Proof. apply calm_modify. intros w. apply (ignores_routine _ _ []); [by rewrite app_nil_r|by constructor|done..]. Qed.

Lemma calm_request r : Harmless guar (on_host (log (IoRequest r))) → calm (request r : M _).
Proof.
  intros Hr. apply safe_bind; [apply _|by apply calm_modify|]. intros _. apply safe_await. apply _.
Qed.

(** A synchronous operation that logs at most one event. *)
Lemma calm_sync {X} (f : W → thrown + W * X) :
  (∀ w w' x, f w = inr (w', x) →
     w' = w ∨ ∃ e, routine e ∧ io (host w') = io (host w) ++ [e] ∧
       refs w' = refs w ∧ hooks w' = hooks w ∧ queue w' = queue w) → calm (sync f).
Proof.
  intros Hf. apply safe_sync; [apply _|]. intros w w' x _ Heq. split; [done|].
  destruct (Hf w w' x Heq) as [->|(e & He & ? & ? & ? & ?)]; [reflexivity|by apply (ignores_event _ _ e)].
Qed.

Lemma calm_may_throw {X} (r : thrown + X) : calm (may_throw r : M X).
Proof. apply calm_sync. intros w w' x Hs. left. by destruct r; simplify_eq. Qed.

Lemma calm_send_text ws text : calm (send_text ws text : M unit).
Proof.
  apply calm_sync. intros w w' x Hs. repeat case_match; simplify_eq; [|by left].
  right. by exists (IoSend ws text).
Qed.

Lemma calm_pc_addTrack pc t s : calm (pc_addTrack pc t s : M unit).
Proof.
  apply calm_sync. intros w w' x Hs. repeat case_match; simplify_eq; [|by left].
  right. by exists (IoAddTrack pc t).
Qed.

Lemma calm_addTracks pc s : calm (addTracksToConnection pc s : M unit).
Proof. apply safe_forEach; [apply _|]. intros t. apply calm_pc_addTrack. Qed.

Lemma calm_new_WebSocket url : calm (new_WebSocket url : M nat).
Proof.
  apply calm_sync. intros w w' x Hs. right. cbv zeta in Hs.
  destruct (newWebSocket url); simplify_eq. by eexists (IoNewWebSocket _ _).
Qed.

Lemma calm_new_RTCPeerConnection config : calm (new_RTCPeerConnection config : M nat).
Proof. apply calm_sync. intros w w' x [= <- _]. right. by eexists (IoNewPC _). Qed.

Lemma calm_stop_tracks s : calm (stop_tracks s : M unit).
Proof. apply safe_forEach; [apply _|]. intros t. by apply (calm_told _ (IoStopTrack t)). Qed.

Lemma calm_close_socket ws : calm (close_socket ws : M unit).
Proof. by apply (calm_told _ (IoCloseWs ws)). Qed.

Lemma calm_close_pc pc : calm (close_pc pc : M unit).
Proof. by apply (calm_told _ (IoClosePC pc)). Qed.

(** ** Handlers that return the promises they started *)

Definition mute (m : M (list (Outcome W Reply unit))) : Prop := ∀ w,
  wp always anything guar m
    (λ ps w, Forall (@promise_ok W thrown Request Reply always anything guar unit w) ps)
    (λ _ _, True) w.

Lemma mute_none : mute (ret []).
Proof. intros w. by js wp_ret; [|constructor]. Qed.

Lemma mute_bind {X} (m : M X) f : calm m → (∀ x, mute (f x)) → mute (bind m f).
Proof.
  intros Hm Hf w. js wp_bind. eapply wp_mono; [by apply Hm| |done]. intros x w' _ _. by apply Hf.
Qed.

Lemma mute_sync m : calm m → mute (sync_handler m).
Proof. intros Hm w. apply wp_sync_handler; [apply _|]. by apply Hm. Qed.

Lemma mute_async m : calm m → mute (async_handler m).
Proof. intros Hm w. apply wp_async_handler; [apply _|]. by apply Hm. Qed.

Lemma mute_one (m f : M unit) : calm m → calm f → mute (p <- start m ;; f ;; ret [p]).
Proof.
  intros Hm Hf w. js wp_bind. js wp_start; [by apply Hm|]. intros o w1 _ _ Ho.
  js wp_bind. eapply wp_mono; [by apply Hf| |done]. intros _ w2 _ _. js wp_ret; [done|].
  apply Forall_singleton. eapply (promise_ok_later _ _ _ w1); done.
Qed.

(** What a handler does to a configuration. *)
Lemma mute_dispatch m (c : Config Refs State Update Fiber unit) :
  mute m → guar (world c) (world (dispatch m c)) ∧
  ∃ ps, tasks (dispatch m c) = tasks c ++ ps ∧
    Forall (@promise_ok W thrown Request Reply always anything guar unit (world (dispatch m c))) ps.
Proof.
  intros Hm. specialize (Hm (world c)). unfold wp in Hm. unfold dispatch.
  destruct (m (world c)) as [w o]. destruct Hm as (_ & Hg & Ho).
  destruct o as [ps|e|r k]; (split; [done|]); [by exists ps|exists []; by rewrite app_nil_r..].
Qed.
End Calm.

Ltac head_of t := lazymatch t with ?f _ => head_of f | _ => t end.

(** Walk along a handler. *)
Ltac hush :=
  lazymatch goal with
  | |- calm _ _ => unfold calm; hush
  | |- safe _ _ _ (bind _ _) => apply safe_bind; [apply _|hush|intros ?; hush]
  | |- safe _ _ _ (try_catch _ _) => apply safe_try; [apply _|hush|intros ?; hush]
  | |- safe _ _ _ (match ?x with _ => _ end) => destruct x; hush
  | |- safe _ _ _ (ret _) => apply safe_ret; apply _
  | |- safe _ _ _ (gets _) => apply safe_gets; apply _
  | |- safe _ _ _ (ref _) => apply safe_gets; apply _
  | |- safe _ _ _ (when_some ?o _) => destruct o; simpl; hush
  | |- safe _ _ _ (set_ref _) => apply calm_modify; apply _
  | |- safe _ _ _ (set_fiber _) => apply calm_set_fiber; apply _
  | |- safe _ _ _ (setState _) => apply calm_modify; apply _
  | |- safe _ _ _ (emit _) => apply calm_emit; [apply _|done]
  | |- safe _ _ _ (alert _) => apply calm_emit; [apply _|done]
  | |- safe _ _ _ (request _) => apply calm_request; apply _
  | |- safe _ _ _ (may_throw _) => apply calm_may_throw; apply _
  | |- safe _ _ _ (send_text _ _) => apply calm_send_text; apply _
  | |- safe _ _ _ (addTracksToConnection _ _) => apply calm_addTracks; apply _
  | |- safe _ _ _ (new_WebSocket _) => apply calm_new_WebSocket; apply _
  | |- safe _ _ _ (new_RTCPeerConnection _) => apply calm_new_RTCPeerConnection; apply _
  | |- safe _ _ _ (close_socket _) => apply calm_close_socket; apply _
  | |- safe _ _ _ (close_pc _) => apply calm_close_pc; apply _
  | |- safe _ _ _ (stop_tracks _) => apply calm_stop_tracks; apply _
  | |- safe _ _ _ ?m => let h := head_of m in unfold h; cbv zeta; hush
  end.

(** ** A message *)

Section Message.
Context {B : BrowserAPI}.
Local Abbreviation W := World'.
Local Abbreviation M := (@JS W thrown Request Reply).

(** What [onmessage] does with a value that is not a welcome. *)
Definition received_message (env : State) (n : nat) (message : jsval) : M (list (Outcome W Reply unit)) :=
  isSDP <- may_throw (isSDPMessage message) ;;
  if isSDP : bool then setState (SetPendingSDP (Some (n, message))) ;; ret []
  else
    isCandidate <- may_throw (isICECandidateMessage message) ;;
    if isCandidate : bool then async_handler (handleIceCandidateMessage env message) else ret [].

Lemma onmessage_dispatch env data (c : Config Refs State Update Fiber unit) :
  dispatch (onmessage env data) c =
    match JSON_parse data with
    | inl _ => c
    | inr v =>
        let c1 := env_world (on_host (log (IoReceive v))) c in
        match isWelcomeMessage v with
        | inl _ => c1
        | inr true => match get_prop v "id" with
                      | inl _ => c1
                      | inr id => env_world (enqueue [SetClientId id]) c1
                      end
        | inr false => dispatch (received_message env (length (io (host (world c)))) v) c1
        end
    end.
Proof.
  unfold dispatch, onmessage. destruct (JSON_parse data) as [e|v]; simpl; [by destruct c|].
  unfold bind at 1 2 3. simpl. unfold bind at 1, may_throw at 1, sync.
  destruct (isWelcomeMessage v) as [e|[]]; simpl; [done| |done].
  unfold bind, may_throw, sync. destruct (get_prop v "id"); simpl; [done|]. by rewrite app_nil_r.
Qed.

Lemma mute_received_message (guar : relation W) {HI : Ignores guar} env n v :
  (∀ m, Harmless guar (λ w, with_queue (queue w ++ [SetPendingSDP m]) w)) →
  calm guar (handleIceCandidateMessage env v) → mute guar (received_message env n v).
Proof.
  intros Hm Hc. unfold received_message.
  apply mute_bind; [apply _|hush|intros [|]];
    [repeat (apply mute_bind; [apply _|hush|intros ?]); apply mute_none; apply _|].
  apply mute_bind; [apply _|hush|intros [|]]; [by apply mute_async|apply mute_none; apply _].
Qed.
End Message.

(** ** Receipts and the client's id *)

Section Unheard.
Context {B : BrowserAPI}.
Implicit Types (w : World').

Definition page_received w : list jsval := received (io (host w)).

(** The client's id of the next render. *)
Definition next_id w : jsval := clientId (flush apply_update (queue w) (hooks w)).

(** A step that receives nothing and assigns no id. *)
Definition unheard : relation World' := λ w w',
  page_received w' = page_received w ∧ next_id w' = next_id w.

#[export] Instance unheard_preorder : PreOrder unheard.
Proof. split; [done|]. intros w1 w2 w3 [H1 H2] [H3 H4]. split; by etrans. Qed.

Definition silent (e : IO) : Prop := match e with IoReceive _ => False | _ => True end.

Lemma received_silent tr es : Forall silent es → received (tr ++ es) = received tr.
Proof.
  intros Hes. unfold received. rewrite omap_app. assert (omap _ es = []) as ->; [|apply app_nil_r].
  induction Hes as [|e es He _ IH]; [done|]. by destruct e.
Qed.

#[export] Instance unheard_ignores : Ignores unheard.
Proof.
  split; [apply _|]. intros w w' es Hio Hes _ Hh Hq.
  split; [|unfold next_id; by rewrite Hh, Hq]. unfold page_received. rewrite Hio. apply received_silent.
  eapply Forall_impl; [exact Hes|]. by intros [].
Qed.

#[export] Instance unheard_request r : Harmless unheard (on_host (log (IoRequest r))).
Proof. intros w. split; [|done]. apply received_silent. by constructor. Qed.

#[export] Instance unheard_refs f : Harmless unheard (on_refs f).
Proof. by intros w. Qed.

Definition assigns_id (u : Update) : bool := match u with SetClientId _ => true | _ => false end.

#[export] Instance unheard_update u :
  TCEq (assigns_id u) false → Harmless unheard (λ w, with_queue (queue w ++ [u]) w).
Proof.
  intros Hu%TCEq_eq w. split; [done|]. unfold next_id. simpl. rewrite flush_app.
  by destruct (flush apply_update (queue w) (hooks w)), u.
Qed.
End Unheard.

Section Events.
Context {B : BrowserAPI}.
Local Abbreviation W := (World Refs State Update Fiber).
Local Abbreviation M := (@JS W thrown Request Reply).
Local Abbreviation Page := (Config Refs State Update Fiber unit).
Implicit Types (c : Page).

Local Abbreviation deaf := (calm unheard).
Local Abbreviation mute := (mute unheard).

(** The pending promises receive nothing. *)
Definition hears c : Prop := config_ok always anything unheard c.

Lemma deaf_handleSDPMessage env v : deaf (handleSDPMessage env v).
Proof. hush. Qed.

Lemma deaf_createOffer env : deaf (createOffer env).
Proof. hush. Qed.

Lemma deaf_initLocalStream : deaf initLocalStream.
Proof. hush. Qed.

Lemma deaf_candidate env v : deaf (handleIceCandidateMessage env v).
Proof. hush. Qed.

Lemma mute_sdpEffect env : mute (sdpEffect env).
Proof.
  unfold sdpEffect. apply mute_bind; [apply _|hush|intros slot].
  case_match; [apply mute_none; apply _|]. apply mute_bind; [apply _|hush|intros _].
  unfold process_pending. repeat case_match; try (apply mute_none; apply _).
  apply mute_bind; [apply _|hush|intros _]. apply mute_one; [apply _|apply deaf_handleSDPMessage|hush].
Qed.

(** ** The event loop *)

(** [c] has received what [c0] had, and its id. *)
Definition heard_same c0 c : Prop := hears c ∧ unheard (world c0) (world c).

Lemma hears_dispatch c0 m c : mute m → heard_same c0 c → heard_same c0 (dispatch m c).
Proof.
  intros Hm [Hc Hr]. destruct (dispatch_ok always anything unheard m c Hc (Hm (world c))) as [? Hr'].
  split; [done|]. by etrans.
Qed.

Lemma hears_env c0 f c : Harmless unheard f → heard_same c0 c → heard_same c0 (env_world f c).
Proof.
  intros Hf [Hc Hr]. split; [by apply env_world_ok; [apply _|..]|]. etrans; [done|]. apply Hf.
Qed.

(** What the step adds to the received values: nothing, or the value of the text
    that arrives. *)
Definition receives (e : Event) : list jsval :=
  match e with
  | EvMessage data => match JSON_parse data with inr v => [v] | inl _ => [] end
  | _ => []
  end.

(** The id after [v] was received. *)
Definition assigns (v : jsval) (id : jsval) : jsval :=
  match isWelcomeMessage v, get_prop v "id" with inr true, inr i => i | _, _ => id end.

Lemma hears_message env data c :
  hears c →
  let c' := dispatch (onmessage env data) c in
  hears c' ∧ page_received (world c') = page_received (world c) ++ receives (EvMessage data) ∧
  next_id (world c') = foldr assigns (next_id (world c)) (receives (EvMessage data)).
Proof.
  intros Hc. cbv zeta. rewrite onmessage_dispatch. simpl. destruct (JSON_parse data) as [e|v].
  - by rewrite app_nil_r.
  - set (n := length (io (host (world c)))). set (c1 := env_world (on_host (log (IoReceive v))) c).
    assert (hears c1) as Hc1 by by apply env_world_ok; [apply _|..].
    assert (page_received (world c1) = page_received (world c) ++ [v]) as Hv
      by (unfold page_received, received; simpl; by rewrite omap_app).
    unfold assigns. simpl. destruct (isWelcomeMessage v) as [e|[]]; [done|destruct (get_prop v "id") as [|id]; [done|]|].
    + split_and!; [by apply env_world_ok; [apply _|..]|done|]. unfold next_id. simpl. rewrite flush_app.
      simpl. by destruct (flush apply_update (queue (world c)) (hooks (world c))).
    + destruct (hears_dispatch c1 (received_message env n v) c1) as [? [Hs Hi]]; [|done|].
      { apply mute_received_message; [apply _|apply _|apply deaf_candidate]. }
      split_and!; [done|by rewrite Hs|by rewrite Hi].
Qed.

Lemma commit_unheard : Harmless unheard commit_state.
Proof. by intros w. Qed.

Lemma step_receives e c c' :
  hears c → step e c = Some c' →
  hears c' ∧ page_received (world c') = page_received (world c) ++ receives e ∧
  next_id (world c') = foldr assigns (next_id (world c)) (receives e).
Proof.
  intros Hc Hs. assert (heard_same c c) as H0 by done.
  destruct e as [| | |data| | | | | | | | |i f]; simpl in Hs; cbv zeta in Hs;
    try (destruct (mount (fiber (world c))) as [m|]; try done);
    try (apply enabled_Some in Hs as [_ <-]); simplify_eq;
    try (by apply hears_message); cbn [receives foldr]; rewrite app_nil_r;
    try (by destruct (settle_ok _ _ _ i f c c' Hc Hs) as [? []]).
  all: match goal with |- hears ?c' ∧ _ => cut (heard_same c c'); [by intros [? []]|] end.
  all: repeat first
    [apply hears_dispatch; [first [apply mute_sync; [apply _|hush]|apply mute_sdpEffect
       |apply mute_async; [apply _|apply deaf_createOffer || apply deaf_initLocalStream]]|]
    |apply hears_env; [first [apply commit_unheard|by intros w]|]]; try done.
Qed.
Lemma reachable_hears c : reachable step init c → hears c.
Proof.
  apply reachable_ind_inv; [by split|]. intros e c1 c2 Hc Hs. by eapply step_receives.
Qed.
End Events.
