(* ===== verification/PageExamples.v ===== *)
(** * Runs of the page on the reference browser *)
From S2P Require Import Prelude JsValue SignalingTypes Async Browser ReferenceBrowser Json React WebrtcHelpers Page.

#[local] Existing Instance RefBrowser.

Definition ex_camera : MediaStream :=
  mkMediaStream 0 [mkTrack 1 "audio" "mic"; mkTrack 2 "video" "cam"].

Definition ex_sdp (kind : string) : jsval := JObj [("type", JStr kind); ("sdp", JStr "v=0")].

(** Every promise resolves. *)
Definition ex_resolve : Answer := λ r,
  match r return thrown + Reply r with
  | GetUserMedia _ => inr ex_camera
  | CreateOffer _ => inr (ex_sdp "offer")
  | CreateAnswer _ => inr (ex_sdp "answer")
  | SetLocalDescription _ _ | SetRemoteDescription _ _ | AddIceCandidate _ _ => inr tt
  end.

Definition ex_error : thrown := ErrorObj "OperationError" "failed".

(** Every promise is rejected. *)
Definition ex_reject : Answer := λ _, inl ex_error.

Definition ex_text (m : SignalingMessage) : string := print (encode m).

Definition ex_welcome : string := ex_text (WelcomeMessage "alice").
Definition ex_offer (from : string) : string :=
  ex_text (SDPOfferMessage from "alice" (ex_sdp "offer")).
Definition ex_answer (from : string) : string :=
  ex_text (SDPAnswerMessage from "alice" (ex_sdp "answer")).
Definition ex_candidate (from : string) : string :=
  ex_text (ICECandidateMessage from "alice" (JObj [("sdpMid", JStr "0")])).

Definition ex_mount : Event :=
  EvMount None (Some {| protocol := "https:"; location_host := "192.168.10.118" |}).

(** The page after it got its id and the camera. *)
Definition ex_ready : list Event :=
  [ex_mount; EvReadyState 0 WS_OPEN; EvMessage ex_welcome; EvSettle 0 ex_resolve; EvRender].

(** The user typed the peer's id. *)
Definition ex_typed : list Event := ex_ready ++ [EvInput "bob"; EvRender].

(** The connect button was clicked. *)
Definition ex_clicked : list Event := ex_typed ++ [EvConnect].

(** The offer was made and sent. *)
Definition ex_offered : list Event :=
  ex_clicked ++ [EvSettle 1 ex_resolve; EvSettle 1 ex_resolve].

(** The page answered bob's offer. *)
Definition ex_answered : list Event :=
  ex_ready ++ [EvMessage (ex_offer "bob"); EvRender; EvSettle 1 ex_resolve;
               EvSettle 1 ex_resolve; EvSettle 1 ex_resolve].

Definition sent_by (c : Config Refs State Update Fiber unit) : list string :=
  omap (λ e, match e with IoSend _ t => Some t | _ => None end) (io (host (world c))).

Example ex_offered_sends :
  sent_by (final step init ex_offered) =
    [stringify [("from", JStr "alice"); ("to", JStr "bob"); ("sdp", ex_sdp "offer");
                ("type", JStr "offer")]].
Proof. vm_compute. reflexivity. Qed.

Example ex_answered_sends :
  sent_by (final step init ex_answered) =
    [stringify [("from", JStr "alice"); ("to", JStr "bob"); ("sdp", ex_sdp "answer");
                ("type", JStr "answer")]].
Proof. vm_compute. reflexivity. Qed.
