(* ===== verification/PageInvariant.v ===== *)
(** * What the page's handlers may do

    [act] lists the atomic actions of the page's handlers with the condition
    each is taken under; it is the guarantee of every handler, and [grows] what
    they rely on.  [page_inv] is the invariant of the page's state; the last
    lemma establishes it in every reachable configuration. *)
From S2P Require Import Prelude JsValue WebrtcConstants SignalingTypes Async Browser Messages React WebrtcHelpers Page.

Section Invariant.
Context {B : BrowserAPI}.
Local Abbreviation W := (World Refs State Update Fiber).
Local Abbreviation M := (@JS W thrown Request Reply).
Local Abbreviation Promise := (@Outcome W thrown Request Reply unit).
Local Abbreviation Page := (Config Refs State Update Fiber unit).

Implicit Types (w : W) (env : State) (tr : list IO).

(** ** Provenance of data *)

Definition update_ok w (u : Update) : Prop :=
  match u with
  | SetClientId id => welcomed (io (host w)) id
  | SetPeerId p => named_peer (io (host w)) p
  | SetPendingSDP (Some (n, v)) => received_sdp (io (host w)) n v
  | SetIsLocalStreamReady true => is_Some (localStreamRef (refs w))
  | _ => True
  end.

Record env_ok w env : Prop := {
  env_id : clientId env = JNull ∨ welcomed (io (host w)) (clientId env);
  env_peer : named_peer (io (host w)) (peerId env);
  env_pending n v : pendingSDP env = Some (n, v) → received_sdp (io (host w)) n v;
  env_ready : isLocalStreamReady env = true → is_Some (localStreamRef (refs w));
}.

Lemma env_client w env :
  env_ok w env → truthy (clientId env) = true → welcomed (io (host w)) (clientId env).
Proof. intros He Hc. destruct (env_id _ _ He) as [Heq|?]; [by rewrite Heq in Hc|done]. Qed.

(** The texts the page may send: an offer to the peer of a render with an
    assigned id, or the answer to a received offer. *)
Definition offer_text env (sdp : jsval) : string :=
  JSON_stringify [("from", clientId env); ("to", peerId env); ("sdp", sdp);
                  ("type", JStr "offer")].

Definition answer_text env (to sdp : jsval) : string :=
  JSON_stringify [("from", clientId env); ("to", to); ("sdp", sdp); ("type", JStr "answer")].

Definition sendable w (text : string) : Prop :=
  ∃ env, env ∈ renders (fiber w) ∧ truthy (clientId env) = true ∧
    ((∃ sdp, truthy (peerId env) = true ∧ text = offer_text env sdp) ∨
     (∃ from sdp, received_offer (io (host w)) from ∧ text = answer_text env from sdp)).

(** ** Actions *)

(** Events of the trace that no condition is attached to. *)
Definition quiet (e : IO) : Prop :=
  match e with IoRequest _ | IoAlert _ | IoSrcObject _ _ | IoReceive _ => True | _ => False end.

(** A pending message is queued when it has just been received. *)
Definition queue_ok w (u : Update) : Prop :=
  update_ok w u ∧
  ∀ n v, u = SetPendingSDP (Some (n, v)) → S n = length (io (host w)).

Inductive act : relation W :=
| act_flag b w : act w (on_refs (set_isNegotiating b) w)
| act_stream s w : act w (on_refs (set_localStream s) w)
| act_peerId p w : named_peer (io (host w)) p → act w (on_refs (set_peerId p) w)
| act_update u w : queue_ok w u → act w (with_queue (queue w ++ [u]) w)
| act_emit e w : quiet e → act w (on_host (log e) w)
| act_send ws text w : sendable w text → act w (on_host (log (IoSend ws text)) w)
| act_tracks pc s w :
    senders_of w pc = [] → act w (fst (addTracksToConnection pc s w)).

(** What every step of the page respects. *)
Record grows w w' : Prop := {
  grows_io : io (host w) `prefix_of` io (host w');
  grows_renders : renders (fiber w) `prefix_of` renders (fiber w');
  grows_stream : is_Some (localStreamRef (refs w)) → is_Some (localStreamRef (refs w'));
  grows_mount m : mount (fiber w) = Some m → mount (fiber w') = Some m;
}.

#[export] Instance grows_preorder : PreOrder grows.
Proof.
  split.
  - intros w. by split.
  - intros w1 w2 w3 [] []. split; [by etrans|by etrans|auto|auto].
Qed.

Lemma grows_elem w w' e : grows w w' → e ∈ io (host w) → e ∈ io (host w').
Proof. intros [[l ->] _ _ _]. rewrite elem_of_app. auto. Qed.

Lemma grows_render w w' env : grows w w' → env ∈ renders (fiber w) → env ∈ renders (fiber w').
Proof. intros [_ [l ->] _ _]. rewrite elem_of_app. auto. Qed.

Lemma welcomed_grows w w' id :
  grows w w' → welcomed (io (host w)) id → welcomed (io (host w')) id.
Proof. intros [? _ _ _]. by apply welcomed_prefix. Qed.

Lemma received_sdp_grows w w' n v :
  grows w w' → received_sdp (io (host w)) n v → received_sdp (io (host w')) n v.
Proof. intros [? _ _ _]. by apply received_sdp_prefix. Qed.

Lemma named_peer_grows w w' p :
  grows w w' → named_peer (io (host w)) p → named_peer (io (host w')) p.
Proof. intros [? _ _ _]. by apply named_peer_prefix. Qed.

Lemma update_ok_grows w w' u : grows w w' → update_ok w u → update_ok w' u.
Proof.
  intros Hg. destruct u as [| | |[[n v]|]| |[]]; simpl;
    eauto using welcomed_grows, received_sdp_grows, named_peer_grows, grows_stream.
Qed.

Lemma env_ok_grows w w' env : grows w w' → env_ok w env → env_ok w' env.
Proof.
  intros Hg [Hc Hn Hp Hr]. split; eauto using received_sdp_grows, named_peer_grows, grows_stream.
  destruct Hc; eauto using welcomed_grows.
Qed.

Lemma sendable_grows w w' text : grows w w' → sendable w text → sendable w' text.
Proof.
  intros Hg (env & Hin & Hc & Ht). exists env. split_and!; [by eapply grows_render|done|].
  destruct Ht as [?|(from & sdp & (n & v & x & Hv & ?) & ->)]; [by left|right].
  exists from, sdp. split; [|done]. exists n, v, x. eauto using received_sdp_grows.
Qed.

Lemma addTracks_frame pc s w :
  ∃ ts ps, fst (addTracksToConnection pc s w) = after_add_tracks pc ts ps w.
Proof.
  destruct (peers (host w) !! pc) as [p|] eqn:Hp.
  - destruct (addTracks_run pc s w p Hp) as (k & ps & o & -> & _). by exists (take k (getTracks s)), ps.
  - rewrite addTracks_no_connection by done. exists [], (peers (host w)).
    by rewrite after_add_nothing.
Qed.

Lemma act_grows w w' : act w w' → grows w w'.
Proof.
  destruct 1 as [| | | | | |pc s w Hs]; try (split; simpl; eauto using prefix_app_r; fail).
  destruct (addTracks_frame pc s w) as (ts & ps & ->).
  split; simpl; eauto using prefix_app_r.
Qed.

Lemma acts_grow w w' : rtc act w w' → grows w w'.
Proof. induction 1; [reflexivity|]. etrans; [by apply act_grows|done]. Qed.

#[export] Instance page_rely_guarantee : RelyGuarantee grows (rtc act).
Proof. split; [apply _..|apply acts_grow]. Qed.

(** ** The invariant *)

Record page_inv w : Prop := {
  inv_hooks : env_ok w (hooks w);
  inv_renders env : env ∈ renders (fiber w) → env_ok w env;
  inv_queue u : u ∈ queue w → update_ok w u;
  inv_sent ws text : IoSend ws text ∈ io (host w) → sendable w text;
  inv_peerIdRef : named_peer (io (host w)) (peerIdRef (refs w));
  inv_unmounted : mount (fiber w) = None → hooks w = initState;
  inv_mount m : mount (fiber w) = Some m →
    mount_env m = initState ∧ hooks w ∈ renders (fiber w) ∧
    peerConnectionRef (refs w) = Some (mount_pc m);
}.

(** The trace of [w'] extends that of [w] by events that send nothing. *)
Definition sends_nothing w w' : Prop :=
  ∃ es, io (host w') = io (host w) ++ es ∧ ∀ ws text, IoSend ws text ∉ es.

(** The frame rule of the invariant: what has to be checked of a change. *)
Lemma page_inv_change w w' :
  page_inv w → grows w w' →
  hooks w' = hooks w ∨ env_ok w' (hooks w') →
  renders (fiber w') = renders (fiber w) ∨ (∀ env, env ∈ renders (fiber w') → env_ok w' env) →
  (∀ u, u ∈ queue w' → u ∈ queue w ∨ update_ok w' u) →
  sends_nothing w w' ∨ (∀ ws text, IoSend ws text ∈ io (host w') → sendable w' text) →
  peerIdRef (refs w') = peerIdRef (refs w) ∨ named_peer (io (host w')) (peerIdRef (refs w')) →
  (mount (fiber w') = None → hooks w' = initState) →
  (∀ m, mount (fiber w') = Some m →
    mount_env m = initState ∧ hooks w' ∈ renders (fiber w') ∧
    peerConnectionRef (refs w') = Some (mount_pc m)) →
  page_inv w'.
Proof.
  intros [Hh Hr Hq Hs Hp _ _] Hg Hh' Hr' Hq' Hs' Hp' Hn Hm. split; auto.
  - destruct Hh' as [->|?]; eauto using env_ok_grows.
  - intros env. destruct Hr' as [->|?]; eauto using env_ok_grows.
  - intros u Hu. destruct (Hq' u Hu); eauto using update_ok_grows.
  - intros ws text. destruct Hs' as [(es & -> & Hes)|?]; [|eauto].
    rewrite elem_of_app. intros [?|?]; [eauto using sendable_grows|by destruct (Hes ws text)].
  - destruct Hp' as [->|?]; eauto using named_peer_grows.
Qed.

Lemma named_peer_typed tr s : named_peer tr (JStr s).
Proof. left. by eexists. Qed.
Hint Resolve named_peer_typed : core.

Lemma env_ok_init w : env_ok w initState.
Proof. split; simpl; auto; done. Qed.

Lemma same_trace w w' : io (host w') = io (host w) → sends_nothing w w'.
Proof. intros Heq. exists []. rewrite app_nil_r. split; [done|]. intros ??. apply not_elem_of_nil. Qed.
Hint Resolve same_trace : core.

Lemma act_inv w w' : act w w' → page_inv w → page_inv w'.
Proof.
  intros Ha Hi. pose proof (act_grows _ _ Ha) as Hg. pose proof Hi as [_ _ _ _ _ Hn Hm].
  apply (page_inv_change w); auto;
    destruct Ha as [| |p w Hp|u w [Hu _]|e w He|ws text w Ht|pc s w Hs]; auto;
    try (destruct (addTracks_frame pc s w) as (ts & ps & Heq); rewrite Heq in *; simpl; auto).
  - intros v. simpl. rewrite elem_of_app, list_elem_of_singleton. intros [?| ->]; [by left|right].
    by eapply update_ok_grows.
  - left. exists [e]. split; [done|]. intros ws text Hin%list_elem_of_singleton. by subst.
  - right. intros ws' text'. simpl. rewrite elem_of_app, list_elem_of_singleton.
    intros [Hin|[= -> ->]]; eapply sendable_grows; eauto using inv_sent.
  - left. exists (IoAddTrack pc <$> ts). split; [done|].
    intros ws text (t & ? & ?)%list_elem_of_fmap. done.
Qed.

(** ** The handlers *)

Local Abbreviation wpp := (@wp W thrown Request Reply page_inv grows (rtc act) _).

Lemma wp_act f (Q : unit → _) (E : thrown → _) w :
  page_inv w → act w (f w) → (∀ w', grows w w' → page_inv w' → Q tt w') →
  wpp (modify f) Q E w.
Proof.
  intros Hi Ha HQ. pose proof (act_inv _ _ Ha Hi).
  apply wp_modify; eauto using rtc_once, act_grows.
Qed.

Lemma wp_setState u (Q : unit → _) (E : thrown → _) w :
  page_inv w → queue_ok w u → (∀ w', grows w w' → page_inv w' → Q tt w') →
  wpp (setState u) Q E w.
Proof. intros Hi Hu HQ. apply wp_act; eauto using act. Qed.

Lemma wp_emit e (Q : unit → _) (E : thrown → _) w :
  page_inv w → quiet e → (∀ w', grows w w' → page_inv w' → Q tt w') → wpp (emit e) Q E w.
Proof. intros Hi Hu HQ. apply wp_act; eauto using act. Qed.

Lemma wp_request r (Q : Reply r → _) (E : thrown → _) w :
  page_inv w →
  (∀ w', grows w w' → page_inv w' → (∀ x, Q x w') ∧ (∀ e, E e w')) →
  wpp (request r) Q E w.
Proof.
  intros Hi HQ. js wp_bind. apply wp_emit; [done|done|]. intros w1 Hg1 Hi1.
  js wp_await; [done|]. intros w2 Hg2 Hi2. apply HQ; [by etrans|done].
Qed.

Lemma wp_may_throw {X} (r : thrown + X) (Q : X → _) (E : thrown → _) w :
  page_inv w → (∀ e, r = inl e → E e w) → (∀ x, r = inr x → Q x w) →
  wpp (may_throw r) Q E w.
Proof.
  intros Hi HE HQ. js wp_sync; [done| |].
  - intros e. destruct r; naive_solver.
  - intros w' x. destruct r; intros; simplify_eq. split_and!; [done|reflexivity|auto].
Qed.

Lemma wp_addTracks pc s (Q : unit → _) (E : thrown → _) w :
  page_inv w → senders_of w pc = [] →
  (∀ w', grows w w' → page_inv w' → Q tt w' ∧ ∀ e, E e w') →
  wpp (addTracksToConnection pc s) Q E w.
Proof.
  intros Hi Hs HQ. pose proof (act_tracks pc s w Hs) as Ha.
  pose proof (act_inv _ _ Ha Hi) as Hi'. pose proof (act_grows _ _ Ha) as Hg.
  destruct (HQ _ Hg Hi') as [HQ' HE].
  pose proof (rtc_once _ _ Ha) as Hr. clear Ha. revert HQ' HE Hi' Hr. unfold wp.
  destruct (peers (host w) !! pc) as [p|] eqn:Hp.
  - destruct (addTracks_run pc s w p Hp) as (k & ps & o & -> & [[-> _]|(e & -> & _)]); simpl; auto.
  - rewrite addTracks_no_connection by done. simpl. auto.
Qed.

Lemma wp_set_flag b (Q : unit → _) (E : thrown → _) w :
  page_inv w → (∀ w', grows w w' → page_inv w' → Q tt w') →
  wpp (set_ref (set_isNegotiating b)) Q E w.
Proof. intros Hi HQ. apply wp_act; eauto using act. Qed.

Lemma wp_hasTracksAdded pc (Q : bool → _) (E : thrown → _) w :
  page_inv w → (∀ b, (b = false → senders_of w pc = []) → Q b w) →
  wpp (hasTracksAdded pc) Q E w.
Proof.
  intros Hi HQ. js wp_bind. js wp_gets; [done|]. js wp_ret; [done|]. apply HQ.
  unfold senders_of. intros Hf%bool_decide_eq_false. apply nil_length_inv. lia.
Qed.

Lemma wp_sendMessage env message (Q : unit → _) (E : thrown → _) w :
  page_inv w →
  (truthy (clientId env) = true →
     sendable w (JSON_stringify (obj_spread [("from", clientId env)] message))) →
  (∀ w', grows w w' → page_inv w' → Q tt w' ∧ ∀ e, E e w') →
  wpp (sendMessage env message) Q E w.
Proof.
  intros Hi Ht HQ. destruct (HQ w) as [HQw HEw]; [reflexivity|done|].
  unfold sendMessage. destruct (truthy (clientId env)); simpl; [|by js wp_ret].
  destruct (socket env) as [ws|]; simpl; [|by js wp_ret].
  js wp_sync; [done| |].
  - intros e. repeat case_match; naive_solver.
  - intros w' [] Hw'. assert (rtc act w w') as Hr.
    { revert Hw'. repeat case_match; intros; simplify_eq; [|reflexivity].
      apply rtc_once, act_send; auto. }
    assert (page_inv w') as Hi'.
    { clear -Hr Hi. induction Hr; eauto using act_inv. }
    split_and!; [done|done|]. by apply HQ; [apply acts_grow|].
Qed.

Lemma wp_adopt_peer from (Q : unit → _) (E : thrown → _) w :
  page_inv w → named_peer (io (host w)) from → (∀ w', grows w w' → page_inv w' → Q tt w') → wpp (adopt_peer from) Q E w.
Proof.
  intros Hi Hp HQ. js wp_bind. apply wp_setState; [done|by split|]. intros w1 Hg1 Hi1.
  apply wp_act; [done|constructor; by eapply named_peer_grows|]. intros w2 Hg2 Hi2. apply HQ; [by etrans|done].
Qed.

Lemma wp_createOffer env w :
  page_inv w → env ∈ renders (fiber w) → wpp (createOffer env) (λ _ _, True) (λ _ _, True) w.
Proof.
  intros Hi Henv. js wp_bind. js wp_gets; [done|]. js wp_bind. js wp_gets; [done|].
  js wp_bind. js wp_gets; [done|]. cbv zeta. rewrite isPeerIdEmpty_spec, negb_involutive.
  destruct (peerConnectionRef _) as [pc|]; [|by apply wp_emit].
  destruct (truthy (peerId env)) eqn:Hpeer; [|by apply wp_emit].
  destruct (isMediaStreamReady _ _); [|by apply wp_emit].
  destruct (localStreamRef _) as [stream|]; [|by apply wp_emit].
  destruct (isNegotiatingRef _); [by js wp_ret|]. js wp_try.
  assert (∀ e w', page_inv w' → wpp ((λ _ : thrown, set_ref (set_isNegotiating false)) e)
            (λ _ _, True) (λ _ _, True) w') as Hcatch by (intros; by apply wp_set_flag).
  js wp_bind. apply wp_set_flag; [done|]. intros w1 Hg1 Hi1.
  js wp_bind. apply wp_hasTracksAdded; [done|]. intros b Hb. js wp_bind.
  assert (∀ w2, grows w1 w2 → page_inv w2 →
    wpp (offer <- request (CreateOffer pc) ;; request (SetLocalDescription pc offer) ;;
         sendMessage env [("to", peerId env); ("sdp", offer); ("type", JStr (OFFER MESSAGE_TYPES))])
      (λ _ _, True) (λ e w', wpp (set_ref (set_isNegotiating false))
                              (λ _ _, True) (λ _ _, True) w') w2) as Hrest.
  { intros w2 Hg2 Hi2. js wp_bind. apply wp_request; [done|]. intros w3 Hg3 Hi3.
    split; [|auto]. intros offer. js wp_bind. apply wp_request; [done|]. intros w4 Hg4 Hi4.
    split; [|auto]. intros _. apply wp_sendMessage; [done| |auto]. intros Hc.
    apply (sendable_grows w); [by do 3 (etrans; [done|])|]. exists env.
    split_and!; [done|done|]. left. by exists offer. }
  destruct b; simpl.
  - js wp_ret; [done|]. apply Hrest; [reflexivity|done].
  - apply wp_addTracks; auto.
Qed.

(** Everything in the [try] of [handleSDPMessage] may throw anywhere. *)
Local Abbreviation done_or_caught := (λ _ w', page_inv w').

Lemma wp_answer env pc n data from sdp w :
  page_inv w → env ∈ renders (fiber w) → received_sdp (io (host w)) n data →
  get_prop data "from" = inr from → get_prop data "sdp" = inr sdp →
  get_prop sdp "type" = inr (JStr "offer") →
  wpp (set_ref (set_isNegotiating true) ;;
       answer <- request (CreateAnswer pc) ;;
       request (SetLocalDescription pc answer) ;;
       sendMessage env [("to", from); ("sdp", answer); ("type", JStr (ANSWER MESSAGE_TYPES))])
    done_or_caught done_or_caught w.
Proof.
  intros Hi Henv Hdata Hfrom Hsdp Htype.
  js wp_bind. apply wp_set_flag; [done|]. intros w1 Hg1 Hi1.
  js wp_bind. apply wp_request; [done|]. intros w2 Hg2 Hi2. split; [|auto]. intros answer.
  js wp_bind. apply wp_request; [done|]. intros w3 Hg3 Hi3. split; [|auto]. intros _.
  apply wp_sendMessage; [done| |auto]. intros Hc.
  apply (sendable_grows w); [by do 2 (etrans; [done|])|]. exists env.
  split_and!; [done|done|]. right. exists from, answer. split; [|done].
  by exists n, data, sdp.
Qed.

Lemma received_sdp_peer tr n v from :
  received_sdp tr n v → get_prop v "from" = inr from → named_peer tr from.
Proof.
  intros [Hn Hs] Hf. right. exists v. split_and!; [by eapply list_elem_of_lookup_2|by left|done].
Qed.

Lemma wp_handleSDPMessage_body env pc stream n data w :
  page_inv w → env ∈ renders (fiber w) → received_sdp (io (host w)) n data →
  wpp (handleSDPMessage_body env data pc stream) done_or_caught done_or_caught w.
Proof.
  intros Hi Henv Hdata.
  js wp_bind. apply wp_may_throw; [done|done|]. intros from Hfrom. js wp_bind.
  assert (∀ b : bool, ∀ Q : unit → W → Prop,
    (∀ w', grows w w' → page_inv w' → Q tt w') →
    wpp (if b then adopt_peer from else ret tt) Q done_or_caught w) as Hadopt.
  { intros [] Q HQ; [apply wp_adopt_peer; [done| |done]; by eapply received_sdp_peer|]. js wp_ret; [done|]. by apply HQ. }
  apply Hadopt; clear Hadopt. intros w1 Hg1 Hi1.
  js wp_bind. apply wp_may_throw; [done|done|]. intros sdp Hsdp.
  js wp_bind. apply wp_may_throw; [done|done|]. intros type Htype.
  js wp_bind. apply wp_hasTracksAdded; [done|]. intros b Hb. js wp_bind.
  assert (∀ w2, grows w1 w2 → page_inv w2 →
    wpp (description <- may_throw (newRTCSessionDescription sdp) ;;
         request (SetRemoteDescription pc description) ;;
         if is_str type (OFFER MESSAGE_TYPES) then
           set_ref (set_isNegotiating true) ;;
           answer <- request (CreateAnswer pc) ;;
           request (SetLocalDescription pc answer) ;;
           sendMessage env [("to", from); ("sdp", answer);
                            ("type", JStr (ANSWER MESSAGE_TYPES))]
         else ret tt) done_or_caught done_or_caught w2) as Hrest.
  { intros w2 Hg2 Hi2. js wp_bind. apply wp_may_throw; [done|done|]. intros description _.
    js wp_bind. apply wp_request; [done|]. intros w3 Hg3 Hi3. split; [|auto]. intros _.
    destruct (is_str type _) eqn:Ht; [|by js wp_ret]. apply is_str_true in Ht as ->.
    assert (grows w w3) as Hg by by do 2 (etrans; [done|]).
    eapply wp_answer; eauto using grows_render, received_sdp_grows. }
  destruct (is_str type _), stream as [s|], b; simpl; try (js wp_ret; [done|]; by apply Hrest).
  apply wp_addTracks; auto.
Qed.

Lemma wp_handleSDPMessage env n data w :
  page_inv w → env ∈ renders (fiber w) → received_sdp (io (host w)) n data →
  wpp (handleSDPMessage env data) (λ _ _, True) (λ _ _, True) w.
Proof.
  intros Hi Henv Hdata. js wp_bind. js wp_gets; [done|]. js wp_bind. js wp_gets; [done|].
  destruct (peerConnectionRef _) as [pc|]; [|by js wp_ret]. js wp_try.
  eapply wp_mono; [by eapply wp_handleSDPMessage_body|done|].
  intros e w' Hi' _. by apply wp_set_flag.
Qed.

Lemma wp_handleIceCandidateMessage env data w :
  page_inv w → IoReceive data ∈ io (host w) → isICECandidateMessage data = inr true → wpp (handleIceCandidateMessage env data) (λ _ _, True) (λ _ _, True) w.
Proof.
  intros Hi Hrec Hcand. js wp_bind. js wp_gets; [done|].
  destruct (peerConnectionRef _) as [pc|]; [|by js wp_ret]. js wp_try.
  assert (∀ e w', page_inv w' → wpp ((λ _ : thrown, ret tt) e) (λ _ _, True) (λ _ _, True) w')
    as Hcatch by (intros; by js wp_ret).
  js wp_bind. apply wp_may_throw; [done|auto|]. intros from Hfrom. js wp_bind.
  assert (∀ w1, page_inv w1 →
    wpp (payload <- may_throw (get_prop data "candidate") ;;
         candidate <- may_throw (newRTCIceCandidate payload) ;;
         request (AddIceCandidate pc candidate))
      (λ _ _, True) (λ e w', wpp (ret tt) (λ _ _, True) (λ _ _, True) w') w1) as Hrest.
  { intros w1 Hi1. js wp_bind. apply wp_may_throw; [done|auto|]. intros payload _.
    js wp_bind. apply wp_may_throw; [done|auto|]. intros candidate _.
    apply wp_request; [done|]. auto. }
  destruct (_ && _); [apply wp_adopt_peer; [done|right; by exists data; auto|auto]|]. js wp_ret; auto.
Qed.

Local Abbreviation promises_ok := (λ (ps : list Promise) w',
  Forall (promise_ok page_inv grows (rtc act) w') ps).

Lemma wp_no_promise u w :
  page_inv w → queue_ok w u →
  wpp (setState u ;; ret []) promises_ok (λ _ _, True) w.
Proof.
  intros Hi Hu. js wp_bind. apply wp_setState; [done|done|]. intros w' _ Hi'.
  js wp_ret; [done|by constructor].
Qed.

Lemma wp_onmessage env data w :
  page_inv w → wpp (onmessage env data) promises_ok (λ _ _, True) w.
Proof.
  intros Hi. js wp_bind. apply wp_may_throw; [done|done|]. intros message _.
  js wp_bind. js wp_gets; [done|]. js wp_bind.
  assert (act w (on_host (log (IoReceive message)) w)) as Ha by by constructor.
  pose proof (act_inv _ _ Ha Hi) as Hi1. js wp_modify; [done|by apply rtc_once|].
  clear Ha. set (w1 := on_host _ w) in *.
  assert (io (host w1) !! length (io (host w)) = Some (IoReceive message)) as Hlast
    by apply lookup_snoc_new.
  js wp_bind. apply wp_may_throw; [done|done|]. intros isWelcome Hw.
  destruct isWelcome.
  { js wp_bind. apply wp_may_throw; [done|done|]. intros id Hid. apply wp_no_promise; [done|].
    split; [|done]. exists message. split; [by eapply list_elem_of_lookup_2|done]. }
  js wp_bind. apply wp_may_throw; [done|done|]. intros isSDP Hs. destruct isSDP.
  { apply wp_no_promise; [done|]. split; [done|]. intros n v [= <- <-]. simpl.
    rewrite length_app. simpl. lia. }
  js wp_bind. apply wp_may_throw; [done|done|]. intros isCandidate Hc.
  destruct isCandidate; [|by js wp_ret; [|constructor]].
  apply wp_async_handler; [apply _|]. apply wp_handleIceCandidateMessage; [done| |done].
  by eapply list_elem_of_lookup_2.
Qed.

Lemma wp_initLocalStream w :
  page_inv w → wpp initLocalStream (λ _ _, True) (λ _ _, True) w.
Proof.
  intros Hi. js wp_try. js wp_bind. apply wp_request; [done|]. intros w1 _ Hi1.
  split; [|intros e; by apply wp_emit]. intros stream. js wp_bind.
  pose proof (act_stream stream w1) as Ha. pose proof (act_inv _ _ Ha Hi1) as Hi2.
  js wp_modify; [done|by apply rtc_once|]. clear Ha. set (w2 := on_refs _ w1) in *.
  assert (is_Some (localStreamRef (refs w2))) as Hs by by eexists.
  js wp_bind. js wp_gets; [done|]. js wp_bind.
  assert (∀ w3, grows w2 w3 → page_inv w3 →
    wpp (setState (SetIsLocalStreamReady true)) (λ _ _, True)
      (λ e w', wpp (alert "カメラ・マイクへのアクセスが拒否されました")
                 (λ _ _, True) (λ _ _, True) w') w3) as Hrest.
  { intros w3 Hg3 Hi3. apply wp_setState; [done| |done]. split; [|done]. by eapply grows_stream. }
  destruct (localVideoRef _); simpl; [by apply wp_emit|]. js wp_ret; [done|].
  by apply Hrest.
Qed.

Lemma wp_onicecandidate c w :
  page_inv w → wpp (onicecandidate initState c) (λ _ _, True) (λ _ _, True) w.
Proof.
  intros Hi. js wp_bind. js wp_gets; [done|]. cbv zeta.
  destruct c; [|by js wp_ret]. destruct (negb _); [|by js wp_ret].
  by apply wp_sendMessage.
Qed.

Lemma wp_ontrack s w : page_inv w → wpp (ontrack s) (λ _ _, True) (λ _ _, True) w.
Proof.
  intros Hi. js wp_bind. js wp_gets; [done|].
  destruct (remoteVideoRef _); [|by js wp_ret]. destruct s; [|by js wp_ret].
  by apply wp_emit.
Qed.

Lemma wp_onsignalingstatechange s w :
  page_inv w → wpp (onsignalingstatechange s) (λ _ _, True) (λ _ _, True) w.
Proof.
  intros Hi. unfold onsignalingstatechange. cbv zeta.
  destruct (bool_decide _); [by apply wp_set_flag|by js wp_ret].
Qed.

(** ** Renders *)

Local Abbreviation page_ok := (@config_ok B Refs State Update Fiber unit page_inv grows (rtc act)).

Lemma flush_ok w q env : env_ok w env → (∀ u, u ∈ q → update_ok w u) →
  env_ok w (flush apply_update q env).
Proof.
  revert env. induction q as [|u q IH]; intros env He Hq; [done|]. simpl.
  apply IH; [|intros u' Hu'; apply Hq; by right].
  pose proof (Hq u (list_elem_of_here _ _)) as Hu. destruct He as [Hc Hn Hp Hr].
  destruct env, u as [| | |[[n v]|]| |[]]; split; simpl in *; auto; naive_solver.
Qed.

Lemma commit_grows w : grows w (commit_state w).
Proof. split; simpl; eauto using prefix_app_r. Qed.

Lemma commit_inv w m : page_inv w → mount (fiber w) = Some m → page_inv (commit_state w).
Proof.
  intros Hi Hm. pose proof (commit_grows w) as Hg. pose proof Hi as [Hh Hr Hq _ _ _ Hmt].
  assert (env_ok (commit_state w) (flush apply_update (queue w) (hooks w))) as He.
  { apply flush_ok; eauto using env_ok_grows, update_ok_grows. }
  apply (page_inv_change w); simpl; auto.
  - right. intros env. rewrite elem_of_app, list_elem_of_singleton.
    intros [?| ->]; eauto using env_ok_grows.
  - set_solver.
  - congruence.
  - intros m' Hm'. destruct (Hmt _ Hm') as (? & ? & ?). split_and!; [done| |done].
    rewrite elem_of_app, list_elem_of_singleton. by right.
Qed.

Lemma peerIdEffect_run env w :
  ∃ p sl, (p = peerIdRef (refs w) ∨ p = peerId env) ∧ peerIdEffect env w =
    (with_fiber (mkFiber (mount (fiber w)) (mounted (fiber w)) sl (sdpSlot (fiber w))
                   (renders (fiber w)))
       (on_refs (set_peerId p) w), Returned tt).
Proof.
  unfold peerIdEffect, run_effect, set_fiber, set_ref, bind, gets, modify, ret.
  destruct (peerIdSlot (fiber w)) as [sl|] eqn:Hs; simpl.
  - case_bool_decide; simpl.
    + exists (peerIdRef (refs w)), (Some sl). split; [by left|].
      f_equal. destruct w as [? [] ? ? []]. done.
    + exists (peerId env). eexists. split; [by right|done].
  - exists (peerId env). eexists. split; [by right|done].
Qed.

(** The slot update and the trace event that precede the processing of a
    pending message. *)
Definition mark_slot env w : W :=
  with_fiber (mkFiber (mount (fiber w)) (mounted (fiber w)) (peerIdSlot (fiber w))
                (Some (mkSlot (sdp_deps env) tt)) (renders (fiber w))) w.

Definition process env (message : jsval) : M (list Promise) :=
  p <- start (handleSDPMessage env message) ;;
  setState (SetPendingSDP None) ;;
  ret [p].

Lemma sdpEffect_eq env w :
  sdpEffect env w =
    if decide (slot_deps <$> sdpSlot (fiber w) = Some (sdp_deps env)) then (w, Returned [])
    else match truthy (clientId env), pendingSDP env with
         | true, Some (n, message) =>
             process env message (on_host (log (IoHandle n)) (mark_slot env w))
         | _, _ => (mark_slot env w, Returned [])
         end.
Proof.
  unfold sdpEffect. unfold bind at 1. simpl. rewrite decide_bool_decide.
  destruct (bool_decide _); [done|]. unfold process_pending.
  by destruct (truthy (clientId env)), (pendingSDP env) as [[n message]|].
Qed.

Lemma sdpEffect_run env (c : Page) :
  let c1 := env_world (mark_slot env) c in
  dispatch (sdpEffect env) c = c ∨
  dispatch (sdpEffect env) c = c1 ∨
  ∃ n message, truthy (clientId env) = true ∧ pendingSDP env = Some (n, message) ∧
    slot_deps <$> sdpSlot (fiber (world c)) ≠ Some (sdp_deps env) ∧
    dispatch (sdpEffect env) c =
      dispatch (process env message) (env_world (on_host (log (IoHandle n))) c1).
Proof.
  cbv zeta. unfold dispatch, env_world. rewrite sdpEffect_eq. destruct c as [w ts]; simpl.
  case_decide as Hd; [left; by rewrite app_nil_r|]. right.
  destruct (truthy (clientId env)), (pendingSDP env) as [[n message]|];
    try (left; by rewrite app_nil_r). right. by exists n, message.
Qed.

Lemma mark_slot_inv env w : page_inv w → page_inv (mark_slot env w) ∧ grows w (mark_slot env w).
Proof.
  intros Hi. assert (grows w (mark_slot env w)) by by split. split; [|done].
  destruct Hi. apply (page_inv_change w); simpl; auto. by split.
Qed.

Lemma log_quiet_inv e w : (∀ ws text, e ≠ IoSend ws text) →
  page_inv w → page_inv (on_host (log e) w) ∧ grows w (on_host (log e) w).
Proof.
  intros He Hi. assert (grows w (on_host (log e) w)) by (split; simpl; eauto using prefix_app_r).
  split; [|done]. destruct Hi. apply (page_inv_change w); simpl; auto; [by split|].
  left. exists [e]. split; [done|]. intros ws text Hin%list_elem_of_singleton. naive_solver.
Qed.

Lemma wp_process env n message w :
  page_inv w → env ∈ renders (fiber w) → received_sdp (io (host w)) n message →
  wpp (process env message) promises_ok (λ _ _, True) w.
Proof.
  intros Hi Henv Hm. js wp_bind. js wp_start; [by eapply wp_handleSDPMessage|].
  intros p w1 Hi1 Hg1 Hp. js wp_bind.
  assert (act w1 (with_queue (queue w1 ++ [SetPendingSDP None]) w1)) as Ha
    by by apply act_update.
  pose proof (act_inv _ _ Ha Hi1) as Hi2. js wp_modify; [done|by apply rtc_once|].
  js wp_ret; [done|]. constructor; [|constructor].
  eapply promise_ok_later; [apply _| |done]. by apply act_grows.
Qed.

Lemma acts_frame w w' : rtc act w w' → hooks w' = hooks w ∧ fiber w' = fiber w.
Proof.
  induction 1 as [|w w1 w2 Ha _ [-> ->]]; [done|].
  destruct Ha as [| | | | | |pc s w _]; try done.
  by destruct (addTracks_frame pc s w) as (ts & ps & ->).
Qed.

Lemma sdpEffect_ok env c :
  page_ok c → env ∈ renders (fiber (world c)) →
  page_ok (dispatch (sdpEffect env) c) ∧ grows (world c) (world (dispatch (sdpEffect env) c)) ∧
  hooks (world (dispatch (sdpEffect env) c)) = hooks (world c).
Proof.
  intros Hc Henv. pose proof Hc as [Hi _]. pose proof (mark_slot_inv env _ Hi) as [Hi1 Hg1].
  pose proof (env_world_ok _ _ _ (mark_slot env) c Hc Hi1 Hg1) as Hc1.
  destruct (sdpEffect_run env c) as [->|[->|(n & message & _ & Hp & _ & ->)]];
    [done|done|].
  set (c1 := env_world _ c) in *.
  assert (∀ ws text, IoHandle n ≠ IoSend ws text) as He by done.
  pose proof (log_quiet_inv _ _ He Hi1) as [Hi2 Hg2].
  pose proof (env_world_ok _ _ _ (on_host (log (IoHandle n))) c1 Hc1 Hi2 Hg2) as Hc2.
  pose proof (env_pending _ _ (inv_renders _ Hi _ Henv) _ _ Hp) as Hr.
  eapply received_sdp_grows in Hr; [|by etrans].
  edestruct (dispatch_ok page_inv grows (rtc act) (process env message)) as [Hok Hg];
    [exact Hc2|eapply wp_process; [done| |done]|].
  - eauto using grows_render.
  - split_and!; [done| |by apply acts_frame in Hg as [-> _]].
    etrans; [exact Hg1|]. etrans; [exact Hg2|]. by apply acts_grow.
Qed.

Definition set_peerId_slot p sl w : W :=
  with_fiber (mkFiber (mount (fiber w)) (mounted (fiber w)) sl (sdpSlot (fiber w))
                (renders (fiber w))) (on_refs (set_peerId p) w).

Lemma peerIdEffect_dispatch env (c : Page) :
  ∃ p sl, (p = peerIdRef (refs (world c)) ∨ p = peerId env) ∧
    dispatch (sync_handler (peerIdEffect env)) c = env_world (set_peerId_slot p sl) c.
Proof.
  destruct (peerIdEffect_run env (world c)) as (p & sl & Hp & Heq). exists p, sl. split; [done|].
  rewrite dispatch_sync by by rewrite Heq. unfold env_world. by rewrite Heq.
Qed.

Lemma peerIdEffect_ok env c :
  page_ok c → env_ok (world c) env →
  page_ok (dispatch (sync_handler (peerIdEffect env)) c) ∧
  grows (world c) (world (dispatch (sync_handler (peerIdEffect env)) c)).
Proof.
  intros Hc He. pose proof Hc as [Hi _].
  destruct (peerIdEffect_dispatch env c) as (p & sl & Hp & ->).
  assert (grows (world c) (set_peerId_slot p sl (world c))) by by split.
  split; [|done]. apply env_world_ok; [apply _|done| |done].
  destruct Hi. apply (page_inv_change (world c)); simpl; auto; [by split|].
  right. destruct Hp as [->| ->]; [done|]. apply He.
Qed.

Lemma render_ok c m :
  page_ok c → mount (fiber (world c)) = Some m →
  page_ok (render c) ∧ grows (world c) (world (render c)) ∧
  hooks (world (render c)) = flush apply_update (queue (world c)) (hooks (world c)).
Proof.
  intros Hc Hm. unfold render. pose proof Hc as [Hi _].
  pose proof (commit_inv _ _ Hi Hm) as Hi1. pose proof (commit_grows (world c)) as Hg1.
  pose proof (env_world_ok _ _ _ commit_state c Hc Hi1 Hg1) as Hc1.
  set (c1 := env_world commit_state c) in *.
  destruct (peerIdEffect_ok (hooks (world c1)) c1 Hc1 (inv_hooks _ Hi1)) as [Hc2 Hg2].
  assert (hooks (world (dispatch (sync_handler (peerIdEffect (hooks (world c1)))) c1)) = hooks (world c1))
    as Hh2 by by destruct (peerIdEffect_dispatch (hooks (world c1)) c1) as (p & sl & _ & ->).
  set (c2 := dispatch _ c1) in *.
  destruct (sdpEffect_ok (hooks (world c1)) c2 Hc2) as (Hc3 & Hg3 & Hh3).
  - eapply grows_render; [done|]. simpl. apply elem_of_app. right. by left.
  - split_and!; [done|by do 2 (etrans; [done|])|]. by rewrite Hh3, Hh2.
Qed.

(** ** Mounting and unmounting *)

Definition connected (env : State) (url : string) (s : WebSocket) w : W :=
  let h := host w in
  let ws := length (sockets h) in
  let pc := length (peers h) in
  mkWorld
    (mkHost (sockets h ++ [s]) (peers h ++ [newRTCPeerConnection RTC_CONFIGURATION]) (stopped h)
       (io h ++ [IoNewWebSocket ws url; IoNewPC pc]))
    (set_peerConnection pc (refs w)) (hooks w) (queue w ++ [SetSocket ws])
    (mkFiber (Some (mkMount env ws pc)) true (peerIdSlot (fiber w)) (sdpSlot (fiber w))
       (renders (fiber w))).

(** What the clean-up of the mount effect leaves of the heap. *)
Definition disconnected_host m (r : Refs) (h : Host B) : Host B :=
  let h := log (IoCloseWs (mount_ws m)) (set_ready_state (mount_ws m) ws_close h) in
  let h := match peerConnectionRef r with
           | Some pc => log (IoClosePC pc) (with_peers (alter closePC pc (peers h)) h)
           | None => h
           end in
  match localStreamRef r with
  | Some s => stop_all (getTracks s) h
  | None => h
  end.

Lemma disconnect_run m w :
  disconnect m w = (on_host (disconnected_host m (refs w)) w, Returned tt).
Proof.
  unfold disconnect, disconnected_host, close_socket, close_pc, ref, gets.
  unfold bind at 1, modify; simpl. unfold bind at 1; simpl.
  destruct (peerConnectionRef (refs w)) as [pc|]; simpl; unfold bind at 1; simpl;
    unfold bind at 1; simpl;
    (destruct (localStreamRef (refs w)); simpl; [by rewrite stop_tracks_run|done]).
Qed.

Definition unmounted m w : W :=
  let f := fiber w in
  with_fiber (mkFiber (mount f) false (peerIdSlot f) (sdpSlot f) (renders f))
    (on_host (disconnected_host m (refs w)) (on_refs (set_videos None None) w)).

Lemma unmount_run m (c : Page) : unmount m c = env_world (unmounted m) c.
Proof.
  unfold unmount. cbv zeta. rewrite dispatch_sync.
  - unfold env_world, bind. by rewrite disconnect_run.
  - unfold bind. by rewrite disconnect_run.
Qed.

Lemma disconnected_host_io m r h :
  ∃ es, io (disconnected_host m r h) = io h ++ es ∧ ∀ ws text, IoSend ws text ∉ es.
Proof.
  unfold disconnected_host. destruct (peerConnectionRef r), (localStreamRef r); simpl;
    rewrite <-?app_assoc; eexists; (split; [done|]); intros ws text; set_solver.
Qed.

Lemma connect_run envUrl window env w :
  let url := getWebSocketUrl envUrl window in
  connect envUrl window env w =
    match newWebSocket url with
    | inl e => (w, Threw e)
    | inr s => (connected env url s w, Returned tt)
    end.
Proof.
  cbv zeta. unfold connect, bind at 1, new_WebSocket, sync.
  destruct (newWebSocket _) as [e|s]; [done|]. simpl. unfold connected, on_host. simpl.
  unfold setState, new_RTCPeerConnection, set_ref, set_fiber, bind, modify, sync, on_host, log.
  simpl. by rewrite <-app_assoc.
Qed.

Lemma connected_inv env url s w :
  page_inv w → mount (fiber w) = None → env = initState → hooks w = initState →
  hooks w ∈ renders (fiber w) →
  page_inv (connected env url s w) ∧ grows w (connected env url s w).
Proof.
  intros Hi Hm -> Hh Hin.
  assert (grows w (connected initState url s w)).
  { split; simpl; eauto using prefix_app_r. congruence. }
  split; [|done]. destruct Hi. apply (page_inv_change w); simpl; auto; [by split| | |].
  - intros u. rewrite elem_of_app, list_elem_of_singleton. intros [?| ->]; [by left|by right].
  - left. eexists. split; [done|]. intros ws text Hin'. set_solver.
  - intros m [= <-]. done.
Qed.

Lemma record_render_inv w :
  page_inv w → page_inv (record_render w) ∧ grows w (record_render w).
Proof.
  intros Hi. assert (grows w (record_render w)) as Hg by (split; simpl; eauto using prefix_app_r).
  split; [|done]. destruct Hi as [Hh Hr Hq Hs Hp Hn Hm]. apply (page_inv_change w); simpl; auto.
  - by split.
  - right. intros env. rewrite elem_of_app, list_elem_of_singleton.
    intros [?| ->]; eauto using env_ok_grows.
  - intros m Hmt. destruct (Hm _ Hmt) as (? & ? & ?). set_solver.
Qed.

Lemma set_videos_inv l v w :
  page_inv w → page_inv (on_refs (set_videos l v) w) ∧ grows w (on_refs (set_videos l v) w).
Proof.
  intros Hi. assert (grows w (on_refs (set_videos l v) w)) by by split.
  split; [|done]. destruct Hi. apply (page_inv_change w); simpl; auto; by split.
Qed.

Lemma connect_ok envUrl window env c :
  page_ok c → mount (fiber (world c)) = None → env = initState →
  hooks (world c) = initState → hooks (world c) ∈ renders (fiber (world c)) →
  page_ok (dispatch (sync_handler (connect envUrl window env)) c) ∧
  grows (world c) (world (dispatch (sync_handler (connect envUrl window env)) c)).
Proof.
  intros Hc Hm He Hh Hin. pose proof (connect_run envUrl window env (world c)) as Hrun.
  cbv zeta in Hrun. rewrite dispatch_sync by (rewrite Hrun; by destruct (newWebSocket _)).
  pose proof Hc as [Hi _].
  assert (page_inv (fst (connect envUrl window env (world c))) ∧
          grows (world c) (fst (connect envUrl window env (world c)))) as [Hi' Hg'].
  { rewrite Hrun. destruct (newWebSocket _); [by split|]. by apply connected_inv. }
  split; [|done]. by apply env_world_ok; [apply _|..].
Qed.

Lemma first_render_ok envUrl window c :
  page_ok c → mount (fiber (world c)) = None →
  page_ok (first_render envUrl window c) ∧
  grows (world c) (world (first_render envUrl window c)).
Proof.
  intros Hc Hm. unfold first_render. pose proof Hc as [Hi _].
  pose proof (inv_unmounted _ Hi Hm) as Hinit.
  destruct (record_render_inv _ Hi) as [Hi1 Hg1].
  pose proof (env_world_ok _ _ _ record_render c Hc Hi1 Hg1) as Hc1.
  set (c1 := env_world record_render c) in *.
  destruct (set_videos_inv (Some "local") (Some "remote") _ Hi1) as [Hi2 Hg2].
  pose proof (env_world_ok _ _ _ (on_refs (set_videos (Some "local") (Some "remote"))) c1
    Hc1 Hi2 Hg2) as Hc2.
  set (c2 := env_world _ c1) in *.
  assert (hooks (world c2) = initState ∧ hooks (world c2) ∈ renders (fiber (world c2))) as [Hh2 Hr2].
  { simpl. split; [done|]. apply elem_of_app. right. by left. }
  cbv zeta. rewrite Hh2 in *.
  destruct (peerIdEffect_ok initState c2 Hc2 (env_ok_init _)) as [Hc3 Hg3].
  set (c3 := dispatch _ c2) in *.
  assert (hooks (world c3) = initState ∧ renders (fiber (world c3)) = renders (fiber (world c2)) ∧
          mount (fiber (world c3)) = None) as (Hh3 & Hr3 & Hm3).
  { unfold c3. by destruct (peerIdEffect_dispatch initState c2) as (p & sl & _ & ->). }
  destruct (dispatch_ok page_inv grows (rtc act) (async_handler initLocalStream) c3 Hc3)
    as [Hc4 Hg4].
  { apply wp_async_handler; [apply _|]. apply wp_initLocalStream, Hc3. }
  set (c4 := dispatch _ c3) in *. destruct (acts_frame _ _ Hg4) as [Hh4 Hf4].
  destruct (connect_ok envUrl window initState c4 Hc4) as [Hc5 Hg5];
    [by rewrite Hf4|done|congruence|rewrite Hh4, Hf4, Hh3, Hr3; done|].
  set (c5 := dispatch _ c4) in *.
  assert (grows (world c3) (world c5)) by (etrans; [by apply acts_grow|done]).
  destruct (sdpEffect_ok initState c5 Hc5) as (Hc6 & Hg6 & _).
  { eapply grows_render; [done|]. by rewrite Hr3. }
  split; [done|]. by do 4 (etrans; [done|]).
Qed.

Lemma unmount_ok m c :
  page_ok c → page_ok (unmount m c) ∧ grows (world c) (world (unmount m c)).
Proof.
  intros Hc. rewrite unmount_run. pose proof Hc as [Hi _].
  destruct (disconnected_host_io m (refs (world c)) (host (world c))) as (es & Hes & Hn).
  assert (grows (world c) (unmounted m (world c))) as Hg.
  { split; simpl; [|done..]. rewrite Hes. by apply prefix_app_r. }
  split; [|done]. apply env_world_ok; [apply _|done| |done]. destruct Hi.
  apply (page_inv_change (world c)); simpl; auto; [by split|]. left. by exists es.
Qed.

Lemma env_change_ok f c :
  page_ok c →
  (∀ w, refs (f w) = refs w ∧ hooks (f w) = hooks w ∧ queue (f w) = queue w ∧
        fiber (f w) = fiber w ∧ io (host (f w)) = io (host w)) →
  page_ok (env_world f c) ∧ grows (world c) (world (env_world f c)).
Proof.
  intros Hc Hf. destruct (Hf (world c)) as (Hr & Hh & Hq & Hfb & Hio). pose proof Hc as [Hi _].
  assert (grows (world c) (f (world c))) as Hg by (split; rewrite ?Hr, ?Hh, ?Hfb, ?Hio; done).
  split; [|done]. apply env_world_ok; [apply _|done| |done]. destruct Hi.
  apply (page_inv_change (world c)); rewrite ?Hq, ?Hfb, ?Hh, ?Hr; auto. by split.
Qed.

(** ** The event loop *)

(** Events that run one handler or continuation of the page. *)
Definition handler_event (e : Event) : bool :=
  match e with
  | EvMount _ _ | EvRender | EvUnmount | EvReadyState _ _ | EvPeer _ _ => false
  | _ => true
  end.

Lemma step_handler e c c' :
  page_ok c → handler_event e = true → step e c = Some c' →
  page_ok c' ∧ rtc act (world c) (world c').
Proof.
  intros Hc He Hs. pose proof Hc as [Hi _].
  assert (∀ m, wpp m promises_ok (λ _ _, True) (world c) →
    page_ok (dispatch m c) ∧ rtc act (world c) (world (dispatch m c))) as Hdispatch
    by (intros; apply dispatch_ok; [apply _|done|done]).
  destruct e; try done; simpl in Hs; cbv zeta in Hs; try (by eapply settle_ok; [apply _|..]);
    destruct (mount (fiber (world c))) as [m|] eqn:Hm; try done;
    destruct (inv_mount _ Hi _ Hm) as (Hme & Hhr & _); simplify_eq.
  - by apply Hdispatch, wp_onmessage.
  - rewrite Hme. apply Hdispatch, wp_sync_handler; [apply _|]. by apply wp_onicecandidate.
  - apply Hdispatch, wp_sync_handler; [apply _|]. by apply wp_setState.
  - apply Hdispatch, wp_sync_handler; [apply _|]. by apply wp_ontrack.
  - apply Hdispatch, wp_sync_handler; [apply _|]. by apply wp_onsignalingstatechange.
  - apply enabled_Some in Hs as [_ <-]. apply Hdispatch, wp_sync_handler; [apply _|].
    apply wp_setState; [done| |done]. split; [apply named_peer_typed|done].
  - apply enabled_Some in Hs as [_ <-]. apply Hdispatch, wp_async_handler; [apply _|].
    by apply wp_createOffer.
Qed.

Lemma step_ok e c c' :
  page_ok c → step e c = Some c' → page_ok c' ∧ grows (world c) (world c').
Proof.
  intros Hc Hs. destruct (handler_event e) eqn:He.
  { destruct (step_handler e c c' Hc He Hs). split; [done|by apply acts_grow]. }
  destruct e; try done; simpl in Hs; cbv zeta in Hs;
    destruct (mount (fiber (world c))) as [m|] eqn:Hm; simplify_eq;
    try (apply enabled_Some in Hs as [_ <-]);
    eauto using first_render_ok, unmount_ok; try (by apply env_change_ok).
  destruct (render_ok c m Hc Hm) as (? & ? & _). done.
Qed.

Lemma page_inv_init : page_inv (world init).
Proof.
  split; simpl; try done.
  - apply env_ok_init.
  - intros env Hin. by apply not_elem_of_nil in Hin.
  - intros u Hin. by apply not_elem_of_nil in Hin.
  - intros ws text Hin. by apply not_elem_of_nil in Hin.
Qed.

Lemma reachable_ok c : reachable step init c → page_ok c.
Proof.
  intros Hc. revert c Hc. apply reachable_ind_inv.
  - split; [apply page_inv_init|constructor].
  - intros e c c' Hc Hs. by eapply step_ok.
Qed.
End Invariant.
