(* ===== verification/PageSdp.v ===== *)
(** * The delivery of SDP messages inside the page

    A received offer or answer waits in the [pendingSDP] state until an effect
    hands it to [handleSDPMessage].  This file shows in which order and how
    often messages are processed, and which ones are lost. *)
From S2P Require Import Prelude JsValue WebrtcConstants SignalingTypes Async Browser Messages ReferenceBrowser Json React WebrtcHelpers Page PageExamples PageInvariant.
From stdpp Require Import sorting.

Section Sdp.
Context {B : BrowserAPI}.
Local Abbreviation W := (World Refs State Update Fiber).
Local Abbreviation Page := (Config Refs State Update Fiber unit).
Implicit Types (w : W) (c : Page).

(** The messages handed to [handleSDPMessage], oldest first. *)
Definition handled_of (e : IO) : option nat :=
  match e with IoHandle n => Some n | _ => None end.

Definition handled w : list nat := omap handled_of (io (host w)).

(** The message that waits, counting the updates not rendered yet. *)
Definition pending w : option (nat * jsval) :=
  pendingSDP (flush apply_update (queue w) (hooks w)).

Lemma pending_update w u :
  pending (with_queue (queue w ++ [u]) w) =
    match u with SetPendingSDP m => m | _ => pending w end.
Proof.
  unfold pending. simpl. rewrite flush_app. simpl.
  generalize (flush apply_update (queue w) (hooks w)). intros s. by destruct s, u.
Qed.

Lemma handled_log w es :
  (∀ n, IoHandle n ∉ es) → omap handled_of (io (host w) ++ es) = handled w.
Proof.
  intros Hes. unfold handled. rewrite omap_app.
  assert (omap handled_of es = []) as ->; [|by rewrite app_nil_r].
  induction es as [|e es IH]; [done|]. simpl.
  destruct e; simpl; try (apply IH; set_solver). destruct (Hes object). by left.
Qed.

(** ** The invariant *)

Record sdp_core w : Prop := {
  core_sorted : StronglySorted lt (handled w);
  core_before i n : io (host w) !! i = Some (IoHandle n) → n < i;
  core_queue n v : SetPendingSDP (Some (n, v)) ∈ queue w → Forall (λ h, h < n) (handled w);
}.

Definition pending_fresh w : Prop :=
  ∀ n v, pending w = Some (n, v) → Forall (λ h, h < n) (handled w).

(** The effect ran for the message its slot names. *)
Definition slot_handled w : Prop :=
  ∀ sl cid n, sdpSlot (fiber w) = Some sl → slot_deps sl = [DepVal cid; DepRef n] →
    truthy cid = true → n ∈ handled w.

Lemma handled_before w n : sdp_core w → n ∈ handled w → S n < length (io (host w)).
Proof.
  intros Hc Hn. unfold handled in Hn. apply list_elem_of_omap in Hn as (e & He & Heq).
  apply list_elem_of_lookup in He as [i Hi]. destruct e; simplify_eq/=.
  pose proof (core_before _ Hc _ _ Hi). pose proof (lookup_lt_Some _ _ _ Hi). lia.
Qed.

(** Steps that extend the trace and the queue without touching messages. *)
Lemma quiet_core w w' es us :
  io (host w') = io (host w) ++ es → (∀ n, IoHandle n ∉ es) →
  queue w' = queue w ++ us → (∀ m, SetPendingSDP m ∉ us) →
  hooks w' = hooks w →
  handled w' = handled w ∧ pending w' = pending w ∧ (sdp_core w → sdp_core w').
Proof.
  intros Hio Hes Hq Hus Hh.
  assert (handled w' = handled w) as Hhd.
  { unfold handled at 1. rewrite Hio. by apply handled_log. }
  split_and!; [done| |].
  - unfold pending. rewrite Hq, Hh. clear -Hus. induction us as [|u us IH] using rev_ind.
    { by rewrite app_nil_r. }
    rewrite app_assoc, flush_app. simpl. rewrite <-IH by set_solver.
    generalize (flush apply_update (queue w ++ us) (hooks w)). intros s.
    destruct s, u; try done. set_solver.
  - intros [Hs Hb Hcq]. split; rewrite ?Hhd; [done| |].
    + intros i n. rewrite Hio. intros [Hi|[_ Hi]]%lookup_app_Some; [eauto|].
      exfalso. apply (Hes n). by eapply list_elem_of_lookup_2.
    + intros n v. rewrite Hq, elem_of_app. intros [?|?]; [eauto|]. set_solver.
Qed.

Lemma act_core w w' : act w w' → sdp_core w → handled w' = handled w ∧ sdp_core w'.
Proof.
  intros Ha Hc.
  assert (∀ es, io (host w') = io (host w) ++ es → (∀ n, IoHandle n ∉ es) →
          queue w' = queue w → hooks w' = hooks w →
          handled w' = handled w ∧ sdp_core w') as Hquiet.
  { intros es ? ? Hq ?. destruct (quiet_core w w' es []) as (? & _ & ?); auto.
    - by rewrite app_nil_r.
    - set_solver. }
  destruct Ha as [| | |u w [Hu Hn]|e w He|ws text w Ht|pc s w Hs];
    try (apply (Hquiet []); simpl; rewrite ?app_nil_r; set_solver).
  - split; [done|]. destruct Hc as [Hs Hb Hcq]. split; [done..|].
    intros n v. simpl. rewrite elem_of_app, list_elem_of_singleton.
    intros [?|Heq]; [by eapply Hcq|]. apply Forall_forall. intros h Hh.
    pose proof (handled_before w h ltac:(by split) Hh). specialize (Hn n v (eq_sym Heq)). lia.
  - apply (Hquiet [e]); simpl; auto. intros n Hin%list_elem_of_singleton. by subst.
  - apply (Hquiet [IoSend ws text]); simpl; auto. intros n Hin%list_elem_of_singleton. done.
  - destruct (addTracks_frame pc s w) as (ts & ps & Heq). rewrite Heq in *.
    apply (Hquiet (IoAddTrack pc <$> ts)); simpl; auto.
    intros n (? & ? & ?)%list_elem_of_fmap. done.
Qed.

Lemma act_pending w w' : act w w' → sdp_core w → pending_fresh w → pending_fresh w'.
Proof.
  intros Ha Hc Hp. destruct (act_core _ _ Ha Hc) as [Hhd [_ _ Hcq]].
  unfold pending_fresh. rewrite Hhd in *.
  destruct Ha as [| | |u w Hu| | |pc s w Hs]; try exact Hp.
  - intros n v. rewrite pending_update. destruct u as [| | |m| |]; try apply Hp.
    intros ->. apply (Hcq n v). simpl. rewrite elem_of_app. right. by left.
  - destruct (addTracks_frame pc s w) as (ts & ps & ->). exact Hp.
Qed.

Lemma acts_core w w' : rtc act w w' → sdp_core w → handled w' = handled w ∧ sdp_core w'.
Proof.
  induction 1 as [|w w1 w2 Ha _ IH]; [done|]. intros Hc.
  destruct (act_core _ _ Ha Hc) as [Heq Hc1]. destruct (IH Hc1). by rewrite <-Heq.
Qed.

Lemma acts_pending w w' : rtc act w w' → sdp_core w → pending_fresh w → pending_fresh w'.
Proof.
  induction 1 as [|w w1 w2 Ha _ IH]; [done|]. intros Hc Hp.
  apply IH; [by eapply act_core|by eapply act_pending].
Qed.

(** ** Every step keeps the invariant *)

Record sdp_inv w : Prop := {
  sdp_is_core : sdp_core w;
  sdp_fresh : pending_fresh w;
  sdp_slot : slot_handled w;
}.

(** A change outside the message machinery. *)
Lemma quiet_inv w w' es us :
  io (host w') = io (host w) ++ es → (∀ n, IoHandle n ∉ es) →
  queue w' = queue w ++ us → (∀ m, SetPendingSDP m ∉ us) →
  hooks w' = hooks w → sdpSlot (fiber w') = sdpSlot (fiber w) →
  sdp_inv w → handled w' = handled w ∧ sdp_inv w'.
Proof.
  intros Hio Hes Hq Hus Hh Hsl [Hc Hp Hs].
  destruct (quiet_core w w' es us) as (Hhd & Hpd & Hcore); auto.
  split; [done|]. split; [by apply Hcore| |].
  - unfold pending_fresh. by rewrite Hpd, Hhd.
  - unfold slot_handled. by rewrite Hsl, Hhd.
Qed.

Lemma still_inv w w' :
  io (host w') = io (host w) → queue w' = queue w → hooks w' = hooks w →
  sdpSlot (fiber w') = sdpSlot (fiber w) →
  sdp_inv w → handled w' = handled w ∧ sdp_inv w'.
Proof.
  intros Hio Hq ??. apply (quiet_inv w w' [] []); rewrite ?app_nil_r; auto; set_solver.
Qed.

Lemma acts_inv w w' : rtc act w w' → sdp_inv w → handled w' = handled w ∧ sdp_inv w'.
Proof.
  intros Ha [Hc Hp Hs]. destruct (acts_core _ _ Ha Hc) as [Hhd Hc'].
  split; [done|]. split; [done|by eapply acts_pending|].
  unfold slot_handled. destruct (acts_frame _ _ Ha) as [_ ->]. by rewrite Hhd.
Qed.

Lemma commit_sdp w : sdp_inv w →
  handled (commit_state w) = handled w ∧ sdp_inv (commit_state w) ∧
  pending (commit_state w) = pending w.
Proof.
  intros [[Hs Hb Hq] Hp Hsl]. split_and!; [done| |done].
  split; [|done|done]. split; [done|done|]. intros n v Hin. by apply not_elem_of_nil in Hin.
Qed.

Lemma process_eq env message w :
  process env message w =
    let r := handleSDPMessage env message w in
    (with_queue (queue (fst r) ++ [SetPendingSDP None]) (fst r), Returned [snd r]).
Proof.
  unfold process, start, bind. by destruct (handleSDPMessage env message w).
Qed.

(** Processing the waiting message: its number is appended to [handled]. *)
Lemma process_inv env n message w :
  page_inv w → sdp_inv w → env ∈ renders (fiber w) → queue w = [] →
  pendingSDP env = Some (n, message) → pending w = Some (n, message) →
  let w1 := on_host (log (IoHandle n)) (mark_slot env w) in
  let w2 := fst (process env message w1) in
  handled w2 = handled w ++ [n] ∧ sdp_inv w2.
Proof.
  intros Hi [[Hs Hb Hq] Hp Hsl] Henv Hqn Hpe Hpn w1 w2.
  pose proof (env_pending _ _ (inv_renders _ Hi _ Henv) _ _ Hpe) as Hrec.
  assert (handled w1 = handled w ++ [n]) as Hh1.
  { unfold handled, w1. simpl. by rewrite omap_app. }
  assert (sdp_core w1) as Hc1.
  { split; rewrite ?Hh1.
    - apply StronglySorted_app. split_and!; [|done|by repeat constructor].
      intros x1 x2 Hx1 ->%list_elem_of_singleton.
      exact (proj1 (Forall_forall _ _) (Hp _ _ Hpn) _ Hx1).
    - intros i m. unfold w1. simpl. intros [Hi'|[Hge Hi']]%lookup_app_Some; [eauto|].
      apply list_lookup_singleton_Some in Hi' as [Hz [= <-]].
      pose proof (lookup_lt_Some _ _ _ (proj1 Hrec)). lia.
    - intros m v. unfold w1. simpl. rewrite Hqn. intros Hin. by apply not_elem_of_nil in Hin. }
  destruct (mark_slot_inv env w Hi) as [Hi1 Hg1].
  destruct (log_quiet_inv (IoHandle n) _ ltac:(done) Hi1) as [Hi2 Hg2].
  pose proof (wp_handleSDPMessage env n message w1 Hi2) as Hwp.
  unfold wp in Hwp. unfold w2. rewrite process_eq. cbn zeta.
  destruct (handleSDPMessage env message w1) as [w3 o].
  destruct Hwp as (_ & Ha & _).
  { eauto using grows_render. }
  { eapply received_sdp_grows; [|done]. by etrans. }
  destruct (acts_core _ _ Ha Hc1) as [Hhd [Hs3 Hb3 Hq3]]. destruct (acts_frame _ _ Ha) as [_ Hf].
  cbn [fst]. split; [by rewrite Hh1 in Hhd|]. split.
  - split; [done|done|]. intros m v. simpl. rewrite elem_of_app. intros [?|Hin]; [eauto|].
    apply list_elem_of_singleton in Hin. done.
  - intros m v. by rewrite pending_update.
  - intros sl cid m. simpl. rewrite Hf. simpl. intros [= <-]. simpl. unfold sdp_deps.
    rewrite Hpe. simpl. intros [= _ <-] _. change (n ∈ handled w3). rewrite Hhd, Hh1.
    apply elem_of_app. right. by left.
Qed.

Lemma dispatch_process env message c :
  dispatch (process env message) c =
    mkConfig (fst (process env message (world c)))
      (tasks c ++ [snd (handleSDPMessage env message (world c))]).
Proof. unfold dispatch. by rewrite process_eq. Qed.

Lemma mark_slot_sdp env w :
  sdp_inv w → (∀ n v, pendingSDP env = Some (n, v) → truthy (clientId env) = false) →
  handled (mark_slot env w) = handled w ∧ sdp_inv (mark_slot env w).
Proof.
  intros [Hc Hp Hsl] Hnone. split; [done|]. split; [by destruct Hc|done|].
  intros sl cid n [= <-]. simpl. unfold sdp_deps.
  destruct (pendingSDP env) as [[m v]|]; simpl; [|done].
  intros [= <- <-]. by rewrite (Hnone m v).
Qed.

(** The effect of a render on the committed state [env]. *)
Lemma sdpEffect_sdp env c :
  page_inv (world c) → sdp_inv (world c) → env ∈ renders (fiber (world c)) →
  queue (world c) = [] → pending (world c) = pendingSDP env →
  let c' := dispatch (sdpEffect env) c in
  sdp_inv (world c') ∧
  handled (world c') =
    handled (world c) ++
      match pendingSDP env with
      | Some (n, _) => if truthy (clientId env) then [n] else []
      | None => []
      end.
Proof.
  intros Hi Hs Henv Hq Hpe c'. unfold c', dispatch. rewrite sdpEffect_eq.
  case_decide as Hd.
  - cbn. split; [done|]. destruct (pendingSDP env) as [[n v]|] eqn:Hp; [|by rewrite app_nil_r].
    destruct (truthy (clientId env)) eqn:Hcl; [|by rewrite app_nil_r]. exfalso.
    destruct (sdpSlot (fiber (world c))) as [sl|] eqn:Hsl; [|done]. injection Hd as Hd.
    unfold sdp_deps in Hd. rewrite Hp in Hd.
    pose proof (sdp_slot _ Hs _ _ _ Hsl Hd Hcl) as Hin.
    pose proof (sdp_fresh _ Hs _ _ Hpe) as Hf. rewrite Forall_forall in Hf.
    apply Hf in Hin. simpl in Hin. lia.
  - destruct (truthy (clientId env)) eqn:Hcl, (pendingSDP env) as [[n message]|] eqn:Hp.
    + destruct (process_inv env n message (world c)) as [Hh Hs']; [done..|].
      rewrite process_eq in *. done.
    + destruct (mark_slot_sdp env (world c)) as [? ?]; [done|congruence|].
      cbn [world]. by rewrite app_nil_r.
    + destruct (mark_slot_sdp env (world c)) as [? ?]; [done|done|].
      cbn [world]. by rewrite app_nil_r.
    + destruct (mark_slot_sdp env (world c)) as [? ?]; [done|done|].
      cbn [world]. by rewrite app_nil_r.
Qed.

Definition page_sdp c : Prop :=
  config_ok page_inv grows (rtc act) c ∧ sdp_inv (world c).

(** A re-render processes the waiting message when an id is assigned. *)
Lemma render_sdp c m :
  page_sdp c → mount (fiber (world c)) = Some m →
  let env := flush apply_update (queue (world c)) (hooks (world c)) in
  sdp_inv (world (render c)) ∧
  handled (world (render c)) =
    handled (world c) ++
      match pending (world c) with
      | Some (n, _) => if truthy (clientId env) then [n] else []
      | None => []
      end.
Proof.
  intros [Hok Hs] Hm env. pose proof Hok as [Hi _]. unfold render. cbv zeta.
  destruct (commit_sdp _ Hs) as (Hh1 & Hs1 & Hp1).
  pose proof (commit_inv _ _ Hi Hm) as Hi1.
  pose proof (env_world_ok _ _ _ commit_state c Hok Hi1 (commit_grows (world c))) as Hok1.
  set (c1 := env_world commit_state c) in *. change (hooks (world c1)) with env.
  pose proof (peerIdEffect_ok env c1 Hok1 (inv_hooks _ Hi1)) as [Hok2 _].
  destruct (peerIdEffect_dispatch env c1) as (p & sl & _ & Heq). rewrite Heq in *.
  destruct (still_inv (world c1) (set_peerId_slot p sl (world c1))) as [Hh2 Hs2]; [done..|].
  destruct (sdpEffect_sdp env (env_world (set_peerId_slot p sl) c1)) as [Hs3 Hh3];
    [apply Hok2|done| |done|done|].
  - simpl. apply elem_of_app. right. by left.
  - split; [done|]. rewrite Hh3. f_equal.
Qed.

Lemma first_render_sdp envUrl window c :
  page_sdp c → mount (fiber (world c)) = None → sdp_inv (world (first_render envUrl window c)).
Proof.
  intros [Hok Hs] Hm. pose proof Hok as [Hi _]. unfold first_render. cbv zeta.
  pose proof (inv_unmounted _ Hi Hm) as Hinit.
  destruct (record_render_inv _ Hi) as [Hi1 Hg1].
  pose proof (env_world_ok _ _ _ record_render c Hok Hi1 Hg1) as Hok1.
  set (c1 := env_world record_render c) in *.
  destruct (set_videos_inv (Some "local") (Some "remote") _ Hi1) as [Hi2 Hg2].
  pose proof (env_world_ok _ _ _ (on_refs (set_videos (Some "local") (Some "remote"))) c1
    Hok1 Hi2 Hg2) as Hok2.
  set (c2 := env_world _ c1) in *.
  assert (hooks (world c2) = initState) as -> by done.
  pose proof (peerIdEffect_ok initState c2 Hok2 (env_ok_init _)) as [Hok3 _].
  destruct (peerIdEffect_dispatch initState c2) as (p & sl & _ & Heq). rewrite Heq in *.
  set (c3 := env_world (set_peerId_slot p sl) c2) in *.
  destruct (still_inv (world c) (world c3)) as [_ Hs3]; [done..|].
  destruct (dispatch_ok page_inv grows (rtc act) (async_handler initLocalStream) c3 Hok3)
    as [_ Hg4].
  { apply wp_async_handler; [apply _|]. apply wp_initLocalStream, Hok3. }
  set (c4 := dispatch _ c3) in *. destruct (acts_inv _ _ Hg4 Hs3) as [_ Hs4].
  clearbody c4. clear -Hs4.
  assert (sdp_inv (world (dispatch (sync_handler (connect envUrl window initState)) c4))) as Hs5.
  { pose proof (connect_run envUrl window initState (world c4)) as Hrun. cbv zeta in Hrun.
    rewrite dispatch_sync by (rewrite Hrun; by destruct (newWebSocket _)). cbn [env_world world].
    rewrite Hrun. destruct (newWebSocket _) as [e|s]; [done|].
    eapply (quiet_inv (world c4)); [done|set_solver|done|set_solver|done|done|done]. }
  set (c5 := dispatch _ c4) in *. clearbody c5.
  unfold dispatch. rewrite sdpEffect_eq. case_decide; [done|]. simpl.
  by apply mark_slot_sdp.
Qed.

(** The messages a step processes: the waiting one, when a render has an id. *)
Definition processed_by (e : Event) c : list nat :=
  match e, pending (world c) with
  | EvRender, Some (n, _) =>
      if truthy (clientId (flush apply_update (queue (world c)) (hooks (world c)))) then [n] else []
  | _, _ => []
  end.

Lemma step_sdp e c c' :
  page_sdp c → step e c = Some c' →
  page_sdp c' ∧ (mount (fiber (world c)) ≠ None →
                 handled (world c') = handled (world c) ++ processed_by e c).
Proof.
  intros Hc Hst. pose proof Hc as [Hok Hs]. destruct (step_ok _ _ _ Hok Hst) as [Hok' _].
  assert (∀ w', handled w' = handled (world c) ∧ sdp_inv w' →
    sdp_inv w' ∧ (mount (fiber (world c)) ≠ None → handled w' = handled (world c) ++ [])) as Hsame.
  { intros w' [-> ?]. by rewrite app_nil_r. }
  enough (sdp_inv (world c') ∧ (mount (fiber (world c)) ≠ None →
            handled (world c') = handled (world c) ++ processed_by e c)) as [? ?] by done.
  destruct (handler_event e) eqn:He.
  { assert (processed_by e c = []) as -> by by destruct e.
    apply Hsame, acts_inv; [|done]. by eapply step_handler. }
  destruct e as [envUrl window| | |data|ws rs|cand|cs|st|ss|pc p|text| |]; try done;
    simpl in Hst; cbv zeta in Hst;
    destruct (mount (fiber (world c))) as [m|] eqn:Hm; simplify_eq;
    try (apply enabled_Some in Hst as [_ <-]); try (by apply Hsame, still_inv).
  - split; [by apply first_render_sdp|done].
  - destruct (render_sdp c m Hc Hm). done.
  - rewrite unmount_run. cbn [world env_world].
    destruct (disconnected_host_io m (refs (world c)) (host (world c))) as (es & Hes & _).
    apply Hsame, (quiet_inv (world c) _ es []); rewrite ?app_nil_r; try done; [|set_solver].
    intros n Hin. revert Hes. unfold disconnected_host.
    destruct (peerConnectionRef _), (localStreamRef _); simpl; rewrite <-?app_assoc;
      intros <-%(inj (app _)); set_solver.
Qed.

Lemma init_sdp : page_sdp init.
Proof.
  split; [by apply reachable_ok, reach_init|]. split; [|done|done].
  split; [constructor|done|]. intros n v Hin. by apply not_elem_of_nil in Hin.
Qed.

Lemma reachable_sdp c : reachable step init c → page_sdp c.
Proof.
  revert c. apply reachable_ind_inv; [apply init_sdp|]. intros e c c' Hc Hs.
  by eapply step_sdp.
Qed.

(** C6: The page processes the SDP messages it received in the order of receipt
    and each at most once: the positions of the processed messages are
    strictly increasing. *)
Theorem processed_in_order c : reachable step init c → StronglySorted lt (handled (world c)).
Proof. intros Hc. by destruct (reachable_sdp c Hc) as [_ [[? _ _] _ _]]. Qed.

(** C7: A render with an assigned client id always processes the waiting message,
    exactly that one, and after it nothing waits. *)
Theorem render_processes_pending c c' n v :
  reachable step init c → step EvRender c = Some c' →
  pending (world c) = Some (n, v) →
  truthy (clientId (flush apply_update (queue (world c)) (hooks (world c)))) = true →
  handled (world c') = handled (world c) ++ [n] ∧ pending (world c') = None.
Proof.
  intros Hc Hst Hp Hcl. pose proof (reachable_sdp c Hc) as Hs.
  destruct (step_sdp _ _ _ Hs Hst) as [[_ Hs'] Hh].
  simpl in Hst. destruct (mount (fiber (world c))) as [m|] eqn:Hm; [|done].
  specialize (Hh ltac:(done)). unfold processed_by in Hh. rewrite Hp, Hcl in Hh. split; [done|].
  destruct (pending (world c')) as [[n' v']|] eqn:Hp'; [|done]. exfalso.
  apply enabled_Some in Hst as [_ <-].
  assert (n < n') as Hlt.
  { pose proof (sdp_fresh _ Hs' _ _ Hp') as Hf. rewrite Hh, Forall_forall in Hf.
    apply (Hf n). apply elem_of_app. right. by left. }
  cut (pending (world (render c)) = pending (world c) ∨ pending (world (render c)) = None).
  { intros [Heq|Heq]; rewrite Heq in Hp'; simplify_eq. lia. }
  unfold render. cbv zeta. set (env := hooks (world (env_world commit_state c))).
  destruct (peerIdEffect_dispatch env (env_world commit_state c)) as (p & sl & _ & ->).
  set (c2 := env_world _ (env_world commit_state c)).
  destruct (sdpEffect_run env c2) as [->|[->|(n2 & m2 & _ & _ & _ & ->)]]; [by left..|right].
  rewrite dispatch_process, process_eq. cbn [fst world]. by rewrite pending_update.
Qed.

(** ** Messages that are lost *)

(** A message no longer waits and never will: it is older than everything
    that may be queued from now on. *)
Definition lost (n : nat) w : Prop :=
  S n < length (io (host w)) ∧ (n ∉ handled w) ∧ (∀ m v, pending w = Some (m, v) → n ≠ m).

Lemma act_lost n w w' : act w w' → sdp_core w → lost n w → lost n w'.
Proof.
  intros Ha Hc (Hlen & Hh & Hp). destruct (act_core _ _ Ha Hc) as [Hhd _].
  pose proof (act_grows _ _ Ha) as [Hio%prefix_length _ _].
  split_and!; [lia|by rewrite Hhd|].
  destruct Ha as [| | |u w [_ Hu]| | |pc s w Hs]; try exact Hp.
  - intros m v. rewrite pending_update. destruct u; try apply Hp.
    intros ->. specialize (Hu m v eq_refl). lia.
  - destruct (addTracks_frame pc s w) as (ts & ps & ->). exact Hp.
Qed.

Lemma acts_lost n w w' : rtc act w w' → sdp_core w → lost n w → lost n w'.
Proof.
  induction 1 as [|w w1 w2 Ha _ IH]; [done|]. intros Hc Hl.
  apply IH; [by eapply act_core|by eapply act_lost].
Qed.

(** What a render leaves waiting: what waited, or nothing. *)
Lemma render_pending c :
  pending (world (render c)) = pending (world c) ∨ pending (world (render c)) = None.
Proof.
  unfold render. cbv zeta. set (env := hooks (world (env_world commit_state c))).
  destruct (peerIdEffect_dispatch env (env_world commit_state c)) as (p & sl & _ & ->).
  set (c2 := env_world _ (env_world commit_state c)).
  destruct (sdpEffect_run env c2) as [->|[->|(n2 & m2 & _ & _ & _ & ->)]]; [by left..|right].
  rewrite dispatch_process, process_eq. cbn [fst world]. by rewrite pending_update.
Qed.

Lemma step_lost n e c c' :
  reachable step init c → mount (fiber (world c)) ≠ None → step e c = Some c' →
  lost n (world c) → lost n (world c') ∧ mount (fiber (world c')) ≠ None.
Proof.
  intros Hc Hm Hst Hl. pose proof (reachable_sdp c Hc) as Hs. pose proof Hs as [Hok [Hcore _ _]].
  destruct (step_ok _ _ _ Hok Hst) as [_ [Hio _ _ Hmt]].
  destruct (mount (fiber (world c))) as [m|] eqn:Hme; [|done].
  split; [|by rewrite (Hmt m)]. destruct (handler_event e) eqn:He.
  { eapply acts_lost; [|done|done]. by eapply step_handler. }
  destruct Hl as (Hlen & Hh & Hp). apply prefix_length in Hio.
  destruct (step_sdp _ _ _ Hs Hst) as [_ Hhd]. rewrite Hme in Hhd. specialize (Hhd ltac:(done)).
  split_and!; [lia| |].
  - rewrite Hhd, elem_of_app. intros [?|Hin]; [done|]. unfold processed_by in Hin.
    destruct e; try (by apply not_elem_of_nil in Hin).
    destruct (pending (world c)) as [[m' v]|]; [|by apply not_elem_of_nil in Hin].
    destruct (truthy _); [|by apply not_elem_of_nil in Hin].
    apply list_elem_of_singleton in Hin. by apply (Hp m' v).
  - destruct e; try done; simpl in Hst; cbv zeta in Hst; rewrite ?Hme in Hst; simplify_eq;
      try exact Hp; apply enabled_Some in Hst as [_ <-].
    + intros m' v Hp'. destruct (render_pending c) as [Heq|Heq]; rewrite Heq in Hp'; [|done].
      by apply (Hp m' v).
    + rewrite unmount_run. exact Hp.
Qed.

Lemma run_lost n es c c' :
  reachable step init c → mount (fiber (world c)) ≠ None → run step es c = Some c' →
  lost n (world c) → lost n (world c').
Proof.
  revert c. induction es as [|e es IH]; simpl; intros c Hc Hm Hr Hl; [by simplify_eq|].
  destruct (step e c) as [c1|] eqn:Hs; [|done]. simpl in Hr.
  destruct (step_lost n e c c1) as [? ?]; [done..|]. eapply IH; [by eapply reach_step|done..].
Qed.

Lemma onmessage_sdp env data v w :
  JSON_parse data = inr v → isWelcomeMessage v = inr false → isSDPMessage v = inr true →
  onmessage env data w =
    let w1 := on_host (log (IoReceive v)) w in
    (with_queue (queue w1 ++ [SetPendingSDP (Some (length (io (host w)), v))]) w1, Returned []).
Proof.
  intros Hd Hw Hv. unfold onmessage, may_throw, emit, setState, bind, sync, gets, modify.
  rewrite Hd. simpl. rewrite Hw. simpl. by rewrite Hv.
Qed.

(** C37: Only the newest unprocessed message survives: when another offer or
    answer arrives while one waits to be processed, the waiting one is never
    processed, in any continuation. *)
Theorem unprocessed_message_is_lost c c1 c2 n v data v' es :
  reachable step init c → pending (world c) = Some (n, v) →
  JSON_parse data = inr v' → isWelcomeMessage v' = inr false → isSDPMessage v' = inr true →
  step (EvMessage data) c = Some c1 → run step es c1 = Some c2 →
  n ∉ handled (world c2).
Proof.
  intros Hc Hp Hd Hw Hv Hst Hr. pose proof (reachable_sdp c Hc) as [Hok [Hcore Hf _]].
  pose proof (reach_step _ _ _ _ _ Hc Hst) as Hc1.
  pose proof Hst as Hst'. simpl in Hst. cbv zeta in Hst.
  destruct (mount (fiber (world c))) as [m|] eqn:Hm; [|done]. injection Hst as Heq.
  assert (world c1 = fst (onmessage (mount_env m) data (world c))) as Hw1.
  { rewrite <-Heq. unfold dispatch. by rewrite (onmessage_sdp _ _ v'). }
  rewrite (onmessage_sdp _ _ v') in Hw1 by done. cbv zeta in Hw1. cbn [fst] in Hw1.
  assert (n < length (io (host (world c)))) as Hn.
  { destruct (step_ok _ _ _ Hok Hst') as [[Hi1 _] _].
    assert (received_sdp (io (host (world c))) n v) as [Hl _]; [|by eapply lookup_lt_Some].
    destruct Hok as [Hi _].
    exact (env_pending _ _ (flush_ok _ _ _ (inv_hooks _ Hi) (inv_queue _ Hi)) n v Hp). }
  apply (run_lost n es c1 c2); [done| |done|].
  - rewrite Hw1. simpl. by rewrite Hm.
  - rewrite Hw1. split_and!.
    + simpl. rewrite length_app. simpl. lia.
    + change (n ∉ handled (on_host (log (IoReceive v')) (world c))).
      unfold handled. simpl. rewrite handled_log by (intros ? ?%list_elem_of_singleton; done).
      intros Hin. specialize (Hf n v Hp). rewrite Forall_forall in Hf.
      apply Hf in Hin. simpl in Hin. lia.
    + intros m' v''. rewrite pending_update. intros [= <- _]. lia.
Qed.
End Sdp.

(** ** Examples *)

#[local] Existing Instance RefBrowser.

Lemma processed_in_order_witness :
  StronglySorted lt (handled (world (final step init ex_answered))).
Proof. apply processed_in_order. by_run. Defined.

(** bob's offer waits for the next render. *)
Definition ex_waiting : list Event := ex_ready ++ [EvMessage (ex_offer "bob")].

Definition ex_offer_value (from : string) : jsval :=
  encode (SDPOfferMessage from "alice" (ex_sdp "offer")).

Lemma render_processes_pending_witness :
  let c := final step init ex_waiting in
  handled (world (next step EvRender c)) = handled (world c) ++ [5] ∧
  pending (world (next step EvRender c)) = None.
Proof.
  intros c. apply (render_processes_pending c _ 5 (ex_offer_value "bob")); by_run.
Defined.

Lemma unprocessed_message_is_lost_witness :
  5 ∉ handled (world (after step [EvRender; EvRender]
                        (next step (EvMessage (ex_offer "carol")) (final step init ex_waiting)))).
Proof.
  apply (unprocessed_message_is_lost (final step init ex_waiting)
    (next step (EvMessage (ex_offer "carol")) (final step init ex_waiting))
    (after step [EvRender; EvRender]
      (next step (EvMessage (ex_offer "carol")) (final step init ex_waiting)))
    5 (ex_offer_value "bob") (ex_offer "carol") (ex_offer_value "carol") [EvRender; EvRender]);
    by_run.
Defined.
