(* ===== verification/PageProperties.v ===== *)
(** * Properties of the page

    Theorems about every reachable configuration of [Page.step], each with an
    example on the reference browser where it has hypotheses. *)
From S2P Require Import Prelude JsValue WebrtcConstants SignalingTypes Async Browser Messages ReferenceBrowser Json React WebrtcHelpers Page PageHears PageExamples PageInvariant.

Section Properties.
Context {B : BrowserAPI}.
Local Abbreviation W := (World Refs State Update Fiber).
Local Abbreviation Page := (Config Refs State Update Fiber unit).
Implicit Types (w : W) (c : Page).

Lemma candidate_step c cand c' :
  reachable step init c → step (EvIceCandidate cand) c = Some c' → c' = c.
Proof.
  intros Hc Hs. pose proof (reachable_ok c Hc) as [Hi _]. simpl in Hs. cbv zeta in Hs.
  destruct (mount (fiber (world c))) as [m|] eqn:Hm; simplify_eq.
  destruct (inv_mount _ Hi _ Hm) as (-> & _).
  unfold dispatch, sync_handler, onicecandidate, ref, gets, bind. simpl.
  destruct cand; [destruct (is_str (peerIdRef (refs (world c))) "")|]; simpl;
    rewrite app_nil_r; by destruct c.
Qed.

(** C36: The peer connection's candidate handler never does anything: its closure
    is the first render's, whose client id is [null], so [sendMessage]
    returns before the socket is used, whatever the candidate, the peer id
    and the id assigned since. *)
Theorem candidates_are_dropped c cand c' :
  reachable step init c → step (EvIceCandidate cand) c = Some c' → c' = c.
Proof. apply candidate_step. Qed.

(** C3: Everything the page ever sends is an offer to the non-empty peer id of a
    render, or the answer to the sender of an offer it received; its [from]
    is the truthy id a welcome message assigned. *)
Theorem sent_messages c ws text :
  reachable step init c → IoSend ws text ∈ io (host (world c)) →
  ∃ from to sdp t,
    text = JSON_stringify [("from", from); ("to", to); ("sdp", sdp); ("type", JStr t)] ∧
    truthy from = true ∧ welcomed (io (host (world c))) from ∧
    (t = "offer" ∧ truthy to = true ∨
     t = "answer" ∧ received_offer (io (host (world c))) to).
Proof.
  intros Hc Hin. pose proof (reachable_ok c Hc) as [Hi _].
  destruct (inv_sent _ Hi _ _ Hin) as (env & Henv & Hcl & Ht).
  pose proof (env_client _ _ (inv_renders _ Hi _ Henv) Hcl) as Hwel.
  destruct Ht as [(sdp & Hp & ->)|(from & sdp & Ho & ->)].
  - exists (clientId env), (peerId env), sdp, "offer". split_and!; [done..|by left].
  - exists (clientId env), from, sdp, "answer". split_and!; [done..|by right].
Qed.

(** ** The offer *)

Definition reset w : W * @Outcome W thrown Request Reply unit :=
  (on_refs (set_isNegotiating false) w, Returned tt).

(** The last part of [createOffer]: the offer goes to the peer of the render
    the call belongs to; when the socket throws, the flag is reset. *)
Definition send_offer (env : State) (offer : jsval) w : W * @Outcome W thrown Request Reply unit :=
  match socket env with
  | Some ws =>
      if truthy (clientId env) then
        match sockets (host w) !! ws with
        | Some s =>
            match ws_send (readyState s) with
            | Some _ => reset w
            | None => (on_host (log (IoSend ws (offer_text env offer))) w, Returned tt)
            end
        | None => (w, Returned tt)
        end
      else (w, Returned tt)
  | None => (w, Returned tt)
  end.

(** What each settlement of the two awaits of [createOffer] leads to, from
    any state the page is in by then. *)
Definition after_setLocal env offer
    (k : thrown + unit → W → W * @Outcome W thrown Request Reply unit) : Prop :=
  ∀ w, (∀ e, k (inl e) w = reset w) ∧ k (inr tt) w = send_offer env offer w.

Definition after_create env pc
    (k : thrown + jsval → W → W * @Outcome W thrown Request Reply unit) : Prop :=
  ∀ w, (∀ e, k (inl e) w = reset w) ∧
    ∀ offer, ∃ k', after_setLocal env offer k' ∧
      k (inr offer) w =
        (on_host (log (IoRequest (SetLocalDescription pc offer))) w,
         Awaiting (SetLocalDescription pc offer) k').

Lemma catch_send env offer w :
  catch_out (λ _, set_ref (set_isNegotiating false))
    (fst (sendMessage env [("to", peerId env); ("sdp", offer);
            ("type", JStr (OFFER MESSAGE_TYPES))] w))
    (snd (sendMessage env [("to", peerId env); ("sdp", offer);
            ("type", JStr (OFFER MESSAGE_TYPES))] w)) = send_offer env offer w.
Proof.
  unfold sendMessage, send_offer, when_some, send_text, sync.
  destruct (truthy (clientId env)), (socket env) as [ws|]; simpl; try done.
  destruct (sockets (host w) !! ws) as [s|]; simpl; [|done].
  by destruct (ws_send (readyState s)).
Qed.

Definition offer_rest env pc : @JS W thrown Request Reply unit :=
  offer <- request (CreateOffer pc) ;;
  request (SetLocalDescription pc offer) ;;
  sendMessage env [("to", peerId env); ("sdp", offer); ("type", JStr (OFFER MESSAGE_TYPES))].

Lemma offer_rest_run env pc w :
  ∃ k, after_create env pc k ∧
    try_catch (offer_rest env pc) (λ _, set_ref (set_isNegotiating false)) w =
      (on_host (log (IoRequest (CreateOffer pc))) w, Awaiting (CreateOffer pc) k).
Proof.
  eexists. split; [|reflexivity]. intros w1. split; [done|]. intros offer.
  eexists. split; [|reflexivity]. intros w2. split; [done|].
  rewrite <-catch_send. cbn. by destruct (sendMessage _ _ _) as [? []].
Qed.

(** [createOffer] when its preconditions hold: the flag is raised, the local
    tracks are added unless the connection already has senders, and the call
    waits for the offer; when adding a track throws, the flag is reset. *)
Lemma createOffer_run env w pc s :
  peerConnectionRef (refs w) = Some pc → localStreamRef (refs w) = Some s →
  truthy (peerId env) = true → isLocalStreamReady env = true →
  isNegotiatingRef (refs w) = false →
  let w1 := on_refs (set_isNegotiating true) w in
  let r := if decide (senders_of w pc = []) then addTracksToConnection pc s w1
           else (w1, Returned tt) in
  (∃ e, snd r = Threw e ∧ createOffer env w = reset (fst r)) ∨
  (snd r = Returned tt ∧ ∃ k, after_create env pc k ∧
     createOffer env w =
       (on_host (log (IoRequest (CreateOffer pc))) (fst r), Awaiting (CreateOffer pc) k)).
Proof.
  intros Hpc Hs Hp Hr Hf w1 r.
  assert (createOffer env w = match r with (w2, o) =>
    catch_out (λ _, set_ref (set_isNegotiating false))
      (fst (bind_out (λ _, offer_rest env pc) w2 o))
      (snd (bind_out (λ _, offer_rest env pc) w2 o)) end) as ->.
  { unfold createOffer, ref, gets, bind at 1 2 3. simpl.
    rewrite Hpc, Hs, isPeerIdEmpty_spec, Hp, Hr, Hf. simpl.
    unfold try_catch, createOffer_body, bind at 1, set_ref at 1, modify. simpl. fold w1.
    unfold bind at 1, hasTracksAdded, bind at 2, get_senders, gets. simpl.
    assert (∀ p, peers (host w) !! pc = p → peers (host w1) !! pc = p) by done.
    unfold bind at 1, r, senders_of. simpl.
    destruct (peers (host w) !! pc) as [p|]; simpl; [destruct (getSenders p); simpl|];
      (destruct (addTracksToConnection pc s w1) as [w2 o] || idtac);
      fold (offer_rest env pc); try destruct (bind_out _ _ _); done. }
  pose proof (peers (host w1) !! pc) as Hpeer.
  assert ((∃ e, snd r = Threw e) ∨ snd r = Returned tt) as [[e He]|He].
  { unfold r. case_decide; [|by right]. destruct (peers (host w1) !! pc) as [p|] eqn:Hpe.
    - destruct (addTracks_run pc s w1 p Hpe) as (? & ? & o & -> & [[-> _]|(e & -> & _)]); eauto.
    - rewrite addTracks_no_connection by done. by right. }
  - left. exists e. split; [done|]. destruct r as [w2 o]; simpl in *; subst. done.
  - right. split; [done|]. destruct r as [w2 o]; simpl in *; subst. simpl.
    destruct (offer_rest_run env pc w2) as (k & Hk & Hrun). exists k. split; [done|].
    by rewrite <-Hrun.
Qed.

(** ** The connect button *)

Lemma dispatch_async m c :
  dispatch (async_handler m) c =
    mkConfig (fst (m (world c))) (tasks c ++ [snd (m (world c))]).
Proof. unfold dispatch, async_handler, start, bind. by destruct (m (world c)). Qed.

(** What an enabled button guarantees of the state. *)
Lemma connect_enabled c c' :
  reachable step init c → step EvConnect c = Some c' →
  let w := world c in
  ∃ pc s, peerConnectionRef (refs w) = Some pc ∧ localStreamRef (refs w) = Some s ∧
    truthy (peerId (hooks w)) = true ∧ isLocalStreamReady (hooks w) = true ∧
    c' = dispatch (async_handler (createOffer (hooks w))) c.
Proof.
  intros Hc Hs. pose proof (reachable_ok c Hc) as [Hi _]. simpl in Hs. cbv zeta in Hs.
  destruct (mount (fiber (world c))) as [m|] eqn:Hm; [|done].
  apply enabled_Some in Hs as [He <-]. apply andb_true_iff in He as [_ He].
  unfold connect_disabled in He. rewrite negb_orb, !negb_involutive, andb_true_iff in He.
  destruct He as [Hready Hpeer], (inv_mount _ Hi _ Hm) as (_ & _ & Hpc).
  destruct (env_ready _ _ (inv_hooks _ Hi) Hready) as [s Hstream].
  by exists (mount_pc m), s.
Qed.

Lemma createOffer_negotiating env w pc s :
  peerConnectionRef (refs w) = Some pc → localStreamRef (refs w) = Some s →
  truthy (peerId env) = true → isLocalStreamReady env = true →
  isNegotiatingRef (refs w) = true → createOffer env w = (w, Returned tt).
Proof.
  intros Hpc Hs Hp Hr Hf. unfold createOffer, ref, gets, bind. simpl.
  rewrite Hpc, Hs, isPeerIdEmpty_spec, Hp, Hr, Hf. done.
Qed.

(** While the button is enabled the two guards of [createOffer] that alert
    the user cannot fire: a click never alerts. *)
Theorem connect_never_alerts c c' text :
  reachable step init c → step EvConnect c = Some c' →
  occurrences (IoAlert text) (io (host (world c'))) =
    occurrences (IoAlert text) (io (host (world c))).
Proof.
  intros Hc Hs. destruct (connect_enabled c c' Hc Hs) as (pc & s & Hpc & Hst & Hp & Hr & ->).
  rewrite dispatch_async. cbn [world].
  destruct (isNegotiatingRef (refs (world c))) eqn:Hf.
  { by rewrite (createOffer_negotiating _ _ pc s). }
  destruct (createOffer_run (hooks (world c)) (world c) pc s) as
    [(e & _ & ->)|(_ & k & _ & ->)]; [done..| |];
    (case_decide; [destruct (addTracks_frame pc s (on_refs (set_isNegotiating true) (world c)))
       as (ts & ps & ->)|]); simpl; rewrite ?occurrences_app, ?occurrences_one;
    rewrite ?(occurrences_none _ (IoAddTrack _ <$> _)) by (intros (? & ? & ?)%list_elem_of_fmap; done);
    simpl; lia.
Qed.

(** C5: A click on the enabled button with no negotiation under way raises the
    flag and adds the local tracks unless the connection has senders.  Then
    it waits for the offer, sets it as local description, and sends it to
    the peer id shown when the button was clicked, from whatever state the
    page is in when each promise settles; every failure resets the flag and
    sends nothing. *)
Theorem connect_offers c c' :
  reachable step init c → step EvConnect c = Some c' →
  isNegotiatingRef (refs (world c)) = false →
  ∃ pc s r,
    peerConnectionRef (refs (world c)) = Some pc ∧ localStreamRef (refs (world c)) = Some s ∧
    r = (let w1 := on_refs (set_isNegotiating true) (world c) in
         if decide (senders_of (world c) pc = []) then addTracksToConnection pc s w1
         else (w1, Returned tt)) ∧
    ((∃ e, snd r = Threw e ∧
        c' = mkConfig (fst (reset (fst r))) (tasks c ++ [Returned tt])) ∨
     (snd r = Returned tt ∧ ∃ k, after_create (hooks (world c)) pc k ∧
        c' = mkConfig (on_host (log (IoRequest (CreateOffer pc))) (fst r))
               (tasks c ++ [Awaiting (CreateOffer pc) k]))).
Proof.
  intros Hc Hs Hf. destruct (connect_enabled c c' Hc Hs) as (pc & s & Hpc & Hst & Hp & Hr & ->).
  exists pc, s. eexists. split_and!; [done|done|done|]. rewrite dispatch_async.
  destruct (createOffer_run (hooks (world c)) (world c) pc s) as
    [(e & He & ->)|(He & k & Hk & ->)]; [done..|left|right]; eauto.
Qed.

(** ** One negotiation at a time *)

Definition is_create_offer (e : IO) : bool :=
  match e with IoRequest (CreateOffer _) => true | _ => false end.

Definition offers_requested w : nat := length (filter is_create_offer (io (host w))).

Definition busy (n : nat) w : Prop :=
  isNegotiatingRef (refs w) = true ∧ offers_requested w = n.

(** No offer is requested, and the flag is not lowered. *)
Definition steady : relation W := λ w w',
  offers_requested w' = offers_requested w ∧
  (isNegotiatingRef (refs w) = true → isNegotiatingRef (refs w') = true).

#[export] Instance steady_preorder : PreOrder steady.
Proof. split; [done|]. intros w1 w2 w3 [H1 H2] [H3 H4]. split; [by etrans|auto]. Qed.

Lemma offers_others w w' es :
  io (host w') = io (host w) ++ es → Forall (λ e, is_create_offer e = false) es →
  offers_requested w' = offers_requested w.
Proof.
  intros Hio Hes. unfold offers_requested. rewrite Hio, filter_app.
  assert (filter is_create_offer es = []) as ->; [|by rewrite app_nil_r].
  clear Hio. induction Hes as [|e es He _ IH]; [done|]. rewrite filter_cons, decide_False; [done|]. rewrite He. by intros [].
Qed.

#[export] Instance steady_ignores : Ignores steady.
Proof.
  split; [apply _|]. intros w w' es Hio Hes Hr _ _. split; [|by rewrite Hr].
  eapply offers_others; [done|]. eapply Forall_impl; [exact Hes|]. by intros [[]| | | | | | | | | | | |].
Qed.

#[export] Instance steady_log e : TCEq (is_create_offer e) false → Harmless steady (on_host (log e)).
Proof.
  intros He%TCEq_eq w. split; [|done]. eapply offers_others; [done|]. by constructor.
Qed.

#[export] Instance steady_update u : Harmless steady (λ w, with_queue (queue w ++ [u]) w).
Proof. by intros w. Qed.

#[export] Instance steady_connection pc : Harmless steady (on_refs (set_peerConnection pc)).
Proof. by intros w. Qed.

#[export] Instance steady_stream st : Harmless steady (on_refs (set_localStream st)).
Proof. by intros w. Qed.

#[export] Instance steady_peer p : Harmless steady (on_refs (set_peerId p)).
Proof. by intros w. Qed.

#[export] Instance steady_raise : Harmless steady (on_refs (set_isNegotiating true)).
Proof. by intros w. Qed.

(** A part of an async function, up to [o]: no offer is requested, and the flag
    is lowered only at the end. *)
Definition segment w w' (o : Outcome W Reply unit) : Prop :=
  offers_requested w' = offers_requested w ∧
  (isNegotiatingRef (refs w) = true → isNegotiatingRef (refs w') = true ∨ settled o = true).

(** Such are all later parts of a promise. *)
Fixpoint ends_last (o : @Outcome W thrown Request Reply unit) : Prop :=
  match o with
  | Awaiting r k => ∀ v w, match k v w with (w', o') => segment w w' o' ∧ ends_last o' end
  | _ => True
  end.

Lemma steady_segment w w' o : steady w w' → segment w w' o.
Proof. intros [? ?]. split; [done|auto]. Qed.

Lemma segment_after w w1 w' o : steady w w1 → segment w1 w' o → segment w w' o.
Proof. intros [H1 H2] [H3 H4]. split; [by etrans|auto]. Qed.

Lemma calm_ends w o : promise_ok always anything steady w o → ends_last o.
Proof.
  revert w. induction o as [| |r k IH] using Outcome_resume_ind; intros w Ho; [done..|].
  intros v w1. specialize (Ho v w1 I I). specialize (IH v w1). destruct (k v w1) as [w2 o2].
  destruct Ho as (_ & Hs & Ho). split; [by apply steady_segment|by eapply IH].
Qed.

Lemma catch_ends w o :
  out_ok always anything steady (λ _ _, True) (λ _ _, True) w o →
  match catch_out (λ _, set_ref (set_isNegotiating false)) w o with
  | (w', o') => segment w w' o' ∧ ends_last o'
  end.
Proof.
  revert w. induction o as [a|e|r k IH] using Outcome_resume_ind; intros w Ho.
  - split; [|done]. by apply steady_segment.
  - split; [|done]. split; [done|by right].
  - split; [by apply steady_segment|]. intros v w1. specialize (Ho v w1 I I). specialize (IH v w1).
    destruct (k v w1) as [w2 o2]. destruct Ho as (_ & Hs & Ho). specialize (IH w2 Ho).
    simpl in IH. destruct (catch_out _ w2 o2) as [w3 o3]. destruct IH as [? ?].
    split; [by eapply segment_after|done].
Qed.

Lemma calm_body env data pc stream : calm steady (handleSDPMessage_body env data pc stream).
Proof. hush. Qed.

Lemma handleSDPMessage_ends env data w :
  match handleSDPMessage env data w with (w', o) => segment w w' o ∧ ends_last o end.
Proof.
  unfold handleSDPMessage, ref, gets, bind, when_some. simpl.
  destruct (peerConnectionRef (refs w)) as [pc|]; [|split; [by apply steady_segment|done]].
  unfold try_catch. pose proof (calm_body env data pc (localStreamRef (refs w)) w I) as Hwp.
  unfold wp in Hwp. destruct (handleSDPMessage_body _ _ _ _ w) as [w1 o].
  destruct Hwp as (_ & Hs & Ho). pose proof (catch_ends w1 o Ho) as Hc.
  destruct (catch_out _ w1 o). destruct Hc. split; [by eapply segment_after|done].
Qed.

Lemma reset_segment w : match reset w with (w', o) => segment w w' o ∧ ends_last o end.
Proof. split; [|done]. split; [done|by right]. Qed.

Lemma send_offer_ends env offer w :
  match send_offer env offer w with (w', o) => segment w w' o ∧ ends_last o end.
Proof.
  assert (segment w w (Returned tt) ∧ ends_last (Returned tt)) as Hnone
    by (split; [by apply steady_segment|done]).
  unfold send_offer. destruct (socket env) as [ws|]; [|done]. destruct (truthy _); [|done].
  destruct (sockets (host w) !! ws) as [s|]; [|done].
  destruct (ws_send _); [apply reset_segment|]. split; [|done]. apply steady_segment, steady_log. constructor.
Qed.

Lemma after_create_ends env pc k : after_create env pc k → ends_last (Awaiting (CreateOffer pc) k).
Proof.
  intros Hk v w. change (thrown + jsval)%type in v. destruct (Hk w) as [He Ho]. destruct v as [e|offer]; [rewrite He; apply reset_segment|].
  destruct (Ho offer) as (k' & Hk' & ->). split; [apply steady_segment, steady_log; constructor|].
  intros v' w'. change (thrown + unit)%type in v'. destruct (Hk' w') as [He' Ho']. destruct v' as [e|[]];
    [rewrite He'; apply reset_segment|rewrite Ho'; apply send_offer_ends].
Qed.

(** ** The event loop *)

(** What a step may do to the flag and the offers. *)
Definition fair (e : Event) (c c' : Page) : Prop :=
  (offers_requested (world c') = offers_requested (world c) ∨
   e = EvConnect ∧ offers_requested (world c') = S (offers_requested (world c)) ∧
   isNegotiatingRef (refs (world c)) = false ∧ isNegotiatingRef (refs (world c')) = true) ∧
  (isNegotiatingRef (refs (world c)) = true → isNegotiatingRef (refs (world c')) = false →
   e = EvSignalingState "stable" ∨
   (∃ i f o, e = EvSettle i f ∧ tasks c' !! i = Some o ∧ settled o = true) ∨
   (e = EvRender ∧ ∃ o, tasks c' = tasks c ++ [o] ∧ settled o = true)).

Definition all_end c : Prop := Forall ends_last (tasks c).

(** From [c0] to [c] the code was calm. *)
Definition calm_since c0 c : Prop := steady (world c0) (world c) ∧ all_end c.

Lemma calm_fair e c c' : calm_since c c' → all_end c' ∧ fair e c c'.
Proof.
  intros [[Ho Hf] He]. split; [done|]. split; [by left|]. intros H1 H2. rewrite Hf in H2; done.
Qed.

Lemma calm_dispatch c0 m c : mute steady m → calm_since c0 c → calm_since c0 (dispatch m c).
Proof.
  intros Hm [Hs He]. destruct (mute_dispatch steady m c Hm) as (Hg & ps & Heq & Hps).
  split; [by etrans|]. unfold all_end. rewrite Heq. apply Forall_app. split; [done|].
  eapply Forall_impl; [done|]. intros o. apply calm_ends.
Qed.

Lemma calm_env c0 f c : Harmless steady f → calm_since c0 c → calm_since c0 (env_world f c).
Proof. intros Hf [Hs He]. split; [|done]. etrans; [done|]. apply Hf. Qed.

Lemma mute_candidate env v : calm steady (handleIceCandidateMessage env v).
Proof. hush. Qed.

Lemma calm_message env data c : all_end c → calm_since c (dispatch (onmessage env data) c).
Proof.
  intros Hc. rewrite onmessage_dispatch. destruct (JSON_parse data) as [|v]; [by split|].
  cbv zeta. assert (calm_since c (env_world (on_host (log (IoReceive v))) c)) as H1
    by (apply calm_env; [apply steady_log; constructor|by split]).
  destruct (isWelcomeMessage v) as [|[]]; [done|destruct (get_prop v "id"); [done|]|].
  - apply calm_env; [by intros w|done].
  - apply calm_dispatch; [|done]. apply mute_received_message; [apply _..|apply mute_candidate].
Qed.

Lemma calm_peerIdEffect c0 env c :
  calm_since c0 c → calm_since c0 (dispatch (sync_handler (peerIdEffect env)) c) ∧
  tasks (dispatch (sync_handler (peerIdEffect env)) c) = tasks c.
Proof.
  intros Hc. destruct (peerIdEffect_dispatch env c) as (p & sl & _ & ->).
  split; [|done]. apply calm_env; [by intros w|done].
Qed.

(** The processing of the pending message. *)
Lemma process_segment env message c :
  all_end c → ∃ w o, dispatch (process env message) c = mkConfig w (tasks c ++ [o]) ∧
    segment (world c) w o ∧ ends_last o.
Proof.
  intros Hc. pose proof (handleSDPMessage_ends env message (world c)) as He.
  unfold dispatch, process, bind, start. destruct (handleSDPMessage _ _ _) as [w o]. simpl.
  eexists _, o. split; [done|]. destruct He as [[Ho Hf] ?]. by split.
Qed.

Lemma render_fair c : all_end c → all_end (render c) ∧ fair EvRender c (render c).
Proof.
  intros Hc. unfold render. cbv zeta. set (c1 := env_world commit_state c).
  assert (calm_since c c1) as H1 by (apply calm_env; [by intros w|by split]).
  destruct (calm_peerIdEffect c (hooks (world c1)) c1 H1) as [H2 Ht]. set (c2 := dispatch _ c1) in *.
  set (env := hooks (world c1)).
  assert (calm_since c (env_world (mark_slot env) c2)) as H3 by (apply calm_env; [by intros w|done]).
  destruct (sdpEffect_run env c2) as [->|[->|(n & message & _ & _ & _ & ->)]]; [by apply calm_fair..|].
  assert (calm_since c (env_world (on_host (log (IoHandle n))) (env_world (mark_slot env) c2))) as H4
    by (apply calm_env; [apply steady_log; constructor|done]).
  set (c4 := env_world _ (env_world _ c2)) in *. destruct H4 as [Hs He].
  destruct (process_segment env message c4 He) as (w & o & -> & Hseg & Ho).
  destruct (segment_after _ _ _ _ Hs Hseg) as [Hof Hfl].
  split; [apply Forall_app; split; [done|by constructor]|]. split; [by left|].
  intros Ht1 Hf1. cbn [world] in Hf1. right. right. split; [done|]. exists o. cbn [tasks].
  split; [change (tasks c2 ++ [o] = tasks c1 ++ [o]); by rewrite Ht|]. destruct (Hfl Ht1); [congruence|done].
Qed.

Lemma first_render_calm envUrl window c :
  hooks (world c) = initState → all_end c → calm_since c (first_render envUrl window c).
Proof.
  intros Hh Hc. unfold first_render. cbv zeta. set (c1 := env_world _ (env_world _ c)).
  assert (calm_since c c1) as H1 by (do 2 (apply calm_env; [by intros w|]); by split).
  assert (hooks (world c1) = initState) as -> by done.
  destruct (calm_peerIdEffect c initState c1 H1) as [H2 _]. set (c2 := dispatch _ c1) in *.
  assert (calm_since c (dispatch (async_handler initLocalStream) c2)) as H3
    by (apply calm_dispatch; [apply mute_async; [apply _|hush]|done]).
  set (c3 := dispatch _ c2) in *.
  assert (calm_since c (dispatch (sync_handler (connect envUrl window initState)) c3)) as H4
    by (apply calm_dispatch; [apply mute_sync; [apply _|hush]|done]).
  set (c4 := dispatch _ c3) in *.
  destruct (sdpEffect_run initState c4) as [->|[->|(n & message & _ & Hp & _)]]; [done| |done].
  apply calm_env; [by intros w|done].
Qed.

Lemma settle_fair i f c c' :
  all_end c → settle i f c = Some c' → all_end c' ∧ fair (EvSettle i f) c c'.
Proof.
  intros Hc Hs. unfold settle in Hs. destruct (tasks c !! i) as [o|] eqn:Hi; [|done].
  pose proof (Forall_lookup_1 _ _ _ _ Hc Hi) as Ho. destruct o as [| |r k]; [done..|].
  simpl in Hs. specialize (Ho (f r) (world c)). destruct (k (f r) (world c)) as [w o']. simplify_eq/=.
  destruct Ho as [[Hof Hfl] Ho']. split; [by apply Forall_insert|]. split; [by left|].
  intros H1 H2. cbn [world] in H2. right. left. exists i, f, o'. split_and!; [done| |].
  - apply list_lookup_insert_eq. by eapply lookup_lt_Some.
  - destruct (Hfl H1); [congruence|done].
Qed.

Lemma connect_fair c c' :
  reachable step init c → all_end c → step EvConnect c = Some c' → all_end c' ∧ fair EvConnect c c'.
Proof.
  intros Hr Hc Hs. destruct (connect_enabled c c' Hr Hs) as (pc & s & Hpc & Hst & Hp & Hrd & ->).
  rewrite dispatch_async. destruct (isNegotiatingRef (refs (world c))) eqn:Hf.
  { rewrite (createOffer_negotiating _ _ pc s) by done. split; [by apply Forall_snoc|].
    split; [by left|]. cbn. by rewrite Hf. }
  assert (∀ m : @JS W thrown Request Reply unit, calm steady m → offers_requested (fst (m (on_refs (set_isNegotiating true) (world c)))) =
    offers_requested (world c) ∧
    isNegotiatingRef (refs (fst (m (on_refs (set_isNegotiating true) (world c))))) = true) as Hm.
  { intros m Hm. specialize (Hm (on_refs (set_isNegotiating true) (world c)) I). unfold wp in Hm.
    destruct (m _). destruct Hm as (_ & [? Hfl] & _). split; [done|by apply Hfl]. }
  pose proof (createOffer_run (hooks (world c)) (world c) pc s Hpc Hst Hp Hrd Hf) as Hrun.
  cbv zeta in Hrun. set (r := if decide _ then _ else _) in Hrun.
  assert (offers_requested (fst r) = offers_requested (world c) ∧
    isNegotiatingRef (refs (fst r)) = true) as [Hof Hfl].
  { unfold r. case_decide; [apply Hm, calm_addTracks; apply _|done]. }
  clearbody r. destruct Hrun as [(e & _ & ->)|(_ & k & Hk & ->)]; cbn [fst snd].
  - split; [by apply Forall_snoc|]. split; [by left|]. cbn. by rewrite Hf.
  - split; [apply Forall_snoc; [done|by eapply after_create_ends]|]. split; [|by rewrite Hf].
    right. split_and!; [done| |done|done]. rewrite <-Hof. unfold offers_requested. simpl.
    rewrite filter_app, length_app. simpl. lia.
Qed.

Lemma offers_step e c c' :
  reachable step init c → all_end c → step e c = Some c' → all_end c' ∧ fair e c c'.
Proof.
  intros Hr Hc Hs. pose proof (reachable_ok c Hr) as [Hi _].
  assert (calm_since c c) as H0 by done.
  destruct e as [u l| | |data|ws rs|cand|st|tr|st|pc p|text| |i f];
    try (by apply connect_fair); try (by apply settle_fair); simpl in Hs; cbv zeta in Hs;
    try (destruct (mount (fiber (world c))) as [m|] eqn:Hm; try done);
    try (apply enabled_Some in Hs as [_ <-]); simplify_eq;
    try (by apply render_fair); try (by apply calm_fair, calm_message).
  1: apply calm_fair, first_render_calm; [by apply Hi|done].
  1: apply calm_fair; unfold unmount; apply calm_dispatch; [apply mute_sync; [apply _|hush]|].
  1: apply calm_env; [by intros w|done].
  6: { unfold onsignalingstatechange. case_bool_decide as Hst.
       - rewrite dispatch_sync by done. split; [done|]. split; [by left|]. intros _ _. left. by rewrite Hst.
       - apply calm_fair, calm_dispatch; [apply mute_sync; [apply _|hush]|done]. }
  all: apply calm_fair; first [apply calm_dispatch; [apply mute_sync; [apply _|hush]|done]
                              |apply calm_env; [by intros w|done]].
Qed.

Lemma reachable_all_end c : reachable step init c → all_end c.
Proof.
  induction 1 as [|c e c' Hc IH Hs]; [by constructor|]. by eapply offers_step.
Qed.

(** C8: In every reachable configuration and for every event: an offer is
    requested only by a click, one at a time, while no negotiation is under way,
    and one is under way from then on.  A negotiation under way is over only
    when the signaling state is reported as stable, when a promise settles and
    its function ends, or when the processing of an SDP message that a render
    started ends at once. *)
Theorem one_offer_at_a_time e c c' :
  reachable step init c → step e c = Some c' →
  (offers_requested (world c') = offers_requested (world c) ∨
   e = EvConnect ∧ offers_requested (world c') = S (offers_requested (world c)) ∧
   isNegotiatingRef (refs (world c)) = false ∧ isNegotiatingRef (refs (world c')) = true) ∧
  (isNegotiatingRef (refs (world c)) = true → isNegotiatingRef (refs (world c')) = false →
   e = EvSignalingState "stable" ∨
   (∃ i f o, e = EvSettle i f ∧ tasks c' !! i = Some o ∧ settled o = true) ∨
   (e = EvRender ∧ ∃ o, tasks c' = tasks c ++ [o] ∧ settled o = true)).
Proof. intros Hc Hs. eapply (offers_step e c c'); [done|by apply reachable_all_end|done]. Qed.
End Properties.

(** ** Examples *)

#[local] Existing Instance RefBrowser.

Lemma candidates_are_dropped_witness :
  let c := final step init ex_offered in
  next step (EvIceCandidate (Some (JStr "c"))) c = c.
Proof. apply (candidates_are_dropped _ (Some (JStr "c"))); by_run. Defined.

Lemma sent_messages_witness :
  ∃ from to sdp t,
    stringify [("from", JStr "alice"); ("to", JStr "bob"); ("sdp", ex_sdp "offer");
               ("type", JStr "offer")] =
      JSON_stringify [("from", from); ("to", to); ("sdp", sdp); ("type", JStr t)] ∧
    truthy from = true ∧ welcomed (io (host (world (final step init ex_offered)))) from ∧
    (t = "offer" ∧ truthy to = true ∨
     t = "answer" ∧ received_offer (io (host (world (final step init ex_offered)))) to).
Proof.
  apply (sent_messages (final step init ex_offered) 0); [by_run|].
  refine (proj1 (bool_decide_eq_true _) _). by_run.
Defined.

Lemma connect_never_alerts_witness :
  let c := final step init ex_typed in
  occurrences (IoAlert "x") (io (host (world (next step EvConnect c)))) =
    occurrences (IoAlert "x") (io (host (world c))).
Proof. apply connect_never_alerts; by_run. Defined.

Lemma connect_offers_witness :
  let c := final step init ex_typed in
  ∃ pc s r,
    peerConnectionRef (refs (world c)) = Some pc ∧ localStreamRef (refs (world c)) = Some s ∧
    r = (let w1 := on_refs (set_isNegotiating true) (world c) in
         if decide (senders_of (world c) pc = []) then addTracksToConnection pc s w1
         else (w1, Returned tt)) ∧
    ((∃ e, snd r = Threw e ∧
        next step EvConnect c = mkConfig (fst (reset (fst r))) (tasks c ++ [Returned tt])) ∨
     (snd r = Returned tt ∧ ∃ k, after_create (hooks (world c)) pc k ∧
        next step EvConnect c = mkConfig (on_host (log (IoRequest (CreateOffer pc))) (fst r))
               (tasks c ++ [Awaiting (CreateOffer pc) k]))).
Proof. apply connect_offers; by_run. Defined.

(** A click while no negotiation is under way, and the end of one. *)
Lemma one_offer_at_a_time_witness :
  let c := final step init ex_typed in let c' := next step EvConnect c in
  (offers_requested (world c') = offers_requested (world c) ∨
   EvConnect = EvConnect ∧ offers_requested (world c') = S (offers_requested (world c)) ∧
   isNegotiatingRef (refs (world c)) = false ∧ isNegotiatingRef (refs (world c')) = true) ∧
  (isNegotiatingRef (refs (world c)) = true → isNegotiatingRef (refs (world c')) = false →
   EvConnect = EvSignalingState "stable" ∨
   (∃ i f o, EvConnect = EvSettle i f ∧ tasks c' !! i = Some o ∧ settled o = true) ∨
   (EvConnect = EvRender ∧ ∃ o, tasks c' = tasks c ++ [o] ∧ settled o = true)).
Proof. apply one_offer_at_a_time; by_run. Defined.

(** While the first offer is on its way a message without a usable description
    arrives: its processing fails and lowers the flag, and the next click
    requests a second offer. *)
Definition ex_overlapping : list Event :=
  [EvMessage (stringify [("from", JStr "bob"); ("to", JStr "alice"); ("type", JStr "offer")]);
   EvRender; EvConnect].

Example failed_message_lowers_flag :
  offers_requested (world (final step init ex_clicked)) = 1 ∧
  (settled <$> tasks (final step init ex_clicked)) = [true; false] ∧
  offers_requested (world (after step ex_overlapping (final step init ex_clicked))) = 2 ∧
  (settled <$> tasks (after step ex_overlapping (final step init ex_clicked))) = [true; false; true; false].
Proof. vm_compute. done. Qed.
