(* ===== verification/PageCallee.v ===== *)
(** * What the page does with the messages it receives

    The protocol of [handleSDPMessage] from any interleaving, the effect of a
    received candidate on the chosen peer, and the end of the page. *)
From S2P Require Import Prelude JsValue WebrtcConstants SignalingTypes Async Browser Messages ReferenceBrowser Json React WebrtcHelpers Page PageExamples PageInvariant PageProperties.

Section Callee.
Context {B : BrowserAPI}.
Local Abbreviation W := (World Refs State Update Fiber).
Local Abbreviation M := (@JS W thrown Request Reply).
Local Abbreviation Out := (@Outcome W thrown Request Reply).
Local Abbreviation Page := (Config Refs State Update Fiber unit).
Implicit Types (w : W) (c : Page) (env : State).

(** ** The answer *)

Definition adopted (from : jsval) w : W :=
  on_refs (set_peerId from) (enqueue [SetPeerId from] w).

(** The answer goes to the sender of the offer, from the id of the render the
    message was processed in; when the socket throws, the flag is reset. *)
Definition send_answer env (from answer : jsval) w : W * Out unit :=
  match truthy (clientId env), socket env with
  | true, Some ws =>
      match readyState <$> sockets (host w) !! ws with
      | Some rs =>
          match ws_send rs with
          | Some _ => reset w
          | None => (on_host (log (IoSend ws (answer_text env from answer))) w, Returned tt)
          end
      | None => (w, Returned tt)
      end
  | _, _ => (w, Returned tt)
  end.

(** What each settlement of the awaits leads to, from any state the page is in
    by then. *)
Definition after_setLocalAnswer env from answer (k : thrown + unit → W → W * Out unit) : Prop :=
  ∀ w, (∀ e, k (inl e) w = reset w) ∧ k (inr tt) w = send_answer env from answer w.

Definition after_createAnswer env from pc (k : thrown + jsval → W → W * Out unit) : Prop :=
  ∀ w, (∀ e, k (inl e) w = reset w) ∧
    ∀ answer, ∃ k', after_setLocalAnswer env from answer k' ∧
      k (inr answer) w =
        (on_host (log (IoRequest (SetLocalDescription pc answer))) w,
         Awaiting (SetLocalDescription pc answer) k').

(** An offer raises the flag and is answered; an answer is done. *)
Definition after_setRemote env from pc (is_offer : bool) (k : thrown + unit → W → W * Out unit)
    : Prop :=
  ∀ w, (∀ e, k (inl e) w = reset w) ∧
    if is_offer then
      ∃ k', after_createAnswer env from pc k' ∧
        k (inr tt) w =
          (on_host (log (IoRequest (CreateAnswer pc))) (on_refs (set_isNegotiating true) w),
           Awaiting (CreateAnswer pc) k')
    else k (inr tt) w = (w, Returned tt).

Local Abbreviation on_error := (λ _ : thrown, set_ref (set_isNegotiating false)).

Lemma send_answer_run env from answer w :
  try_catch (sendMessage env [("to", from); ("sdp", answer); ("type", JStr (ANSWER MESSAGE_TYPES))])
    on_error w = send_answer env from answer w.
Proof.
  unfold try_catch, sendMessage, send_answer, when_some, send_text, sync.
  destruct (truthy (clientId env)), (socket env) as [ws|]; simpl; try done.
  destruct (sockets (host w) !! ws) as [s|]; simpl; [|done].
  by destruct (ws_send (readyState s)).
Qed.

Lemma answer_run env from pc w :
  ∃ k, after_createAnswer env from pc k ∧
    try_catch (answer <- request (CreateAnswer pc) ;;
               request (SetLocalDescription pc answer) ;;
               sendMessage env [("to", from); ("sdp", answer); ("type", JStr (ANSWER MESSAGE_TYPES))])
      on_error w = (on_host (log (IoRequest (CreateAnswer pc))) w, Awaiting (CreateAnswer pc) k).
Proof.
  destruct (catch_request (CreateAnswer pc) (λ answer, request (SetLocalDescription pc answer) ;;
    sendMessage env [("to", from); ("sdp", answer); ("type", JStr (ANSWER MESSAGE_TYPES))])
    on_error w) as (k & Hk & Hrun).
  exists k. split; [|exact Hrun]. intros w1. split; [intros e; by rewrite Hk|]. intros answer.
  rewrite Hk. destruct (catch_request (SetLocalDescription pc answer) (λ _,
    sendMessage env [("to", from); ("sdp", answer); ("type", JStr (ANSWER MESSAGE_TYPES))])
    on_error w1) as (k' & Hk' & Hrun').
  exists k'. split; [|exact Hrun']. intros w2. split; [intros e; by rewrite Hk'|].
  rewrite Hk'. apply send_answer_run.
Qed.

(** The state and the type [handleSDPMessage] goes on with after it looked at
    the sender, or the state it failed in. *)
Definition sender_adopted env (data : jsval) w : W :=
  match get_prop data "from" with
  | inr from =>
      if bool_decide (from ≠ JUndef) && isPeerIdEmpty (peerId env) then adopted from w else w
  | inl _ => w
  end.

Definition sdp_type (data : jsval) : thrown + jsval :=
  sdp ← get_prop data "sdp"; get_prop sdp "type".

Lemma adopt_run env data from w :
  get_prop data "from" = inr from →
  (if bool_decide (from ≠ JUndef) && isPeerIdEmpty (peerId env) then adopt_peer from
   else ret tt : M unit) w = (sender_adopted env data w, Returned tt).
Proof. intros Hf. unfold sender_adopted. rewrite Hf. by destruct (_ && _). Qed.

(** C4: The processing of an SDP message, on every branch.  The sender becomes the
    peer when none was chosen; on an offer the local tracks are added before
    the remote description is set; then an offer is answered to its sender,
    and every failure resets the flag. *)
Theorem handleSDPMessage_protocol env data w :
  match peerConnectionRef (refs w), get_prop data "from" with
  | None, _ => handleSDPMessage env data w = (w, Returned tt)
  | Some _, inl _ => handleSDPMessage env data w = reset w
  | Some pc, inr from =>
      let w1 := sender_adopted env data w in
      match sdp_type data with
      | inl _ => handleSDPMessage env data w = reset w1
      | inr type =>
          let is_offer := is_str type "offer" in
          let r := add_local_tracks (if is_offer then localStreamRef (refs w) else None) pc w1 in
          match snd r, newRTCSessionDescription (field data "sdp") with
          | Returned _, inr d => ∃ k, after_setRemote env from pc is_offer k ∧
              handleSDPMessage env data w =
                (on_host (log (IoRequest (SetRemoteDescription pc d))) (fst r),
                 Awaiting (SetRemoteDescription pc d) k)
          | Awaiting _ _, _ => False
          | _, _ => handleSDPMessage env data w = reset (fst r)
          end
      end
  end.
Proof.
  unfold handleSDPMessage. do 2 erewrite bind_returned by reflexivity.
  destruct (peerConnectionRef (refs w)) as [pc|]; [|done]. cbn [when_some].
  unfold handleSDPMessage_body. destruct (get_prop data "from") as [e|from] eqn:Hfrom.
  { by erewrite try_threw by reflexivity. }
  erewrite try_returned by reflexivity. cbv zeta.
  erewrite try_returned by by apply adopt_run. set (w1 := sender_adopted env data w).
  unfold sdp_type, field. destruct (get_prop data "sdp") as [e|sdp] eqn:Hsdp; cbv [mbind thrown_bind]; cbn beta iota.
  { by erewrite try_threw by reflexivity. }
  erewrite try_returned by reflexivity. destruct (get_prop sdp "type") as [e|type] eqn:Htype.
  { by erewrite try_threw by reflexivity. }
  erewrite try_returned by reflexivity. cbv zeta.
  erewrite try_returned by apply hasTracksAdded_run.
  match goal with |- context [try_catch (bind ?m0 _) _ w1] => set (m := m0) end.
  assert (m w1 = add_local_tracks (if is_str type "offer" then localStreamRef (refs w) else None) pc w1)
    as Hm.
  { unfold m, add_local_tracks, ensure_tracks. change (OFFER MESSAGE_TYPES) with "offer".
    destruct (is_str type "offer"); [|done]. destruct (localStreamRef (refs w)); [|done].
    case_bool_decide; case_decide; done. }
  clearbody m. change (OFFER MESSAGE_TYPES) with "offer".
  pose proof (add_local_tracks_run
    (if is_str type "offer" then localStreamRef (refs w) else None) pc w1) as Hr.
  destruct (add_local_tracks _ pc w1) as [w2 o]. cbn [fst snd] in *.
  destruct Hr as [->|[e ->]]; [|by erewrite try_threw by exact Hm].
  erewrite try_returned by exact Hm.
  destruct (newRTCSessionDescription sdp) as [e|d]; [by erewrite try_threw by reflexivity|].
  erewrite try_returned by reflexivity. cbv beta.
  destruct (catch_request (SetRemoteDescription pc d) (λ _, if is_str type "offer" then
      set_ref (set_isNegotiating true) ;;
      answer <- request (CreateAnswer pc) ;;
      request (SetLocalDescription pc answer) ;;
      sendMessage env [("to", from); ("sdp", answer); ("type", JStr (ANSWER MESSAGE_TYPES))]
    else ret tt) on_error w2) as (k & Hk & Hrun).
  exists k. split; [|exact Hrun]. intros w3. split; [intros e; by rewrite Hk|]. rewrite Hk.
  destruct (is_str type "offer"); [|done]. erewrite try_returned by reflexivity.
  apply answer_run.
Qed.

(** ** Received candidates *)

Lemma handleIceCandidate_adopts v from pc w :
  peerConnectionRef (refs w) = Some pc → get_prop v "from" = inr from → from ≠ JUndef →
  ∃ es, fst (handleIceCandidateMessage initState v w) =
    on_host (λ h, mkHost (sockets h) (peers h) (stopped h) (io h ++ es)) (adopted from w).
Proof.
  intros Hpc Hf Hne. unfold handleIceCandidateMessage. erewrite bind_returned by reflexivity.
  rewrite Hpc. cbn [when_some]. rewrite Hf. erewrite try_returned by reflexivity. cbv zeta.
  rewrite bool_decide_true by done. cbn [initState peerId isPeerIdEmpty andb negb truthy].
  erewrite (try_returned (adopt_peer from) _ _ _ (adopted from w)) by reflexivity.
  assert (adopted from w = on_host (λ h, mkHost (sockets h) (peers h) (stopped h) (io h ++ []))
    (adopted from w)) as Hnil.
  { unfold on_host. destruct w as [[] ? ? ? ?]. simpl. by rewrite app_nil_r. }
  destruct (get_prop v "candidate") as [e|payload].
  { erewrite try_threw by reflexivity. by exists []. }
  erewrite try_returned by reflexivity.
  destruct (newRTCIceCandidate payload) as [e|cand].
  { erewrite try_threw by reflexivity. by exists []. }
  erewrite try_returned by reflexivity. by exists [IoRequest (AddIceCandidate pc cand)].
Qed.

Lemma onmessage_candidate env data v w :
  JSON_parse data = inr v → readable v = true → field v "type" = JStr "candidate" →
  fst (onmessage env data w) =
    fst (handleIceCandidateMessage env v (on_host (log (IoReceive v)) w)) ∧
  ∃ ps, snd (onmessage env data w) = Returned ps.
Proof.
  intros Hd Hr Ht. unfold onmessage. rewrite Hd.
  erewrite bind_returned by reflexivity. erewrite bind_returned by reflexivity.
  erewrite bind_returned by reflexivity. unfold isWelcomeMessage, isSDPMessage, isICECandidateMessage.
  rewrite !type_is_readable by done. rewrite Ht.
  change (is_str (JStr "candidate") "welcome") with false.
  change (is_str (JStr "candidate") "offer") with false.
  change (is_str (JStr "candidate") "answer") with false.
  change (is_str (JStr "candidate") "candidate") with true.
  do 3 (erewrite bind_returned by reflexivity; cbv iota).
  unfold async_handler, start, bind.
  destruct (handleIceCandidateMessage env v _) as [w' o]. simpl. eauto.
Qed.

(** C38: Any received candidate with a sender makes that sender the peer, also when
    the user chose another one: the handler compares with the peer id of the
    first render, which is empty. *)
Theorem candidate_replaces_peer c c' data v from :
  reachable step init c → step (EvMessage data) c = Some c' →
  JSON_parse data = inr v → readable v = true → field v "type" = JStr "candidate" →
  field v "from" = from → from ≠ JUndef →
  peerIdRef (refs (world c')) = from ∧
  peerId (flush apply_update (queue (world c')) (hooks (world c'))) = from.
Proof.
  intros Hc Hs Hd Hr Ht Hf Hne. pose proof (reachable_ok c Hc) as [Hi _]. simpl in Hs. cbv zeta in Hs.
  destruct (mount (fiber (world c))) as [m|] eqn:Hm; [|done]. injection Hs as <-.
  destruct (inv_mount _ Hi _ Hm) as (-> & _ & Hpc).
  destruct (onmessage_candidate initState data v (world c)) as (Hw & ps & Hps); [done..|].
  destruct (handleIceCandidate_adopts v from (mount_pc m) (on_host (log (IoReceive v)) (world c)))
    as (es & Hes); [done| |done|].
  { rewrite <-Hf. by apply get_prop_readable. }
  unfold dispatch. destruct (onmessage initState data (world c)) as [w' o]. simpl in Hw, Hps. subst o.
  cbn [world]. rewrite Hw, Hes. split; [done|].
  change (peerId (flush apply_update (queue (world c) ++ [SetPeerId from]) (hooks (world c))) = from).
  rewrite flush_app. simpl. by destruct (flush apply_update (queue (world c)) (hooks (world c))).
Qed.

(** ** The end of the page *)

(** C15: Unmounting closes the socket and the connection and stops every track of the
    local stream the page holds by then. *)
Theorem unmount_releases c c' :
  reachable step init c → step EvUnmount c = Some c' →
  ∃ m, mount (fiber (world c)) = Some m ∧
    sockets (host (world c')) !! mount_ws m =
      ((λ s, mkWebSocket (ws_url s) (ws_close (readyState s))) <$> sockets (host (world c)) !! mount_ws m) ∧
    peers (host (world c')) !! mount_pc m = (closePC <$> peers (host (world c)) !! mount_pc m) ∧
    (∀ s t, localStreamRef (refs (world c)) = Some s → t ∈ getTracks s →
       track_id t ∈ stopped (host (world c'))).
Proof.
  intros Hc Hs. pose proof (reachable_ok c Hc) as [Hi _]. simpl in Hs. cbv zeta in Hs.
  destruct (mount (fiber (world c))) as [m|] eqn:Hm; [|done].
  apply enabled_Some in Hs as [_ <-]. exists m. split; [done|].
  destruct (inv_mount _ Hi _ Hm) as (_ & _ & Hpc). rewrite unmount_run.
  cbn [world env_world]. unfold unmounted, disconnected_host. simpl. rewrite Hpc.
  destruct (localStreamRef (refs (world c))) as [s0|]; simpl;
    rewrite !list_lookup_alter_eq; (split_and!; [done|done|]); [|done].
  intros s t [= ->] Ht. rewrite elem_of_union, elem_of_list_to_set, list_elem_of_fmap. left. eauto.
Qed.

Lemma act_stopped w w' : act w w' → stopped (host w') = stopped (host w).
Proof. destruct 1; try done. by destruct (addTracks_frame pc s w) as (ts & ps & ->). Qed.

Lemma acts_stopped w w' : rtc act w w' → stopped (host w') = stopped (host w).
Proof. induction 1 as [|w w1 w2 Ha _ IH]; [done|]. rewrite IH. by apply act_stopped. Qed.

Lemma unmounted_step e c c' :
  reachable step init c → mount (fiber (world c)) ≠ None → mounted (fiber (world c)) = false →
  step e c = Some c' →
  stopped (host (world c')) = stopped (host (world c)) ∧ fiber (world c') = fiber (world c).
Proof.
  intros Hc Hm Hf Hs. pose proof (reachable_ok c Hc) as Hok. destruct (handler_event e) eqn:He.
  - destruct (step_handler e c c' Hok He Hs) as [_ Ha]. split; [by apply acts_stopped|by apply acts_frame].
  - destruct e; try done; simpl in Hs; cbv zeta in Hs;
      destruct (mount (fiber (world c))) as [m|]; try done; try (by simplify_eq);
      apply enabled_Some in Hs as [Hmt _]; congruence.
Qed.

(** The request of the camera, and what a grant does whenever it comes. *)
Lemma initLocalStream_run :
  ∃ k, (∀ w, initLocalStream w =
      (on_host (log (IoRequest (GetUserMedia MEDIA_CONSTRAINTS))) w,
       Awaiting (GetUserMedia MEDIA_CONSTRAINTS) k)) ∧
    ∀ s w, localStreamRef (refs (fst (k (inr s) w))) = Some s ∧
      stopped (host (fst (k (inr s) w))) = stopped (host w).
Proof.
  eexists. split; [reflexivity|]. intros s w. unfold bind, set_ref, ref, gets, modify. simpl.
  by destruct (localVideoRef (refs w)).
Qed.

(** C40: After the page is unmounted no event stops a track any more; the camera
    that [initLocalStream] asked for is stored when [getUserMedia] grants it
    after any such events, and none of its tracks is stopped. *)
Theorem late_stream_is_leaked es c c' :
  reachable step init c → mount (fiber (world c)) ≠ None → mounted (fiber (world c)) = false →
  run step es c = Some c' →
  stopped (host (world c')) = stopped (host (world c)) ∧
  ∃ k, (∀ w, initLocalStream w =
      (on_host (log (IoRequest (GetUserMedia MEDIA_CONSTRAINTS))) w,
       Awaiting (GetUserMedia MEDIA_CONSTRAINTS) k)) ∧
    ∀ s, localStreamRef (refs (fst (k (inr s) (world c')))) = Some s ∧
      stopped (host (fst (k (inr s) (world c')))) = stopped (host (world c)).
Proof.
  intros Hc Hm Hf Hr.
  assert (stopped (host (world c')) = stopped (host (world c))) as Hst.
  { revert c Hc Hm Hf Hr. induction es as [|e es IH]; simpl; intros c Hc Hm Hf Hr; [by simplify_eq|].
    destruct (step e c) as [c1|] eqn:Hs; [|done]. simpl in Hr.
    destruct (unmounted_step e c c1 Hc Hm Hf Hs) as [<- Hfib].
    apply IH; [by eapply reach_step|by rewrite Hfib..|done]. }
  split; [done|]. destruct initLocalStream_run as (k & Hk & Hs). exists k. split; [done|].
  intros s. destruct (Hs s (world c')) as [? ->]. done.
Qed.
End Callee.

(** ** Examples *)

#[local] Existing Instance RefBrowser.

(** The user typed bob's id; carol's candidate arrives. *)
Definition ex_candidate_value (from : string) : jsval :=
  encode (ICECandidateMessage from "alice" (JObj [("sdpMid", JStr "0")])).

Lemma candidate_replaces_peer_witness :
  let c := final step init ex_typed in
  let c' := next step (EvMessage (ex_candidate "carol")) c in
  peerId (hooks (world c)) = JStr "bob" ∧
  peerId (flush apply_update (queue (world c')) (hooks (world c'))) = JStr "carol".
Proof.
  split; [by_run|].
  apply (candidate_replaces_peer (final step init ex_typed)
    (next step (EvMessage (ex_candidate "carol")) (final step init ex_typed))
    (ex_candidate "carol") (ex_candidate_value "carol") (JStr "carol")); by_run || done.
Defined.

Lemma unmount_releases_witness :
  let c := final step init ex_answered in
  let c' := next step EvUnmount c in
  ∃ m, mount (fiber (world c)) = Some m ∧
    sockets (host (world c')) !! mount_ws m =
      ((λ s, mkWebSocket (ws_url s) (ws_close (readyState s))) <$> sockets (host (world c)) !! mount_ws m) ∧
    peers (host (world c')) !! mount_pc m = (closePC <$> peers (host (world c)) !! mount_pc m) ∧
    (∀ s t, localStreamRef (refs (world c)) = Some s → t ∈ getTracks s →
       track_id t ∈ stopped (host (world c'))).
Proof. apply unmount_releases; by_run. Defined.

(** The page is left before the camera is granted. *)
Definition ex_left : list Event := [ex_mount; EvUnmount].

Lemma late_stream_is_leaked_witness :
  let c := final step init ex_left in
  let c' := after step [EvSettle 0 ex_resolve] c in
  stopped (host (world c')) = stopped (host (world c)) ∧
  ∃ k, (∀ w, initLocalStream w =
      (on_host (log (IoRequest (GetUserMedia MEDIA_CONSTRAINTS))) w,
       Awaiting (GetUserMedia MEDIA_CONSTRAINTS) k)) ∧
    ∀ s, localStreamRef (refs (fst (k (inr s) (world c')))) = Some s ∧
      stopped (host (fst (k (inr s) (world c')))) = stopped (host (world c)).
Proof.
  apply (late_stream_is_leaked [EvSettle 0 ex_resolve] (final step init ex_left)
    (after step [EvSettle 0 ex_resolve] (final step init ex_left))); by_run || done.
Defined.

Example ex_late_camera :
  localStreamRef (refs (world (after step [EvSettle 0 ex_resolve] (final step init ex_left)))) =
    Some ex_camera.
Proof. by_run. Qed.
