(* ===== verification/PageTermination.v ===== *)
(** * The async functions of the page end

    Every promise the page waits for is settled at most three times before the
    function it belongs to has returned, so none waits forever once its
    requests are answered. *)
From S2P Require Import Prelude JsValue Async Browser React WebrtcHelpers Page PageInvariant PageExamples ReferenceBrowser.

Section Termination.
Context {B : BrowserAPI}.
Local Abbreviation W := (World Refs State Update Fiber).
Local Abbreviation M := (@JS W thrown Request Reply).
Local Abbreviation Page := (Config Refs State Update Fiber unit).

Lemma bounded_request r : bounded 1 (request r : M _).
Proof. apply (bounded_bind 0 1); [apply bounded_modify|]. intros _. apply bounded_await. Qed.

Lemma bounded_may_throw {X} (r : thrown + X) : bounded 0 (may_throw r : M X).
Proof. apply bounded_sync. Qed.

Lemma bounded_sendMessage env message : bounded 0 (sendMessage env message).
Proof. unfold sendMessage, when_some, send_text. repeat bounded_step. Qed.

Lemma bounded_hasTracks pc : bounded 0 (hasTracksAdded pc : M bool).
Proof. unfold hasTracksAdded, get_senders. repeat bounded_step. Qed.

Lemma bounded_addTracks pc s : bounded 0 (addTracksToConnection pc s : M unit).
Proof. unfold addTracksToConnection, pc_addTrack. repeat bounded_step. Qed.

Lemma bounded_adopt_peer from : bounded 0 (adopt_peer from).
Proof. unfold adopt_peer, setState, set_ref. repeat bounded_step. Qed.

(** A step that does not wait, and a request. *)
Lemma bounded_next {A X} n (m : M A) (f : A → M X) :
  bounded 0 m → (∀ a, bounded n (f a)) → bounded n (bind m f).
Proof. apply (bounded_bind 0 n). Qed.

Lemma bounded_wait {X} n r (f : Reply r → M X) :
  (∀ a, bounded n (f a)) → bounded (S n) (bind (request r) f).
Proof. apply (bounded_bind 1 n). apply bounded_request. Qed.
End Termination.

Create HintDb bounds.
#[export] Hint Resolve bounded_may_throw bounded_sendMessage bounded_hasTracks bounded_addTracks
  bounded_adopt_peer bounded_ret bounded_gets bounded_modify bounded_sync : bounds.

(** Walk along a handler, counting its requests. *)
Ltac bound :=
  lazymatch goal with
  | |- bounded _ (bind (request _) _) => apply bounded_wait; intros ?; bound
  | |- bounded _ (request _) => apply bounded_request
  | |- bounded _ (bind _ _) => apply bounded_next; [bound|intros ?; bound]
  | |- bounded _ (match ?x with _ => _ end) => destruct x; bound
  | |- bounded _ (set_ref _) => apply bounded_modify
  | |- bounded _ (ref _) => apply bounded_gets
  | |- bounded _ (setState _) => apply bounded_modify
  | |- bounded _ (emit _) => apply bounded_modify
  | |- bounded _ (alert _) => apply bounded_modify
  | |- bounded _ (when_some ?o _) => destruct o; simpl; bound
  | |- bounded 0 _ => solve [eauto with bounds]
  | |- bounded ?n _ => apply (bounded_mono 0); [lia|]; bound
  end.

Section Page.
Context {B : BrowserAPI}.
Local Abbreviation W := (World Refs State Update Fiber).
Local Abbreviation M := (@JS W thrown Request Reply).
Local Abbreviation Page := (Config Refs State Update Fiber unit).

(** [createOffer] awaits the offer and the local description. *)
Lemma bounded_createOffer env : bounded 2 (createOffer env).
Proof.
  unfold createOffer. do 3 (apply bounded_next; [bound|intros ?]). cbv zeta.
  repeat case_match; try solve [bound]. apply (bounded_try 2 0); [|intros ?; bound].
  unfold createOffer_body. bound.
Qed.

(** [handleSDPMessage] awaits the remote description, the answer and the local
    description. *)
Lemma bounded_handleSDPMessage env data : bounded 3 (handleSDPMessage env data).
Proof.
  unfold handleSDPMessage, when_some. do 2 (apply bounded_next; [bound|intros ?]).
  case_match; [|bound]. apply (bounded_try 3 0); [|intros ?; bound].
  unfold handleSDPMessage_body. cbv zeta. bound.
Qed.

Lemma bounded_handleIceCandidateMessage env data : bounded 1 (handleIceCandidateMessage env data).
Proof.
  unfold handleIceCandidateMessage, when_some. apply bounded_next; [bound|intros ?].
  case_match; [|bound]. apply (bounded_try 1 0); [|intros ?; bound]. cbv zeta. bound.
Qed.

Lemma bounded_initLocalStream : bounded 1 initLocalStream.
Proof. apply (bounded_try 1 0); [bound|intros ?; bound]. Qed.

(** ** The handlers *)

Lemma starts_mono n n' (m : M (list (Outcome W Reply unit))) :
  n ≤ n' → starts_within n m → starts_within n' m.
Proof.
  intros Hle Hm w. specialize (Hm w). destruct (m w) as [w' []]; try done.
  eapply Forall_impl; [done|]. intros o. by apply within_mono.
Qed.

Lemma starts_onmessage env data : starts_within 3 (onmessage env data).
Proof.
  unfold onmessage. repeat (apply starts_bind; [bound|intros ?]).
  case_match; [repeat (apply starts_bind; [bound|intros ?]); apply starts_none|].
  apply starts_bind; [bound|intros ?].
  case_match; [repeat (apply starts_bind; [bound|intros ?]); apply starts_none|].
  apply starts_bind; [bound|intros ?]. case_match; [|apply starts_none].
  apply starts_async_handler. eapply bounded_mono; [|apply bounded_handleIceCandidateMessage]. lia.
Qed.

Lemma bounded_connect envUrl window env : bounded 0 (connect envUrl window env).
Proof. unfold connect, new_WebSocket, new_RTCPeerConnection, set_fiber. bound. Qed.

Lemma bounded_peerIdEffect env : bounded 0 (peerIdEffect env).
Proof.
  unfold peerIdEffect, run_effect, set_fiber. bound.
Qed.

Lemma starts_sdpEffect env : starts_within 3 (sdpEffect env).
Proof.
  unfold sdpEffect. apply starts_bind; [bound|intros slot]. case_match; [apply starts_none|].
  apply starts_bind; [apply bounded_modify|intros _]. unfold process_pending.
  repeat case_match; try apply starts_none. apply starts_bind; [bound|intros _].
  apply starts_one; [apply bounded_handleSDPMessage|bound].
Qed.

(** ** The event loop *)

Definition settles (i : nat) (e : Event) : bool :=
  match e with EvSettle j _ => bool_decide (i = j) | _ => false end.

Local Abbreviation grows_within c c' :=
  (tasks_within 3 c → tasks_within 3 c' ∧ tasks c `prefix_of` tasks c').

Lemma grows_dispatch (m : M (list (Outcome W Reply unit))) (c : Page) :
  starts_within 3 m → grows_within c (dispatch m c).
Proof. intros. by apply dispatch_within. Qed.

Lemma render_within c : grows_within c (render c).
Proof.
  intros Hc. unfold render. cbv zeta.
  edestruct (grows_dispatch (sync_handler (peerIdEffect (hooks (world (env_world commit_state c)))))
    (env_world commit_state c)) as [Hc1 Hp1]; [apply starts_sync_handler, bounded_peerIdEffect|done|].
  edestruct (grows_dispatch (sdpEffect (hooks (world (env_world commit_state c)))))
    as [Hc2 Hp2]; [apply starts_sdpEffect|exact Hc1|].
  split; [done|]. by etrans.
Qed.

Lemma first_render_within envUrl window c : grows_within c (first_render envUrl window c).
Proof.
  intros Hc. unfold first_render. cbv zeta. set (c0 := env_world (on_refs _) _).
  assert (tasks_within 3 c0 ∧ tasks c `prefix_of` tasks c0) as [Hc0 Hp0] by done.
  set (env := hooks (world c0)).
  destruct (grows_dispatch (sync_handler (peerIdEffect env)) c0) as [Hc1 Hp1];
    [apply starts_sync_handler, bounded_peerIdEffect|done|].
  destruct (grows_dispatch (async_handler initLocalStream) _ ltac:(
    apply starts_async_handler; eapply bounded_mono; [|apply bounded_initLocalStream]; lia) Hc1) as [Hc2 Hp2].
  destruct (grows_dispatch (sync_handler (connect envUrl window env)) _ ltac:(
    apply starts_sync_handler, bounded_connect) Hc2) as [Hc3 Hp3].
  destruct (grows_dispatch (sdpEffect env) _ (starts_sdpEffect env) Hc3) as [Hc4 Hp4].
  split; [done|]. by do 4 (etrans; [done|]).
Qed.

Lemma unmount_within m c : grows_within c (unmount m c).
Proof. rewrite unmount_run. by split. Qed.

(** What an event leaves of the promise [i], which may be settled [k] times. *)
Definition progress (i : nat) (e : Event) (c c' : Page) : Prop :=
  ∀ k o, tasks c !! i = Some o → within k o →
    ∃ k' o', k = (if settles i e then 1 else 0) + k' ∧ tasks c' !! i = Some o' ∧ within k' o'.

Lemma progress_grows i e c c' :
  settles i e = false → tasks_within 3 c' ∧ tasks c `prefix_of` tasks c' →
  tasks_within 3 c' ∧ progress i e c c'.
Proof.
  intros He [Hc Hp]. split; [done|]. intros k o Ho Hk. rewrite He. exists k, o.
  split_and!; [done|by eapply prefix_lookup_Some|done].
Qed.

Lemma progress_settle i j f c c' :
  tasks_within 3 c → settle j f c = Some c' → tasks_within 3 c' ∧ progress i (EvSettle j f) c c'.
Proof.
  intros Hc Hs. destruct (settle_within 3 j f c c' Hc Hs) as (Hc' & Hne & Heq). split; [done|].
  intros k o Ho Hk. simpl. case_bool_decide as Hij; [subst j; by eapply Heq|].
  exists k, o. split_and!; [done|by rewrite Hne|done].
Qed.

Lemma step_within i e c c' :
  tasks_within 3 c → step e c = Some c' → tasks_within 3 c' ∧ progress i e c c'.
Proof.
  intros Hc Hs. destruct e; simpl in Hs; cbv zeta in Hs;
    try (destruct (mount (fiber (world c))) as [m|]; try done);
    try (apply enabled_Some in Hs as [_ <-]); simplify_eq;
    try (apply progress_grows; [done|];
      first [by apply first_render_within|by apply render_within|by apply unmount_within|by split
            |apply grows_dispatch; [|done]]).
  - apply starts_onmessage.
  - apply starts_sync_handler. unfold onicecandidate. cbv zeta. bound.
  - apply starts_sync_handler. bound.
  - apply starts_sync_handler. unfold ontrack. bound.
  - apply starts_sync_handler. unfold onsignalingstatechange. cbv zeta. bound.
  - apply starts_sync_handler. bound.
  - apply starts_async_handler. eapply bounded_mono; [|apply bounded_createOffer]. lia.
  - by apply progress_settle.
  - by apply progress_settle.
Qed.

Lemma reachable_within c : reachable step init c → tasks_within 3 c.
Proof.
  apply reachable_ind_inv; [constructor|]. intros e c1 c2 Hc Hs. by apply (step_within 0 e c1 c2).
Qed.

Lemma run_within i es k o c c' :
  tasks_within 3 c → run step es c = Some c' → tasks c !! i = Some o → within k o →
  ∃ k' o', k = length (filter (λ e, settles i e = true) es) + k' ∧
    tasks c' !! i = Some o' ∧ within k' o'.
Proof.
  revert k o c. induction es as [|e es IH]; intros k o c Hc Hr Ho Hk; simpl in Hr.
  { simplify_eq. by exists k, o. }
  destruct (step e c) as [c1|] eqn:He; [|done]. destruct (step_within i e c c1 Hc He) as [Hc1 Hp].
  destruct (Hp k o Ho Hk) as (k1 & o1 & -> & Ho1 & Hk1).
  destruct (IH k1 o1 c1 Hc1 Hr Ho1 Hk1) as (k2 & o2 & -> & Ho2 & Hk2).
  exists k2, o2. split_and!; [|done|done]. rewrite filter_cons.
  case_decide as Hd; simpl; [by rewrite Hd|]. by apply not_true_is_false in Hd as ->.
Qed.

(** C9: Every async function the page calls ends: whatever else happens in between,
    and however its requests are answered, it is resumed at most three times;
    after three it has ended, and until it has ended it can be resumed. *)
Theorem promises_settle es i c c' :
  reachable step init c → run step es c = Some c' → i < length (tasks c) →
  let resumed := length (filter (λ e, settles i e = true) es) in
  resumed ≤ 3 ∧
  ∃ o', tasks c' !! i = Some o' ∧ (resumed = 3 → settled o' = true) ∧
    (settled o' = false → ∀ f, is_Some (step (EvSettle i f) c')).
Proof.
  intros Hc Hr [o Ho]%lookup_lt_is_Some_2. cbv zeta. pose proof (reachable_within c Hc) as Hw.
  pose proof (Forall_lookup_1 _ _ _ _ Hw Ho) as Hk.
  destruct (run_within i es 3 o c c' Hw Hr Ho Hk) as (k' & o' & Heq & Ho' & Hk').
  split; [lia|]. exists o'. split_and!; [done| |].
  - intros H3. assert (k' = 0) as -> by lia. by destruct o'.
  - intros Hs f. assert (step (EvSettle i f) c' = settle i f c') as ->.
    { simpl. by destruct (mount (fiber (world c'))). }
    unfold settle. rewrite Ho'. destruct o' as [| |r q]; [done..|]. simpl.
    destruct (q (f r) (world c')). by eexists.
Qed.
End Page.

#[local] Existing Instance RefBrowser.

(** The answer to an offer: three requests. *)
Definition ex_answering : list Event :=
  [EvSettle 1 ex_resolve; EvInput "x"; EvSettle 1 ex_resolve; EvRender; EvSettle 1 ex_resolve].

Definition ex_pending : list Event := ex_ready ++ [EvMessage (ex_offer "bob"); EvRender].

Lemma promises_settle_witness :
  let c := final step init ex_pending in let c' := after step ex_answering c in
  let resumed := length (filter (λ e, settles 1 e = true) ex_answering) in
  resumed ≤ 3 ∧
  ∃ o', tasks c' !! 1 = Some o' ∧ (resumed = 3 → settled o' = true) ∧
    (settled o' = false → ∀ f, is_Some (step (EvSettle 1 f) c')).
Proof.
  apply (promises_settle ex_answering 1 (final step init ex_pending)
    (after step ex_answering (final step init ex_pending))); [by_run|by_run|].
  apply (bool_decide_eq_true_1 _). by_run.
Defined.

Example ex_answering_resumes : length (filter (λ e, settles 1 e = true) ex_answering) = 3.
Proof. reflexivity. Qed.
