(* ===== verification/PageTypes.v ===== *)
(** * The declared types of the page

    TypeScript checks the page against the types of its messages, and nothing
    checks the messages.  As long as what arrives are messages of the declared
    union, the state has its declared types, and what is sent is an
    [OutgoingMessage]. *)
From S2P Require Import Prelude JsValue SignalingTypes Async Browser ReferenceBrowser Messages React WebrtcHelpers Page PageInvariant PageExamples.

(** [string] *)
Definition is_string (v : jsval) : Prop := ∃ s, v = JStr s.

(** [SDPMessage] *)
Definition is_sdp_message (v : jsval) : Prop :=
  ∃ m, v = encode m ∧ (message_type m = MtOffer ∨ message_type m = MtAnswer).

(** The types of the [useState] and [useRef] values. *)
Record typed_state (s : State) : Prop := {
  typed_clientId : clientId s = JNull ∨ is_string (clientId s);
  typed_peerId : is_string (peerId s);
  typed_pendingSDP n v : pendingSDP s = Some (n, v) → is_sdp_message v;
}.

Section Types.
Context {B : BrowserAPI}.
Local Abbreviation Page := (Config Refs State Update Fiber unit).
Implicit Types (tr : list IO) (v : jsval).

(** Every message received is one of the union. *)
Definition typed_trace tr : Prop := Forall (λ v, ∃ m, v = encode m) (received tr).

Lemma typed_received tr v : typed_trace tr → IoReceive v ∈ tr → ∃ m, v = encode m.
Proof.
  intros Ht Hin%elem_of_received. by apply (proj1 (Forall_forall _ _) Ht).
Qed.

Lemma typed_welcomed tr id : typed_trace tr → welcomed tr id → is_string id.
Proof.
  intros Ht (v & Hin & Hw & Hid). destruct (typed_received _ v Ht Hin) as [[i|f t d|f t d|f t d] ->]; try done.
  simpl in Hid. exists i. by injection Hid.
Qed.

Lemma typed_named_peer tr p : typed_trace tr → named_peer tr p → is_string p.
Proof.
  intros Ht [?|(v & Hin & Hg & Hp)]; [done|].
  destruct (typed_received _ v Ht Hin) as [[i|f t d|f t d|f t d] ->]; simpl in Hp;
    (by destruct Hg) || (exists f; by injection Hp).
Qed.

Lemma typed_received_sdp tr n v : typed_trace tr → received_sdp tr n v → is_sdp_message v.
Proof.
  intros Ht [Hn Hs]. destruct (typed_received _ v Ht) as [m ->]; [by eapply list_elem_of_lookup_2|].
  exists m. split; [done|]. destruct m; try done; by (left + right).
Qed.

Lemma typed_received_offer tr from :
  typed_trace tr → received_offer tr from → is_string from.
Proof.
  intros Ht (n & v & sdp & [Hn Hs] & Hf & _). eapply typed_named_peer; [done|]. right.
  exists v. split_and!; [by eapply list_elem_of_lookup_2|by left|done].
Qed.

Lemma env_typed (w : World Refs State Update Fiber) env :
  typed_trace (io (host w)) → env_ok w env → typed_state env.
Proof.
  intros Ht He. split.
  - destruct (env_id _ _ He); [by left|right]. by eapply typed_welcomed.
  - eapply typed_named_peer, env_peer; done.
  - intros n v Hp. eapply typed_received_sdp, env_pending; done.
Qed.

(** C10: While every message received is one of the declared union: the state of
    every render and the ref of the peer have their declared types, an
    assigned id is a string, and every text sent is the JSON of an
    [OutgoingMessage]. *)
Theorem page_is_typed c :
  reachable step init c → typed_trace (io (host (world c))) →
  (∀ env, env ∈ hooks (world c) :: renders (fiber (world c)) → typed_state env) ∧
  is_string (peerIdRef (refs (world c))) ∧
  (isLocalStreamReady (hooks (world c)) = true → is_Some (localStreamRef (refs (world c)))) ∧
  (∀ ws text, IoSend ws text ∈ io (host (world c)) →
     ∃ m fs, is_outgoing m = true ∧ encode m = JObj fs ∧ text = JSON_stringify fs).
Proof.
  intros Hc Ht. destruct (reachable_ok c Hc) as [Hi _]. split_and!.
  - intros env [->|Hin]%elem_of_cons; (eapply env_typed; [done|]); [apply Hi|by apply Hi].
  - eapply typed_named_peer, inv_peerIdRef; done.
  - apply Hi.
  - intros ws text (env & Hin & Hcl & Htext)%(inv_sent _ Hi).
    destruct (env_typed _ env Ht (inv_renders _ Hi env Hin)) as [Hid [p Hp] _].
    destruct Hid as [Hid|[i Hid]]; [by rewrite Hid in Hcl|].
    destruct Htext as [(sdp & _ & ->)|(from & sdp & Hoff & ->)].
    + eexists (SDPOfferMessage i p sdp), _. split_and!; [done|done|].
      unfold offer_text. by rewrite Hid, Hp.
    + destruct (typed_received_offer _ _ Ht Hoff) as [f ->].
      eexists (SDPAnswerMessage i f sdp), _. split_and!; [done|done|].
      unfold answer_text. by rewrite Hid.
Qed.
End Types.

#[local] Existing Instance RefBrowser.

Lemma page_is_typed_witness :
  let c := final step init ex_answered in
  (∀ env, env ∈ hooks (world c) :: renders (fiber (world c)) → typed_state env) ∧
  is_string (peerIdRef (refs (world c))) ∧
  (isLocalStreamReady (hooks (world c)) = true → is_Some (localStreamRef (refs (world c)))) ∧
  (∀ ws text, IoSend ws text ∈ io (host (world c)) →
     ∃ m fs, is_outgoing m = true ∧ encode m = JObj fs ∧ text = JSON_stringify fs).
Proof.
  apply (page_is_typed (final step init ex_answered)); [by_run|]. unfold typed_trace.
  replace (received (io (host (world (final step init ex_answered))))) with
    [encode (WelcomeMessage "alice"); encode (SDPOfferMessage "bob" "alice" (ex_sdp "offer"))]
    by (vm_compute; reflexivity).
  constructor; [by eexists|constructor; [by eexists|constructor]].
Defined.
