(* ===== verification/PageView.v ===== *)
(** * What the page shows ([app/page.tsx], [app/layout.tsx])

    [view] is the element a render of [Home] returns, [RootLayout] the document
    around it.  A value that React cannot show makes the render throw. *)
From S2P Require Import Prelude JsValue Async Browser ReferenceBrowser Messages SignalingTypes React WebrtcHelpers Page PageInvariant PageExamples PageTypes.
From stdpp Require Import pretty.

(** The handlers of the elements, by what they run. *)
Inductive Handler := RunCreateOffer (env : State) | RunSetPeerId.

Inductive Attr :=
| Str (s : string)
| Flag (b : bool)
| Value (v : jsval)
| OnEvent (h : Handler)
| Ref (element : string).

#[warnings="-register-all"]
Inductive Element : Type :=
| Text (s : string)
| Node (tag : string) (attrs : list (string * Attr)) (children : list Element).

(** The children a value in braces stands for; [None] when React throws. *)
Fixpoint child (v : jsval) : option (list Element) :=
  match v with
  | JUndef | JNull | JBool _ => Some []
  | JNum n => Some [Text (pretty n)]
  | JStr s => Some [Text s]
  | JArr l => (fix go l := match l with
                           | [] => Some []
                           | v :: l => a ← child v; b ← go l; Some (a ++ b)
                           end) l
  | JObj _ => None
  end.

(** [a || b] *)
Definition js_or (a b : jsval) : jsval := if truthy a then a else b.

(** [b && e] *)
Definition show_if (b : bool) (e : Element) : list Element := if b then [e] else [].

Definition cls (s : string) : string * Attr := ("className", Str s).

Definition video (element : string) (muted : bool) (border : string) (label : string) : Element :=
  Node "div" [cls "relative"]
    [Node "video" ([("ref", Ref element); ("autoPlay", Flag true); ("playsInline", Flag true)] ++
                   (if muted then [("muted", Flag true)] else []) ++ [cls border]) [];
     Node "div" [cls "absolute bottom-2 left-2 bg-black bg-opacity-50 px-2 py-1 rounded text-sm"]
       [Text label]].

Definition connect_button (env : State) : Element :=
  Node "button"
    [("onClick", OnEvent (RunCreateOffer env)); ("disabled", Flag (connect_disabled env));
     cls "px-6 py-3 bg-blue-600 hover:bg-blue-700 disabled:bg-gray-600 disabled:cursor-not-allowed text-white rounded-lg font-semibold transition-colors"]
    [Text "接続開始"].

Definition peer_input (env : State) : Element :=
  Node "input"
    [("type", Str "text"); ("placeholder", Str "相手の Client ID を入力");
     ("value", Value (peerId env)); ("onChange", OnEvent RunSetPeerId);
     cls "border-2 border-gray-600 bg-gray-700 p-3 rounded-lg text-white font-mono w-80"] [].

Definition view (env : State) : option Element :=
  id ← child (js_or (clientId env) (JStr "Connecting..."));
  Some (Node "main" [cls "flex flex-col items-center justify-center min-h-screen p-4 bg-gray-900 text-white"]
    [Node "h1" [cls "text-3xl font-bold mb-6"] [Text "WebRTC Video Chat"];
     Node "div" [cls "mb-4 flex items-center gap-2"]
       [Node "span" [] [Text "接続状態:"];
        Node "div" [cls ("w-3 h-3 rounded-full " +:+ getConnectionStateColor (connectionState env))] [];
        Node "span" [cls "font-mono"] [Text (connectionState env)]];
     Node "div" [cls "mb-6 p-4 bg-gray-800 rounded-lg"]
       [Node "p" [cls "text-sm text-gray-400 mb-1"] [Text "Your Client ID:"];
        Node "p" [cls "font-mono text-lg"] id];
     Node "div" [cls "grid grid-cols-1 md:grid-cols-2 gap-4 mb-6 w-full max-w-4xl"]
       [video "localVideoRef" true "w-full h-auto bg-black rounded-lg border-2 border-gray-700" "Your Video";
        video "remoteVideoRef" false "w-full h-auto bg-black rounded-lg border-2 border-gray-700"
          "Remote Video"];
     Node "div" [cls "flex flex-col items-center gap-4 p-6 bg-gray-800 rounded-lg"]
       (Node "div" [cls "flex gap-2 items-center"] [peer_input env; connect_button env] ::
        show_if (negb (isLocalStreamReady env))
          (Node "p" [cls "text-yellow-400 text-sm"] [Text "カメラ・マイクの準備中..."]));
     Node "div" [cls "mt-6 text-xs text-gray-500"]
       [Node "p" [] [Text "ローカルストリーム: ";
                     Text (if isLocalStreamReady env then "✅ 準備完了" else "⏳ 準備中")]]]).

(** [geistSans.variable] and [geistMono.variable] are class names the font
    loader generates. *)
Definition RootLayout (geistSans geistMono : string) (children : Element) : Element :=
  Node "html" [("lang", Str "en")]
    [Node "body" [cls (geistSans +:+ " " +:+ geistMono)] [children]].

(** ** Reading a document *)

(** The elements with a given tag. *)
Fixpoint by_tag (tag : string) (e : Element) : list Element :=
  match e with
  | Text _ => []
  | Node t _ children =>
      (if decide (t = tag) then [e] else []) ++
      (fix go l := match l with [] => [] | e :: l => by_tag tag e ++ go l end) children
  end.

(** The texts, in order. *)
Fixpoint texts (e : Element) : list string :=
  match e with
  | Text s => [s]
  | Node _ _ children => (fix go l := match l with [] => [] | e :: l => texts e ++ go l end) children
  end.

Definition attr (k : string) (e : Element) : option Attr :=
  match e with
  | Text _ => None
  | Node _ attrs _ => (λ p : nat * (string * Attr), p.2.2) <$> list_find (λ kv, kv.1 = k) attrs
  end.

(** ** Properties *)

(** The text shown as the client's id. *)
Definition shown_id (env : State) : string :=
  match clientId env with JStr s => if decide (s = "") then "Connecting..." else s | _ => "Connecting..." end.

Lemma view_typed env : typed_state env →
  ∃ v, view env = Some v ∧ by_tag "button" v = [connect_button env] ∧
    by_tag "input" v = [peer_input env] ∧
    texts v = ["WebRTC Video Chat"; "接続状態:"; connectionState env; "Your Client ID:"; shown_id env;
               "Your Video"; "Remote Video"; "接続開始"] ++
              (if isLocalStreamReady env then [] else ["カメラ・マイクの準備中..."]) ++
              ["ローカルストリーム: "; if isLocalStreamReady env then "✅ 準備完了" else "⏳ 準備中"].
Proof.
  intros [Hid _ _]. unfold view, shown_id.
  destruct Hid as [->|[s ->]]; simpl.
  - eexists. split; [done|]. by destruct (isLocalStreamReady env).
  - unfold js_or. simpl. destruct (decide (s = "")) as [->|Hs]; simpl.
    + eexists. split; [done|]. by destruct (isLocalStreamReady env).
    + rewrite bool_decide_true by done. eexists. split; [done|]. by destruct (isLocalStreamReady env).
Qed.

(** A peer id of the declared type is falsy only when it is empty. *)
Lemma disabled_typed env : typed_state env →
  connect_disabled env = negb (isLocalStreamReady env) || bool_decide (peerId env = JStr "").
Proof.
  intros [_ [p Hp] _]. unfold connect_disabled. rewrite Hp. simpl. f_equal.
  unfold truthy_str. repeat case_bool_decide; try done; congruence.
Qed.

(** A welcome whose id is an object makes every later render throw. *)
Lemma view_object_id env fs : clientId env = JObj fs → view env = None.
Proof. intros Hid. unfold view. by rewrite Hid. Qed.

Section View.
Context {B : BrowserAPI} (geistSans geistMono : string).
Local Abbreviation Page := (Config Refs State Update Fiber unit).

Definition document (env : State) : option Element := RootLayout geistSans geistMono <$> view env.

(** C34: While the messages received are of the declared types, every render
    succeeds, and the document shows the state: one button, of that render and
    disabled while the camera is not ready or the peer's id is empty, which is
    exactly when a click is not handled, one input with the peer's id, the client's id or that there is none yet, the state of the
    connection and whether the camera is ready. *)
Theorem page_shows_state c m :
  reachable step init c → typed_trace (io (host (world c))) →
  mount (fiber (world c)) = Some m → mounted (fiber (world c)) = true →
  let env := hooks (world c) in
  ∃ v, document env = Some v ∧
    by_tag "button" v = [connect_button env] ∧
    attr "disabled" (connect_button env) =
      Some (Flag (negb (isLocalStreamReady env) || bool_decide (peerId env = JStr ""))) ∧
    (is_Some (step EvConnect c) ↔ isLocalStreamReady env = true ∧ peerId env ≠ JStr "") ∧
    by_tag "input" v = [peer_input env] ∧ attr "value" (peer_input env) = Some (Value (peerId env)) ∧
    texts v = ["WebRTC Video Chat"; "接続状態:"; connectionState env; "Your Client ID:"; shown_id env;
               "Your Video"; "Remote Video"; "接続開始"] ++
              (if isLocalStreamReady env then [] else ["カメラ・マイクの準備中..."]) ++
              ["ローカルストリーム: "; if isLocalStreamReady env then "✅ 準備完了" else "⏳ 準備中"].
Proof.
  intros Hc Ht Hm Hmt env. destruct (reachable_ok c Hc) as [Hi _].
  destruct (view_typed env) as (v & Hv & Hb & Hin & Htx).
  { eapply env_typed; [done|apply Hi]. }
  assert (connect_disabled env = negb (isLocalStreamReady env) || bool_decide (peerId env = JStr ""))
    as Hdis by (apply disabled_typed, (env_typed (world c)); [done|apply Hi]).
  exists (RootLayout geistSans geistMono v). unfold document. rewrite Hv. split_and!; try done.
  - simpl. by rewrite Hb.
  - simpl. by rewrite Hdis.
  - simpl. rewrite Hm, Hmt. simpl. fold env. rewrite Hdis.
    destruct (isLocalStreamReady env); simpl; [|by split; [intros []|intros []]].
    case_bool_decide as Hp; simpl; [by split; [intros []|intros []]|]. by split; [|eexists].
  - simpl. by rewrite Hin.
  - simpl. rewrite Htx, !app_nil_r. done.
Qed.

(** C35: What the user types is what the input shows after the next render, in
    whatever state it was typed. *)
Theorem typed_text_is_shown c c1 c2 text :
  reachable step init c → typed_trace (io (host (world c))) →
  step (EvInput text) c = Some c1 → step EvRender c1 = Some c2 →
  ∃ v, document (hooks (world c2)) = Some v ∧
    attr "value" <$> by_tag "input" v = [Some (Value (JStr text))].
Proof.
  intros Hc Ht H1 H2. pose proof (reach_step _ _ _ _ _ Hc H1) as Hc1.
  destruct (reachable_ok c1 Hc1) as [Hi1 _]. simpl in H1, H2.
  destruct (mount (fiber (world c))) as [m|] eqn:Hm; [|done].
  apply enabled_Some in H1 as [_ <-].
  assert (mount (fiber (world (dispatch (sync_handler (setState (SetPeerId (JStr text)))) c))) = Some m)
    as Hm1 by by rewrite dispatch_sync.
  rewrite Hm1 in H2. apply enabled_Some in H2 as [_ <-].
  destruct (render_ok _ m (reachable_ok _ Hc1) Hm1) as ([Hi2 _] & Hg & Hh).
  set (c2 := render _) in *.
  assert (peerId (hooks (world c2)) = JStr text) as Hp.
  { rewrite Hh, dispatch_sync by done. simpl. rewrite flush_app. simpl.
    by destruct (flush apply_update (queue (world c)) (hooks (world c))). }
  destruct (view_typed (hooks (world c2))) as (v & Hv & _ & Hin & _).
  { rewrite Hh, dispatch_sync by done. simpl. eapply (env_typed (world c)); [done|].
    destruct (reachable_ok c Hc) as [Hi _]. apply flush_ok; [apply Hi|].
    intros u [Hu|Hu]%elem_of_app; [by apply Hi|]. apply list_elem_of_singleton in Hu as ->. by left; eexists. }
  exists (RootLayout geistSans geistMono v). unfold document. rewrite Hv. split; [done|].
  simpl. rewrite !app_nil_r, Hin. simpl. by rewrite Hp.
Qed.
End View.

#[local] Existing Instance RefBrowser.

Lemma page_shows_state_witness :
  let c := final step init ex_typed in let env := hooks (world c) in
  ∃ v, document "geist" "mono" env = Some v ∧
    by_tag "button" v = [connect_button env] ∧
    attr "disabled" (connect_button env) =
      Some (Flag (negb (isLocalStreamReady env) || bool_decide (peerId env = JStr ""))) ∧
    (is_Some (step EvConnect c) ↔ isLocalStreamReady env = true ∧ peerId env ≠ JStr "") ∧
    by_tag "input" v = [peer_input env] ∧ attr "value" (peer_input env) = Some (Value (peerId env)) ∧
    texts v = ["WebRTC Video Chat"; "接続状態:"; connectionState env; "Your Client ID:"; shown_id env;
               "Your Video"; "Remote Video"; "接続開始"] ++
              (if isLocalStreamReady env then [] else ["カメラ・マイクの準備中..."]) ++
              ["ローカルストリーム: "; if isLocalStreamReady env then "✅ 準備完了" else "⏳ 準備中"].
Proof.
  apply (page_shows_state "geist" "mono" (final step init ex_typed)
    (default (mkMount initState 0 0) (mount (fiber (world (final step init ex_typed)))))); try by_run.
  unfold typed_trace. replace (received _) with [encode (WelcomeMessage "alice")]
    by (vm_compute; reflexivity).
  constructor; [by eexists|constructor].
Defined.

Lemma typed_text_is_shown_witness :
  let c := final step init ex_ready in
  let c2 := next step EvRender (next step (EvInput "carol") c) in
  ∃ v, document "geist" "mono" (hooks (world c2)) = Some v ∧
    attr "value" <$> by_tag "input" v = [Some (Value (JStr "carol"))].
Proof.
  apply (typed_text_is_shown "geist" "mono" (final step init ex_ready)
    (next step (EvInput "carol") (final step init ex_ready))
    (next step EvRender (next step (EvInput "carol") (final step init ex_ready))) "carol"); try by_run.
  unfold typed_trace. replace (received _) with [encode (WelcomeMessage "alice")]
    by (vm_compute; reflexivity).
  constructor; [by eexists|constructor].
Defined.

(** The document of the example, before and after the camera is ready. *)
Example ex_document_texts :
  texts <$> document "geist" "mono" (hooks (world (final step init ex_typed))) =
    Some ["WebRTC Video Chat"; "接続状態:"; "disconnected"; "Your Client ID:"; "alice"; "Your Video";
          "Remote Video"; "接続開始"; "ローカルストリーム: "; "✅ 準備完了"].
Proof. vm_compute. reflexivity. Qed.
