(* ===== verification/UseMediaStream.v ===== *)
(** * The hook [hooks/useMediaStream.ts]

    Each run of the hook's effect asks for a stream and owns an [isMounted]
    variable; the promise of run [i] is the [i]-th task of the configuration.
    The clean-up of a run captured the [stream] state of the render the run
    belongs to. *)
From S2P Require Import Prelude JsValue WebrtcConstants Async Browser React.

(** ** State *)

(** A [RefObject] and a constraints object are known by their identity; the
    constant [MEDIA_CONSTRAINTS] has identity 0. *)
Record UseMediaStreamOptions := mkOptions {
  videoRef : option nat;
  constraints : option (nat * jsval);
}.

Definition constraints_of (options : UseMediaStreamOptions) : nat * jsval :=
  default (0, MEDIA_CONSTRAINTS) (constraints options).

Record State := mkState {
  stream : option MediaStream;
  isReady : bool;
  error : option thrown;
  retryCount : Z;
}.

Definition initState : State := mkState None false None 0.

Inductive Update :=
| SetStream (s : option MediaStream)
| SetIsReady (b : bool)
| SetError (e : option thrown)
| IncRetryCount.

Definition apply_update (u : Update) (s : State) : State :=
  match u with
  | SetStream x => mkState x (isReady s) (error s) (retryCount s)
  | SetIsReady b => mkState (stream s) b (error s) (retryCount s)
  | SetError e => mkState (stream s) (isReady s) e (retryCount s)
  | IncRetryCount => mkState (stream s) (isReady s) (error s) (retryCount s + 1)
  end.

(** The element each ref object of the caller holds, and the [isMounted]
    variable of each run of the effect. *)
Record Refs := mkRefs { current : gmap nat string; isMounted : list bool }.

(** What a clean-up closure captured: its run and its render's [stream]. *)
Record Cleanup := mkCleanup { cl_run : nat; cl_stream : option MediaStream }.

Record Fiber := mkFiber { phase : Phase; slot : option (Slot Cleanup) }.

Section UseMediaStream.
Context {B : BrowserAPI}.
Local Abbreviation W := (World Refs State Update Fiber).
Local Abbreviation M := (@JS W thrown Request Reply).
Local Abbreviation Promise := (@Outcome W thrown Request Reply unit).
Local Abbreviation Hook := (Config Refs State Update Fiber unit).

Definition set_isMounted (f : list bool → list bool) : M unit :=
  set_ref (λ r, mkRefs (current r) (f (isMounted r))).

(** The async function [initMediaStream] of run [run]. *)
Definition initMediaStream (options : UseMediaStreamOptions) (run : nat) : M unit :=
  try_catch
    (mediaStream <- request (GetUserMedia (snd (constraints_of options))) ;;
     mounted <- ref (λ r, default false (isMounted r !! run)) ;;
     if negb mounted then stop_tracks mediaStream
     else
       setState (SetStream (Some mediaStream)) ;;
       setState (SetError None) ;;
       element <- ref (λ r, r' ← videoRef options; current r !! r') ;;
       when_some element (λ el, emit (IoSrcObject el mediaStream)) ;;
       setState (SetIsReady true))
    (λ err,
       error <- may_throw (to_error err) ;;
       setState (SetError (Some error)) ;;
       setState (SetIsReady false) ;;
       alert "カメラ・マイクへのアクセスが拒否されました").

(** The set-up function of the effect. *)
Definition setup (env : State) (options : UseMediaStreamOptions) : M (Cleanup * Promise) :=
  run <- ref (λ r, length (isMounted r)) ;;
  set_isMounted (λ l, l ++ [true]) ;;
  p <- start (initMediaStream options run) ;;
  ret (mkCleanup run (stream env), p).

(** The function the effect returns. *)
Definition cleanup (c : Cleanup) : M unit :=
  set_isMounted (λ l, <[cl_run c := false]> l) ;;
  when_some (cl_stream c) stop_tracks.

Definition deps (env : State) (options : UseMediaStreamOptions) : list dep :=
  [DepRef (fst (constraints_of options)); DepVal (JNum (retryCount env))].

Definition effect (env : State) (options : UseMediaStreamOptions) : M (list Promise) :=
  old <- gets (λ w, slot (fiber w)) ;;
  if bool_decide (slot_deps <$> old = Some (deps env options)) then ret []
  else
    when_some old (λ sl, cleanup (slot_data sl)) ;;
    r <- setup env options ;;
    modify (λ w, with_fiber (mkFiber (phase (fiber w)) (Some (mkSlot (deps env options) (fst r)))) w) ;;
    ret [snd r].

(** [retry] *)
Definition retry : M unit := setState IncRetryCount.

(** ** The component that uses the hook *)

Inductive Event :=
| EvRender (options : UseMediaStreamOptions)
| EvRetry
| EvUnmount
| EvCurrent (r : nat) (element : option string)
| EvSettle (i : nat) (f : Answer).

Definition commit (w : W) : W :=
  with_fiber (mkFiber Mounted (slot (fiber w)))
    (with_queue [] (with_hooks (flush apply_update (queue w) (hooks w)) w)).

Definition render (options : UseMediaStreamOptions) (c : Hook) : Hook :=
  let c := env_world commit c in
  dispatch (effect (hooks (world c)) options) c.

Definition unmount (c : Hook) : Hook :=
  dispatch (sync_handler
    (old <- gets (λ w, slot (fiber w)) ;;
     when_some old (λ sl, cleanup (slot_data sl)) ;;
     modify (λ w, with_fiber (mkFiber Unmounted None) w))) c.

Definition step (e : Event) (c : Hook) : option Hook :=
  match e with
  | EvRender options =>
      enabled (bool_decide (phase (fiber (world c)) ≠ Unmounted)) (render options c)
  | EvRetry =>
      enabled (bool_decide (phase (fiber (world c)) ≠ Fresh)) (dispatch (sync_handler retry) c)
  | EvUnmount => enabled (bool_decide (phase (fiber (world c)) = Mounted)) (unmount c)
  | EvCurrent r el =>
      Some (env_world (on_refs (λ x, mkRefs (partial_alter (λ _, el) r (current x)) (isMounted x))) c)
  | EvSettle i f => settle i f c
  end.

Definition init : Hook :=
  mkConfig (mkWorld emptyHost (mkRefs ∅ []) initState [] (mkFiber Fresh None)) [].
End UseMediaStream.
