(* ===== verification/UseMediaStreamProperties.v ===== *)
(** * Properties of [useMediaStream]

    What the settlement of each run's promise does, the invariant of the
    hook's state, and which streams the clean-up stops. *)
From S2P Require Import Prelude JsValue WebrtcConstants Async Browser ReferenceBrowser React UseMediaStream.

Section Properties.
Context {B : BrowserAPI}.
Local Abbreviation W := (World Refs State Update Fiber).
Local Abbreviation M := (@JS W thrown Request Reply).
Local Abbreviation Promise := (@Outcome W thrown Request Reply unit).
Local Abbreviation Hook := (Config Refs State Update Fiber unit).
Implicit Types (w : W) (c : Hook) (options : UseMediaStreamOptions).

(** ** The settlement of an acquisition *)

Definition show_stream options (s : MediaStream) w : W :=
  match r ← videoRef options; current (refs w) !! r with
  | Some el => on_host (log (IoSrcObject el s)) w
  | None => w
  end.

(** What the promise of a run leads to, by whether the run is still mounted
    and how [getUserMedia] settled. *)
Definition after_acquisition (mounted : bool) options (r : thrown + MediaStream) w : W :=
  match r with
  | inr s =>
      if mounted then
        enqueue [SetStream (Some s); SetError None; SetIsReady true] (show_stream options s w)
      else on_host (stop_all (getTracks s)) w
  | inl e =>
      match to_error e with
      | inr err =>
          on_host (log (IoAlert "カメラ・マイクへのアクセスが拒否されました"))
            (enqueue [SetError (Some err); SetIsReady false] w)
      | inl _ => w
      end
  end.

Definition acquisition options (run : nat) (k : thrown + MediaStream → W → W * Promise) : Prop :=
  ∀ r w, ∃ o, settled o = true ∧
    k r w = (after_acquisition (default false (isMounted (refs w) !! run)) options r w, o).

Lemma initMediaStream_run options run w :
  ∃ k, acquisition options run k ∧
    initMediaStream options run w =
      (on_host (log (IoRequest (GetUserMedia (snd (constraints_of options))))) w,
       Awaiting (GetUserMedia (snd (constraints_of options))) k).
Proof.
  eexists. split; [|reflexivity]. intros r w1. destruct r as [e|s]; simpl.
  - unfold bind, may_throw, sync. destruct (to_error e) as [e'|err]; simpl; [by exists (Threw e')|].
    exists (Returned tt). split; [done|]. f_equal. unfold enqueue, with_queue. simpl.
    by rewrite <-app_assoc.
  - unfold bind at 1, ref, gets. simpl. destruct (default false _); simpl.
    + unfold bind, setState, gets, modify, when_some, show_stream, enqueue. simpl.
      destruct (r ← videoRef options; current (refs w1) !! r) as [el|]; simpl;
        exists (Returned tt); (split; [done|]); unfold with_queue, on_host; simpl;
        by rewrite <-!app_assoc.
    + rewrite stop_tracks_run. by exists (Returned tt).
Qed.

(** ** The effect *)

Definition cleaned (cl : Cleanup) w : W :=
  on_host (λ h, match cl_stream cl with Some s => stop_all (getTracks s) h | None => h end)
    (on_refs (λ r, mkRefs (current r) (<[cl_run cl := false]> (isMounted r))) w).

Lemma cleanup_run cl w : cleanup cl w = (cleaned cl w, Returned tt).
Proof.
  unfold cleanup, cleaned, set_isMounted, bind, set_ref, modify.
  destruct (cl_stream cl); simpl; [by rewrite stop_tracks_run|]. done.
Qed.

(** The run the effect starts in [w]. *)
Definition started env options w : W :=
  with_fiber (mkFiber (phase (fiber w))
      (Some (mkSlot (deps env options) (mkCleanup (length (isMounted (refs w))) (stream env)))))
    (on_host (log (IoRequest (GetUserMedia (snd (constraints_of options)))))
      (on_refs (λ r, mkRefs (current r) (isMounted r ++ [true])) w)).

Definition before_start w : W :=
  match slot (fiber w) with Some sl => cleaned (slot_data sl) w | None => w end.

Lemma acquire_effect_run env options w :
  (slot_deps <$> slot (fiber w) = Some (deps env options) ∧
   effect env options w = (w, Returned [])) ∨
  (slot_deps <$> slot (fiber w) ≠ Some (deps env options) ∧
   ∃ k, acquisition options (length (isMounted (refs (before_start w)))) k ∧
     effect env options w =
       (started env options (before_start w),
        Returned [Awaiting (GetUserMedia (snd (constraints_of options))) k])).
Proof.
  unfold effect. erewrite bind_returned by reflexivity. case_bool_decide as Hd; [by left|right].
  split; [done|].
  assert (∀ w1, ∃ k, acquisition options (length (isMounted (refs w1))) k ∧
    (r <- setup env options ;;
     modify (λ w, with_fiber (mkFiber (phase (fiber w)) (Some (mkSlot (deps env options) (fst r)))) w) ;;
     ret [snd r]) w1 =
    (started env options w1, Returned [Awaiting (GetUserMedia (snd (constraints_of options))) k]))
    as Hrest.
  { intros w1. set (w2 := on_refs (λ r, mkRefs (current r) (isMounted r ++ [true])) w1).
    destruct (initMediaStream_run options (length (isMounted (refs w1))) w2) as (k & Hk & Hrun).
    exists k. split; [done|]. erewrite bind_returned; last first.
    { unfold setup. erewrite bind_returned by reflexivity.
    erewrite (bind_returned (set_isMounted _)) by reflexivity. fold w2.
    by erewrite bind_returned by by apply start_run. }
    reflexivity. }
  unfold before_start. destruct (slot (fiber w)) as [sl|]; simpl.
  - destruct (Hrest (cleaned (slot_data sl) w)) as (k & Hk & Hrun). exists k.
    split; [done|]. by erewrite bind_returned by apply cleanup_run.
  - destruct (Hrest w) as (k & Hk & Hrun). exists k. split; [done|].
    by erewrite bind_returned by reflexivity.
Qed.
(** ** The invariant *)

(** The state the next render will see. *)
Definition shown w : State := flush apply_update (queue w) (hooks w).

Lemma shown_enqueue us w : shown (enqueue us w) = flush apply_update us (shown w).
Proof. apply flush_app. Qed.

(** A ready hook has a stream and no error. *)
Definition ready_ok (s : State) : Prop :=
  isReady s = true → is_Some (stream s) ∧ error s = None.

(** The promise of run [i]. *)
Definition task_ok (i : nat) (o : Promise) : Prop :=
  settled o = true ∨
  ∃ options k, acquisition options i k ∧
    o = Awaiting (GetUserMedia (snd (constraints_of options))) k.

(** The runs: the [isMounted] of all but the current one are false. *)
Definition runs_ok w : Prop :=
  match slot (fiber w) with
  | Some sl =>
      phase (fiber w) = Mounted ∧
      ∃ l, isMounted (refs w) = l ++ [true] ∧ Forall (eq false) l ∧
        cl_run (slot_data sl) = length l
  | None => phase (fiber w) ≠ Mounted ∧ Forall (eq false) (isMounted (refs w))
  end.

Definition fresh_ok w : Prop :=
  phase (fiber w) = Fresh → isMounted (refs w) = [] ∧ queue w = [] ∧ hooks w = initState.

(** While the effect ran once at most, no track was stopped and the clean-up
    holds no stream. *)
Definition first_run_ok w : Prop :=
  length (isMounted (refs w)) ≤ 1 → phase (fiber w) ≠ Unmounted →
  stopped (host w) = ∅ ∧ ∀ sl, slot (fiber w) = Some sl → cl_stream (slot_data sl) = None.

Record world_inv w : Prop := {
  inv_runs : runs_ok w;
  inv_fresh : fresh_ok w;
  inv_first : first_run_ok w;
  inv_ready : ready_ok (hooks w) ∧ ready_ok (shown w);
}.

Record hook_inv c : Prop := {
  inv_world : world_inv (world c);
  inv_length : length (tasks c) = length (isMounted (refs (world c)));
  inv_tasks i o : tasks c !! i = Some o → task_ok i o;
}.

(** A change of the trace, the stopped tracks or the queue. *)
Lemma world_inv_frame w w' :
  refs w' = refs w → hooks w' = hooks w → fiber w' = fiber w →
  phase (fiber w) ≠ Fresh →
  (length (isMounted (refs w)) ≤ 1 → phase (fiber w) ≠ Unmounted →
   stopped (host w') = stopped (host w)) →
  ready_ok (shown w') →
  world_inv w → world_inv w'.
Proof.
  intros Hr Hh Hf Hp Hst Hsh [Hruns Hfr H1 [Hr1 _]]. split.
  - unfold runs_ok. by rewrite Hf, Hr.
  - unfold fresh_ok. by rewrite Hf.
  - unfold first_run_ok. rewrite Hf, Hr. intros Hl Hu. rewrite Hst by done. by apply H1.
  - by rewrite Hh.
Qed.

Lemma show_stream_frame options s w :
  ∃ es, show_stream options s w = on_host (λ h, mkHost (sockets h) (peers h) (stopped h) (io h ++ es)) w.
Proof.
  unfold show_stream. destruct (r ← videoRef options; current (refs w) !! r) as [el|]; simpl.
  - by exists [IoSrcObject el s].
  - exists []. unfold on_host. destruct w as [[] ? ? ? ?]; simpl. by rewrite app_nil_r.
Qed.

Lemma after_acquisition_inv i options r w :
  i < length (isMounted (refs w)) → world_inv w →
  world_inv (after_acquisition (default false (isMounted (refs w) !! i)) options r w) ∧
  refs (after_acquisition (default false (isMounted (refs w) !! i)) options r w) = refs w.
Proof.
  intros Hi Hw. pose proof Hw as [Hruns Hfr H1 [Hr1 Hr2]].
  assert (phase (fiber w) ≠ Fresh) as Hp.
  { intros Hp. destruct (Hfr Hp) as (Heq & _). rewrite Heq in Hi. simpl in Hi. lia. }
  destruct r as [e|s]; simpl.
  - destruct (to_error e) as [e'|err]; [done|]. split; [|done].
    apply (world_inv_frame w); try done.
    change (ready_ok (shown (enqueue [SetError (Some err); SetIsReady false] w))).
    rewrite shown_enqueue. done.
  - destruct (isMounted (refs w) !! i) as [[]|] eqn:Hm; simpl.
    + destruct (show_stream_frame options s w) as (es & ->). split; [|done].
      apply (world_inv_frame w); try done.
      change (ready_ok (shown (enqueue [SetStream (Some s); SetError None; SetIsReady true] w))).
      rewrite shown_enqueue. by split; [eexists|].
    + split; [|done]. apply (world_inv_frame w); try done. intros Hl Hu. exfalso.
      unfold runs_ok in Hruns. destruct (slot (fiber w)) as [sl|].
      * destruct Hruns as (_ & l & Hl' & _ & _). rewrite Hl' in *. destruct l; [|simpl in Hl; rewrite length_app in Hl; simpl in Hl; lia].
        simpl in Hi. assert (i = 0) as -> by lia. done.
      * destruct Hruns as [Hnm _]. destruct (phase (fiber w)); done.
    + apply lookup_ge_None in Hm. lia.
Qed.

(** The effect when its dependencies changed, in a committed render. *)
Lemma restarted_inv env options w :
  hooks w = env → phase (fiber w) = Mounted →
  runs_ok w ∨ slot (fiber w) = None ∧ isMounted (refs w) = [] →
  first_run_ok w → ready_ok (hooks w) → ready_ok (shown w) →
  (slot (fiber w) = None → stream env = None) →
  world_inv (started env options (before_start w)) ∧
  isMounted (refs (started env options (before_start w))) =
    isMounted (refs (before_start w)) ++ [true] ∧
  length (isMounted (refs (before_start w))) = length (isMounted (refs w)).
Proof.
  intros Henv Hp Hruns H1 Hr1 Hr2 Hfresh. split_and!; [|done|].
  - unfold before_start. unfold first_run_ok, runs_ok in *.
    destruct (slot (fiber w)) as [[ds cl]|] eqn:Hs; simpl in *.
    + destruct Hruns as [(_ & l & Hl & Hf & Hcl)|[? _]]; [|done]. split; [| |  |done].
      * unfold runs_ok. simpl. split; [done|]. exists (<[cl_run cl:=false]> (isMounted (refs w))).
        split_and!; [done| |done]. rewrite Hl, Hcl, insert_app_r_alt, Nat.sub_diag by lia.
        apply Forall_app. split; [done|]. by constructor.
      * unfold fresh_ok. simpl. congruence.
      * unfold first_run_ok. simpl. rewrite Hl, length_app, length_insert, length_app. simpl. lia.
    + destruct Hruns as [[Hnm _]|[_ Hruns]]; [done|]. split; [| | |done].
      * unfold runs_ok. simpl. split; [done|]. exists []. by rewrite Hruns.
      * unfold fresh_ok. simpl. congruence.
      * unfold first_run_ok. simpl. rewrite Hruns. intros _ Hu.
        destruct (H1 ltac:(rewrite Hruns; simpl; lia) Hu) as [? _]. split; [done|].
        intros sl [= <-]. simpl. auto.
  - unfold before_start. destruct (slot (fiber w)); simpl; by rewrite ?length_insert.
Qed.

Lemma dispatch_effect env options c :
  (dispatch (effect env options) c = c ∧
     slot_deps <$> slot (fiber (world c)) = Some (deps env options)) ∨
  ∃ k, acquisition options (length (isMounted (refs (before_start (world c))))) k ∧
    dispatch (effect env options) c =
      mkConfig (started env options (before_start (world c)))
        (tasks c ++ [Awaiting (GetUserMedia (snd (constraints_of options))) k]).
Proof.
  unfold dispatch. destruct (acquire_effect_run env options (world c)) as [[Hd ->]|(_ & k & Hk & ->)].
  - left. rewrite app_nil_r. by destruct c.
  - right. by exists k.
Qed.

Lemma render_inv options c :
  hook_inv c → phase (fiber (world c)) ≠ Unmounted → hook_inv (render options c).
Proof.
  intros [Hw Hlen Htasks] Hp. unfold render. set (c1 := env_world commit c).
  assert (runs_ok (world c1) ∨ slot (fiber (world c1)) = None ∧ isMounted (refs (world c1)) = [] ) as Hruns.
  { destruct Hw as [Hruns Hfr _ _]. unfold runs_ok in *. simpl in *.
    destruct (slot (fiber (world c))); [left; naive_solver|right]. split; [done|].
    destruct (phase (fiber (world c))) eqn:Hph; [|naive_solver|done]. by apply Hfr. }
  assert (first_run_ok (world c1)) as H1.
  { destruct Hw as [_ _ H1 _]. unfold first_run_ok in *. simpl in *. auto. }
  assert (ready_ok (hooks (world c1)) ∧ ready_ok (shown (world c1))) as [Hr1 Hr2]
    by (by destruct Hw as [_ _ _ [? ?]]).
  assert (slot (fiber (world c1)) = None → stream (hooks (world c1)) = None) as Hst.
  { simpl. intros Hs. destruct Hw as [Hru Hfr _ _]. unfold runs_ok in Hru. rewrite Hs in Hru.
    destruct (phase (fiber (world c))) eqn:Hph; [|naive_solver|done].
    destruct (Hfr Hph) as (_ & -> & ->). done. }
  destruct (dispatch_effect (hooks (world c1)) options c1) as [[Heq Hd]|(k & Hk & Heq)]; cbv zeta;
    rewrite Heq.
  - split; [|done|done]. destruct Hruns as [Hruns|[Hs _]]; [|by rewrite Hs in Hd]. by split.
  - destruct (restarted_inv (hooks (world c1)) options (world c1)) as (Hinv & Hm & Hl); [done..|].
    split; cbn [world tasks].
    + done.
    + rewrite Hm, !length_app, Hl. simpl. by rewrite Hlen.
    + intros i o [Hi|[Hi1 Hi2]]%lookup_app_Some; [by eapply Htasks|].
      apply list_lookup_singleton_Some in Hi2 as [Hz <-]. right. exists options, k.
      assert (i = length (isMounted (refs (before_start (world c1))))) as ->.
      { rewrite Hl. change (isMounted (refs (world c1))) with (isMounted (refs (world c))).
        rewrite <-Hlen. change (tasks c1) with (tasks c) in *. lia. }
      done.
Qed.

Definition unmounted w : W :=
  with_fiber (mkFiber Unmounted None) (before_start w).

Lemma stream_unmount_run c : unmount c = env_world unmounted c.
Proof.
  unfold unmount, dispatch, sync_handler, env_world, unmounted, before_start.
  destruct c as [w ts]. cbn [world tasks].
  destruct (slot (fiber w)) as [sl|] eqn:Hs.
  - erewrite bind_returned; last first.
    { erewrite bind_returned by reflexivity. rewrite Hs.
      erewrite bind_returned by apply cleanup_run. reflexivity. }
    simpl. by rewrite app_nil_r.
  - erewrite bind_returned; last first.
    { erewrite bind_returned by reflexivity. rewrite Hs.
      erewrite bind_returned by reflexivity. reflexivity. }
    simpl. by rewrite app_nil_r.
Qed.

Lemma unmount_inv c : hook_inv c → phase (fiber (world c)) = Mounted → hook_inv (unmount c).
Proof.
  intros [[Hruns Hfr H1 Hr] Hlen Htasks] Hp. rewrite stream_unmount_run.
  unfold runs_ok in Hruns. destruct (slot (fiber (world c))) as [[ds cl]|] eqn:Hs;
    [|by destruct Hruns].
  destruct Hruns as (_ & l & Hl & Hf & Hcl). simpl in Hcl.
  assert (isMounted (refs (unmounted (world c))) = <[cl_run cl := false]> (l ++ [true])) as Hm.
  { unfold unmounted, before_start. rewrite Hs. simpl. by rewrite Hl. }
  split; simpl.
  - split.
    + unfold runs_ok. cbn [unmounted with_fiber fiber slot phase refs]. split; [done|].
      change (Forall (eq false) (isMounted (refs (unmounted (world c))))). rewrite Hm, Hcl.
      rewrite insert_app_r_alt, Nat.sub_diag by lia. apply Forall_app. split; [done|]. by constructor.
    + done.
    + done.
    + unfold unmounted, before_start. rewrite Hs. exact Hr.
  - change (length (tasks c) = length (isMounted (refs (unmounted (world c))))).
    by rewrite Hm, length_insert, <-Hl.
  - done.
Qed.

Lemma settle_run i f c c' :
  hook_inv c → settle i f c = Some c' →
  i < length (isMounted (refs (world c))) ∧
  ∃ options o, settled o = true ∧
    c' = mkConfig
           (after_acquisition (default false (isMounted (refs (world c)) !! i)) options
              (f (GetUserMedia (snd (constraints_of options)))) (world c))
           (<[i := o]> (tasks c)).
Proof.
  intros [_ Hlen Htasks] Hs. unfold settle in Hs.
  destruct (tasks c !! i) as [o|] eqn:Hi; [|done]; simpl in Hs.
  split; [rewrite <-Hlen; by eapply lookup_lt_Some|].
  destruct (Htasks i o Hi) as [Ho|(options & k & Hk & ->)]; [by destruct o|].
  simpl in Hs. destruct (Hk (f (GetUserMedia (snd (constraints_of options)))) (world c)) as (o & Ho & Heq).
  rewrite Heq in Hs. simplify_eq/=. by exists options, o.
Qed.

Lemma settle_inv i f c c' : hook_inv c → settle i f c = Some c' → hook_inv c'.
Proof.
  intros Hc Hs. destruct (settle_run i f c c' Hc Hs) as (Hi & options & o & Ho & ->).
  destruct Hc as [Hw Hlen Htasks].
  destruct (after_acquisition_inv i options (f (GetUserMedia (snd (constraints_of options))))
    (world c) Hi Hw) as [Hw' Hr].
  split; cbn [world tasks]; [done|by rewrite length_insert, Hr|].
  intros j o' [(-> & <- & _)|[_ Hj]]%list_lookup_insert_Some; [by left|eauto].
Qed.

Lemma stream_step_inv e c c' : hook_inv c → step e c = Some c' → hook_inv c'.
Proof.
  intros Hc Hs. destruct e as [options| | |r el|i f]; simpl in Hs.
  - apply enabled_Some in Hs as [Hp%bool_decide_eq_true <-]. by apply render_inv.
  - apply enabled_Some in Hs as [Hp%bool_decide_eq_true <-].
    rewrite dispatch_sync by done. destruct Hc as [Hw Hlen Htasks]. split; [|done|done].
    apply (world_inv_frame (world c)); try done.
    change (ready_ok (shown (enqueue [IncRetryCount] (world c)))). rewrite shown_enqueue.
    destruct Hw as [_ _ _ [_ Hr]]. exact Hr.
  - apply enabled_Some in Hs as [Hp%bool_decide_eq_true <-]. by apply unmount_inv.
  - injection Hs as <-. by destruct Hc as [[] ? ?].
  - by eapply settle_inv.
Qed.

Lemma reachable_stream c : reachable step init c → hook_inv c.
Proof.
  revert c. apply reachable_ind_inv; [|intros; by eapply stream_step_inv].
  split; [split|done|done]; [by split|done| |done]. intros _ _. by split.
Qed.

(** ** Properties *)

(** In every configuration, and in the state any further render will show, a
    hook that reports [isReady] has a stream and reports no error. *)
Theorem ready_has_stream c :
  reachable step init c → ready_ok (hooks (world c)) ∧ ready_ok (shown (world c)).
Proof. intros Hc. by destruct (reachable_stream c Hc) as [[_ _ _ ?] _ _]. Qed.

(** C24: When the stream a run asked for arrives after the run was cleaned up
    (constraints changed, retry, unmount), all of its tracks are stopped and
    nothing else happens: no state update, no video element. *)
Theorem superseded_stream_is_stopped i f s c c' :
  reachable step init c → step (EvSettle i f) c = Some c' →
  (∀ cs, f (GetUserMedia cs) = inr s) → isMounted (refs (world c)) !! i = Some false →
  world c' = on_host (stop_all (getTracks s)) (world c).
Proof.
  intros Hc Hs Hf Hm. destruct (settle_run i f c c' (reachable_stream c Hc) Hs)
    as (_ & options & o & _ & ->). by rewrite Hf, Hm.
Qed.

(** When it arrives while the run is current, the next render reports it, ready
    and without error, and no track is stopped. *)
Theorem current_stream_is_reported i f s c c' :
  reachable step init c → step (EvSettle i f) c = Some c' →
  (∀ cs, f (GetUserMedia cs) = inr s) → isMounted (refs (world c)) !! i = Some true →
  shown (world c') = mkState (Some s) true None (retryCount (shown (world c))) ∧
  stopped (host (world c')) = stopped (host (world c)).
Proof.
  intros Hc Hs Hf Hm. destruct (settle_run i f c c' (reachable_stream c Hc) Hs)
    as (_ & options & o & _ & ->). rewrite Hf, Hm. simpl.
  destruct (show_stream_frame options s (world c)) as (es & ->).
  by rewrite shown_enqueue.
Qed.

(** C25: When the access is refused with an error, the next render reports the
    error and not ready, and the user is alerted, also for a run that was
    cleaned up; the stream reported before is kept. *)
Theorem refused_access i f e err c c' :
  reachable step init c → step (EvSettle i f) c = Some c' →
  (∀ cs, f (GetUserMedia cs) = inl e) → to_error e = inr err →
  shown (world c') =
    mkState (stream (shown (world c))) false (Some err) (retryCount (shown (world c))) ∧
  io (host (world c')) =
    io (host (world c)) ++ [IoAlert "カメラ・マイクへのアクセスが拒否されました"].
Proof.
  intros Hc Hs Hf He. destruct (settle_run i f c c' (reachable_stream c Hc) Hs)
    as (_ & options & o & _ & ->). rewrite Hf. simpl. rewrite He. split; [|done].
  change (shown (enqueue [SetError (Some err); SetIsReady false] (world c)) =
    mkState (stream (shown (world c))) false (Some err) (retryCount (shown (world c)))).
  by rewrite shown_enqueue.
Qed.

(** A render asks for a stream exactly when the identity of the constraints or
    the retry count changed since the effect last ran, and then cleans the
    previous run up first. *)
Theorem request_per_change options c c' :
  reachable step init c → step (EvRender options) c = Some c' →
  io (host (world c')) =
    if decide (slot_deps <$> slot (fiber (world c)) = Some (deps (shown (world c)) options))
    then io (host (world c))
    else io (host (before_start (world c))) ++
         [IoRequest (GetUserMedia (snd (constraints_of options)))].
Proof.
  intros Hc Hs. simpl in Hs. apply enabled_Some in Hs as [_ <-]. unfold render.
  set (c1 := env_world commit c). cbv zeta. unfold dispatch.
  destruct (acquire_effect_run (hooks (world c1)) options (world c1)) as [[Hd ->]|(Hd & k & _ & ->)].
  - by rewrite decide_True.
  - rewrite decide_False by done. cbn [world].
    unfold before_start. simpl. by destruct (slot (fiber (world c))).
Qed.

(** C39: The clean-up closure of the first run captured the render before any stream
    was there.  So when the hook is unmounted after its only acquisition, no
    track is ever stopped: the camera of a stream it acquired stays on. *)
Theorem unmount_leaks_camera c c1 es c2 :
  reachable step init c → length (tasks c) = 1 → forallb settled (tasks c) = true →
  step EvUnmount c = Some c1 → run step es c1 = Some c2 →
  stopped (host (world c2)) = ∅.
Proof.
  intros Hc Hl Ho Hu Hr. destruct (tasks c) as [|o [|]] eqn:Ht; try done.
  simpl in Ho. rewrite andb_true_r in Ho. pose proof (reachable_stream c Hc) as [[Hruns _ H1 _] Hlen _].
  simpl in Hu. apply enabled_Some in Hu as [Hp%bool_decide_eq_true <-]. rewrite stream_unmount_run in Hr.
  destruct H1 as [Hst Hsl]; [by rewrite <-Hlen, Ht|by rewrite Hp|].
  assert (∀ es c1, tasks c1 = [o] → phase (fiber (world c1)) = Unmounted →
    stopped (host (world c1)) = ∅ → run step es c1 = Some c2 → stopped (host (world c2)) = ∅) as Hgen.
  { clear -Ho. induction es as [|e es IH]; simpl; intros c1 Ht Hp Hst Hr; [by simplify_eq|].
    destruct (step e c1) as [c3|] eqn:Hs; [|done]. simpl in Hr.
    enough (tasks c3 = [o] ∧ phase (fiber (world c3)) = Unmounted ∧ stopped (host (world c3)) = ∅)
      as (? & ? & ?) by by eapply IH.
    destruct e as [options| | |r el|i f]; simpl in Hs;
      try (apply enabled_Some in Hs as [Hb%bool_decide_eq_true <-]); try congruence.
    - by rewrite dispatch_sync.
    - by simplify_eq.
    - unfold settle in Hs. rewrite Ht in Hs. destruct i as [|i]; [|done]. simpl in Hs.
      by destruct o. }
  apply (Hgen es (env_world unmounted c)); try done. simpl. unfold unmounted, before_start.
  destruct (slot (fiber (world c))) as [sl|] eqn:Hs; simpl; [|done].
  by rewrite (Hsl _ eq_refl).
Qed.
End Properties.

(** ** Examples *)

#[local] Existing Instance RefBrowser.

Definition ex_cam : MediaStream := mkMediaStream 0 [mkTrack 1 "audio" "mic"; mkTrack 2 "video" "cam"].

Definition ex_grant : Answer := λ r,
  match r return thrown + Reply r with
  | GetUserMedia _ => inr ex_cam
  | _ => inl (ErrorObj "Error" "")
  end.

Definition ex_denied : thrown := ErrorObj "NotAllowedError" "Permission denied".
Definition ex_deny : Answer := λ r, inl ex_denied.

Definition ex_options : UseMediaStreamOptions := mkOptions (Some 0) None.

Definition ex_rendered : list Event := [EvCurrent 0 (Some "video"); EvRender ex_options].
Definition ex_granted : list Event := ex_rendered ++ [EvSettle 0 ex_grant; EvRender ex_options].
Definition ex_retried : list Event := ex_rendered ++ [EvRetry; EvRender ex_options].

Lemma ready_has_stream_witness :
  let c := final step init ex_granted in
  ready_ok (hooks (world c)) ∧ ready_ok (shown (world c)) ∧ isReady (hooks (world c)) = true.
Proof.
  split_and!; [apply (ready_has_stream (final step init ex_granted)); by_run|
               apply (ready_has_stream (final step init ex_granted)); by_run|by_run].
Defined.

Lemma superseded_stream_is_stopped_witness :
  world (next step (EvSettle 0 ex_grant) (final step init ex_retried)) =
  on_host (stop_all (getTracks ex_cam)) (world (final step init ex_retried)).
Proof.
  apply (superseded_stream_is_stopped 0 ex_grant ex_cam (final step init ex_retried)
    (next step (EvSettle 0 ex_grant) (final step init ex_retried))); by_run.
Defined.

Lemma current_stream_is_reported_witness :
  shown (world (next step (EvSettle 0 ex_grant) (final step init ex_rendered))) =
    mkState (Some ex_cam) true None (retryCount (shown (world (final step init ex_rendered)))) ∧
  stopped (host (world (next step (EvSettle 0 ex_grant) (final step init ex_rendered)))) =
    stopped (host (world (final step init ex_rendered))).
Proof.
  apply (current_stream_is_reported 0 ex_grant ex_cam (final step init ex_rendered)
    (next step (EvSettle 0 ex_grant) (final step init ex_rendered))); by_run.
Defined.

Lemma refused_access_witness :
  let c := final step init ex_retried in
  let c' := next step (EvSettle 0 ex_deny) c in
  shown (world c') = mkState (stream (shown (world c))) false (Some ex_denied)
                       (retryCount (shown (world c))) ∧
  io (host (world c')) =
    io (host (world c)) ++ [IoAlert "カメラ・マイクへのアクセスが拒否されました"].
Proof.
  apply (refused_access 0 ex_deny ex_denied ex_denied (final step init ex_retried)
    (next step (EvSettle 0 ex_deny) (final step init ex_retried))); by_run.
Defined.

Lemma request_per_change_witness :
  let c := final step init ex_granted in
  io (host (world (next step (EvRender ex_options) c))) =
    if decide (slot_deps <$> slot (fiber (world c)) = Some (deps (shown (world c)) ex_options))
    then io (host (world c))
    else io (host (before_start (world c))) ++
         [IoRequest (GetUserMedia (snd (constraints_of ex_options)))].
Proof.
  apply (request_per_change ex_options (final step init ex_granted)
    (next step (EvRender ex_options) (final step init ex_granted))); by_run.
Defined.

(** The state still shows a live stream when the hook is unmounted. *)
Lemma unmount_leaks_camera_witness :
  stream (hooks (world (final step init ex_granted))) = Some ex_cam ∧
  stopped (host (world (after step [] (next step EvUnmount (final step init ex_granted))))) = ∅.
Proof.
  split; [by_run|].
  apply (unmount_leaks_camera (final step init ex_granted)
    (next step EvUnmount (final step init ex_granted)) []
    (after step [] (next step EvUnmount (final step init ex_granted)))); by_run.
Defined.
