(* ===== verification/UseSignaling.v ===== *)
(** * The hook [hooks/useSignaling.ts]

    Each run of the effect opens a socket whose handlers captured the options
    of that render; a message or event of any socket ever opened can arrive.
    The functions the hook returns are memoized closures, and a caller may use
    those of any render. *)
From S2P Require Import Prelude JsValue WebrtcConstants SignalingTypes Async Browser React WebrtcHelpers.

(** ** State *)

(** A callback is known by its identity. *)
Record UseSignalingOptions := mkOptions {
  url : option string;
  onOffer : option nat;
  onAnswer : option nat;
  onIceCandidate : option nat;
}.

Record State := mkState {
  socket : option nat;
  clientId : jsval;
  isConnected : bool;
}.

Definition initState : State := mkState None JNull false.

Inductive Update :=
| SetSocket (ws : nat)
| SetClientId (id : jsval)
| SetIsConnected (b : bool).

Definition apply_update (u : Update) (s : State) : State :=
  match u with
  | SetSocket ws => mkState (Some ws) (clientId s) (isConnected s)
  | SetClientId id => mkState (socket s) id (isConnected s)
  | SetIsConnected b => mkState (socket s) (clientId s) b
  end.

(** A [sendMessage] function: its identity and the state its closure holds. *)
Record SendMessage := mkSend { send_id : nat; send_env : State }.

(** The memoized functions.  The closures of [sendOffer], [sendAnswer] and
    [sendCandidate] hold a [sendMessage]. *)
Record UseSignalingReturn := mkReturn {
  api_state : State;
  api_sendMessage : Slot SendMessage;
  api_sendOffer : Slot SendMessage;
  api_sendAnswer : Slot SendMessage;
  api_sendCandidate : Slot SendMessage;
}.

(** [handlers] are the options the handlers of each socket captured; [returned]
    what each render returned. *)
Record Fiber := mkFiber {
  phase : Phase;
  slot : option (Slot nat);
  handlers : list UseSignalingOptions;
  returned : list UseSignalingReturn;
}.

Definition set_slot (p : Phase) (s : option (Slot nat)) (f : Fiber) : Fiber :=
  mkFiber p s (handlers f) (returned f).
Definition add_handlers (o : UseSignalingOptions) (f : Fiber) : Fiber :=
  mkFiber (phase f) (slot f) (handlers f ++ [o]) (returned f).
Definition add_returned (r : UseSignalingReturn) (f : Fiber) : Fiber :=
  mkFiber (phase f) (slot f) (handlers f) (returned f ++ [r]).

Section UseSignaling.
Context {B : BrowserAPI}.
(** The environment variable and the location [getWebSocketUrl] reads. *)
Context (envUrl : option string) (window : option Location).
Local Abbreviation W := (World unit State Update Fiber).
Local Abbreviation M := (@JS W thrown Request Reply).
Local Abbreviation Hook := (Config unit State Update Fiber unit).

(** ** The returned functions *)

Definition sendMessage (f : SendMessage) (message : list (string * jsval)) : M unit :=
  let env := send_env f in
  if negb (truthy (clientId env)) then ret tt
  else
    let fullMessage := obj_spread [("from", clientId env)] message in
    when_some (socket env) (λ ws, send_text ws (JSON_stringify fullMessage)).

Definition sendOffer (f : SendMessage) (to : string) (sdp : jsval) : M unit :=
  sendMessage f [("to", JStr to); ("sdp", sdp); ("type", JStr "offer")].

Definition sendAnswer (f : SendMessage) (to : string) (sdp : jsval) : M unit :=
  sendMessage f [("to", JStr to); ("sdp", sdp); ("type", JStr "answer")].

Definition sendCandidate (f : SendMessage) (to : string) (candidate : jsval) : M unit :=
  sendMessage f [("to", JStr to); ("candidate", candidate); ("type", JStr "candidate")].

(** What the [n]-th render returns, given what the previous one returned. *)
Definition returns (n : nat) (env : State) (old : option UseSignalingReturn) : UseSignalingReturn :=
  let send := use_callback (api_sendMessage <$> old)
                [dep_ref JNull (socket env); DepVal (clientId env)] (mkSend n env) in
  let deps := [DepRef (send_id (slot_data send))] in
  mkReturn env send
    (use_callback (api_sendOffer <$> old) deps (slot_data send))
    (use_callback (api_sendAnswer <$> old) deps (slot_data send))
    (use_callback (api_sendCandidate <$> old) deps (slot_data send)).

(** ** The handlers of a socket *)

Definition onopen : M unit := setState (SetIsConnected true).

Definition call (callback : option nat) (message : jsval) : M unit :=
  when_some callback (λ f, emit (IoCallback f message)).

Definition onmessage (options : UseSignalingOptions) (data : string) : M unit :=
  message <- may_throw (JSON_parse data) ;;
  emit (IoReceive message) ;;
  isWelcome <- may_throw (isWelcomeMessage message) ;;
  if isWelcome : bool then
    id <- may_throw (get_prop message "id") ;;
    setState (SetClientId id)
  else
    isOffer <- may_throw (isOfferMessage message) ;;
    if isOffer : bool then call (onOffer options) message
    else
      isAnswer <- may_throw (isAnswerMessage message) ;;
      if isAnswer : bool then call (onAnswer options) message
      else
        isCandidate <- may_throw (isICECandidateMessage message) ;;
        if isCandidate : bool then call (onIceCandidate options) message
        else ret tt.

Definition onerror : M unit := setState (SetIsConnected false).
Definition onclose : M unit := setState (SetIsConnected false).

(** ** The effect *)

Definition wsUrl (options : UseSignalingOptions) : string :=
  if truthy_str (url options) then default "" (url options) else getWebSocketUrl envUrl window.

Definition deps (options : UseSignalingOptions) : list dep :=
  [DepVal (from_option JStr JUndef (url options)); dep_ref JUndef (onOffer options);
   dep_ref JUndef (onAnswer options); dep_ref JUndef (onIceCandidate options)].

Definition set_fiber (f : Fiber → Fiber) : M unit := modify (λ w, with_fiber (f (fiber w)) w).

Definition setup (options : UseSignalingOptions) : M nat :=
  ws <- new_WebSocket (wsUrl options) ;;
  set_fiber (add_handlers options) ;;
  setState (SetSocket ws) ;;
  ret ws.

Definition cleanup (ws : nat) : M unit := close_socket ws.

(** An effect that throws makes React unmount the component. *)
Definition effect (options : UseSignalingOptions) : M unit :=
  old <- gets (λ w, slot (fiber w)) ;;
  try_catch
    (new <- run_effect old (deps options) (setup options) cleanup ;;
     set_fiber (set_slot Mounted (Some new)))
    (λ _, set_fiber (set_slot Unmounted None)).

(** ** The component that uses the hook *)

(** The calls of a function a render returned. *)
Inductive Call :=
| CallSendMessage (message : list (string * jsval))
| CallSendOffer (to : string) (sdp : jsval)
| CallSendAnswer (to : string) (sdp : jsval)
| CallSendCandidate (to : string) (candidate : jsval).

Definition perform (api : UseSignalingReturn) (c : Call) : M unit :=
  match c with
  | CallSendMessage message => sendMessage (slot_data (api_sendMessage api)) message
  | CallSendOffer to sdp => sendOffer (slot_data (api_sendOffer api)) to sdp
  | CallSendAnswer to sdp => sendAnswer (slot_data (api_sendAnswer api)) to sdp
  | CallSendCandidate to candidate => sendCandidate (slot_data (api_sendCandidate api)) to candidate
  end.

Inductive Event :=
| EvRender (options : UseSignalingOptions)
| EvUnmount
| EvOpen (ws : nat)
| EvMessage (ws : nat) (data : string)
| EvError (ws : nat)
| EvClose (ws : nat)
| EvReadyState (ws : nat) (rs : ReadyState)
| EvCall (n : nat) (c : Call).

Definition commit (w : W) : W :=
  let env := flush apply_update (queue w) (hooks w) in
  let f := fiber w in
  with_fiber (add_returned (returns (length (returned f)) env (last (returned f))) f)
    (with_queue [] (with_hooks env w)).

Definition render (options : UseSignalingOptions) (c : Hook) : Hook :=
  dispatch (sync_handler (effect options)) (env_world commit c).

Definition unmount (c : Hook) : Hook :=
  dispatch (sync_handler
    (old <- gets (λ w, slot (fiber w)) ;;
     when_some old (λ sl, cleanup (slot_data sl)) ;;
     set_fiber (set_slot Unmounted None))) c.

(** A handler of socket [ws], when the socket exists. *)
Definition on_socket (ws : nat) (m : UseSignalingOptions → M unit) (c : Hook) : option Hook :=
  options ← handlers (fiber (world c)) !! ws;
  Some (dispatch (sync_handler (m options)) c).

Definition step (e : Event) (c : Hook) : option Hook :=
  match e with
  | EvRender options =>
      enabled (bool_decide (phase (fiber (world c)) ≠ Unmounted)) (render options c)
  | EvUnmount => enabled (bool_decide (phase (fiber (world c)) = Mounted)) (unmount c)
  | EvOpen ws => on_socket ws (λ _, onopen) c
  | EvMessage ws data => on_socket ws (λ options, onmessage options data) c
  | EvError ws => on_socket ws (λ _, onerror) c
  | EvClose ws => on_socket ws (λ _, onclose) c
  | EvReadyState ws rs => Some (env_world (on_host (set_ready_state ws (λ _, rs))) c)
  | EvCall n call =>
      api ← returned (fiber (world c)) !! n;
      Some (dispatch (sync_handler (perform api call)) c)
  end.

Definition init : Hook :=
  mkConfig (mkWorld emptyHost tt initState [] (mkFiber Fresh None [] [])) [].
End UseSignaling.
