(* ===== verification/UseSignalingProperties.v ===== *)
(** * Properties of [useSignaling] *)
From S2P Require Import Prelude JsValue WebrtcConstants SignalingTypes Async Browser Messages ReferenceBrowser Json React WebrtcHelpers UseSignaling.

Section Properties.
Context {B : BrowserAPI} (envUrl : option string) (window : option Location).
Local Abbreviation W := (World unit State Update Fiber).
Local Abbreviation M := (@JS W thrown Request Reply).
Local Abbreviation Hook := (Config unit State Update Fiber unit).
Local Abbreviation step := (step envUrl window).
Local Abbreviation effect := (effect envUrl window).
Implicit Types (w : W) (c : Hook) (options : UseSignalingOptions).

(** ** What the handlers do *)

(** The effect of a message on a socket whose handlers captured [options]. *)
Definition receive options (v : jsval) w : W :=
  let w1 := on_host (log (IoReceive v)) w in
  let callback o := match o with
                    | Some f => on_host (log (IoCallback f v)) w1
                    | None => w1
                    end in
  if negb (readable v) then w1
  else if is_str (field v "type") "welcome" then enqueue [SetClientId (field v "id")] w1
  else if is_str (field v "type") "offer" then callback (onOffer options)
  else if is_str (field v "type") "answer" then callback (onAnswer options)
  else if is_str (field v "type") "candidate" then callback (onIceCandidate options)
  else w1.

Lemma call_run callback v w :
  call callback v w =
    (match callback with Some f => on_host (log (IoCallback f v)) w | None => w end, Returned tt).
Proof. by destruct callback. Qed.

Lemma onmessage_run options data w :
  ∃ o, settled o = true ∧
    onmessage options data w =
      (match JSON_parse data with inr v => receive options v w | inl _ => w end, o).
Proof.
  unfold onmessage, bind at 1, may_throw at 1, sync.
  destruct (JSON_parse data) as [e|v]; simpl; [by exists (Threw e)|].
  unfold bind at 1, emit, modify. simpl. unfold receive.
  unfold isWelcomeMessage, isOfferMessage, isAnswerMessage, isICECandidateMessage.
  destruct (readable v) eqn:Hr; simpl; [|destruct v; try done; by eexists (Threw _)].
  rewrite !type_is_readable by done. unfold bind, may_throw, sync. simpl.
  exists (Returned tt). split; [done|].
  destruct (is_str _ "welcome"); simpl; [by destruct v|].
  destruct (is_str _ "offer"); simpl; [apply call_run|].
  destruct (is_str _ "answer"); simpl; [apply call_run|].
  destruct (is_str _ "candidate"); simpl; [apply call_run|done].
Qed.

Definition closed (ws : nat) w : W :=
  on_host (λ h, log (IoCloseWs ws) (set_ready_state ws ws_close h)) w.

Definition before_setup w : W :=
  match slot (fiber w) with Some sl => closed (slot_data sl) w | None => w end.

Definition opened options (s : WebSocket) w : W :=
  let ws := length (sockets (host w)) in
  mkWorld
    (log (IoNewWebSocket ws (wsUrl envUrl window options))
       (with_sockets (sockets (host w) ++ [s]) (host w)))
    (refs w) (hooks w) (queue w ++ [SetSocket ws])
    (mkFiber Mounted (Some (mkSlot (deps options) ws)) (handlers (fiber w) ++ [options])
       (returned (fiber w))).

Definition crashed w : W := with_fiber (set_slot Unmounted None (fiber w)) w.

(** The effect runs again exactly when a dependency changed. *)
Lemma signaling_effect_run options w :
  effect options w =
    (match slot (fiber w) with
     | Some sl => if decide (slot_deps sl = deps options)
                  then with_fiber (set_slot Mounted (Some sl) (fiber w)) w
                  else match newWebSocket (wsUrl envUrl window options) with
                       | inl _ => crashed (before_setup w)
                       | inr s => opened options s (before_setup w)
                       end
     | None => match newWebSocket (wsUrl envUrl window options) with
               | inl _ => crashed w
               | inr s => opened options s w
               end
     end, Returned tt).
Proof.
  unfold UseSignaling.effect. erewrite bind_returned by reflexivity.
  assert (∀ w1,
    (h <- setup envUrl window options ;; ret (mkSlot (deps options) h)) w1 =
      match newWebSocket (wsUrl envUrl window options) with
      | inl e => (w1, Threw e)
      | inr s => (with_fiber (add_handlers options (fiber w1))
                    (with_queue (queue w1 ++ [SetSocket (length (sockets (host w1)))])
                    (on_host (λ h, log (IoNewWebSocket (length (sockets h)) (wsUrl envUrl window options))
                                      (with_sockets (sockets h ++ [s]) h)) w1)),
                  Returned (mkSlot (deps options) (length (sockets (host w1)))))
      end) as Hsetup.
  { intros w1. unfold setup, bind at 1 2, new_WebSocket, sync.
    destruct (newWebSocket _); reflexivity. }
  unfold try_catch, bind at 1, run_effect, before_setup.
  destruct (slot (fiber w)) as [sl|]; [|rewrite Hsetup;
    by destruct (newWebSocket _)].
  rewrite decide_bool_decide. destruct (bool_decide _); [done|].
  erewrite bind_returned by reflexivity. rewrite Hsetup.
  by destruct (newWebSocket _).
Qed.

(** The text a [sendMessage] sends, when it sends one. *)
Definition full_text (env : State) (message : list (string * jsval)) : string :=
  JSON_stringify (obj_spread [("from", clientId env)] message).

Definition sent (env : State) (message : list (string * jsval)) w : W :=
  match truthy (clientId env), socket env with
  | true, Some ws =>
      match readyState <$> sockets (host w) !! ws with
      | Some rs =>
          match ws_send rs with
          | None => on_host (log (IoSend ws (full_text env message))) w
          | Some _ => w
          end
      | None => w
      end
  | _, _ => w
  end.

Lemma sendMessage_run f message w :
  ∃ o, settled o = true ∧ sendMessage f message w = (sent (send_env f) message w, o).
Proof.
  unfold sendMessage, sent, full_text, when_some, send_text, sync.
  destruct (truthy _); simpl; [|by exists (Returned tt)].
  destruct (socket (send_env f)) as [ws|]; [|by exists (Returned tt)].
  destruct (sockets (host w) !! ws) as [s|]; simpl; [|by exists (Returned tt)].
  destruct (ws_send _) as [e|]; [by exists (Threw e)|by exists (Returned tt)].
Qed.

Definition message_of (c : Call) : list (string * jsval) :=
  match c with
  | CallSendMessage message => message
  | CallSendOffer to sdp => [("to", JStr to); ("sdp", sdp); ("type", JStr "offer")]
  | CallSendAnswer to sdp => [("to", JStr to); ("sdp", sdp); ("type", JStr "answer")]
  | CallSendCandidate to candidate =>
      [("to", JStr to); ("candidate", candidate); ("type", JStr "candidate")]
  end.

(** The [sendMessage] closure a call goes through. *)
Definition sender_of (api : UseSignalingReturn) (c : Call) : SendMessage :=
  slot_data match c with
            | CallSendMessage _ => api_sendMessage api
            | CallSendOffer _ _ => api_sendOffer api
            | CallSendAnswer _ _ => api_sendAnswer api
            | CallSendCandidate _ _ => api_sendCandidate api
            end.

Lemma perform_run api (k : Call) w :
  ∃ o, settled o = true ∧ perform api k w = (sent (send_env (sender_of api k)) (message_of k) w, o).
Proof. destruct k; apply sendMessage_run. Qed.

(** ** The invariant *)

Definition id_ok w (id : jsval) : Prop := truthy id = true → welcomed (io (host w)) id.

(** Every function a render returned goes through a closure with the socket and
    the id of that very render. *)
Record api_ok (n : nat) (api : UseSignalingReturn) : Prop := {
  api_deps : slot_deps (api_sendMessage api) =
    [dep_ref JNull (socket (api_state api)); DepVal (clientId (api_state api))];
  api_socket : socket (send_env (slot_data (api_sendMessage api))) = socket (api_state api);
  api_client : clientId (send_env (slot_data (api_sendMessage api))) = clientId (api_state api);
  api_age : send_id (slot_data (api_sendMessage api)) ≤ n;
  api_others sl : sl ∈ [api_sendOffer api; api_sendAnswer api; api_sendCandidate api] →
    sl = mkSlot [DepRef (send_id (slot_data (api_sendMessage api)))] (slot_data (api_sendMessage api));
}.

Lemma use_callback_memo {X} (old : option (Slot X)) ds (f : X) :
  (use_callback old ds f = mkSlot ds f ∧ ∀ sl, old = Some sl → slot_deps sl ≠ ds) ∨
  (old = Some (use_callback old ds f) ∧ slot_deps (use_callback old ds f) = ds).
Proof.
  unfold use_callback. destruct old as [sl|]; [|by left].
  case_bool_decide; [by right|left]. split; [done|]. by intros ? [= <-].
Qed.

(** The memoized functions of the render after one that was fine. *)
Lemma returns_ok n env old :
  (∀ api, old = Some api → ∃ m, m < n ∧ api_ok m api) → api_ok n (returns n env old).
Proof.
  intros Hold. set (send := use_callback (api_sendMessage <$> old)
    [dep_ref JNull (socket env); DepVal (clientId env)] (mkSend n env)).
  assert (slot_deps send = [dep_ref JNull (socket env); DepVal (clientId env)] ∧
    ((send_id (slot_data send) = n ∧ send_env (slot_data send) = env) ∨
     ∃ api, old = Some api ∧ send = api_sendMessage api)) as [Hd Hs].
  { destruct (use_callback_memo (api_sendMessage <$> old)
      [dep_ref JNull (socket env); DepVal (clientId env)] (mkSend n env)) as [[Heq _]|[Heq Hds]];
      fold send in Heq |- *; [rewrite Heq; auto|]. split; [done|right].
    apply fmap_Some in Heq as (api & ? & ?). by exists api. }
  assert (∀ sel, sel ∈ [api_sendOffer; api_sendAnswer; api_sendCandidate] →
    use_callback (sel <$> old) [DepRef (send_id (slot_data send))] (slot_data send) =
      mkSlot [DepRef (send_id (slot_data send))] (slot_data send)) as Hsel.
  { intros sel Hsel. destruct (use_callback_memo (sel <$> old) [DepRef (send_id (slot_data send))]
      (slot_data send)) as [[-> _]|[Heq Hds]]; [done|].
    apply fmap_Some in Heq as (api & Heq & Hcb). rewrite Hcb in *.
    destruct (Hold api Heq) as (m & Hm & Hok).
    assert (sel api ∈ [api_sendOffer api; api_sendAnswer api; api_sendCandidate api]) as Hin
      by set_solver.
    rewrite (api_others _ _ Hok _ Hin) in *. simpl in Hds. injection Hds as Hid.
    destruct Hs as [[Hs _]|(api' & Heq' & Hs)]; [|simplify_eq].
    - pose proof (api_age _ _ Hok). lia.
    - by rewrite Hs. }
  unfold returns. cbv zeta. fold send. rewrite !Hsel by set_solver.
  split; simpl.
  - done.
  - destruct Hs as [[_ ->]|(api & Ho & Hs)]; [done|]. destruct (Hold _ Ho) as (m & _ & Hok).
    pose proof (api_deps _ _ Hok) as Hd'. rewrite <-Hs, Hd in Hd'.
    rewrite Hs, (api_socket _ _ Hok). destruct (socket env), (socket (api_state api)); simpl in Hd'; congruence.
  - destruct Hs as [[_ ->]|(api & Ho & Hs)]; [done|]. destruct (Hold _ Ho) as (m & _ & Hok).
    pose proof (api_deps _ _ Hok) as Hd'. rewrite <-Hs, Hd in Hd'.
    rewrite Hs, (api_client _ _ Hok). congruence.
  - destruct Hs as [[-> _]|(api & Ho & ->)]; [done|]. destruct (Hold _ Ho) as (m & ? & Hok).
    pose proof (api_age _ _ Hok). lia.
  - intros sl Hsl. set_solver.
Qed.

Record hook_inv w : Prop := {
  inv_sockets : length (sockets (host w)) = length (handlers (fiber w));
  inv_slot : match slot (fiber w) with
             | Some sl => phase (fiber w) = Mounted ∧ Datatypes.S (slot_data sl) = length (handlers (fiber w))
             | None => phase (fiber w) ≠ Mounted
             end;
  inv_closes ws :
    occurrences (IoCloseWs ws) (io (host w)) =
      if decide (ws < length (handlers (fiber w)) ∧ slot_data <$> slot (fiber w) ≠ Some ws)
      then 1 else 0;
  inv_hooks : id_ok w (clientId (hooks w));
  inv_queue id : SetClientId id ∈ queue w → welcomed (io (host w)) id;
  inv_returned n api : returned (fiber w) !! n = Some api →
    api_ok n api ∧ id_ok w (clientId (api_state api));
}.

Lemma full_text_eq env env' message :
  clientId env = clientId env' → full_text env message = full_text env' message.
Proof. unfold full_text. by intros ->. Qed.

Lemma id_ok_prefix w w' id :
  io (host w) `prefix_of` io (host w') → id_ok w id → id_ok w' id.
Proof. intros Hio Hid Ht. eapply welcomed_prefix; eauto. Qed.

(** Steps that leave the effect alone: the trace grows by events that close no
    socket. *)
Lemma inv_frame w w' es :
  io (host w') = io (host w) ++ es → length (sockets (host w')) = length (sockets (host w)) →
  fiber w' = fiber w → hooks w' = hooks w →
  (∀ ws, IoCloseWs ws ∉ es) →
  (∀ id, SetClientId id ∈ queue w' → SetClientId id ∈ queue w ∨ welcomed (io (host w')) id) →
  hook_inv w → hook_inv w'.
Proof.
  intros Hio Hsk Hf Hh Hes Hq [Hc Hs Hcl Hhk Hqu Hret].
  assert (io (host w) `prefix_of` io (host w')) as Hpre by (rewrite Hio; by apply prefix_app_r).
  split; rewrite ?Hf, ?Hsk, ?Hh; auto.
  - intros ws. rewrite Hio, occurrences_app, (occurrences_none _ es), Nat.add_0_r by done. apply Hcl.
  - eauto using id_ok_prefix.
  - intros id Hid. destruct (Hq id Hid); eauto using welcomed_prefix.
  - intros n api Hn. destruct (Hret n api Hn). eauto using id_ok_prefix.
Qed.

Lemma sent_inv api (k : Call) w n :
  returned (fiber w) !! n = Some api → hook_inv w →
  hook_inv (sent (send_env (sender_of api k)) (message_of k) w) ∧
  sent (send_env (sender_of api k)) (message_of k) w = sent (api_state api) (message_of k) w.
Proof.
  intros Hn Hi. destruct (inv_returned _ Hi n api Hn) as [Hok _].
  assert (socket (send_env (sender_of api k)) = socket (api_state api) ∧
          clientId (send_env (sender_of api k)) = clientId (api_state api)) as [Hs Hcl].
  { rewrite <-(api_socket _ _ Hok), <-(api_client _ _ Hok).
    pose proof (api_others _ _ Hok) as Ho. unfold sender_of.
    destruct k; [done|rewrite (Ho (api_sendOffer api)) by set_solver; done|
      rewrite (Ho (api_sendAnswer api)) by set_solver; done|
      rewrite (Ho (api_sendCandidate api)) by set_solver; done]. }
  assert (sent (send_env (sender_of api k)) (message_of k) w = sent (api_state api) (message_of k) w)
    as Heq.
  { unfold sent. rewrite Hs, Hcl, (full_text_eq _ _ _ Hcl). done. }
  split; [|done]. rewrite Heq. unfold sent.
  destruct (truthy _) eqn:Ht; [|done]. destruct (socket (api_state api)) as [ws|]; [|done].
  destruct (readyState <$> _) as [rs|]; [|done]. destruct (ws_send rs); [done|].
  apply (inv_frame w _ [IoSend ws (full_text (api_state api) (message_of k))]); try done; try set_solver.
Qed.

Lemma receive_inv options v w : hook_inv w → hook_inv (receive options v w).
Proof.
  intros Hi. unfold receive. set (w1 := on_host (log (IoReceive v)) w).
  assert (hook_inv w1) as Hi1.
  { apply (inv_frame w _ [IoReceive v]); try done; try set_solver. }
  assert (∀ o, hook_inv (match o with Some f => on_host (log (IoCallback f v)) w1 | None => w1 end))
    as Hcb.
  { intros [f|]; [|done]. apply (inv_frame w1 _ [IoCallback f v]); try done; try set_solver. }
  destruct (readable v) eqn:Hr; [|done]. simpl.
  destruct (is_str (field v "type") "welcome") eqn:Hw.
  { apply (inv_frame w1 _ []); try done; try set_solver; [by rewrite app_nil_r|].
    intros id. unfold enqueue. simpl. rewrite elem_of_app, list_elem_of_singleton.
    intros [?|[= ->]]; [by left|right]. exists v. split_and!.
    - simpl. apply elem_of_app. right. by left.
    - unfold isWelcomeMessage. by rewrite type_is_readable, Hw.
    - by apply get_prop_readable. }
  repeat case_match; try done; apply (Hcb (Some _)).
Qed.

Lemma signaling_commit_inv w : hook_inv w → hook_inv (commit w).
Proof.
  intros [Hc Hs Hcl Hhk Hqu Hret]. unfold commit.
  set (env := flush apply_update (queue w) (hooks w)).
  assert (id_ok w (clientId env)) as Henv.
  { unfold env. revert Hhk Hqu. generalize (hooks w), (queue w). intros s q. revert s.
    induction q as [|u q IH]; intros s Hhk Hqu; [done|]. simpl. apply IH; [|set_solver].
    destruct u as [ws|id|b]; try done. intros _. apply Hqu. by left. }
  split; simpl; try done.
  - intros id Hid. by apply not_elem_of_nil in Hid.
  - intros n api [Hn|[Hn1 Hn2]]%lookup_app_Some; [by apply Hret|].
    apply list_lookup_singleton_Some in Hn2 as [Hz <-]. split.
    + assert (n = length (returned (fiber w))) as -> by lia. apply returns_ok.
      intros api Hl. rewrite last_lookup in Hl. exists (Nat.pred (length (returned (fiber w)))).
      pose proof (lookup_lt_Some _ _ _ Hl). split; [lia|]. by apply Hret.
    + exact Henv.
Qed.

(** The clean-up closes the current socket, which was not closed before. *)
Lemma closed_counts w sl ws :
  hook_inv w → slot (fiber w) = Some sl →
  occurrences (IoCloseWs ws) (io (host (closed (slot_data sl) w))) =
    if decide (ws < length (handlers (fiber w))) then 1 else 0.
Proof.
  intros Hi Hsl. simpl. rewrite occurrences_app, occurrences_one, (inv_closes _ Hi), Hsl. simpl.
  pose proof (inv_slot _ Hi) as Hs. rewrite Hsl in Hs. destruct Hs as [_ Hs].
  repeat case_decide; simplify_eq; destr_all; try lia; naive_solver lia.
Qed.

Lemma opened_inv options s w w0 :
  hook_inv w0 → (slot (fiber w0) = None ∧ w = w0 ∨
    ∃ sl, slot (fiber w0) = Some sl ∧ w = closed (slot_data sl) w0) →
  hook_inv (opened options s w).
Proof.
  intros Hi Hw.
  assert (fiber w = fiber w0 ∧ hooks w = hooks w0 ∧ queue w = queue w0 ∧
    length (sockets (host w)) = length (sockets (host w0)) ∧
    io (host w0) `prefix_of` io (host w) ∧
    ∀ ws, occurrences (IoCloseWs ws) (io (host w)) =
      if decide (ws < length (handlers (fiber w0))) then 1 else 0) as
    (Hf & Hh & Hq & Hsk & Hpre & Hcl).
  { destruct Hw as [[Hsl ->]|(sl & Hsl & ->)].
    - split_and!; try done. intros ws. rewrite (inv_closes _ Hi), Hsl. simpl.
      by repeat case_decide; naive_solver.
    - split_and!; try done; simpl.
      + by rewrite length_alter.
      + by apply prefix_app_r.
      + intros ws. by apply closed_counts. }
  assert (io (host w) `prefix_of` io (host (opened options s w))) as Hpre2 by (by apply prefix_app_r).
  assert (io (host w0) `prefix_of` io (host (opened options s w))) as Hpre' by by etrans.
  destruct Hi as [Hc _ _ Hhk Hqu Hret]. split.
  - simpl. rewrite !length_app, Hsk, Hf. simpl. by rewrite Hc.
  - simpl. split; [done|]. rewrite length_app, Hsk, Hf, Hc. simpl. lia.
  - intros ws. simpl. rewrite occurrences_app, occurrences_one, Hcl, Hsk, Hf, Hc, length_app. simpl.
    rewrite Nat.add_0_r.
    destruct (decide (ws < _)); [rewrite decide_True; [done|]|rewrite decide_False; [done|]].
    + split; [lia|]. intros [= ?]. lia.
    + intros [Hlt Hne]. apply Hne. f_equal. lia.
  - simpl. rewrite Hh. by eapply id_ok_prefix.
  - intros id. simpl. rewrite Hq, elem_of_app, list_elem_of_singleton.
    intros [Hid|?]; [|done]. eapply welcomed_prefix; eauto.
  - intros n api. simpl. rewrite Hf. intros Hn. destruct (Hret n api Hn) as [? ?].
    split; [done|]. by eapply id_ok_prefix.
Qed.

(** The effect is gone, by an unmount or a crash. *)
Lemma crashed_inv w w0 :
  hook_inv w0 → (slot (fiber w0) = None ∧ w = w0 ∨
    ∃ sl, slot (fiber w0) = Some sl ∧ w = closed (slot_data sl) w0) →
  hook_inv (crashed w).
Proof.
  intros Hi [[Hsl ->]|(sl & Hsl & ->)].
  - destruct Hi as [Hc Hs Hcl Hhk Hqu Hret]. split; simpl; try done. by rewrite Hsl in Hcl.
  - pose proof (closed_counts w0 sl) as Hcl. destruct Hi as [Hc Hs Hcl0 Hhk Hqu Hret].
    assert (io (host w0) `prefix_of` io (host (closed (slot_data sl) w0))) as Hpre
      by by apply prefix_app_r.
    split; simpl; try done.
    + by rewrite length_alter.
    + intros ws. simpl in Hcl. rewrite Hcl by done. apply decide_ext. simpl. naive_solver.
    + intros Ht. eapply welcomed_prefix; [exact Hpre|]. by apply Hhk.
    + intros id Hid. eapply welcomed_prefix; [exact Hpre|]. by apply Hqu.
    + intros n api Hn. destruct (Hret n api Hn) as [? Hid]. split; [done|]. intros Ht.
      eapply welcomed_prefix; [exact Hpre|]. by apply Hid.
Qed.

Lemma signaling_effect_inv options w : hook_inv w → hook_inv (fst (effect options w)).
Proof.
  intros Hi. rewrite signaling_effect_run. cbn [fst]. unfold before_setup.
  destruct (slot (fiber w)) as [sl|] eqn:Hsl.
  - case_decide as Hd.
    + pose proof (inv_slot _ Hi) as Hs. rewrite Hsl in Hs. destruct Hs as [Hs _].
      assert (with_fiber (set_slot Mounted (Some sl) (fiber w)) w = w) as ->; [|done].
      destruct w as [? ? ? ? []]; simpl in *. by subst.
    + destruct (newWebSocket _) as [e|s].
      * apply (crashed_inv _ w Hi). right. by exists sl.
      * apply (opened_inv _ _ _ w Hi). right. by exists sl.
  - destruct (newWebSocket _) as [e|s].
    + apply (crashed_inv _ w Hi). by left.
    + apply (opened_inv _ _ _ w Hi). by left.
Qed.

Lemma signaling_unmount_run c :
  world (unmount c) = crashed (before_setup (world c)) ∧ tasks (unmount c) = tasks c.
Proof.
  unfold unmount. rewrite dispatch_sync; unfold before_setup, crashed, env_world.
  - destruct c as [w ts]. cbn [world tasks]. erewrite bind_returned by reflexivity.
    by destruct (slot (fiber w)).
  - erewrite bind_returned by reflexivity. by destruct (slot (fiber (world c))).
Qed.

(** A handler of a socket is a change of the state. *)
Lemma on_socket_run ws m c c' :
  (∀ options, settled (snd (m options (world c))) = true) →
  on_socket ws m c = Some c' →
  ∃ options, handlers (fiber (world c)) !! ws = Some options ∧
    c' = env_world (λ w, fst (m options w)) c.
Proof.
  intros Hm. unfold on_socket. destruct (handlers _ !! ws) as [options|]; [|done].
  intros [= <-]. exists options. split; [done|]. by apply dispatch_sync.
Qed.

Lemma flag_inv b w : hook_inv w → hook_inv (enqueue [SetIsConnected b] w).
Proof.
  apply (inv_frame _ _ []); try done; try set_solver. by rewrite app_nil_r.
Qed.

Lemma signaling_step_inv e c c' : hook_inv (world c) → step e c = Some c' → hook_inv (world c').
Proof.
  intros Hc Hs. destruct e as [options| |ws|ws data|ws|ws|ws rs|n k]; simpl in Hs.
  - apply enabled_Some in Hs as [_ <-]. unfold render. rewrite dispatch_sync.
    + by apply signaling_effect_inv, signaling_commit_inv.
    + cbn [world env_world]. by rewrite signaling_effect_run.
  - apply enabled_Some in Hs as [_ <-]. destruct (signaling_unmount_run c) as [-> _]. unfold before_setup.
    destruct (slot (fiber (world c))) as [sl|] eqn:Hsl.
    + apply (crashed_inv _ (world c) Hc). right. by exists sl.
    + apply (crashed_inv _ (world c) Hc). by left.
  - apply on_socket_run in Hs as (? & _ & ->); [|done]. by apply flag_inv.
  - apply on_socket_run in Hs as (options & _ & ->).
    + cbn [world env_world]. destruct (onmessage_run options data (world c)) as (o & _ & ->).
      cbn [fst]. destruct (JSON_parse data); [done|]. by apply receive_inv.
    + intros options. by destruct (onmessage_run options data (world c)) as (o & ? & ->).
  - apply on_socket_run in Hs as (? & _ & ->); [|done]. by apply flag_inv.
  - apply on_socket_run in Hs as (? & _ & ->); [|done]. by apply flag_inv.
  - injection Hs as <-. apply (inv_frame (world c) _ []); simpl; try done; try set_solver.
    + by rewrite app_nil_r.
    + by rewrite length_alter.
  - destruct (returned (fiber (world c)) !! n) as [api|] eqn:Hn; [|done]. injection Hs as <-.
    destruct (perform_run api k (world c)) as (o & Ho & Hr). rewrite dispatch_sync by by rewrite Hr.
    cbn [world env_world]. rewrite Hr. by apply (sent_inv api k (world c) n).
Qed.

Lemma reachable_signaling c : reachable step init c → hook_inv (world c).
Proof.
  revert c. apply (reachable_ind_inv step init (λ c, hook_inv (world c)));
    [|intros; by eapply signaling_step_inv].
  split; simpl; try done; set_solver.
Qed.

(** ** What is sent *)

Definition sends (tr : list IO) : list (nat * string) :=
  omap (λ e, match e with IoSend ws text => Some (ws, text) | _ => None end) tr.

Lemma elem_of_sends ws text tr : IoSend ws text ∈ tr ↔ (ws, text) ∈ sends tr.
Proof.
  unfold sends. rewrite list_elem_of_omap. split; [by intros ?; eexists|].
  intros ([] & ? & ?); by simplify_eq.
Qed.

Lemma sends_app tr1 tr2 : sends (tr1 ++ tr2) = sends tr1 ++ sends tr2.
Proof. apply omap_app. Qed.

(** What a call of the function with the state [env] sends. *)
Lemma sent_sends env message w :
  ∃ l, sends (io (host (sent env message w))) = sends (io (host w)) ++ l ∧
    ∀ ws text, (ws, text) ∈ l →
      truthy (clientId env) = true ∧ socket env = Some ws ∧ text = full_text env message.
Proof.
  assert (∃ l, sends (io (host w)) = sends (io (host w)) ++ l ∧
    ∀ ws text, (ws, text) ∈ l →
      truthy (clientId env) = true ∧ socket env = Some ws ∧ text = full_text env message) as Hnone.
  { exists []. rewrite app_nil_r. split; [done|]. by intros ?? ?%not_elem_of_nil. }
  unfold sent. destruct (truthy _) eqn:Ht; [|done]. destruct (socket env) as [ws|]; [|done].
  destruct (readyState <$> _) as [rs|]; [|done]. destruct (ws_send rs); [done|].
  exists [(ws, full_text env message)]. split; [apply sends_app|].
  by intros ?? [= -> ->]%list_elem_of_singleton.
Qed.

(** Only the calls of the returned functions send. *)
Lemma quiet_step e c c' :
  (∀ n k, e ≠ EvCall n k) → step e c = Some c' →
  sends (io (host (world c'))) = sends (io (host (world c))).
Proof.
  intros He Hs.
  assert (∀ w, sends (io (host (before_setup w))) = sends (io (host w))) as Hb.
  { intros w. unfold before_setup. destruct (slot (fiber w)); [|done].
    simpl. by rewrite sends_app, app_nil_r. }
  assert (∀ options s w, sends (io (host (opened options s w))) = sends (io (host w))) as Ho
    by (intros; simpl; by rewrite sends_app, app_nil_r).
  assert (∀ w, sends (io (host (crashed w))) = sends (io (host w))) as Hcr by done.
  destruct e as [options| |ws|ws data|ws|ws|ws rs|n k]; simpl in Hs.
  - apply enabled_Some in Hs as [_ <-]. unfold render. rewrite dispatch_sync;
      cbn [world env_world]; rewrite signaling_effect_run; [|done]. cbn [fst].
    destruct (slot (fiber (commit (world c)))); [case_decide; [done|]|];
      destruct (newWebSocket _); first [rewrite Ho|rewrite Hcr]; rewrite ?Hb; done.
  - apply enabled_Some in Hs as [_ <-]. destruct (signaling_unmount_run c) as [-> _]. apply Hb.
  - by apply on_socket_run in Hs as (? & _ & ->).
  - apply on_socket_run in Hs as (options & _ & ->);
      [|intros options; by destruct (onmessage_run options data (world c)) as (o & ? & ->)].
    cbn [world env_world]. destruct (onmessage_run options data (world c)) as (o & _ & ->).
    cbn [fst]. destruct (JSON_parse data) as [|v]; [done|]. unfold receive.
    repeat case_match; simpl; by rewrite ?sends_app, ?app_nil_r.
  - by apply on_socket_run in Hs as (? & _ & ->).
  - by apply on_socket_run in Hs as (? & _ & ->).
  - by injection Hs as <-.
  - by destruct (He n k).
Qed.

(** A call of a function a render returned, by the state of that render. *)
Lemma call_step n k c c' :
  reachable step init c → step (EvCall n k) c = Some c' →
  ∃ api, returned (fiber (world c)) !! n = Some api ∧
    world c' = sent (api_state api) (message_of k) (world c).
Proof.
  intros Hc Hs. pose proof (reachable_signaling c Hc) as Hi. simpl in Hs.
  destruct (returned (fiber (world c)) !! n) as [api|] eqn:Hn; [|done]. injection Hs as <-.
  exists api. split; [done|]. destruct (perform_run api k (world c)) as (o & Ho & Hr).
  rewrite dispatch_sync by by rewrite Hr. cbn [world env_world]. rewrite Hr.
  by apply (sent_inv api k (world c) n).
Qed.

(** The call that sent [text] on [ws], the [n]-th of the run. *)
Definition sent_by_call (es : list Event) (ws : nat) (text : string) : Prop :=
  ∃ before n k later c api, es = before ++ EvCall n k :: later ∧
    run step before init = Some c ∧ returned (fiber (world c)) !! n = Some api ∧
    socket (api_state api) = Some ws ∧ truthy (clientId (api_state api)) = true ∧
    welcomed (io (host (world c))) (clientId (api_state api)) ∧
    text = JSON_stringify (obj_spread [("from", clientId (api_state api))] (message_of k)).

Lemma sent_by_call_more es e ws text : sent_by_call es ws text → sent_by_call (es ++ [e]) ws text.
Proof.
  intros (before & n & k & later & c & api & -> & H). exists before, n, k, (later ++ [e]), c, api.
  split; [by rewrite <-app_assoc|done].
Qed.

(** ** Properties *)

(** C20: Every socket the hook opened is closed exactly once, when the effect runs
    again or the component is unmounted; only the socket of the last run is
    open for the hook. *)
Theorem sockets_closed_exactly_once c ws :
  reachable step init c →
  occurrences (IoCloseWs ws) (io (host (world c))) =
    if decide (ws < length (sockets (host (world c))) ∧ slot_data <$> slot (fiber (world c)) ≠ Some ws)
    then 1 else 0.
Proof.
  intros Hc. pose proof (reachable_signaling c Hc) as Hi. rewrite (inv_sockets _ Hi). apply (inv_closes _ Hi).
Qed.

(** C21: A function a render returned sends through the socket and with the id of that
    very render, however the functions were memoized: a call of it sends
    [from] and the message's fields when the id is assigned and the socket
    takes it, and does nothing otherwise. *)
Theorem calls_use_own_render n k c c' :
  reachable step init c → step (EvCall n k) c = Some c' →
  ∃ api, returned (fiber (world c)) !! n = Some api ∧
    world c' = sent (api_state api) (message_of k) (world c).
Proof. apply call_step. Qed.

(** C23: Every text sent through the hook was sent by a call of a function a render
    returned, on the socket of that render: its fields are [from], with the id
    of that render, truthy and assigned by a welcome before the call, and then
    the fields of the message of exactly this call. *)
Theorem sent_with_assigned_id es c ws text :
  run step es init = Some c → IoSend ws text ∈ io (host (world c)) → sent_by_call es ws text.
Proof.
  revert c. induction es as [|e es IH] using rev_ind; intros c Hr Hin.
  { simpl in Hr. simplify_eq. by apply not_elem_of_nil in Hin. }
  rewrite run_app in Hr. destruct (run step es init) as [c0|] eqn:Hr0; [|done]. simpl in Hr.
  destruct (step e c0) as [c1|] eqn:Hs; [|done]. simpl in Hr. simplify_eq.
  apply elem_of_sends in Hin.
  assert ((ws, text) ∈ sends (io (host (world c0))) → sent_by_call (es ++ [e]) ws text) as Hold.
  { intros Hin'. apply sent_by_call_more, (IH c0); [done|]. by apply elem_of_sends. }
  assert ((∃ n k, e = EvCall n k) ∨ ∀ n k, e ≠ EvCall n k) as [(n & k & ->)|He]
    by (destruct e; naive_solver).
  - assert (reachable step init c0) as Hc0 by (eapply run_reachable; [apply reach_init|done]).
    destruct (call_step n k c0 c Hc0 Hs) as (api & Hn & Hw). rewrite Hw in Hin.
    destruct (sent_sends (api_state api) (message_of k) (world c0)) as (l & Hl & Hcase).
    rewrite Hl, elem_of_app in Hin. destruct Hin as [Hin|Hin]; [by apply Hold|].
    destruct (Hcase ws text Hin) as (Ht & Hsock & ->).
    destruct (inv_returned _ (reachable_signaling c0 Hc0) n api Hn) as [_ Hid].
    exists es, n, k, [], c0, api. split_and!; [done..| |done]. by apply Hid.
  - rewrite (quiet_step e c0 c) in Hin by done. by apply Hold.
Qed.

(** C22: A message on a socket, also on one that was replaced, reaches exactly the
    callback for its type among the options of the render that opened the
    socket; a welcome sets the id; text that is no JSON, and the values and
    types the protocol does not have, do nothing. *)
Theorem message_routing ws data c c' :
  step (EvMessage ws data) c = Some c' →
  ∃ options, handlers (fiber (world c)) !! ws = Some options ∧
    world c' = match JSON_parse data with
               | inr v => receive options v (world c)
               | inl _ => world c
               end.
Proof.
  intros Hs. simpl in Hs. apply on_socket_run in Hs as (options & Hh & ->).
  - exists options. split; [done|]. cbn [world env_world].
    by destruct (onmessage_run options data (world c)) as (o & _ & ->).
  - intros options. by destruct (onmessage_run options data (world c)) as (o & ? & ->).
Qed.

(** The close event of a replaced socket makes the hook report that it is not
    connected, although the current socket is untouched. *)
Theorem stale_close_disconnects ws c c' :
  reachable step init c → step (EvClose ws) c = Some c' →
  slot_data <$> slot (fiber (world c)) ≠ Some ws →
  isConnected (flush apply_update (queue (world c')) (hooks (world c'))) = false ∧
  fiber (world c') = fiber (world c) ∧ sockets (host (world c')) = sockets (host (world c)).
Proof.
  intros Hc Hs Hne. simpl in Hs. apply on_socket_run in Hs as (? & _ & ->); [|done].
  split; [|done].
  change (isConnected (flush apply_update (queue (world c) ++ [SetIsConnected false])
    (hooks (world c))) = false). by rewrite flush_app.
Qed.

Lemma reconnect_from opts c :
  (∀ u, is_Some (match newWebSocket u with inr s => Some s | inl _ => None end)) →
  phase (fiber (world c)) ≠ Unmounted →
  (∀ o, head opts = Some o → slot_deps <$> slot (fiber (world c)) ≠ Some (deps o)) →
  (∀ i a b, opts !! i = Some a → opts !! S i = Some b → deps a ≠ deps b) →
  ∃ c', run step (EvRender <$> opts) c = Some c' ∧
    length (sockets (host (world c'))) = length (sockets (host (world c))) + length opts ∧
    (opts ≠ [] → queue (world c') ≠ []).
Proof.
  intros Hnew. revert c. induction opts as [|o opts IH]; intros c Hp Hd Hadj.
  { exists c. split_and!; [done|simpl; lia|done]. }
  assert (∃ s, newWebSocket (wsUrl envUrl window o) = inr s) as [s Hs].
  { destruct (Hnew (wsUrl envUrl window o)) as [x Hx]. destruct (newWebSocket _); naive_solver. }
  assert (∃ c1, step (EvRender o) c = Some c1 ∧ phase (fiber (world c1)) = Mounted ∧
    slot_deps <$> slot (fiber (world c1)) = Some (deps o) ∧ queue (world c1) ≠ [] ∧
    length (sockets (host (world c1))) = S (length (sockets (host (world c))))) as
    (c1 & Hst & Hp1 & Hd1 & Hq1 & Hl1).
  { eexists. split; [simpl; apply enabled_Some; split; [by apply bool_decide_eq_true|done]|].
    unfold render. rewrite dispatch_sync by (cbn [world env_world]; by rewrite signaling_effect_run).
    cbn [world env_world]. rewrite signaling_effect_run. cbn [fst commit with_fiber fiber slot add_returned].
    specialize (Hd o eq_refl). rewrite Hs. unfold before_setup.
    destruct (slot (fiber (world c))) as [sl|] eqn:Hsl.
    - rewrite decide_False by (intros Heq; apply Hd; simpl; by rewrite Heq).
      simpl. rewrite Hsl. simpl.
      rewrite length_app, length_alter. simpl. split_and!; [done..|lia].
    - simpl. rewrite length_app. simpl. split_and!; [done..|lia]. }
  destruct (IH c1) as (c2 & Hr & Hl & Hq).
  - by rewrite Hp1.
  - intros o' Ho'. rewrite Hd1. intros Heq%(inj Some). destruct opts as [|o2 opts]; [done|].
    simpl in Ho'. injection Ho' as ->. by apply (Hadj 0 o o').
  - intros i a b Ha Hb. by apply (Hadj (S i) a b).
  - exists c2. change (run step (EvRender <$> o :: opts) c) with
      (step (EvRender o) c ≫= run step (EvRender <$> opts)).
    rewrite Hst. simpl. split_and!; [done|lia|]. intros _.
    destruct opts; [simpl in Hr; by simplify_eq|by apply Hq].
Qed.

(** Callbacks that are new functions in every render make the hook open a new
    connection in every render, and every such render queues a state update,
    which asks for the next one. *)
Theorem unstable_callbacks_reconnect opts :
  (∀ u, is_Some (match newWebSocket u with inr s => Some s | inl _ => None end)) →
  (∀ i a b, opts !! i = Some a → opts !! S i = Some b → deps a ≠ deps b) →
  ∃ c, run step (EvRender <$> opts) init = Some c ∧
    length (sockets (host (world c))) = length opts ∧ (opts ≠ [] → queue (world c) ≠ []).
Proof. intros Hnew Hadj. by apply reconnect_from. Qed.
End Properties.

(** ** Examples *)

#[local] Existing Instance RefBrowser.

(** The options of a caller that writes its callbacks inline: new identities in
    every render. *)
Definition ex_inline (n : nat) : UseSignalingOptions :=
  mkOptions (Some "wss://host/ws") (Some (2 * n)) None (Some (2 * n + 1)).

Local Abbreviation ex_step := (step None None).

Definition ex_text (m : SignalingMessage) : string := print (encode m).

(** Connected as alice, then re-rendered with new callbacks. *)
Definition ex_connected : list Event :=
  [EvRender (ex_inline 0); EvReadyState 0 WS_OPEN; EvOpen 0; EvMessage 0 (ex_text (WelcomeMessage "alice"));
   EvRender (ex_inline 0)].
Definition ex_reconnected : list Event :=
  ex_connected ++ [EvRender (ex_inline 1); EvReadyState 1 WS_OPEN; EvOpen 1; EvRender (ex_inline 1)].

Definition ex_candidate_call : Call := CallSendCandidate "bob" (JStr "c").

Lemma sockets_closed_exactly_once_witness :
  occurrences (IoCloseWs 0) (io (host (world (final ex_step init ex_reconnected)))) = 1.
Proof.
  etrans; [apply (sockets_closed_exactly_once None None (final ex_step init ex_reconnected) 0);
    by_run|by_run].
Defined.

Lemma calls_use_own_render_witness :
  ∃ api, returned (fiber (world (final ex_step init ex_connected))) !! 1 = Some api ∧
    world (next ex_step (EvCall 1 ex_candidate_call) (final ex_step init ex_connected)) =
      sent (api_state api) (message_of ex_candidate_call) (world (final ex_step init ex_connected)).
Proof.
  apply (calls_use_own_render None None 1 ex_candidate_call (final ex_step init ex_connected)
    (next ex_step (EvCall 1 ex_candidate_call) (final ex_step init ex_connected))); by_run.
Defined.

Definition ex_sent : list Event := ex_connected ++ [EvCall 1 ex_candidate_call].

Lemma sent_with_assigned_id_witness :
  sent_by_call None None ex_sent 0
    (stringify [("from", JStr "alice"); ("to", JStr "bob"); ("candidate", JStr "c");
                ("type", JStr "candidate")]).
Proof.
  apply (sent_with_assigned_id None None ex_sent (final ex_step init ex_sent)).
  - apply run_final. by_run.
  - refine (proj1 (bool_decide_eq_true _) _). by_run.
Defined.

Lemma message_routing_witness :
  let data := ex_text (SDPOfferMessage "bob" "alice" (JStr "sdp")) in
  let c := final ex_step init ex_reconnected in
  ∃ options, handlers (fiber (world c)) !! 0 = Some options ∧
    world (next ex_step (EvMessage 0 data) c) =
      match JSON_parse data with
      | inr v => receive options v (world c)
      | inl _ => world c
      end.
Proof.
  apply (message_routing None None 0 (ex_text (SDPOfferMessage "bob" "alice" (JStr "sdp")))
    (final ex_step init ex_reconnected)
    (next ex_step (EvMessage 0 (ex_text (SDPOfferMessage "bob" "alice" (JStr "sdp"))))
       (final ex_step init ex_reconnected))).
  by_run.
Defined.

(** The new socket is open, yet the old one's close event wins. *)
Lemma stale_close_disconnects_witness :
  let c := final ex_step init ex_reconnected in
  let c' := next ex_step (EvClose 0) c in
  isConnected (hooks (world c)) = true ∧
  readyState <$> sockets (host (world c')) !! 1 = Some WS_OPEN ∧
  isConnected (flush apply_update (queue (world c')) (hooks (world c'))) = false.
Proof.
  split_and!; [by_run|by_run|].
  apply (stale_close_disconnects None None 0 (final ex_step init ex_reconnected)
    (next ex_step (EvClose 0) (final ex_step init ex_reconnected))); [by_run|by_run|].
  refine (proj1 (bool_decide_eq_true _) _). by_run.
Defined.

Lemma unstable_callbacks_reconnect_witness :
  ∃ c, run ex_step (EvRender <$> [ex_inline 0; ex_inline 1; ex_inline 2]) init = Some c ∧
    length (sockets (host (world c))) = 3 ∧
    ([ex_inline 0; ex_inline 1; ex_inline 2] ≠ [] → queue (world c) ≠ []).
Proof.
  apply (unstable_callbacks_reconnect None None [ex_inline 0; ex_inline 1; ex_inline 2]).
  - intros u. by eexists.
  - intros [|[|[|i]]] a b Ha Hb; simplify_eq/=; done.
Defined.
