(* ===== verification/UseWebRTC.v ===== *)
(** * The hook [hooks/useWebRTC.ts]

    Each run of the effect creates a peer connection whose handlers captured
    the options of that render.  The async functions a render returns read the
    current connection from a ref, and [localStream] and [isNegotiating] from
    their closure. *)
From S2P Require Import Prelude JsValue WebrtcConstants SignalingTypes Async Browser React WebrtcHelpers.

(** ** State *)

(** A ref object and a callback are known by their identity. *)
Record UseWebRTCOptions := mkOptions {
  localStream : option MediaStream;
  remoteVideoRef : option nat;
  onIceCandidate : option nat;
  onConnectionStateChange : option nat;
}.

Record State := mkState { connectionState : string; isNegotiating : bool }.

Definition initState : State := mkState "new" false.

Inductive Update :=
| SetConnectionState (s : string)
| SetIsNegotiating (b : bool).

Definition apply_update (u : Update) (s : State) : State :=
  match u with
  | SetConnectionState x => mkState x (isNegotiating s)
  | SetIsNegotiating b => mkState (connectionState s) b
  end.

(** [current] is the element each ref object of the caller holds. *)
Record Refs := mkRefs { peerConnectionRef : option nat; current : gmap nat string }.

(** What a render returned; its functions captured the state and the options. *)
Record UseWebRTCReturn := mkReturn {
  peerConnection : option nat;
  api_state : State;
  api_options : UseWebRTCOptions;
}.

Record Fiber := mkFiber {
  phase : Phase;
  slot : option (Slot nat);
  handlers : list UseWebRTCOptions;
  returned : list UseWebRTCReturn;
}.

Definition set_slot (p : Phase) (s : option (Slot nat)) (f : Fiber) : Fiber :=
  mkFiber p s (handlers f) (returned f).
Definition add_handlers (o : UseWebRTCOptions) (f : Fiber) : Fiber :=
  mkFiber (phase f) (slot f) (handlers f ++ [o]) (returned f).
Definition add_returned (r : UseWebRTCReturn) (f : Fiber) : Fiber :=
  mkFiber (phase f) (slot f) (handlers f) (returned f ++ [r]).

(** What the async functions resolve with. *)
Inductive Result :=
| Description (d : option jsval)
| Void.

Section UseWebRTC.
Context {B : BrowserAPI}.
Local Abbreviation W := (World Refs State Update Fiber).
Local Abbreviation M := (@JS W thrown Request Reply).
Local Abbreviation Hook := (Config Refs State Update Fiber Result).

(** ** The handlers of a connection *)

Definition call (callback : option nat) (arg : jsval) : M unit :=
  when_some callback (λ f, emit (IoCallback f arg)).

(** [pc.onicecandidate]; [None] is the end of the gathering. *)
Definition onicecandidate (options : UseWebRTCOptions) (candidate : option jsval) : M unit :=
  when_some candidate (λ c, call (onIceCandidate options) c).

Definition oniceconnectionstatechange (options : UseWebRTCOptions) (iceConnectionState : string)
    : M unit :=
  setState (SetConnectionState iceConnectionState) ;;
  call (onConnectionStateChange options) (JStr iceConnectionState).

(** [pc.ontrack], with [event.streams[0]] *)
Definition ontrack (options : UseWebRTCOptions) (remoteStream : option MediaStream) : M unit :=
  remoteVideoElement <- ref (λ r, x ← remoteVideoRef options; current r !! x) ;;
  when_some remoteVideoElement (λ el,
    when_some remoteStream (λ s, emit (IoSrcObject el s))).

Definition onsignalingstatechange (currentState : string) : M unit :=
  if bool_decide (currentState = STABLE SIGNALING_STATES) then setState (SetIsNegotiating false)
  else ret tt.

(** ** The effect *)

Definition set_fiber (f : Fiber → Fiber) : M unit := modify (λ w, with_fiber (f (fiber w)) w).

Definition setup (options : UseWebRTCOptions) : M nat :=
  pc <- new_RTCPeerConnection RTC_CONFIGURATION ;;
  set_ref (λ r, mkRefs (Some pc) (current r)) ;;
  set_fiber (add_handlers options) ;;
  ret pc.

Definition cleanup (pc : nat) : M unit := close_pc pc.

Definition deps (options : UseWebRTCOptions) : list dep :=
  [dep_ref JUndef (remoteVideoRef options); dep_ref JUndef (onIceCandidate options);
   dep_ref JUndef (onConnectionStateChange options)].

Definition effect (options : UseWebRTCOptions) : M unit :=
  old <- gets (λ w, slot (fiber w)) ;;
  new <- run_effect old (deps options) (setup options) cleanup ;;
  set_fiber (set_slot Mounted (Some new)).

(** ** The functions of a render *)

(** The part of [createOffer] inside [try]. *)
Definition createOffer_body (pc : nat) (stream : MediaStream) : M (option jsval) :=
  setState (SetIsNegotiating true) ;;
  hasTracks <- hasTracksAdded pc ;;
  (if negb hasTracks then addTracksToConnection pc stream else ret tt) ;;
  offer <- request (CreateOffer pc) ;;
  request (SetLocalDescription pc offer) ;;
  ret (Some offer).

Definition createOffer (env : State) (options : UseWebRTCOptions) : M (option jsval) :=
  pc <- ref peerConnectionRef ;;
  match pc, localStream options with
  | Some pc, Some stream =>
      if isNegotiating env then ret None
      else try_catch (createOffer_body pc stream)
             (λ _, setState (SetIsNegotiating false) ;; ret None)
  | _, _ => ret None
  end.

(** The part of [handleOffer] inside [try]. *)
Definition handleOffer_body (options : UseWebRTCOptions) (offer : jsval) (pc : nat)
    : M (option jsval) :=
  sdp <- may_throw (get_prop offer "sdp") ;;
  setState (SetIsNegotiating true) ;;
  (match localStream options with
   | Some stream =>
       hasTracks <- hasTracksAdded pc ;;
       if negb hasTracks then addTracksToConnection pc stream else ret tt
   | None => ret tt
   end) ;;
  description <- may_throw (newRTCSessionDescription sdp) ;;
  request (SetRemoteDescription pc description) ;;
  answer <- request (CreateAnswer pc) ;;
  request (SetLocalDescription pc answer) ;;
  ret (Some answer).

Definition handleOffer (options : UseWebRTCOptions) (offer : jsval) : M (option jsval) :=
  pc <- ref peerConnectionRef ;;
  match pc with
  | Some pc =>
      try_catch (handleOffer_body options offer pc)
        (λ _, setState (SetIsNegotiating false) ;; ret None)
  | None => ret None
  end.

Definition handleAnswer (answer : jsval) : M unit :=
  pc <- ref peerConnectionRef ;;
  when_some pc (λ pc,
    try_catch
      (sdp <- may_throw (get_prop answer "sdp") ;;
       description <- may_throw (newRTCSessionDescription sdp) ;;
       request (SetRemoteDescription pc description))
      (λ _, ret tt)).

Definition addIceCandidate (candidate : jsval) : M unit :=
  pc <- ref peerConnectionRef ;;
  when_some pc (λ pc,
    try_catch
      (c <- may_throw (newRTCIceCandidate candidate) ;;
       request (AddIceCandidate pc c))
      (λ _, ret tt)).

(** ** The component that uses the hook *)

(** The calls of a function a render returned. *)
Inductive Call :=
| CallCreateOffer
| CallHandleOffer (offer : jsval)
| CallHandleAnswer (answer : jsval)
| CallAddIceCandidate (candidate : jsval).

Definition perform (api : UseWebRTCReturn) (k : Call) : M Result :=
  match k with
  | CallCreateOffer =>
      d <- createOffer (api_state api) (api_options api) ;; ret (Description d)
  | CallHandleOffer offer => d <- handleOffer (api_options api) offer ;; ret (Description d)
  | CallHandleAnswer answer => handleAnswer answer ;; ret Void
  | CallAddIceCandidate candidate => addIceCandidate candidate ;; ret Void
  end.

Inductive Event :=
| EvRender (options : UseWebRTCOptions)
| EvUnmount
| EvIceCandidate (pc : nat) (candidate : option jsval)
| EvIceConnectionState (pc : nat) (s : string)
| EvTrack (pc : nat) (s : option MediaStream)
| EvSignalingState (pc : nat) (s : string)
| EvPeer (pc : nat) (p : PC)
| EvCurrent (r : nat) (element : option string)
| EvCall (n : nat) (k : Call)
| EvSettle (i : nat) (f : Answer).

(** A render returns the connection the ref holds before the effect runs. *)
Definition commit (options : UseWebRTCOptions) (w : W) : W :=
  let env := flush apply_update (queue w) (hooks w) in
  with_fiber (add_returned (mkReturn (peerConnectionRef (refs w)) env options) (fiber w))
    (with_queue [] (with_hooks env w)).

Definition render (options : UseWebRTCOptions) (c : Hook) : Hook :=
  dispatch (sync_handler (effect options)) (env_world (commit options) c).

Definition unmount (c : Hook) : Hook :=
  dispatch (sync_handler
    (old <- gets (λ w, slot (fiber w)) ;;
     when_some old (λ sl, cleanup (slot_data sl)) ;;
     set_fiber (set_slot Unmounted None))) c.

(** A handler of the connection [pc], when it exists. *)
Definition on_connection (pc : nat) (m : UseWebRTCOptions → M unit) (c : Hook) : option Hook :=
  options ← handlers (fiber (world c)) !! pc;
  Some (dispatch (sync_handler (m options)) c).

Definition step (e : Event) (c : Hook) : option Hook :=
  match e with
  | EvRender options =>
      enabled (bool_decide (phase (fiber (world c)) ≠ Unmounted)) (render options c)
  | EvUnmount => enabled (bool_decide (phase (fiber (world c)) = Mounted)) (unmount c)
  | EvIceCandidate pc cand => on_connection pc (λ o, onicecandidate o cand) c
  | EvIceConnectionState pc s => on_connection pc (λ o, oniceconnectionstatechange o s) c
  | EvTrack pc s => on_connection pc (λ o, ontrack o s) c
  | EvSignalingState pc s => on_connection pc (λ _, onsignalingstatechange s) c
  | EvPeer pc p =>
      Some (env_world (on_host (λ h, with_peers (<[pc := p]> (peers h)) h)) c)
  | EvCurrent r el =>
      Some (env_world (on_refs (λ x,
        mkRefs (peerConnectionRef x) (partial_alter (λ _, el) r (current x)))) c)
  | EvCall n k =>
      api ← returned (fiber (world c)) !! n;
      Some (dispatch (async_handler (perform api k)) c)
  | EvSettle i f => settle i f c
  end.

Definition init : Hook :=
  mkConfig (mkWorld emptyHost (mkRefs None ∅) initState [] (mkFiber Fresh None [] [])) [].
End UseWebRTC.
