(* ===== verification/UseWebRTCProperties.v ===== *)
(** * Properties of [useWebRTC]

    The protocol of the async functions from any interleaving, and the life of
    the connections the effect creates. *)
From S2P Require Import Prelude JsValue WebrtcConstants SignalingTypes Async Browser ReferenceBrowser React WebrtcHelpers UseWebRTC.

Section Properties.
Context {B : BrowserAPI}.
Local Abbreviation W := (World Refs State Update Fiber).
Local Abbreviation M := (@JS W thrown Request Reply).
Local Abbreviation Out := (@Outcome W thrown Request Reply).
Local Abbreviation Hook := (Config Refs State Update Fiber Result).
Implicit Types (w : W) (c : Hook) (options : UseWebRTCOptions).

(** ** The offer *)

(** How a failed negotiation ends: the flag is reset and the caller gets
    [null]. *)
Definition failed w : W * Out (option jsval) :=
  (enqueue [SetIsNegotiating false] w, Returned None).

(** What each settlement of the awaits of [createOffer] leads to, from any
    state the page is in by then. *)
Definition after_setLocal (d : jsval) (k : thrown + unit → W → W * Out (option jsval)) : Prop :=
  ∀ w, (∀ e, k (inl e) w = failed w) ∧ k (inr tt) w = (w, Returned (Some d)).

(** [createOffer] or [createAnswer] was asked for the description [k] waits for. *)
Definition after_create pc (k : thrown + jsval → W → W * Out (option jsval)) : Prop :=
  ∀ w, (∀ e, k (inl e) w = failed w) ∧
    ∀ d, ∃ k', after_setLocal d k' ∧
      k (inr d) w =
        (on_host (log (IoRequest (SetLocalDescription pc d))) w,
         Awaiting (SetLocalDescription pc d) k').

Local Abbreviation on_error := (λ _ : thrown, setState (SetIsNegotiating false) ;; ret None).

Lemma set_local_run pc d w :
  ∃ k, after_setLocal d k ∧
    try_catch (request (SetLocalDescription pc d) ;; ret (Some d)) on_error w =
      (on_host (log (IoRequest (SetLocalDescription pc d))) w,
       Awaiting (SetLocalDescription pc d) k).
Proof.
  destruct (catch_request (SetLocalDescription pc d) (λ _, ret (Some d)) on_error w) as (k & Hk & ->).
  exists k. split; [|done]. intros w1. split; [intros e|]; by rewrite Hk.
Qed.

Lemma create_offer_run pc w :
  ∃ k, after_create pc k ∧
    try_catch (offer <- request (CreateOffer pc) ;;
               request (SetLocalDescription pc offer) ;; ret (Some offer)) on_error w =
      (on_host (log (IoRequest (CreateOffer pc))) w, Awaiting (CreateOffer pc) k).
Proof.
  destruct (catch_request (CreateOffer pc)
    (λ d, request (SetLocalDescription pc d) ;; ret (Some d)) on_error w) as (k & Hk & ->).
  exists k. split; [|done]. intros w1. split; [intros e; by rewrite Hk|]. intros d. rewrite Hk.
  apply set_local_run.
Qed.

Lemma create_answer_run pc w :
  ∃ k, after_create pc k ∧
    try_catch (answer <- request (CreateAnswer pc) ;;
               request (SetLocalDescription pc answer) ;; ret (Some answer)) on_error w =
      (on_host (log (IoRequest (CreateAnswer pc))) w, Awaiting (CreateAnswer pc) k).
Proof.
  destruct (catch_request (CreateAnswer pc)
    (λ d, request (SetLocalDescription pc d) ;; ret (Some d)) on_error w) as (k & Hk & ->).
  exists k. split; [|done]. intros w1. split; [intros e; by rewrite Hk|]. intros d. rewrite Hk.
  apply set_local_run.
Qed.

(** C17: A call of [createOffer], on every branch.  It gives [null] without a
    connection or a stream, and when its render was negotiating.  Otherwise it
    queues the flag, adds the tracks unless the connection has senders, and
    resolves with the offer once that is the local description; a track that
    cannot be added and a rejected promise reset the flag and give [null]. *)
Theorem createOffer_protocol env options w :
  match peerConnectionRef (refs w), localStream options with
  | Some pc, Some stream =>
      if isNegotiating env then createOffer env options w = (w, Returned None)
      else
        let r := ensure_tracks pc stream (enqueue [SetIsNegotiating true] w) in
        match snd r with
        | Threw _ => createOffer env options w = failed (fst r)
        | Returned _ => ∃ k, after_create pc k ∧
            createOffer env options w =
              (on_host (log (IoRequest (CreateOffer pc))) (fst r), Awaiting (CreateOffer pc) k)
        | Awaiting _ _ => False
        end
  | _, _ => createOffer env options w = (w, Returned None)
  end.
Proof.
  unfold createOffer. erewrite bind_returned by reflexivity.
  destruct (peerConnectionRef (refs w)) as [pc|]; [|done].
  destruct (localStream options) as [stream|]; [|done]. destruct (isNegotiating env); [done|].
  cbv zeta. set (w1 := enqueue [SetIsNegotiating true] w).
  unfold createOffer_body. erewrite try_returned by reflexivity. fold w1.
  erewrite try_returned by apply hasTracksAdded_run.
  assert (∀ m : M unit, m w1 = ensure_tracks pc stream w1 →
    match snd (ensure_tracks pc stream w1) with
    | Returned _ => ∃ k, after_create pc k ∧
        try_catch (m ;; offer <- request (CreateOffer pc) ;;
          request (SetLocalDescription pc offer) ;; ret (Some offer)) on_error w1 =
          (on_host (log (IoRequest (CreateOffer pc))) (fst (ensure_tracks pc stream w1)),
           Awaiting (CreateOffer pc) k)
    | Threw _ =>
        try_catch (m ;; offer <- request (CreateOffer pc) ;;
          request (SetLocalDescription pc offer) ;; ret (Some offer)) on_error w1 =
          failed (fst (ensure_tracks pc stream w1))
    | Awaiting _ _ => False
    end) as Hm.
  { intros m Hm. destruct (ensure_tracks_run pc stream w1) as (ts & ps & o & Heq & [->|[e ->]]);
      rewrite Heq in *; cbn [fst snd].
    - erewrite try_returned by exact Hm. apply create_offer_run.
    - by erewrite try_threw by exact Hm. }
  apply Hm. unfold ensure_tracks. case_bool_decide; case_decide; done.
Qed.

(** What each settlement of the first await of [handleOffer] leads to. *)
Definition after_setRemote pc (k : thrown + unit → W → W * Out (option jsval)) : Prop :=
  ∀ w, (∀ e, k (inl e) w = failed w) ∧
    ∃ k', after_create pc k' ∧
      k (inr tt) w = (on_host (log (IoRequest (CreateAnswer pc))) w, Awaiting (CreateAnswer pc) k').

(** C18: A call of [handleOffer], on every branch: the tracks are added before the
    remote description is set, the answer is created after that and is the
    result once it is the local description; every failure resets the flag and
    gives [null]. *)
Theorem handleOffer_protocol options offer w :
  match peerConnectionRef (refs w), get_prop offer "sdp" with
  | None, _ => handleOffer options offer w = (w, Returned None)
  | Some _, inl _ => handleOffer options offer w = failed w
  | Some pc, inr sdp =>
      let r := add_local_tracks (localStream options) pc (enqueue [SetIsNegotiating true] w) in
      match snd r, newRTCSessionDescription sdp with
      | Returned _, inr d => ∃ k, after_setRemote pc k ∧
          handleOffer options offer w =
            (on_host (log (IoRequest (SetRemoteDescription pc d))) (fst r),
             Awaiting (SetRemoteDescription pc d) k)
      | Awaiting _ _, _ => False
      | _, _ => handleOffer options offer w = failed (fst r)
      end
  end.
Proof.
  unfold handleOffer. erewrite bind_returned by reflexivity.
  destruct (peerConnectionRef (refs w)) as [pc|]; [|done]. unfold handleOffer_body.
  destruct (get_prop offer "sdp") as [e|sdp] eqn:Hsdp.
  { by erewrite try_threw by reflexivity. }
  erewrite try_returned by reflexivity.
  erewrite try_returned by reflexivity. fold (enqueue [SetIsNegotiating true] w).
  cbv zeta. set (w1 := enqueue [SetIsNegotiating true] w).
  set (m := match localStream options with Some _ => _ | None => _ end).
  assert (m w1 = add_local_tracks (localStream options) pc w1) as Hm.
  { unfold m, add_local_tracks. destruct (localStream options); [apply ensure_tracks_eq|done]. }
  clearbody m. pose proof (add_local_tracks_run (localStream options) pc w1) as Hr.
  destruct (add_local_tracks (localStream options) pc w1) as [w2 o]. cbn [fst snd] in *.
  destruct Hr as [->|[e ->]]; [|by erewrite try_threw by exact Hm].
  erewrite try_returned by exact Hm.
  destruct (newRTCSessionDescription sdp) as [e|d]; [by erewrite try_threw by reflexivity|].
  erewrite try_returned by reflexivity. cbv beta.
  destruct (catch_request (SetRemoteDescription pc d) (λ _, answer <- request (CreateAnswer pc) ;;
    request (SetLocalDescription pc answer) ;; ret (Some answer)) on_error w2) as (k & Hk & Hrun).
  exists k. split; [|exact Hrun]. intros w3. split; [intros e; by rewrite Hk|]. rewrite Hk.
  apply create_answer_run.
Qed.

(** ** The life of the connections *)

Record hook_inv w : Prop := {
  inv_peers : length (peers (host w)) = length (handlers (fiber w));
  inv_slot : match slot (fiber w) with
             | Some sl => phase (fiber w) = Mounted ∧ S (slot_data sl) = length (handlers (fiber w))
             | None => phase (fiber w) ≠ Mounted
             end;
  inv_ref : peerConnectionRef (refs w) =
    match length (handlers (fiber w)) with 0 => None | S n => Some n end;
  inv_closes pc :
    occurrences (IoClosePC pc) (io (host w)) =
      if decide (pc < length (handlers (fiber w)) ∧ slot_data <$> slot (fiber w) ≠ Some pc)
      then 1 else 0;
}.

(** What the functions and handlers do not touch. *)
Record quiet w w' : Prop := {
  quiet_fiber : fiber w' = fiber w;
  quiet_ref : peerConnectionRef (refs w') = peerConnectionRef (refs w);
  quiet_peers : length (peers (host w')) = length (peers (host w));
  quiet_closes pc :
    occurrences (IoClosePC pc) (io (host w')) = occurrences (IoClosePC pc) (io (host w));
}.

#[local] Instance quiet_preorder : PreOrder quiet.
Proof.
  split; [by split|]. intros w1 w2 w3 [] []. split; try congruence.
Qed.

#[local] Instance quiet_rely_guarantee : RelyGuarantee anything quiet.
Proof. apply anything_guarantee. apply _. Qed.

Lemma webrtc_quiet_inv w w' : quiet w w' → hook_inv w → hook_inv w'.
Proof.
  intros [Hf Hr Hp Hc] [Hi1 Hi2 Hi3 Hi4]. split; rewrite ?Hf, ?Hr, ?Hp; try done.
  intros pc. by rewrite Hc.
Qed.

Local Abbreviation safe := (@safe W thrown Request Reply hook_inv anything quiet _).

Definition closes_nothing (e : IO) : bool :=
  match e with IoClosePC _ => false | _ => true end.

Lemma quiet_modify (f : W → W) : (∀ w, quiet w (f w)) → safe (modify f).
Proof. intros Hf. apply safe_modify. intros w Hi. eauto using webrtc_quiet_inv. Qed.

Lemma safe_setState u : safe (setState u).
Proof. by apply quiet_modify. Qed.

Lemma safe_emit e : closes_nothing e = true → safe (emit e).
Proof.
  intros He. apply quiet_modify. intros w. split; try done. intros pc. simpl.
  rewrite occurrences_app, occurrences_one, decide_False; [lia|]. by intros <-.
Qed.

Lemma safe_request r : safe (request r).
Proof. apply safe_bind; [apply _|by apply safe_emit|]. intros _. apply safe_await, _. Qed.

Lemma safe_may_throw {X} (r : thrown + X) : safe (may_throw r).
Proof.
  apply safe_sync; [apply _|]. intros w w' x Hi. destruct r; [done|]. intros [= <- <-].
  by split.
Qed.

Lemma safe_hasTracksAdded pc : safe (hasTracksAdded pc).
Proof. apply safe_bind; [apply _|apply safe_gets, _|]. intros l. apply safe_ret, _. Qed.

Lemma safe_addTracks pc s : safe (addTracksToConnection pc s).
Proof.
  apply safe_forEach; [apply _|]. intros t. apply safe_sync; [apply _|].
  intros w w' [] Hi. destruct (peers (host w) !! pc) as [p|]; [|intros [= <-]; by split].
  destruct (addTrack t s p) as [e|p']; [done|]. intros [= <-].
  assert (quiet w (on_host (λ h, log (IoAddTrack pc t) (with_peers (<[pc := p']> (peers h)) h)) w)) as Hq.
  { split; try done; simpl; [by rewrite length_insert|]. intros pc'.
    rewrite occurrences_app, occurrences_one. simpl. lia. }
  split; [by eapply webrtc_quiet_inv|done].
Qed.

(** Apply the rule for the head of a [safe] goal. *)
Ltac safe_step :=
  intros; lazymatch goal with
  | |- Async.safe _ _ _ (bind _ _) => apply safe_bind; [apply _|..]
  | |- Async.safe _ _ _ (try_catch _ _) => apply safe_try; [apply _|..]
  | |- Async.safe _ _ _ (ret _) => apply safe_ret; apply _
  | |- Async.safe _ _ _ (gets _) => apply safe_gets; apply _
  | |- Async.safe _ _ _ (ref _) => apply safe_gets; apply _
  | |- Async.safe _ _ _ (setState _) => apply safe_setState
  | |- Async.safe _ _ _ (emit _) => by apply safe_emit
  | |- Async.safe _ _ _ (request _) => apply safe_request
  | |- Async.safe _ _ _ (may_throw _) => apply safe_may_throw
  | |- Async.safe _ _ _ (hasTracksAdded _) => apply safe_hasTracksAdded
  | |- Async.safe _ _ _ (addTracksToConnection _ _) => apply safe_addTracks
  | |- Async.safe _ _ _ (when_some ?o _) => destruct o; cbn [when_some]
  | |- Async.safe _ _ _ (match ?x with _ => _ end) => destruct x
  end.

Lemma safe_perform api k : safe (perform api k).
Proof.
  destruct k; unfold perform, createOffer, createOffer_body, handleOffer, handleOffer_body,
    handleAnswer, addIceCandidate; repeat safe_step.
Qed.

Lemma safe_handlers options :
  (∀ x, safe (onicecandidate options x)) ∧ (∀ x, safe (oniceconnectionstatechange options x)) ∧
  (∀ x, safe (ontrack options x)) ∧ (∀ x, safe (onsignalingstatechange x)).
Proof.
  unfold onicecandidate, oniceconnectionstatechange, ontrack, onsignalingstatechange, call.
  split_and!; repeat safe_step.
Qed.

Definition closed (pc : nat) w : W :=
  on_host (λ h, log (IoClosePC pc) (with_peers (alter closePC pc (peers h)) h)) w.

Definition before_setup w : W :=
  match slot (fiber w) with Some sl => closed (slot_data sl) w | None => w end.

Definition created options w : W :=
  let pc := length (peers (host w)) in
  mkWorld
    (log (IoNewPC pc) (with_peers (peers (host w) ++ [newRTCPeerConnection RTC_CONFIGURATION]) (host w)))
    (mkRefs (Some pc) (current (refs w))) (hooks w) (queue w)
    (mkFiber Mounted (Some (mkSlot (deps options) pc)) (handlers (fiber w) ++ [options])
       (returned (fiber w))).

(** The effect runs again exactly when a dependency changed. *)
Lemma webrtc_effect_run options w :
  effect options w =
    (match slot (fiber w) with
     | Some sl => if decide (slot_deps sl = deps options)
                  then with_fiber (set_slot Mounted (Some sl) (fiber w)) w
                  else created options (before_setup w)
     | None => created options w
     end, Returned tt).
Proof.
  unfold effect. erewrite bind_returned by reflexivity. unfold before_setup, run_effect.
  destruct (slot (fiber w)) as [sl|]; [|reflexivity].
  rewrite decide_bool_decide. by destruct (bool_decide _).
Qed.

Definition ended w : W := with_fiber (set_slot Unmounted None (fiber w)) (before_setup w).

Lemma webrtc_unmount_run c : unmount c = env_world ended c.
Proof.
  unfold unmount. rewrite dispatch_sync; unfold ended, before_setup, env_world.
  - destruct c as [w ts]. cbn [world tasks]. erewrite bind_returned by reflexivity.
    by destruct (slot (fiber w)).
  - erewrite bind_returned by reflexivity. by destruct (slot (fiber (world c))).
Qed.

(** After the clean-up every connection created so far was closed once. *)
Lemma before_setup_closes w pc :
  hook_inv w →
  occurrences (IoClosePC pc) (io (host (before_setup w))) =
    if decide (pc < length (handlers (fiber w))) then 1 else 0.
Proof.
  intros Hi. pose proof (inv_slot _ Hi) as Hs. pose proof (inv_closes _ Hi pc) as Hc.
  unfold before_setup. destruct (slot (fiber w)) as [sl|]; simpl in *.
  - rewrite occurrences_app, occurrences_one, Hc.
    repeat case_decide; simplify_eq; destr_all; try lia; naive_solver lia.
  - rewrite Hc. apply decide_ext. naive_solver.
Qed.

Lemma before_setup_frame w :
  fiber (before_setup w) = fiber w ∧ refs (before_setup w) = refs w ∧
  length (peers (host (before_setup w))) = length (peers (host w)).
Proof. unfold before_setup. destruct (slot _); simpl; by rewrite ?length_alter. Qed.

Lemma created_inv options w w0 :
  hook_inv w0 → w = before_setup w0 → hook_inv (created options w).
Proof.
  intros Hi ->. destruct (before_setup_frame w0) as (Hf & Hr & Hp).
  pose proof (before_setup_closes w0) as Hc. pose proof (inv_peers _ Hi) as Hl.
  split; simpl; rewrite ?length_app, ?Hf, ?Hp, ?Hl; simpl.
  - done.
  - split; [done|lia].
  - by rewrite Nat.add_1_r.
  - intros pc. rewrite occurrences_app, occurrences_one, Hc by done. simpl. rewrite Nat.add_0_r.
    destruct (decide (pc < _)); [rewrite decide_True; [done|]|rewrite decide_False; [done|]].
    + split; [lia|]. intros [= ?]. lia.
    + intros [Hlt Hne]. apply Hne. f_equal. lia.
Qed.

Lemma webrtc_effect_inv options w : hook_inv w → hook_inv (fst (effect options w)).
Proof.
  intros Hi. rewrite webrtc_effect_run. cbn [fst]. pose proof (inv_slot _ Hi) as Hs.
  destruct (slot (fiber w)) as [sl|] eqn:Hsl; [case_decide|].
  - destruct Hs as [Hs _].
    assert (with_fiber (set_slot Mounted (Some sl) (fiber w)) w = w) as ->; [|done].
    destruct w as [? ? ? ? []]; simpl in *. by subst.
  - by eapply created_inv.
  - apply (created_inv _ _ w Hi). unfold before_setup. by rewrite Hsl.
Qed.

Lemma ended_inv w : hook_inv w → hook_inv (ended w).
Proof.
  intros Hi. destruct (before_setup_frame w) as (Hf & Hr & Hp).
  pose proof (before_setup_closes w) as Hc.
  destruct Hi as [Hl Hs Href Hcl]. split; simpl; rewrite ?Hr, ?Hp; try done.
  intros pc. rewrite Hc by done. apply decide_ext. naive_solver.
Qed.

Local Abbreviation hook_ok := (@config_ok B Refs State Update Fiber Result hook_inv anything quiet).

Lemma env_ok (f : W → W) c : hook_ok c → hook_inv (f (world c)) → hook_ok (env_world f c).
Proof. intros. by apply env_world_ok; [apply _|..]. Qed.

Lemma call_ok (m : M (list (Out Result))) c :
  hook_ok c →
  wp hook_inv anything quiet m
    (λ ps w, Forall (promise_ok hook_inv anything quiet w) ps) (λ _ _, True) (world c) →
  hook_ok (dispatch m c) ∧ quiet (world c) (world (dispatch m c)).
Proof. intros. by apply dispatch_ok; [apply _|..]. Qed.

(** The events that run a handler, a call or a continuation. *)
Definition handler_event (e : Event) : bool :=
  match e with EvRender _ | EvUnmount => false | _ => true end.

Lemma step_quiet e c c' :
  hook_ok c → step e c = Some c' → handler_event e = true →
  hook_ok c' ∧ quiet (world c) (world c').
Proof.
  intros Hc Hs He. pose proof Hc as [Hi _].
  assert (∀ pc (m : UseWebRTCOptions → M unit), (∀ o, safe (m o)) → on_connection pc m c = Some c' →
    hook_ok c' ∧ quiet (world c) (world c')) as Hon.
  { intros pc m Hm. unfold on_connection. destruct (handlers _ !! pc) as [o|]; [|done].
    intros [= <-]. apply call_ok; [done|]. apply wp_sync_handler; [apply _|]. by apply Hm. }
  assert (∀ f, c' = env_world f c → quiet (world c) (f (world c)) → hook_ok c' ∧ quiet (world c) (world c'))
    as Henv by (intros f -> Hq; split; [by apply env_ok; [|by eapply webrtc_quiet_inv]|done]).
  destruct e as [options| |pc cand|pc s|pc s|pc s|pc p|r el|n k|i f]; simpl in Hs; try done;
    try (by eapply Hon; [|exact Hs]; intros o; apply (safe_handlers o)).
  - injection Hs as <-. eapply Henv; [done|]. split; try done. simpl. by rewrite length_insert.
  - injection Hs as <-. eapply Henv; [done|]. by split.
  - destruct (returned _ !! n) as [api|]; [|done]. injection Hs as <-.
    apply call_ok; [done|]. apply wp_async_handler; [apply _|]. by apply safe_perform.
  - by eapply settle_ok; [apply _|..].
Qed.

Lemma webrtc_commit_inv options w : hook_inv w → hook_inv (commit options w).
Proof. by intros []. Qed.

Lemma render_run options c :
  render options c = env_world (λ w, fst (effect options (commit options w))) c.
Proof.
  unfold render. rewrite dispatch_sync; [done|]. cbn [world env_world]. by rewrite webrtc_effect_run.
Qed.

Lemma webrtc_step_ok e c c' : hook_ok c → step e c = Some c' → hook_ok c'.
Proof.
  intros Hc Hs. pose proof Hc as [Hi _].
  destruct (handler_event e) eqn:He; [by eapply step_quiet|].
  destruct e as [options| | | | | | | | |]; try done; simpl in Hs; apply enabled_Some in Hs as [_ <-].
  - rewrite render_run. by apply env_ok, webrtc_effect_inv, webrtc_commit_inv.
  - rewrite webrtc_unmount_run. by apply env_ok, ended_inv.
Qed.

Lemma reachable_webrtc c : reachable step init c → hook_ok c.
Proof.
  revert c. apply reachable_ind_inv; [|intros; by eapply webrtc_step_ok].
  split; [|constructor]. by split.
Qed.

(** ** Properties *)

(** C19: Every connection the effect created is closed exactly once, by its clean-up
    and by nothing else, except the one of the last run; the ref holds the
    connection created last, closed or not. *)
Theorem connections_closed_exactly_once c pc :
  reachable step init c →
  occurrences (IoClosePC pc) (io (host (world c))) =
    (if decide (pc < length (peers (host (world c))) ∧
                slot_data <$> slot (fiber (world c)) ≠ Some pc) then 1 else 0) ∧
  peerConnectionRef (refs (world c)) =
    match length (peers (host (world c))) with 0 => None | S n => Some n end.
Proof.
  intros Hc. destruct (reachable_webrtc c Hc) as [[Hl _ Href Hcl] _]. by rewrite Hl.
Qed.

(** The connection a render returns is the one of the previous run of the
    effect: the render that replaces the connection still returns the old one,
    which its effect closes, and the first render returns [null]. *)
Theorem returned_connection_is_stale options c c' :
  reachable step init c → step (EvRender options) c = Some c' →
  peerConnection <$> last (returned (fiber (world c'))) =
    Some (peerConnectionRef (refs (world c))) ∧
  (slot_deps <$> slot (fiber (world c)) ≠ Some (deps options) →
   peerConnectionRef (refs (world c')) = Some (length (peers (host (world c)))) ∧
   ∀ pc, peerConnectionRef (refs (world c)) = Some pc → phase (fiber (world c)) = Mounted →
     IoClosePC pc ∈ io (host (world c'))).
Proof.
  intros Hc Hs. pose proof (reachable_webrtc c Hc) as [Hi _]. simpl in Hs.
  apply enabled_Some in Hs as [_ <-]. rewrite render_run. cbn [world env_world].
  rewrite webrtc_effect_run. cbn [fst]. change (slot (fiber (commit options (world c)))) with (slot (fiber (world c))).
  pose proof (inv_slot _ Hi) as Hsl. pose proof (inv_ref _ Hi) as Href.
  destruct (before_setup_frame (commit options (world c))) as (Hf & Hr & Hp).
  assert (returned (fiber (commit options (world c))) = returned (fiber (world c)) ++
    [mkReturn (peerConnectionRef (refs (world c)))
      (flush apply_update (queue (world c)) (hooks (world c))) options]) as Hret by done.
  destruct (slot (fiber (world c))) as [sl|] eqn:Hslot; [case_decide as Hd|].
  - split; [simpl; by rewrite last_snoc|]. simpl. by rewrite Hd.
  - split; [simpl; rewrite Hf, Hret, last_snoc; done|]. intros _. simpl. rewrite Hp. split; [done|].
    intros pc Hpc _. assert (pc = slot_data sl) as ->.
    { rewrite Href in Hpc. destruct Hsl as [_ <-] in Hpc. by simplify_eq. }
    unfold before_setup. simpl. rewrite Hslot. simpl. set_solver.
  - split; [simpl; by rewrite last_snoc|]. intros _. split; [done|]. intros pc _ Hph. by destruct Hsl.
Qed.

(** [isNegotiating] guards a render's [createOffer] by the state of that render:
    calling it again and again without a new render starts a negotiation every
    time, while the page believes one at a time is possible. *)
Theorem offers_pile_up n m api s pc c c' :
  reachable step init c → returned (fiber (world c)) !! n = Some api →
  isNegotiating (api_state api) = false → localStream (api_options api) = Some s →
  peerConnectionRef (refs (world c)) = Some pc → senders_of (world c) pc ≠ [] →
  run step (replicate m (EvCall n CallCreateOffer)) c = Some c' →
  occurrences (IoRequest (CreateOffer pc)) (io (host (world c'))) =
    occurrences (IoRequest (CreateOffer pc)) (io (host (world c))) + m.
Proof.
  intros Hc Hn Hneg Hls. revert c Hc Hn. induction m as [|m IH]; intros c Hc Hn Hpc Hse Hr;
    simpl in Hr; [simplify_eq; lia|].
  rewrite Hn in Hr. simpl in Hr. set (c1 := dispatch _ c) in Hr.
  assert (step (EvCall n CallCreateOffer) c = Some c1) as Hst by (simpl; by rewrite Hn).
  assert (∃ k, createOffer (api_state api) (api_options api) (world c) =
    (on_host (log (IoRequest (CreateOffer pc))) (enqueue [SetIsNegotiating true] (world c)),
     Awaiting (CreateOffer pc) k)) as [k Hrun].
  { unfold createOffer. erewrite bind_returned by reflexivity. rewrite Hpc, Hls, Hneg.
    unfold createOffer_body. erewrite try_returned by reflexivity.
    erewrite try_returned by apply hasTracksAdded_run. rewrite bool_decide_true by done.
    erewrite try_returned by reflexivity.
    destruct (create_offer_run pc (enqueue [SetIsNegotiating true] (world c))) as (k & _ & Hk).
    by exists k. }
  assert (world c1 = on_host (log (IoRequest (CreateOffer pc))) (enqueue [SetIsNegotiating true] (world c)))
    as Hw.
  { unfold c1, dispatch, async_handler, start, perform, bind. by rewrite Hrun. }
  rewrite (IH c1); [|by eapply reach_step|by rewrite Hw..|exact Hr].
  rewrite Hw. simpl. rewrite occurrences_app, occurrences_one, decide_True by done. lia.
Qed.
End Properties.

(** ** Examples *)

#[local] Existing Instance RefBrowser.

Definition ex_stream : MediaStream := mkMediaStream 0 [mkTrack 1 "audio" "mic"; mkTrack 2 "video" "cam"].
Definition ex_options (callback : nat) : UseWebRTCOptions :=
  mkOptions (Some ex_stream) (Some 0) (Some callback) None.

(** Rendered twice with the same callbacks, then with a new one. *)
Definition ex_rendered : list Event := [EvRender (ex_options 7); EvRender (ex_options 7)].
Definition ex_replaced : list Event := ex_rendered ++ [EvRender (ex_options 8)].

(** The first call added the tracks. *)
Definition ex_called : list Event := ex_rendered ++ [EvCall 1 CallCreateOffer].

Lemma connections_closed_exactly_once_witness :
  occurrences (IoClosePC 0) (io (host (world (final step init ex_replaced)))) = 1.
Proof.
  etrans; [apply (connections_closed_exactly_once (final step init ex_replaced) 0); by_run|by_run].
Defined.

Lemma returned_connection_is_stale_witness :
  let c := final step init ex_rendered in
  let c' := next step (EvRender (ex_options 8)) c in
  peerConnection <$> last (returned (fiber (world c'))) = Some (Some 0).
Proof.
  apply (returned_connection_is_stale (ex_options 8) (final step init ex_rendered)
    (next step (EvRender (ex_options 8)) (final step init ex_rendered))); by_run.
Defined.

Lemma offers_pile_up_witness :
  let c := final step init ex_called in
  occurrences (IoRequest (CreateOffer 0))
    (io (host (world (after step (replicate 2 (EvCall 1 CallCreateOffer)) c)))) =
  occurrences (IoRequest (CreateOffer 0)) (io (host (world c))) + 2.
Proof.
  apply (offers_pile_up 1 2 (mkReturn (Some 0) initState (ex_options 7)) ex_stream 0
    (final step init ex_called)
    (after step (replicate 2 (EvCall 1 CallCreateOffer)) (final step init ex_called)));
    [by_run..| |by_run].
  refine (proj1 (bool_decide_eq_true _) _). by_run.
Defined.
