(* ===== verification/SignalingServer.v ===== *)
(** * The signaling server ([signaling/src/main.rs])

    The server and the WebSocket sessions are actors: each handles the messages
    of its mailbox one at a time, and [do_send] appends to the mailbox of an
    actor that has not stopped.  [step] is one turn of one actor. *)
From S2P Require Import Prelude Json.

(** [struct Message] *)
Record Message (Value : Type) := mkMessage {
  from : string;
  to : string;
  sdp : option Value;
  candidate : option Value;
}.
Arguments mkMessage {Value} _ _ _ _.
Arguments from {Value} _.
Arguments to {Value} _.
Arguments sdp {Value} _.
Arguments candidate {Value} _.

(** serde_json: the JSON values and [from_str::<Message>]. *)
Class SerdeJson := {
  Value : Type;
  from_str : string → option (Message Value);
}.

(** ** Messages *)

(** A frame of the client: [Result<ws::Message, ws::ProtocolError>]. *)
Inductive Frame :=
| Text (text : string)
| OtherMessage
| ProtocolError.

Inductive ServerMessage :=
| RegisterSession (id : string) (addr : nat)
| UnregisterSession (id : string)
| SendMessage (to msg : string).

(** ** Actors *)

Inductive Life := Created | Started | Stopped.

#[global] Instance Life_eq_dec : EqDecision Life.
Proof. solve_decision. Defined.

(** [struct WebSocketSession] with its mailbox of [WsMessage]s and the texts
    its context has written to the client. *)
Record WebSocketSession := mkSession {
  id : string;
  life : Life;
  mailbox : list string;
  written : list string;
}.

(** [struct SignalingServer] *)
Record SignalingServer := mkServer { sessions : gmap string nat }.

Definition new : SignalingServer := mkServer ∅.

(** [accepted] is a history variable: the messages the sessions accepted from
    their clients, with their addressee, in order. *)
Record System := mkSystem {
  server : SignalingServer;
  inbox : list ServerMessage;
  actors : list WebSocketSession;
  accepted : list (string * string);
}.

(** [server_addr.do_send(m)] *)
Definition send_server (m : ServerMessage) (s : System) : System :=
  mkSystem (server s) (inbox s ++ [m]) (actors s) (accepted s).

Definition on_actor (f : WebSocketSession → WebSocketSession) (a : nat) (s : System) : System :=
  mkSystem (server s) (inbox s) (alter f a (actors s)) (accepted s).

Definition on_sessions (f : gmap string nat → gmap string nat) (s : System) : System :=
  mkSystem (mkServer (f (sessions (server s)))) (inbox s) (actors s) (accepted s).

(** [addr.do_send(WsMessage(msg))]: dropped when the session has stopped. *)
Definition send_session (addr : nat) (msg : string) : System → System :=
  on_actor (λ x, match life x with
                 | Stopped => x
                 | _ => mkSession (id x) (life x) (mailbox x ++ [msg]) (written x)
                 end) addr.

(** [ctx.text(t)] *)
Definition ctx_text (t : string) (x : WebSocketSession) : WebSocketSession :=
  mkSession (id x) (life x) (mailbox x) (written x ++ [t]).

Definition set_life (l : Life) (x : WebSocketSession) : WebSocketSession :=
  mkSession (id x) l (mailbox x) (written x).

(** The text of [format!] for the id of a session. *)
Definition welcome_text (id : string) : string :=
  let q := String quote "" in
  "{" +:+ q +:+ "type" +:+ q +:+ ": " +:+ q +:+ "welcome" +:+ q +:+ ", " +:+
  q +:+ "id" +:+ q +:+ ": " +:+ q +:+ id +:+ q +:+ "}".

Section Handlers.
Context {SJ : SerdeJson}.

(** ** [WebSocketSession] *)

Definition started (a : nat) (x : WebSocketSession) (s : System) : System :=
  on_actor (λ x, ctx_text (welcome_text (id x)) (set_life Started x)) a
    (send_server (RegisterSession (id x) a) s).

Definition stopping (a : nat) (x : WebSocketSession) (s : System) : System :=
  on_actor (set_life Stopped) a (send_server (UnregisterSession (id x)) s).

(** [Handler<WsMessage>] *)
Definition handle_WsMessage (a : nat) (msg : string) : System → System :=
  on_actor (ctx_text msg) a.

(** [StreamHandler] *)
Definition handle_frame (msg : Frame) (s : System) : System :=
  match msg with
  | Text text =>
      match from_str text with
      | Some m =>
          let s := send_server (SendMessage (to m) text) s in
          mkSystem (server s) (inbox s) (actors s) (accepted s ++ [(to m, text)])
      | None => s
      end
  | _ => s
  end.

(** ** [SignalingServer] *)

Definition handle_RegisterSession (id : string) (addr : nat) : System → System :=
  on_sessions <[id := addr]>.

Definition handle_UnregisterSession (id : string) : System → System :=
  on_sessions (delete id).

Definition handle_SendMessage (to msg : string) (s : System) : System :=
  match sessions (server s) !! to with
  | Some session => send_session session msg s
  | None => s
  end.

Definition handle_server (m : ServerMessage) : System → System :=
  match m with
  | RegisterSession id addr => handle_RegisterSession id addr
  | UnregisterSession id => handle_UnregisterSession id
  | SendMessage to msg => handle_SendMessage to msg
  end.

(** [ws_handler] with the id [Uuid::new_v4] gave *)
Definition ws_handler (id : string) (s : System) : System :=
  mkSystem (server s) (inbox s) (actors s ++ [mkSession id Created [] []]) (accepted s).

(** ** The runtime *)

Inductive Event :=
| EvConnect (id : string)
| EvStarted (a : nat)
| EvFrame (a : nat) (msg : Frame)
| EvWsMessage (a : nat)
| EvStopping (a : nat)
| EvServer.

(** Uuids are not drawn twice. *)
Definition fresh (i : string) (s : System) : bool :=
  bool_decide (i ∉ id <$> actors s).

Definition pop_mailbox (a : nat) (rest : list string) : System → System :=
  on_actor (λ x, mkSession (id x) (life x) rest (written x)) a.

Definition step (e : Event) (s : System) : option System :=
  match e with
  | EvConnect i => if fresh i s then Some (ws_handler i s) else None
  | EvStarted a =>
      x ← actors s !! a;
      if decide (life x = Created) then Some (started a x s) else None
  | EvFrame a msg =>
      x ← actors s !! a;
      if decide (life x = Started) then Some (handle_frame msg s) else None
  | EvWsMessage a =>
      x ← actors s !! a;
      if decide (life x = Started) then
        match mailbox x with
        | msg :: rest => Some (handle_WsMessage a msg (pop_mailbox a rest s))
        | [] => None
        end
      else None
  | EvStopping a =>
      x ← actors s !! a;
      if decide (life x = Started) then Some (stopping a x s) else None
  | EvServer =>
      match inbox s with
      | m :: rest =>
          Some (handle_server m (mkSystem (server s) rest (actors s) (accepted s)))
      | [] => None
      end
  end.

Definition init : System := mkSystem new [] [] [].
End Handlers.
