(* ===== verification/SignalingServerProperties.v ===== *)
(** * Properties of the signaling server

    The map of sessions, the order and the content of what is forwarded, and
    the delivery of what was accepted. *)
From S2P Require Import Prelude JsValue Json React SignalingServer.

Section Properties.
Context {SJ : SerdeJson}.
Implicit Types (s : System) (x : WebSocketSession) (m : ServerMessage).

(** ** The map of sessions *)

Definition registers (l : gmap string nat) (m : ServerMessage) : gmap string nat :=
  match m with
  | RegisterSession i a => <[i := a]> l
  | UnregisterSession i => delete i l
  | SendMessage _ _ => l
  end.

(** The map after the messages of the inbox are handled. *)
Definition settled_sessions s : gmap string nat :=
  foldl registers (sessions (server s)) (inbox s).

Definition live s (i : string) (a : nat) : Prop :=
  ∃ x, actors s !! a = Some x ∧ id x = i ∧ life x = Started.

Definition sessions_inv s : Prop :=
  NoDup (id <$> actors s) ∧ ∀ i a, settled_sessions s !! i = Some a ↔ live s i a.

(** ** What is forwarded *)

Definition pending (l : list ServerMessage) : list (string * string) :=
  omap (λ m, match m with SendMessage to t => Some (to, t) | _ => None end) l.

(** The texts addressed to [i], in order. *)
Definition texts_for (i : string) (l : list (string * string)) : list string :=
  omap (λ p, if decide (p.1 = i) then Some p.2 else None) l.

Definition session_ok (done : list (string * string)) x : Prop :=
  match life x with
  | Created => written x = [] ∧ mailbox x = []
  | _ => ∃ l, written x = welcome_text (id x) :: l ∧
           (l ++ mailbox x) `sublist_of` texts_for (id x) done
  end.

Definition forward_inv s : Prop :=
  ∃ done, accepted s = done ++ pending (inbox s) ∧ Forall (session_ok done) (actors s).

Lemma texts_for_app i l1 l2 : texts_for i (l1 ++ l2) = texts_for i l1 ++ texts_for i l2.
Proof. apply omap_app. Qed.

Lemma session_ok_more done more x : session_ok done x → session_ok (done ++ more) x.
Proof.
  unfold session_ok. destruct (life x); [done|..]; intros (l & ? & ?); exists l;
    (split; [done|]); rewrite texts_for_app; by apply sublist_inserts_r.
Qed.

Lemma ids_on_actor f a s :
  (∀ x, id (f x) = id x) → id <$> actors (on_actor f a s) = id <$> actors s.
Proof.
  intros Hf. simpl. apply list_eq. intros i. rewrite !list_lookup_fmap.
  destruct (decide (i = a)) as [->|]; [rewrite list_lookup_alter_eq|by rewrite list_lookup_alter_ne].
  destruct (actors s !! a); simpl; [by rewrite Hf|done].
Qed.

Lemma lookup_on_actor f a b s :
  actors (on_actor f a s) !! b = if decide (a = b) then f <$> actors s !! b else actors s !! b.
Proof.
  simpl. case_decide; subst; [by rewrite list_lookup_alter_eq|by rewrite list_lookup_alter_ne].
Qed.

(** A change of an actor that keeps its id and whether it is live. *)
Lemma on_actor_live f a s i b :
  (∀ x, id (f x) = id x ∧ (life (f x) = Started ↔ life x = Started)) →
  live (on_actor f a s) i b ↔ live s i b.
Proof.
  intros Hf. unfold live. rewrite lookup_on_actor. case_decide; [|done].
  destruct (actors s !! b) as [x|]; simpl; [|naive_solver].
  destruct (Hf x). split; intros (? & [= <-] & ? & ?); eexists; (split; [done|]); naive_solver.
Qed.

Lemma sessions_on_actor f a s :
  (∀ x, id (f x) = id x ∧ (life (f x) = Started ↔ life x = Started)) →
  sessions_inv s → sessions_inv (on_actor f a s).
Proof.
  intros Hf [Hnd Hs]. split.
  - rewrite ids_on_actor; [done|]. intros x. by destruct (Hf x).
  - intros i b. rewrite on_actor_live by done. apply Hs.
Qed.

Lemma Forall_alter_ok (P : WebSocketSession → Prop) f a (l : list WebSocketSession) :
  Forall P l → (∀ x, l !! a = Some x → P x → P (f x)) → Forall P (alter f a l).
Proof.
  intros Hl Hf. apply Forall_lookup. intros b y Hy.
  destruct (decide (b = a)) as [->|Hne].
  - rewrite list_lookup_alter_eq in Hy. apply fmap_Some in Hy as (x & Hx & ->).
    eapply Hf; [done|]. by eapply Forall_lookup_1.
  - rewrite list_lookup_alter_ne in Hy by done. by eapply Forall_lookup_1.
Qed.

(** An address the server holds or will hold is that of a session that has
    started, with the right id. *)
Definition address_inv s : Prop :=
  ∀ i a, sessions (server s) !! i = Some a ∨ RegisterSession i a ∈ inbox s →
    ∃ x, actors s !! a = Some x ∧ id x = i ∧ life x ≠ Created.

Record system_inv s : Prop := {
  inv_sessions : sessions_inv s;
  inv_forward : forward_inv s;
  inv_address : address_inv s;
}.

Lemma address_on_actor f a s :
  (∀ x, id (f x) = id x ∧ (life x ≠ Created → life (f x) ≠ Created)) →
  address_inv s → address_inv (on_actor f a s).
Proof.
  intros Hf Hs i b Hib. destruct (Hs i b Hib) as (x & Hx & Hid & Hl).
  rewrite lookup_on_actor, Hx. destruct (Hf x). case_decide; [|by exists x].
  exists (f x). split_and!; [done|congruence|auto].
Qed.

(** ** The steps keep the invariant *)

Lemma send_session_ok done i t x :
  id x = i → life x ≠ Created →
  session_ok done x →
  session_ok (done ++ [(i, t)])
    match life x with
    | Stopped => x
    | _ => mkSession (id x) (life x) (mailbox x ++ [t]) (written x)
    end.
Proof.
  intros Hid Hl Hok. destruct (life x) eqn:Hlx; [done| |by apply session_ok_more].
  unfold session_ok in *. rewrite Hlx in Hok. simpl. destruct Hok as (l & ? & Hsub). exists l.
  split; [done|]. rewrite texts_for_app, app_assoc. simpl. rewrite decide_True by done.
  by apply sublist_app.
Qed.

Lemma server_step_inv m rest s :
  inbox s = m :: rest → system_inv s →
  system_inv (handle_server m (mkSystem (server s) rest (actors s) (accepted s))).
Proof.
  intros Hin [[Hnd Hs] (done & Hacc & Hok) Ha]. unfold settled_sessions in Hs.
  unfold address_inv in Ha. rewrite Hin in Hs, Hacc, Ha. simpl in Hs.
  destruct m as [i a|i|i t]; cbn [handle_server].
  - split; [by split|by exists done|]. intros j b. simpl. intros [Hj|Hj]; apply Ha; [|set_solver].
    apply lookup_insert_Some in Hj as [[-> ->]|[_ ?]]; [right; by left|by left].
  - split; [by split|by exists done|]. intros j b. simpl. intros [Hj|Hj]; apply Ha; [|set_solver].
    apply lookup_delete_Some in Hj as [_ ?]. by left.
  - unfold handle_SendMessage. cbn [server]. set (s1 := mkSystem _ rest _ _).
    assert (accepted s1 = (done ++ [(i, t)]) ++ pending rest) as Hacc1
      by (simpl; by rewrite Hacc, <-app_assoc).
    assert (Forall (session_ok (done ++ [(i, t)])) (actors s)) as Hok1
      by (eapply Forall_impl; [done|]; intros; by apply session_ok_more).
    assert (address_inv s1) as Ha1 by (intros j b [?|?]; apply Ha; [by left|set_solver]).
    destruct (sessions (server s) !! i) as [b|] eqn:Hb; [|by split; [split|eexists|]].
    split.
    + apply sessions_on_actor; [|by split]. intros x. destruct (life x) eqn:Hl; simpl; rewrite ?Hl; naive_solver.
    + exists (done ++ [(i, t)]). split; [done|]. apply Forall_lookup. intros b' y Hy.
      change (actors (on_actor (λ x, match life x with
        | Stopped => x
        | _ => mkSession (id x) (life x) (mailbox x ++ [t]) (written x) end) b s1) !! b' = Some y) in Hy.
      rewrite lookup_on_actor in Hy. case_decide; [subst b'|by eapply Forall_lookup_1].
      apply fmap_Some in Hy as (x & Hx & ->).
      destruct (Ha i b) as (x' & Hx' & Hid & Hl); [by left|]. simpl in Hx. simplify_eq.
      apply send_session_ok; [done|done|]. by eapply Forall_lookup_1.
    + apply address_on_actor; [|done]. intros x. destruct (life x) eqn:Hl; simpl; rewrite ?Hl; naive_solver.
Qed.

Lemma settled_snoc s m :
  settled_sessions (send_server m s) = registers (settled_sessions s) m.
Proof. unfold settled_sessions. simpl. by rewrite foldl_app. Qed.

Lemma pending_snoc l m : pending (l ++ [m]) = pending l ++ pending [m].
Proof. apply omap_app. Qed.

Lemma id_unique s a b x y :
  NoDup (id <$> actors s) → actors s !! a = Some x → actors s !! b = Some y → id x = id y → a = b.
Proof.
  intros Hnd Hx Hy Hid. eapply NoDup_lookup; [exact Hnd| |].
  - by rewrite list_lookup_fmap, Hx.
  - by rewrite list_lookup_fmap, Hy, Hid.
Qed.

Lemma session_started_inv a x s :
  actors s !! a = Some x → life x = Created → system_inv s → system_inv (started a x s).
Proof.
  intros Hx Hl [[Hnd Hs] (done & Hacc & Hok) Ha]. unfold started. split.
  - split; [by rewrite ids_on_actor|]. intros i b.
    change (settled_sessions (send_server (RegisterSession (id x) a) s) !! i = Some b ↔
      live (on_actor (λ x, ctx_text (welcome_text (id x)) (set_life Started x)) a s) i b).
    rewrite settled_snoc. simpl. rewrite lookup_insert_Some, Hs. unfold live.
    rewrite lookup_on_actor. split.
    + intros [[<- <-]|[Hne (y & Hy & Hid & Hly)]].
      * rewrite decide_True, Hx by done. simpl. by eexists.
      * case_decide; [exfalso; subst b; congruence|by exists y].
    + intros (y & Hy & Hid & Hly). case_decide; [subst b; rewrite Hx in Hy; simplify_eq/=; by left|].
      right. split; [|by exists y]. intros <-. by destruct (id_unique s a b x y).
  - exists done. simpl. rewrite pending_snoc. simpl. rewrite app_nil_r. split; [done|].
    apply Forall_lookup. intros b y Hy.
    change (actors (on_actor (λ x, ctx_text (welcome_text (id x)) (set_life Started x)) a s) !! b = Some y) in Hy.
    rewrite lookup_on_actor in Hy. case_decide; [subst b|by eapply Forall_lookup_1].
    rewrite Hx in Hy. simplify_eq/=. pose proof (Forall_lookup_1 _ _ _ _ Hok Hx) as Hxo.
    unfold session_ok in Hxo. rewrite Hl in Hxo. destruct Hxo as [Hw Hm]. unfold session_ok. simpl.
    exists []. rewrite Hw, Hm. split; [done|]. apply sublist_nil_l.
  - intros i b [Hi|Hi].
    + destruct (Ha i b) as (y & Hy & Hid & Hly); [by left|]. rewrite lookup_on_actor.
      simpl. rewrite Hy. case_decide; [|by exists y]. by eexists.
    + simpl in Hi. rewrite elem_of_app, list_elem_of_singleton in Hi. destruct Hi as [Hi|[= -> ->]].
      * destruct (Ha i b) as (y & Hy & Hid & Hly); [by right|]. rewrite lookup_on_actor.
        simpl. rewrite Hy. case_decide; [|by exists y]. by eexists.
      * rewrite lookup_on_actor, decide_True by done. simpl. rewrite Hx. by eexists.
Qed.

Lemma stopping_inv a x s :
  actors s !! a = Some x → life x = Started → system_inv s → system_inv (stopping a x s).
Proof.
  intros Hx Hl [[Hnd Hs] (done & Hacc & Hok) Ha]. unfold stopping. split.
  - split; [by rewrite ids_on_actor|]. intros i b.
    change (settled_sessions (send_server (UnregisterSession (id x)) s) !! i = Some b ↔
      live (on_actor (set_life Stopped) a s) i b).
    rewrite settled_snoc. simpl. rewrite lookup_delete_Some, Hs. unfold live.
    rewrite lookup_on_actor. split.
    + intros [Hne (y & Hy & Hid & Hly)]. case_decide; [exfalso; subst b; congruence|by exists y].
    + intros (y & Hy & Hid & Hly). case_decide; [subst b; rewrite Hx in Hy; by simplify_eq/=|].
      split; [|by exists y]. intros <-. by destruct (id_unique s a b x y).
  - exists done. simpl. rewrite pending_snoc. simpl. rewrite app_nil_r. split; [done|].
    apply Forall_alter_ok; [done|]. intros y Hy Hyo. simplify_eq. unfold session_ok in *.
    by rewrite Hl in Hyo.
  - apply address_on_actor; [done|]. intros i b [Hi|Hi]; apply Ha; [by left|right].
    simpl in Hi. set_solver.
Qed.

Lemma connect_inv i s : fresh i s = true → system_inv s → system_inv (ws_handler i s).
Proof.
  intros Hf%bool_decide_eq_true [[Hnd Hs] (done & Hacc & Hok) Ha]. split.
  - split.
    + simpl. rewrite fmap_app. apply NoDup_app. split_and!; [done| |by apply NoDup_singleton].
      intros j Hj ->%list_elem_of_singleton. done.
    + intros j b. change (settled_sessions s !! j = Some b ↔ live (ws_handler i s) j b).
      rewrite Hs. unfold live. simpl. split; intros (x & Hx & ? & ?).
      * exists x. split; [by apply lookup_snoc_old|done].
      * apply lookup_app_Some in Hx as [Hx|[_ Hx]]; [by exists x|].
        apply list_lookup_singleton_Some in Hx as [_ <-]. done.
  - exists done. split; [done|]. apply Forall_snoc; [done|]. by unfold session_ok.
  - intros j b Hjb. destruct (Ha j b Hjb) as (x & Hx & ? & ?). exists x.
    split; [by apply lookup_snoc_old|done].
Qed.

Lemma frame_inv msg s : system_inv s → system_inv (handle_frame msg s).
Proof.
  intros Hi. unfold handle_frame. destruct msg as [text| |]; [|done..].
  destruct (from_str text) as [m|]; [|done]. destruct Hi as [[Hnd Hs] (done & Hacc & Hok) Ha]. split.
  - split; [done|]. intros i b. unfold settled_sessions. simpl. rewrite foldl_app. simpl. apply Hs.
  - exists done. simpl. rewrite pending_snoc, Hacc, <-app_assoc. by split.
  - intros i b [Hi|Hi]; apply Ha; [by left|right]. simpl in Hi. set_solver.
Qed.

Lemma write_inv a x msg rest s :
  actors s !! a = Some x → life x = Started → mailbox x = msg :: rest →
  system_inv s → system_inv (handle_WsMessage a msg (pop_mailbox a rest s)).
Proof.
  intros Hx Hl Hm [Hs (done & Hacc & Hok) Ha]. split.
  - by do 2 (apply sessions_on_actor; [done|]).
  - exists done. split; [done|]. simpl. rewrite list_alter_alter_eq. apply Forall_alter_ok; [done|].
    intros y Hy Hyo. simplify_eq. unfold session_ok in *. simpl. rewrite Hl in *.
    destruct Hyo as (l & Hw & Hsub). exists (l ++ [msg]). rewrite Hw. split; [done|].
    rewrite Hm in Hsub. by rewrite <-app_assoc.
  - by do 2 (apply address_on_actor; [done|]).
Qed.

Lemma system_step_inv e s s' : system_inv s → step e s = Some s' → system_inv s'.
Proof.
  intros Hi Hs. destruct e as [i|a|a msg|a|a|]; simpl in Hs.
  - destruct (fresh i s) eqn:Hf; [|done]. injection Hs as <-. by apply connect_inv.
  - destruct (actors s !! a) as [x|] eqn:Hx; [|done]. simpl in Hs. case_decide; [|done].
    injection Hs as <-. by apply session_started_inv.
  - destruct (actors s !! a) as [x|] eqn:Hx; [|done]. simpl in Hs. case_decide; [|done].
    injection Hs as <-. by apply frame_inv.
  - destruct (actors s !! a) as [x|] eqn:Hx; [|done]. simpl in Hs. case_decide; [|done].
    destruct (mailbox x) as [|msg rest] eqn:Hm; [done|]. injection Hs as <-. by eapply write_inv.
  - destruct (actors s !! a) as [x|] eqn:Hx; [|done]. simpl in Hs. case_decide; [|done].
    injection Hs as <-. by apply stopping_inv.
  - destruct (inbox s) as [|m rest] eqn:Hin; [done|]. injection Hs as <-. by apply server_step_inv.
Qed.

Lemma reachable_system s : reachable step init s → system_inv s.
Proof.
  revert s. apply reachable_ind_inv; [|intros; by eapply system_step_inv]. split.
  - split; [constructor|]. intros i a. unfold settled_sessions, live. simpl.
    rewrite lookup_empty, lookup_nil. naive_solver.
  - exists []. split; [done|constructor].
  - intros i a. simpl. rewrite lookup_empty. set_solver.
Qed.

(** ** Draining the server's mailbox *)

Fixpoint drain (l : list ServerMessage) s : System :=
  match l with
  | [] => mkSystem (server s) [] (actors s) (accepted s)
  | m :: l => drain l (handle_server m (mkSystem (server s) l (actors s) (accepted s)))
  end.

(** Handling a message touches neither the rest of the mailbox nor the life of
    a session. *)
Lemma handle_server_frame m s :
  inbox (handle_server m s) = inbox s ∧
  sessions (server (handle_server m s)) = registers (sessions (server s)) m.
Proof.
  destruct m as [i a|i|i t]; [done|done|]. simpl. unfold handle_SendMessage.
  by destruct (sessions (server s) !! i).
Qed.

Lemma run_drain l s :
  inbox s = l → run step (replicate (length l) EvServer) s = Some (drain l s).
Proof.
  revert s. induction l as [|m l IH]; intros s Hin; simpl.
  - destruct s; simpl in *. by subst.
  - rewrite Hin. simpl. apply IH. by destruct (handle_server_frame m (mkSystem (server s) l (actors s) (accepted s))).
Qed.

Lemma run_inv es s s' : system_inv s → run step es s = Some s' → system_inv s'.
Proof.
  revert s. induction es as [|e es IH]; simpl; intros s Hi Hr; [by simplify_eq|].
  destruct (step e s) as [s1|] eqn:Hs; [|done]. eapply IH; [by eapply system_step_inv|done].
Qed.

(** An accepted message reaches the mailbox of its addressee. *)
Lemma deliver_last s b t (m : Message Value) a x s1 :
  reachable step init s → step (EvFrame b (Text t)) s = Some s1 → from_str t = Some m →
  actors s !! a = Some x → id x = to m → life x = Started →
  ∃ s2 y, run step (replicate (length (inbox s1)) EvServer) s1 = Some s2 ∧
    actors s2 !! a = Some y ∧ id y = id x ∧ life y = Started ∧ last (mailbox y) = Some t.
Proof.
  intros Hr Hs Ht Hx Hid Hl. exists (drain (inbox s1) s1).
  pose proof (reachable_system s Hr) as Hi. pose proof (system_step_inv _ _ _ Hi Hs) as Hi1.
  simpl in Hs. destruct (actors s !! b) as [z|]; [|done]. simpl in Hs. case_decide; [|done].
  injection Hs as <-. unfold handle_frame in *. rewrite Ht in *. cbn [inbox send_server] in *.
  set (s1 := mkSystem _ _ _ _) in *.
  assert (live s1 (to m) a) as Hlive by (exists x; done).
  clear -Hi1 Hlive Hid.
  cut (∃ y, actors (drain (inbox s1) s1) !! a = Some y ∧ id y = to m ∧ life y = Started ∧
            last (mailbox y) = Some t).
  { intros (y & ? & ? & ? & ?). exists y. split; [by apply run_drain|]. by rewrite Hid. }
  assert (inbox s1 = inbox s ++ [SendMessage (to m) t]) as Hin by done. clearbody s1.
  revert s1 Hi1 Hlive Hin. generalize (inbox s). intros l.
  induction l as [|k l IH]; intros s1 Hi1 Hlive Hin; rewrite Hin; simpl.
  - destruct Hi1 as [[_ Hs] _ _]. apply Hs in Hlive as Hset. unfold settled_sessions in Hset.
    rewrite Hin in Hset. simpl in Hset. unfold handle_SendMessage. simpl. rewrite Hset.
    destruct Hlive as (y & Hy & Hidy & Hly). simpl. rewrite list_lookup_alter_eq, Hy. simpl.
    rewrite Hly. eexists. split_and!; [done|done|done|]. simpl. by rewrite last_snoc.
  - set (s2 := handle_server k _).
    assert (inbox s2 = l ++ [SendMessage (to m) t]) as Hin2.
    { unfold s2. by destruct (handle_server_frame k (mkSystem (server s1) (l ++ [SendMessage (to m) t])
        (actors s1) (accepted s1))) as [-> _]. }
    assert (system_inv s2) as Hi2 by (by apply server_step_inv).
    rewrite <-Hin2. apply IH; [done| |done].
    destruct Hi1 as [[_ Hs1] _ _], Hi2 as [[_ Hs2] _ _]. apply Hs2. apply Hs1 in Hlive.
    rewrite <-Hlive. unfold settled_sessions. rewrite Hin, Hin2. simpl.
    f_equal. unfold s2. by destruct (handle_server_frame k (mkSystem (server s1)
      (l ++ [SendMessage (to m) t]) (actors s1) (accepted s1))) as [_ ->].
Qed.

(** ** What a session writes *)

(** The first text is the welcome. *)
Lemma written_head s a x t :
  reachable step init s → actors s !! a = Some x → written x !! 0 = Some t → t = welcome_text (id x).
Proof.
  intros Hs Hx Ht. destruct (reachable_system s Hs) as [_ (done & _ & Hok) _].
  pose proof (Forall_lookup_1 _ _ _ _ Hok Hx) as Hxo. unfold session_ok in Hxo.
  destruct (life x); [destruct Hxo as [Hw _]|destruct Hxo as (l & Hw & _)..];
    rewrite Hw in Ht; by simplify_eq/=.
Qed.

Lemma frame_actors msg s : actors (handle_frame msg s) = actors s.
Proof. destruct msg as [t| |]; [|done..]. simpl. by destruct (from_str t). Qed.

(** What a session becomes: it keeps its id and what it wrote. *)
Definition follows (x x' : WebSocketSession) : Prop :=
  id x' = id x ∧ written x `prefix_of` written x'.

#[export] Instance follows_preorder : PreOrder follows.
Proof.
  split; [by intros x|]. intros x1 x2 x3 [H1 H2] [H3 H4]. split; [congruence|by etrans].
Qed.

Definition sessions_follow s s' : Prop :=
  ∀ a x, actors s !! a = Some x → ∃ x', actors s' !! a = Some x' ∧ follows x x'.

#[export] Instance sessions_follow_preorder : PreOrder sessions_follow.
Proof.
  split; [intros s a x Hx; by exists x|]. intros s1 s2 s3 H12 H23 a x Hx.
  destruct (H12 a x Hx) as (y & Hy & ?). destruct (H23 a y Hy) as (z & ? & ?).
  exists z. split; [done|by etrans].
Qed.

Lemma on_actor_follows f a s : (∀ x, follows x (f x)) → sessions_follow s (on_actor f a s).
Proof.
  intros Hf b x Hx. rewrite lookup_on_actor, Hx. case_decide; simpl; [by eexists|by exists x].
Qed.

Lemma step_follows e s s' : step e s = Some s' → sessions_follow s s'.
Proof.
  intros Hs. destruct e as [i|a|a msg|a|a|]; simpl in Hs;
    try (destruct (actors s !! a) as [x|]; [simpl in Hs; case_decide; [|done]|done]).
  - destruct (fresh i s); [|done]. simplify_eq. intros b x Hx. exists x. split; [|done].
    by apply lookup_snoc_old.
  - simplify_eq. unfold started. apply (on_actor_follows _ a (send_server _ s)). intros y.
    split; [done|by apply prefix_app_r].
  - simplify_eq. intros b y Hy. exists y. split; [|done]. unfold handle_frame.
    destruct msg as [t| |]; [|done..]. by destruct (from_str t).
  - destruct (mailbox x) as [|msg rest]; [done|]. simplify_eq. unfold handle_WsMessage, pop_mailbox.
    etrans; apply on_actor_follows; intros y; [done|]. split; [done|by apply prefix_app_r].
  - simplify_eq. by apply (on_actor_follows _ a (send_server _ s)).
  - destruct (inbox s) as [|m rest]; [done|]. simplify_eq. assert (∀ l, sessions_follow s (mkSystem l rest (actors s) (accepted s))) as H0
      by (intros l b y Hy; by exists y).
    destruct m as [| |i t]; [apply H0..|]. simpl. unfold handle_SendMessage. case_match; [|apply H0].
    apply (on_actor_follows _ _ (mkSystem _ _ _ _)). intros y. by destruct (life y).
Qed.

Lemma run_follows es s s' : run step es s = Some s' → sessions_follow s s'.
Proof.
  revert s. induction es as [|e es IH]; simpl; intros s Hr; [by simplify_eq|].
  destruct (step e s) as [s1|] eqn:Hs; [|done]. etrans; [by eapply step_follows|by apply IH].
Qed.

(** A started session can write all of its mailbox. *)
Lemma drain_mailbox s a x :
  actors s !! a = Some x → life x = Started →
  ∃ s', run step (replicate (length (mailbox x)) (EvWsMessage a)) s = Some s' ∧
    actors s' !! a = Some (mkSession (id x) Started [] (written x ++ mailbox x)).
Proof.
  destruct x as [i l mb w]. simpl. intros Hx ->. revert s w Hx.
  induction mb as [|t mb IH]; intros s w Hx; simpl.
  - exists s. by rewrite app_nil_r.
  - rewrite Hx. simpl. edestruct (IH (handle_WsMessage a t (pop_mailbox a mb s)) (w ++ [t]))
      as (s' & Hr & Ha).
    + unfold handle_WsMessage, pop_mailbox. rewrite !lookup_on_actor, !decide_True, Hx by done. done.
    + exists s'. by rewrite <-app_assoc in Ha.
Qed.

(** An accepted message is written by its addressee's session, last. *)
Lemma deliver_written s b t (m : Message Value) a x s1 :
  reachable step init s → step (EvFrame b (Text t)) s = Some s1 → from_str t = Some m →
  actors s !! a = Some x → id x = to m → life x = Started →
  ∃ es s2 y, Forall (λ e, e = EvServer ∨ e = EvWsMessage a) es ∧ run step es s1 = Some s2 ∧
    actors s2 !! a = Some y ∧ id y = id x ∧ last (written y) = Some t ∧
    length (written x) < length (written y).
Proof.
  intros Hr Hs Ht Hx Hid Hl.
  destruct (deliver_last s b t m a x s1 Hr Hs Ht Hx Hid Hl) as (s2 & y & Hr2 & Hy & Hidy & Hly & Hmb).
  destruct (drain_mailbox s2 a y Hy Hly) as (s3 & Hr3 & Ha3).
  destruct (step_follows _ _ _ Hs a x Hx) as (x1 & Hx1 & _ & Hw1).
  destruct (run_follows _ _ _ Hr2 a x1 Hx1) as (y' & Hy' & _ & Hw2). rewrite Hy in Hy'. injection Hy' as <-.
  apply prefix_length in Hw1, Hw2.
  destruct (mailbox y) as [|t' l] eqn:Hml; [done|].
  eexists (_ ++ _), s3, _. split_and!; [|rewrite run_app, Hr2; exact Hr3|exact Ha3|done| |].
  - apply Forall_app. split; apply Forall_replicate; auto.
  - simpl. by rewrite last_app, Hmb.
  - simpl. rewrite length_app. simpl. lia.
Qed.

(** ** Properties *)

(** C13: Once its mailbox is empty, the server's map holds exactly the started
    sessions, each under its own id. *)
Theorem sessions_exact s i a :
  reachable step init s → inbox s = [] →
  sessions (server s) !! i = Some a ↔
  ∃ x, actors s !! a = Some x ∧ id x = i ∧ life x = Started.
Proof.
  intros Hr Hin. destruct (reachable_system s Hr) as [[_ Hs] _ _].
  change (sessions (server s) !! i = Some a ↔ live s i a).
  rewrite <-Hs. unfold settled_sessions. by rewrite Hin.
Qed.

(** C12: What a session writes to its client is the welcome with its own id and then
    messages that were accepted for that id: verbatim, in the order of their
    acceptance, and none twice. *)
Theorem delivered_in_order s a x :
  reachable step init s → actors s !! a = Some x → life x ≠ Created →
  ∃ l, written x = welcome_text (id x) :: l ∧
    (l ++ mailbox x) `sublist_of` texts_for (id x) (accepted s).
Proof.
  intros Hr Hx Hl. destruct (reachable_system s Hr) as [_ (done & -> & Hok) _].
  pose proof (Forall_lookup_1 _ _ _ _ Hok Hx) as Hxo. unfold session_ok in Hxo.
  assert (∃ l, written x = welcome_text (id x) :: l ∧
    (l ++ mailbox x) `sublist_of` texts_for (id x) done) as (l & Hw & Hsub) by by destruct (life x).
  exists l. split; [done|]. rewrite texts_for_app. by apply sublist_inserts_r.
Qed.

(** C11: Any text frame that parses as a message for the id of a started session is
    in that session's mailbox, last, once the server has handled the messages
    it had: at most as many turns as its mailbox holds, in a run that nothing
    can block. *)
Theorem accepted_message_is_delivered s b t (m : Message Value) a x s1 :
  reachable step init s → step (EvFrame b (Text t)) s = Some s1 → from_str t = Some m →
  actors s !! a = Some x → id x = to m → life x = Started →
  ∃ s2 y, run step (replicate (length (inbox s1)) EvServer) s1 = Some s2 ∧
    actors s2 !! a = Some y ∧ id y = id x ∧ life y = Started ∧ last (mailbox y) = Some t.
Proof. apply deliver_last. Qed.

(** The session a frame arrives at does not matter: the server takes the [from] of
    a message on trust. *)
Lemma sender_is_not_checked s b b' y y' msg :
  actors s !! b = Some y → life y = Started → actors s !! b' = Some y' → life y' = Started →
  step (EvFrame b msg) s = step (EvFrame b' msg) s.
Proof. intros Hy Hl Hy' Hl'. simpl. rewrite Hy, Hy'. simpl. by rewrite !decide_True. Qed.
End Properties.

(** ** Examples *)

(** serde's derived reader of [Message] on the codec of the reference browser:
    [from] and [to] are required strings, a missing or null option is [None]. *)
Definition ref_from_str (text : string) : option (Message jsval) :=
  match parse text with
  | inr (JObj fs) =>
      match obj_get fs "from", obj_get fs "to" with
      | JStr f, JStr t =>
          let opt k := match obj_get fs k with JUndef | JNull => None | v => Some v end in
          Some (mkMessage f t (opt "sdp") (opt "candidate"))
      | _, _ => None
      end
  | _ => None
  end.

Definition RefSerde : SerdeJson := {| Value := jsval; from_str := ref_from_str |}.
#[local] Existing Instance RefSerde.

Definition ex_message (f t : string) : string :=
  stringify [("from", JStr f); ("to", JStr t); ("sdp", JStr "v=0")].

(** alice and bob are connected and registered. *)
Definition ex_two : list Event :=
  [EvConnect "alice"; EvConnect "bob"; EvStarted 0; EvStarted 1; EvServer; EvServer].

(** alice sent two messages to bob and one to nobody; bob got one so far. *)
Definition ex_forwarded : list Event :=
  ex_two ++ [EvFrame 0 (Text (ex_message "alice" "bob")); EvFrame 0 (Text (ex_message "alice" "carol"));
             EvFrame 0 (Text "not json"); EvServer; EvServer; EvWsMessage 1;
             EvFrame 0 (Text (ex_message "mallory" "bob"))].

Lemma sessions_exact_witness :
  sessions (server (final step init ex_two)) !! "bob" = Some 1 ↔
  ∃ x, actors (final step init ex_two) !! 1 = Some x ∧ id x = "bob" ∧ life x = Started.
Proof. apply sessions_exact; by_run. Defined.

Definition ex_bob : WebSocketSession :=
  mkSession "bob" Started [] [welcome_text "bob"; ex_message "alice" "bob"].

Lemma delivered_in_order_witness :
  ∃ l, written ex_bob = welcome_text "bob" :: l ∧
    (l ++ mailbox ex_bob) `sublist_of` texts_for "bob" (accepted (final step init ex_forwarded)).
Proof. apply (delivered_in_order (final step init ex_forwarded) 1 ex_bob); by_run || done. Defined.

Definition ex_alice_message : Message Value :=
  mkMessage "alice" "bob" (Some (JStr "v=0" : @Value RefSerde)) None.

Lemma accepted_message_is_delivered_witness :
  let s1 := next step (EvFrame 0 (Text (ex_message "alice" "bob"))) (final step init ex_forwarded) in
  ∃ s2 y, run step (replicate (length (inbox s1)) EvServer) s1 = Some s2 ∧
    actors s2 !! 1 = Some y ∧ id y = "bob" ∧ life y = Started ∧
    last (mailbox y) = Some (ex_message "alice" "bob").
Proof.
  apply (accepted_message_is_delivered (final step init ex_forwarded) 0
    (ex_message "alice" "bob") ex_alice_message 1 ex_bob
    (next step (EvFrame 0 (Text (ex_message "alice" "bob"))) (final step init ex_forwarded)));
    by_run || done.
Defined.
