(* ===== verification/EndToEnd.v ===== *)
(** * From one page to the other

    The class [Wire] is what the two ends and the server have to agree on: the
    JSON text of a message means the same to the browser that wrote it, to the
    server and to the browser that reads it.  Under it, the first text of a
    session gives the page its id, and an offer or answer that arrives waits for
    the next render. *)
From S2P Require Import Prelude JsValue Json JsonRoundTrip WebrtcConstants SignalingTypes Async Browser Messages ReferenceBrowser React WebrtcHelpers Page PageExamples PageInvariant PageSdp SignalingServer SignalingServerProperties.

From Stdlib Require Import Ascii.

(** A text that JSON does not escape. *)
Definition plain (s : string) : Prop := print_chars s = s.

Class Wire {B : BrowserAPI} {SJ : SerdeJson} : Prop := {
  wire_fields fs :
    NoDup fs.*1 → ∃ v, JSON_parse (JSON_stringify fs) = inr v ∧
      ∀ k x, obj_get fs k = x → canonical x = true → get_prop v k = inr x;
  wire_serde fs f t :
    NoDup fs.*1 → obj_get fs "from" = JStr f → obj_get fs "to" = JStr t →
    ∃ m, from_str (JSON_stringify fs) = Some m ∧ from m = f ∧ to m = t;
  wire_welcome i : plain i → JSON_parse (welcome_text i) = inr (encode (WelcomeMessage i));
}.

(** ** The reference codec is a wire *)

Lemma parse_value_space fuel s : parse_value fuel (String " "%char s) = parse_value fuel s.
Proof. by destruct fuel. Qed.

Lemma parse_members_space fuel acc s :
  parse_members fuel acc (String " "%char s) = parse_members fuel acc s.
Proof. by destruct fuel. Qed.

Lemma parse_welcome i : plain i → parse (welcome_text i) = inr (encode (WelcomeMessage i)).
Proof.
  intros Hi. unfold parse.
  assert (welcome_text i = "{" +:+ print_string "type" +:+ ":" +:+ String " "%char (print (JStr "welcome") +:+
    String ","%char (String " "%char (print_string "id" +:+ ":" +:+ String " "%char (print (JStr i) +:+ "}")))))
    as Heq.
  { assert (print (JStr i) +:+ "}" = String quote (i +:+ String quote "}")) as ->; [|reflexivity].
    change (print (JStr i)) with (print_string i). unfold print_string.
    by rewrite Hi, append_cons, append_assoc. }
  assert (∃ fuel, String.length (welcome_text i) = S (S (S fuel))) as [fuel Hf].
  { rewrite Heq. by eexists. }
  rewrite Hf, Heq, parse_value_object, parse_member_step, parse_value_space.
  rewrite (parse_print_normal (JStr "welcome")) by (simpl; lia || done).
  unfold mbind, option_bind. rewrite skip_ws_id by done. rewrite decide_True by done.
  rewrite parse_members_space, parse_member_step, parse_value_space.
  rewrite (parse_print_normal (JStr i)) by (simpl; lia || done). reflexivity.
Qed.

#[export] Instance ref_wire : @Wire RefBrowser RefSerde.
Proof.
  split.
  - intros fs Hnd. exists (normal (JObj fs)). split; [apply parse_print_any|].
    intros k x Hk Hx. simpl. f_equal. by apply set_fields_canonical.
  - intros fs f t Hnd Hf Ht.
    change (from_str (JSON_stringify fs)) with (ref_from_str (print (JObj fs))).
    unfold ref_from_str. rewrite parse_print_any.
    change (normal (JObj fs)) with (JObj (set_fields [] fs)). cbv beta iota.
    rewrite (set_fields_canonical [] fs "from" _ Hnd Hf), (set_fields_canonical [] fs "to" _ Hnd Ht) by done.
    by eexists.
  - apply parse_welcome.
Qed.

Section EndToEnd.
Context {B : BrowserAPI} {SJ : SerdeJson} {Hwire : Wire}.
Local Abbreviation W := (World Refs State Update Fiber).
Local Abbreviation Page := (Config Refs State Update Fiber unit).
Local Abbreviation page_step := Page.step.
Local Abbreviation server_step := SignalingServer.step.
Implicit Types (c : Page) (s : System).

(** The text of an offer or answer from [a] to [b], as both pages write it. *)
Definition sdp_fields (a b : string) (description : jsval) (t : string) : list (string * jsval) :=
  [("from", JStr a); ("to", JStr b); ("sdp", description); ("type", JStr t)].

Lemma sdp_fields_nodup a b description t : NoDup (sdp_fields a b description t).*1.
Proof. apply (bool_decide_unpack _). done. Qed.

(** ** The welcome *)

Lemma onmessage_welcome env data v id w :
  JSON_parse data = inr v → isWelcomeMessage v = inr true → get_prop v "id" = inr id →
  onmessage env data w =
    (enqueue [SetClientId id] (on_host (log (IoReceive v)) w), Returned []).
Proof.
  intros Hd Hw Hid. unfold onmessage, may_throw, emit, setState, bind, sync, gets, modify.
  rewrite Hd. simpl. rewrite Hw. simpl. by rewrite Hid.
Qed.

(** C16: The first text a session writes gives the page the session's id: the next
    render shows it. *)
Theorem welcome_assigns_session_id s a x t c c' :
  reachable server_step SignalingServer.init s →
  actors s !! a = Some x → head (written x) = Some t → plain (id x) →
  reachable page_step Page.init c → page_step (EvMessage t) c = Some c' →
  clientId (flush apply_update (queue (world c')) (hooks (world c'))) = JStr (id x).
Proof.
  intros Hs Hx Ht Hpl Hc Hst.
  assert (t = welcome_text (id x)) as ->.
  { apply (written_head s a); [done|done|]. by rewrite <-head_lookup. }
  simpl in Hst. cbv zeta in Hst. destruct (mount (fiber (world c))) as [m|]; [|done].
  injection Hst as <-. unfold dispatch.
  rewrite (onmessage_welcome _ _ (encode (WelcomeMessage (id x))) (JStr (id x)));
    [|by apply wire_welcome|done|done].
  cbn [world]. change (clientId (flush apply_update (queue (world c) ++ [SetClientId (JStr (id x))])
    (hooks (world c))) = JStr (id x)).
  rewrite flush_app. simpl. by destruct (flush apply_update (queue (world c)) (hooks (world c))).
Qed.

(** ** Offers and answers *)

(** The page queues the message a wire carries. *)
Lemma sdp_message_is_queued c data v :
  mount (fiber (world c)) ≠ None → JSON_parse data = inr v →
  isWelcomeMessage v = inr false → isSDPMessage v = inr true →
  ∃ c', page_step (EvMessage data) c = Some c' ∧
    fiber (world c') = fiber (world c) ∧ handled (world c') = handled (world c) ∧
    PageSdp.pending (world c') = Some (length (io (host (world c))), v) ∧
    clientId (flush apply_update (queue (world c')) (hooks (world c'))) =
      clientId (flush apply_update (queue (world c)) (hooks (world c))) ∧
    io (host (world c')) = io (host (world c)) ++ [IoReceive v].
Proof.
  intros Hm Hd Hw Hsdp. simpl. destruct (mount (fiber (world c))) as [m|]; [|done].
  eexists. split; [done|]. unfold dispatch. rewrite (onmessage_sdp _ _ v) by done. cbv zeta.
  split_and!; [done| | | |done].
  - change (handled (on_host (log (IoReceive v)) (world c)) = handled (world c)).
    apply (handled_log (world c)). by intros n ?%list_elem_of_singleton.
  - cbn [world]. by rewrite pending_update.
  - cbn [world]. change (clientId (flush apply_update (queue (world c) ++ [SetPendingSDP
      (Some (length (io (host (world c))), v))]) (hooks (world c))) =
      clientId (flush apply_update (queue (world c)) (hooks (world c)))).
    rewrite flush_app. simpl. by destruct (flush apply_update (queue (world c)) (hooks (world c))).
Qed.

End EndToEnd.

(** ** Examples *)

#[local] Existing Instance RefBrowser.
#[local] Existing Instance RefSerde.

Definition ex_alice : WebSocketSession :=
  mkSession "alice" Started [] [welcome_text "alice"].

Definition ex_mounted : list Page.Event := [ex_mount; EvReadyState 0 WS_OPEN].

Lemma welcome_assigns_session_id_witness :
  let c' := next Page.step (EvMessage (welcome_text "alice")) (final Page.step Page.init ex_mounted) in
  clientId (flush apply_update (queue (world c')) (hooks (world c'))) = JStr "alice".
Proof.
  apply (welcome_assigns_session_id (final SignalingServer.step SignalingServer.init ex_two) 0 ex_alice
    (welcome_text "alice") (final Page.step Page.init ex_mounted)
    (next Page.step (EvMessage (welcome_text "alice")) (final Page.step Page.init ex_mounted)));
    by_run.
Defined.
