(* ===== verification/Network.v ===== *)
(** * Pages that meet at a server

    Any number of pages, each running the page's code, and the server, with
    the connections between them: a text a page sends arrives, in order, as a
    frame of its session, and a text a session writes arrives, in order, as a
    message event.  The runs of the network are runs of its parts, so the
    invariants of the parts compose. *)
From S2P Require Import Prelude JsValue Json SignalingTypes Async Browser Messages ReferenceBrowser React WebrtcHelpers Page PageExamples PageInvariant PageHears SignalingServer SignalingServerProperties EndToEnd.

(** The texts of the trace, in order. *)
Definition uploads (tr : list IO) : list string :=
  omap (λ e, match e with IoSend _ t => Some t | _ => None end) tr.

Lemma elem_of_uploads tr t : t ∈ uploads tr → ∃ ws, IoSend ws t ∈ tr.
Proof. unfold uploads. rewrite list_elem_of_omap. intros ([] & ? & ?); simplify_eq. by eexists. Qed.

Section Network.
Context {B : BrowserAPI} {SJ : SerdeJson}.
Local Abbreviation Page := (Config Refs State Update Fiber unit).

(** A page with its connection: the address of its session, and how many texts
    have arrived in either direction. *)
Record Client := mkClient { page : Page; session : option nat; up : nat; down : nat }.

Record Network := mkNetwork { signaling : System; clients : list Client }.

Definition page_io (c : Client) : list IO := io (host (world (page c))).

Inductive NetEvent :=
| NetPage (p : nat) (e : Page.Event)
| NetOpen (p : nat) (i : string)
| NetUp (p : nat)
| NetDown (p : nat)
| NetServer (e : SignalingServer.Event).

Definition is_message (e : Page.Event) : bool :=
  match e with EvMessage _ => true | _ => false end.

(** The turns of the actors that the network does not cause. *)
Definition own_turn (e : SignalingServer.Event) : bool :=
  match e with EvConnect _ | EvFrame _ _ => false | _ => true end.

Definition set_client (p : nat) (c : Client) (n : Network) : Network :=
  mkNetwork (signaling n) (<[p := c]> (clients n)).

Definition set_server (s : System) (n : Network) : Network := mkNetwork s (clients n).

(** An id is a uuid: it is not empty, and JSON does not escape its characters. *)
Definition net_step (e : NetEvent) (n : Network) : option Network :=
  match e with
  | NetPage p e =>
      c ← clients n !! p;
      if is_message e then None
      else pg ← Page.step e (page c);
           Some (set_client p (mkClient pg (session c) (up c) (down c)) n)
  | NetOpen p i =>
      c ← clients n !! p;
      if bool_decide (session c = None ∧ sockets (host (world (page c))) ≠ [] ∧ i ≠ "" ∧ plain i) then
        s ← SignalingServer.step (EvConnect i) (signaling n);
        Some (set_client p (mkClient (page c) (Some (length (actors (signaling n)))) (up c) (down c))
                (set_server s n))
      else None
  | NetUp p =>
      c ← clients n !! p;
      a ← session c;
      t ← uploads (page_io c) !! up c;
      s ← SignalingServer.step (EvFrame a (Text t)) (signaling n);
      Some (set_client p (mkClient (page c) (session c) (S (up c)) (down c)) (set_server s n))
  | NetDown p =>
      c ← clients n !! p;
      a ← session c;
      x ← actors (signaling n) !! a;
      t ← written x !! down c;
      pg ← Page.step (EvMessage t) (page c);
      Some (set_client p (mkClient pg (session c) (up c) (S (down c))) n)
  | NetServer e =>
      if own_turn e then s ← SignalingServer.step e (signaling n); Some (set_server s n) else None
  end.

Definition net_init (k : nat) : Network :=
  mkNetwork SignalingServer.init (replicate k (mkClient Page.init None 0 0)).
End Network.

(** ** The server's turns *)

Section Server.
Context {SJ : SerdeJson}.
Implicit Types (s : System).

(** Every session stays, under its id. *)
Definition ids_kept s s' : Prop :=
  ∀ a x, actors s !! a = Some x → ∃ x', actors s' !! a = Some x' ∧ id x' = id x.

#[export] Instance ids_kept_preorder : PreOrder ids_kept.
Proof.
  split; [intros s a x; by exists x|]. intros s1 s2 s3 H12 H23 a x Hx.
  destruct (H12 a x Hx) as (y & Hy & Hid). destruct (H23 a y Hy) as (z & Hz & Hid').
  exists z. by rewrite <-Hid.
Qed.

Lemma ids_kept_same s s' : id <$> actors s' = id <$> actors s → ids_kept s s'.
Proof.
  intros Heq a x Hx. assert ((id <$> actors s') !! a = Some (id x)) as Ha
    by (by rewrite Heq, list_lookup_fmap, Hx).
  rewrite list_lookup_fmap in Ha. by apply fmap_Some in Ha as (x' & ? & ->); exists x'.
Qed.

Lemma ids_server m s : id <$> actors (handle_server m s) = id <$> actors s.
Proof.
  destruct m as [i a|i|i t]; [done..|]. simpl. unfold handle_SendMessage.
  case_match; [|done]. apply ids_on_actor. intros x. by destruct (life x).
Qed.

(** A turn of an actor keeps the ids and accepts nothing. *)
Lemma own_turn_keeps e s s' :
  own_turn e = true → SignalingServer.step e s = Some s' →
  id <$> actors s' = id <$> actors s ∧ accepted s' = accepted s.
Proof.
  intros He Hs. destruct e as [i|a|a msg|a|a|]; simpl in *; try done.
  - destruct (actors s !! a) as [x|]; [|done]. simpl in Hs. case_decide; simplify_eq.
    split; [|done]. unfold started. by rewrite ids_on_actor.
  - destruct (actors s !! a) as [x|]; [|done]. simpl in Hs. case_decide; [|done].
    destruct (mailbox x); simplify_eq. split; [|done].
    unfold handle_WsMessage, pop_mailbox. by rewrite !ids_on_actor.
  - destruct (actors s !! a) as [x|]; [|done]. simpl in Hs. case_decide; simplify_eq.
    split; [|done]. unfold stopping. by rewrite ids_on_actor.
  - destruct (inbox s) as [|m rest]; simplify_eq. split; [by rewrite ids_server|].
    destruct m as [| |i t]; [done..|]. simpl. unfold handle_SendMessage. by case_match.
Qed.

(** What a session wrote is its welcome, or was accepted for its id. *)
Lemma written_source s a x t :
  reachable SignalingServer.step SignalingServer.init s → actors s !! a = Some x → t ∈ written x →
  t = welcome_text (id x) ∨ (id x, t) ∈ accepted s.
Proof.
  intros Hs Hx Ht. destruct (reachable_system s Hs) as [_ (done & -> & Hok) _].
  pose proof (Forall_lookup_1 _ _ _ _ Hok Hx) as Hxo. unfold session_ok in Hxo.
  assert (written x = [] ∨ ∃ l, written x = welcome_text (id x) :: l ∧
    (l ++ mailbox x) `sublist_of` texts_for (id x) done) as [Hw|(l & Hw & Hsub)]
    by (destruct (life x); [left; apply Hxo|right; done..]).
  - rewrite Hw in Ht. by apply not_elem_of_nil in Ht.
  - rewrite Hw in Ht. apply elem_of_cons in Ht as [->|Ht]; [by left|right].
    assert (t ∈ texts_for (id x) done) as Hin.
    { eapply elem_of_sublist; [|exact Hsub]. apply elem_of_app. by left. }
    unfold texts_for in Hin. apply list_elem_of_omap in Hin as ([i u] & Hin & Heq). simpl in Heq.
    case_decide; simplify_eq. apply elem_of_app. by left.
Qed.
End Server.

Section Authentic.
Context {B : BrowserAPI} {SJ : SerdeJson} {Hwire : Wire}.
Local Abbreviation server_reachable := (reachable SignalingServer.step SignalingServer.init).
Local Abbreviation page_reachable := (reachable Page.step Page.init).
Implicit Types (n : Network) (c : Client) (x : WebSocketSession) (v : jsval).

(** ** What a network carries *)

(** [t] is an offer or answer to [to], sent by the page whose session has the id
    [i]. *)
Definition honest n (t i to : string) : Prop :=
  ∃ c a x ws d ty, c ∈ clients n ∧ session c = Some a ∧ actors (signaling n) !! a = Some x ∧
    id x = i ∧ IoSend ws t ∈ page_io c ∧ (ty = "offer" ∨ ty = "answer") ∧
    t = JSON_stringify (sdp_fields i to d ty).

(** A value that may arrive at the page of the session [x]. *)
Definition carried n x v : Prop :=
  v = encode (WelcomeMessage (id x)) ∨ ∃ i t, honest n t i (id x) ∧ JSON_parse t = inr v.

Record net_inv n : Prop := {
  net_server : server_reachable (signaling n);
  net_pages c : c ∈ clients n → page_reachable (page c);
  net_plain x : x ∈ actors (signaling n) → plain (id x);
  net_accepted to t : (to, t) ∈ accepted (signaling n) → ∃ i, honest n t i to;
  net_heard c v : c ∈ clients n → v ∈ received (page_io c) →
    ∃ a x, session c = Some a ∧ actors (signaling n) !! a = Some x ∧ carried n x v;
}.

(** What a network becomes. *)
Record client_later (c c' : Client) : Prop := {
  later_io : page_io c `prefix_of` page_io c';
  later_session a : session c = Some a → session c' = Some a;
}.

Record evolves n n' : Prop := {
  evolves_clients : Forall2 client_later (clients n) (clients n');
  evolves_ids : ids_kept (signaling n) (signaling n');
}.

Lemma client_later_refl c : client_later c c.
Proof. by split. Qed.

Lemma clients_update p c c' (l : list Client) :
  l !! p = Some c → client_later c c' → Forall2 client_later l (<[p := c']> l).
Proof.
  intros Hp Hc. rewrite <-(list_insert_id l p c Hp) at 1. apply Forall2_insert; [|done].
  apply Forall_Forall2_diag, Forall_true, client_later_refl.
Qed.

Lemma evolves_client n n' c :
  evolves n n' → c ∈ clients n → ∃ c', c' ∈ clients n' ∧ client_later c c'.
Proof.
  intros [Hc _] [p Hp]%list_elem_of_lookup. destruct (Forall2_lookup_l _ _ _ _ _ Hc Hp) as (c' & Hp' & ?).
  exists c'. split; [by eapply list_elem_of_lookup_2|done].
Qed.

Lemma honest_later n n' t i to : evolves n n' → honest n t i to → honest n' t i to.
Proof.
  intros He (c & a & x & ws & d & ty & Hc & Ha & Hx & <- & Hio & Hty & Ht).
  destruct (evolves_client _ _ _ He Hc) as (c' & Hc' & [[l Hl] Hs]).
  destruct (evolves_ids _ _ He a x Hx) as (x' & Hx' & Hid).
  exists c', a, x', ws, d, ty. split_and!; auto. rewrite Hl. apply elem_of_app. by left.
Qed.

Lemma carried_later n n' x x' v : evolves n n' → id x' = id x → carried n x v → carried n' x' v.
Proof.
  intros He Hid [->|(i & t & Hh & Hv)]; [left; by rewrite Hid|right].
  exists i, t. rewrite Hid. split; [by eapply honest_later|done].
Qed.
(** ** The values of the texts *)

Lemma honest_value n t i to v :
  honest n t i to → JSON_parse t = inr v →
  get_prop v "from" = inr (JStr i) ∧ get_prop v "to" = inr (JStr to) ∧
  ∃ ty, get_prop v "type" = inr (JStr ty) ∧ (ty = "offer" ∨ ty = "answer").
Proof.
  intros (c & a & x & ws & d & ty & _ & _ & _ & _ & _ & Hty & ->) Hv.
  destruct (wire_fields (sdp_fields i to d ty)) as (v' & Hv' & Hf); [apply sdp_fields_nodup|].
  rewrite Hv in Hv'. injection Hv' as <-. split_and!; [by apply Hf..|]. exists ty. by split; [apply Hf|].
Qed.

Lemma carried_welcome n x v i :
  carried n x v → isWelcomeMessage v = inr true → get_prop v "id" = inr i → i = JStr (id x).
Proof.
  intros [->|(j & t & Hh & Hv)] Hw Hi; [by injection Hi|]. exfalso.
  destruct (honest_value _ _ _ _ _ Hh Hv) as (_ & _ & ty & Hty & [-> | ->]);
    unfold isWelcomeMessage, type_is in Hw; rewrite Hty in Hw; done.
Qed.

Lemma carried_named n x v p :
  carried n x v → isSDPMessage v = inr true ∨ isICECandidateMessage v = inr true →
  get_prop v "from" = inr p → ∃ s, p = JStr s.
Proof.
  intros [->|(j & t & Hh & Hv)] Hg Hp; [by destruct Hg|]. exists j.
  destruct (honest_value _ _ _ _ _ Hh Hv) as (Hf & _). rewrite Hf in Hp. by injection Hp.
Qed.

Lemma heard_trace n c v :
  net_inv n → c ∈ clients n → IoReceive v ∈ page_io c →
  ∃ a x, session c = Some a ∧ actors (signaling n) !! a = Some x ∧ carried n x v.
Proof. intros Hn Hc Hv. apply (net_heard _ Hn); [done|]. by apply elem_of_received. Qed.

Lemma network_welcomed n c i :
  net_inv n → c ∈ clients n → welcomed (page_io c) i →
  ∃ a x, session c = Some a ∧ actors (signaling n) !! a = Some x ∧ i = JStr (id x).
Proof.
  intros Hn Hc (v & Hv & Hw & Hi). destruct (heard_trace n c v Hn Hc Hv) as (a & x & ? & ? & Hx).
  exists a, x. split_and!; [done|done|by eapply carried_welcome].
Qed.

Lemma network_named n c p :
  net_inv n → c ∈ clients n → named_peer (page_io c) p → ∃ s, p = JStr s.
Proof.
  intros Hn Hc [?|(v & Hv & Hg & Hp)]; [done|].
  destruct (heard_trace n c v Hn Hc Hv) as (a & x & _ & _ & Hx). by eapply carried_named.
Qed.

(** Every text of a page is honest. *)
Lemma page_texts n c ws t :
  net_inv n → c ∈ clients n → IoSend ws t ∈ page_io c →
  ∃ a x to d ty, session c = Some a ∧ actors (signaling n) !! a = Some x ∧
    (ty = "offer" ∨ ty = "answer") ∧ t = JSON_stringify (sdp_fields (id x) to d ty).
Proof.
  intros Hn Hc Ht. destruct (reachable_ok _ (net_pages _ Hn c Hc)) as [Hi _].
  destruct (inv_sent _ Hi _ _ Ht) as (env & Henv & Hcl & Htext).
  pose proof (inv_renders _ Hi _ Henv) as Hok.
  destruct (network_welcomed n c _ Hn Hc (env_client _ _ Hok Hcl)) as (a & x & Ha & Hx & Hid).
  destruct Htext as [(d & _ & ->)|(from & d & Hoff & ->)].
  - destruct (network_named n c _ Hn Hc (env_peer _ _ Hok)) as [to Hto].
    exists a, x, to, d, "offer". split_and!; [done|done|by left|]. unfold offer_text. by rewrite Hid, Hto.
  - destruct Hoff as (k & v & sdp & [Hk Hsdp] & Hf & _).
    destruct (network_named n c from Hn Hc) as [to ->].
    { right. exists v. split_and!; [by eapply list_elem_of_lookup_2|by left|done]. }
    exists a, x, to, d, "answer". split_and!; [done|done|by right|]. unfold answer_text. by rewrite Hid.
Qed.
(** ** The steps *)

(** What has to be checked of a step: the parts are reachable, what is new of the
    server's messages is honest, and what is new of the received values is
    carried. *)
Lemma net_inv_step n n' :
  net_inv n → evolves n n' → server_reachable (signaling n') →
  (∀ c, c ∈ clients n' → page_reachable (page c)) →
  (∀ x, x ∈ actors (signaling n') → plain (id x)) →
  (∀ to t, (to, t) ∈ accepted (signaling n') →
     (to, t) ∈ accepted (signaling n) ∨ ∃ i, honest n' t i to) →
  (∀ p c c' v, clients n !! p = Some c → clients n' !! p = Some c' → v ∈ received (page_io c') →
     v ∈ received (page_io c) ∨
     ∃ a x, session c' = Some a ∧ actors (signaling n) !! a = Some x ∧ carried n x v) →
  net_inv n'.
Proof.
  intros Hn He Hs Hp Hx Hacc Hv. split; [done|done|done| |].
  - intros to t Hin. destruct (Hacc to t Hin) as [Hin'|?]; [|done].
    destruct (net_accepted _ Hn _ _ Hin') as [i Hi]. exists i. by eapply honest_later.
  - intros c' v [p Hc']%list_elem_of_lookup Hin.
    destruct (Forall2_lookup_r _ _ _ _ _ (evolves_clients _ _ He) Hc') as (c & Hc & [_ Hses]).
    cut (∃ a x, session c' = Some a ∧ actors (signaling n) !! a = Some x ∧ carried n x v).
    { intros (a & x & Ha & Hax & Hcar). destruct (evolves_ids _ _ He a x Hax) as (x' & Hx' & Hid).
      exists a, x'. split_and!; [done|done|by eapply carried_later]. }
    destruct (Hv p c c' v Hc Hc' Hin) as [Hold|?]; [|done].
    destruct (net_heard _ Hn c v) as (a & x & ? & ? & ?); [by eapply list_elem_of_lookup_2|done|].
    exists a, x. auto.
Qed.

(** A client whose page makes a step. *)
Lemma page_client_later c pg u d e :
  page_reachable (page c) → Page.step e (page c) = Some pg →
  client_later c (mkClient pg (session c) u d) ∧
  received (page_io (mkClient pg (session c) u d)) = received (page_io c) ++ receives e.
Proof.
  intros Hc Hs. destruct (step_ok _ _ _ (reachable_ok _ Hc) Hs) as [_ [Hio _ _ _]].
  split; [by split|]. by destruct (step_receives _ _ _ (reachable_hears _ Hc) Hs) as (_ & ? & _).
Qed.

(** The members of an updated list. *)
Lemma clients_reachable n p c :
  net_inv n → page_reachable (page c) →
  ∀ c', c' ∈ <[p := c]> (clients n) → page_reachable (page c').
Proof.
  intros Hn Hc c' [q Hq]%list_elem_of_lookup. apply list_lookup_insert_Some in Hq as [(_ & <- & _)|[_ Hq]].
  - done.
  - eapply net_pages; [done|by eapply list_elem_of_lookup_2].
Qed.

(** One client changes, and hears what is new. *)
Lemma client_inv n p c c' s' :
  net_inv n → clients n !! p = Some c → client_later c c' → page_reachable (page c') →
  let n' := mkNetwork s' (<[p := c']> (clients n)) in
  ids_kept (signaling n) s' → server_reachable s' →
  (∀ x, x ∈ actors s' → plain (id x)) →
  (∀ to t, (to, t) ∈ accepted s' →
     (to, t) ∈ accepted (signaling n) ∨ ∃ i, honest n' t i to) →
  (∀ v, v ∈ received (page_io c') → v ∈ received (page_io c) ∨
     ∃ a x, session c' = Some a ∧ actors (signaling n) !! a = Some x ∧ carried n x v) →
  net_inv n'.
Proof.
  intros Hn Hp Hl Hc' n' Hids Hs Hx Hacc Hv.
  apply (net_inv_step n); [done|split; [by eapply clients_update|done]|done| |done|done|].
  - by apply clients_reachable.
  - intros q d d' v Hd Hd' Hin. apply list_lookup_insert_Some in Hd' as [(<- & <- & _)|[_ Hd']];
      simplify_eq; [by apply Hv|by left].
Qed.
Lemma net_page_inv n p e c pg u d :
  net_inv n → clients n !! p = Some c → Page.step e (page c) = Some pg →
  (∀ v, v ∈ receives e →
     ∃ a x, session c = Some a ∧ actors (signaling n) !! a = Some x ∧ carried n x v) →
  net_inv (set_client p (mkClient pg (session c) u d) n).
Proof.
  intros Hn Hp Hs Hv. pose proof (list_elem_of_lookup_2 _ _ _ Hp) as Hc.
  pose proof (net_pages _ Hn c Hc) as Hpc. destruct (page_client_later c pg u d e Hpc Hs) as [Hl Hr].
  eapply client_inv; [done|done|done|by eapply reach_step|done|apply Hn|apply Hn|by left|].
  intros v. rewrite Hr, elem_of_app. intros [?|?]; [by left|right; auto].
Qed.

Lemma net_open_inv n p i c s' :
  net_inv n → clients n !! p = Some c → session c = None → plain i →
  SignalingServer.step (EvConnect i) (signaling n) = Some s' →
  net_inv (set_client p (mkClient (page c) (Some (length (actors (signaling n)))) (up c) (down c))
             (set_server s' n)).
Proof.
  intros Hn Hp Hses Hi Hs. pose proof (reach_step _ _ _ _ _ (net_server _ Hn) Hs) as Hr.
  pose proof (net_pages _ Hn c (list_elem_of_lookup_2 _ _ _ Hp)) as Hpc.
  simpl in Hs. destruct (fresh i (signaling n)); [|done]. injection Hs as <-.
  apply (client_inv n p c); [done|done| |done| |done| |by left|by left].
  - split; [done|]. intros a. by rewrite Hses.
  - intros a x Hx. exists x. split; [|done]. simpl. by apply lookup_snoc_old.
  - intros x. simpl. rewrite elem_of_app, list_elem_of_singleton.
    intros [?| ->]; [by apply (net_plain _ Hn)|done].
Qed.

Lemma net_up_inv n p c a t s' :
  net_inv n → clients n !! p = Some c → session c = Some a → t ∈ uploads (page_io c) →
  SignalingServer.step (EvFrame a (Text t)) (signaling n) = Some s' →
  net_inv (set_client p (mkClient (page c) (session c) (S (up c)) (down c)) (set_server s' n)).
Proof.
  intros Hn Hp Ha Ht Hs. pose proof (list_elem_of_lookup_2 _ _ _ Hp) as Hc.
  destruct (elem_of_uploads _ _ Ht) as [ws Hio].
  destruct (page_texts n c ws t Hn Hc Hio) as (a' & x & to & d & ty & Ha' & Hx & Hty & Heq).
  simplify_eq. destruct (wire_serde (sdp_fields (id x) to d ty) (id x) to)
    as (m & Hm & _ & Hto); [apply sdp_fields_nodup|done|done|].
  pose proof (reach_step _ _ _ _ _ (net_server _ Hn) Hs) as Hr.
  simpl in Hs. rewrite Hx in Hs. simpl in Hs. case_decide; [|done]. simplify_eq.
  unfold handle_frame in *. rewrite Hm in *.
  set (c' := mkClient _ _ _ _).
  apply (client_inv n p c c'); [done|done|by split|by apply (net_pages _ Hn c)| |done| | |by left].
  - by apply ids_kept_same.
  - apply Hn.
  - intros to' t'. simpl. rewrite elem_of_app, list_elem_of_singleton.
    intros [?|[= -> ->]]; [by left|right]. exists (id x), c', a, x, ws, d, ty.
    split_and!; [|done..]. simpl.
    apply list_elem_of_lookup. exists p. apply list_lookup_insert_eq. by eapply lookup_lt_Some.
Qed.

Lemma net_step_inv e n n' : net_inv n → net_step e n = Some n' → net_inv n'.
Proof.
  intros Hn Hs. destruct e as [p e|p i|p|p|e]; simpl in Hs;
    try (destruct (clients n !! p) as [c|] eqn:Hp; [simpl in Hs|done]).
  - destruct (is_message e) eqn:He; [done|]. destruct (Page.step e (page c)) as [pg|] eqn:Hpg; [|done].
    simplify_eq/=. eapply net_page_inv; [done..|]. intros v Hv. destruct e; try done;
    by apply not_elem_of_nil in Hv.
  - case_bool_decide as Hopen; [|done]. destruct Hopen as (? & _ & _ & ?).
    destruct (fresh i (signaling n)) eqn:Hf; [|done]. simplify_eq/=.
    apply (net_open_inv n p i c); try done. simpl. by rewrite Hf.
  - destruct (session c) as [a|] eqn:Ha; [simpl in Hs|done].
    destruct (uploads (page_io c) !! up c) as [t|] eqn:Ht; [simpl in Hs|done].
    destruct (actors (signaling n) !! a) as [x|] eqn:Hx; [simpl in Hs|done].
    case_decide as Hlife; [|done]. simpl in Hs. simplify_eq. rewrite <-Ha.
    eapply net_up_inv; [done..|by eapply list_elem_of_lookup_2|].
    simpl. rewrite Hx. simpl. by rewrite decide_True.
  - destruct (session c) as [a|] eqn:Ha; [simpl in Hs|done].
    destruct (actors (signaling n) !! a) as [x|] eqn:Hx; [simpl in Hs|done].
    destruct (written x !! down c) as [t|] eqn:Ht; [simpl in Hs|done].
    destruct (mount (fiber (world (page c)))) as [m|] eqn:Hm; [|done]. simplify_eq/=. rewrite <-Ha.
    eapply (net_page_inv n p (EvMessage t)); [done|done|by simpl; rewrite Hm|].
    intros v Hv. exists a, x. split_and!; [done|done|]. simpl in Hv.
    destruct (JSON_parse t) as [|v'] eqn:Hpt; [by apply not_elem_of_nil in Hv|].
    apply list_elem_of_singleton in Hv as ->.
    destruct (written_source (signaling n) a x t) as [->|Hin];
      [apply Hn|done|by eapply list_elem_of_lookup_2| |].
    + left. rewrite wire_welcome in Hpt; [by simplify_eq|].
      apply (net_plain _ Hn). by eapply list_elem_of_lookup_2.
    + right. destruct (net_accepted _ Hn _ _ Hin) as [i Hi]. by exists i, t.
  - destruct (own_turn e) eqn:He; [|done].
    destruct (SignalingServer.step e (signaling n)) as [s'|] eqn:Hst; [|done]. simplify_eq/=.
    destruct (own_turn_keeps _ _ _ He Hst) as [Heq Hacc]. pose proof (ids_kept_same _ _ Heq) as Hids.
    apply (net_inv_step n); [done| | |apply Hn| | |].
    + split; [|done]. apply Forall_Forall2_diag, Forall_true, client_later_refl.
    + eapply reach_step; [apply Hn|done].
    + intros x Hx. assert (id x ∈ id <$> actors (signaling n)) as Hin
        by (rewrite <-Heq; by apply list_elem_of_fmap_2).
      apply list_elem_of_fmap in Hin as (y & -> & Hy). by apply (net_plain _ Hn).
    + intros to t. simpl. rewrite Hacc. by left.
    + intros q d d' v Hd Hd' Hin. simplify_eq/=. by left.
Qed.

Lemma init_net_inv k : net_inv (net_init k).
Proof.
  split.
  - apply reach_init.
  - intros c ->%elem_of_replicate_inv. apply reach_init.
  - intros x Hx. by apply not_elem_of_nil in Hx.
  - intros to t Hin. by apply not_elem_of_nil in Hin.
  - intros c v ->%elem_of_replicate_inv Hv. by apply not_elem_of_nil in Hv.
Qed.

Lemma reachable_net k n : reachable net_step (net_init k) n → net_inv n.
Proof.
  revert n. apply reachable_ind_inv; [apply init_net_inv|]. intros e n n' Hn Hs. by eapply net_step_inv.
Qed.

(** ** The sessions of the pages *)

Definition sessions_of n : list (option nat) := session <$> clients n.

(** No two pages share a session. *)
Definition apart n : Prop :=
  (∀ p q a, sessions_of n !! p = Some (Some a) → sessions_of n !! q = Some (Some a) → p = q) ∧
  ∀ p a, sessions_of n !! p = Some (Some a) → a < length (actors (signaling n)).

Lemma sessions_update p c c' n m :
  clients n !! p = Some c → clients m = clients n → session c' = session c →
  sessions_of (set_client p c' m) = sessions_of n.
Proof.
  intros Hp Hm Hs. unfold sessions_of. simpl. rewrite Hm, list_fmap_insert, Hs.
  apply list_insert_id. by rewrite list_lookup_fmap, Hp.
Qed.

Lemma apart_same n n' :
  sessions_of n' = sessions_of n → length (actors (signaling n)) ≤ length (actors (signaling n')) →
  apart n → apart n'.
Proof.
  intros Hs Hl [Hd Hb]. unfold apart. rewrite Hs. split; [done|].
  intros p a Hp. pose proof (Hb p a Hp). lia.
Qed.

Lemma apart_open p i c n :
  let a := length (actors (signaling n)) in
  apart n → apart (mkNetwork (ws_handler i (signaling n)) (<[p := mkClient (page c) (Some a) (up c) (down c)]> (clients n))).
Proof.
  intros a [Hd Hb]. unfold apart, sessions_of. simpl. rewrite list_fmap_insert, length_app. simpl.
  assert (∀ q b, <[p := Some a]> (sessions_of n) !! q = Some (Some b) →
    (q = p ∧ b = a) ∨ (q ≠ p ∧ sessions_of n !! q = Some (Some b) ∧ b < a)) as Hcase.
  { intros q b [(-> & [= ->] & _)|[? ?]]%list_lookup_insert_Some; [by left|right]. eauto. }
  split.
  - intros q r b [[-> ->]|(_ & Hq & ?)]%Hcase [[-> Heq]|(_ & Hr & ?)]%Hcase; [done|lia|lia|eauto].
  - intros q b [[_ ->]|(_ & _ & ?)]%Hcase; unfold a in *; lia.
Qed.

Lemma net_step_apart e n n' : apart n → net_step e n = Some n' → apart n'.
Proof.
  intros Ha Hs. destruct e as [p e|p i|p|p|e]; simpl in Hs;
    try (destruct (clients n !! p) as [c|] eqn:Hp; [simpl in Hs|done]).
  - destruct (is_message e); [done|]. destruct (Page.step e (page c)); [|done]. simplify_eq/=.
    apply (apart_same n); [by apply (sessions_update p c)|done|done].
  - case_bool_decide; [|done]. destruct (fresh i (signaling n)); [|done]. simplify_eq/=.
    exact (apart_open p i c n Ha).
  - destruct (session c) as [a|] eqn:Hc; [simpl in Hs|done].
    destruct (uploads (page_io c) !! up c) as [t|]; [simpl in Hs|done].
    destruct (actors (signaling n) !! a); [simpl in Hs|done]. case_decide; [|done]. simplify_eq/=.
    apply (apart_same n); [by apply (sessions_update p c)| |done].
    unfold handle_frame. by destruct (from_str t).
  - destruct (session c) as [a|] eqn:Hc; [simpl in Hs|done].
    destruct (actors (signaling n) !! a) as [x|]; [simpl in Hs|done].
    destruct (written x !! down c); [simpl in Hs|done].
    destruct (mount (fiber (world (page c)))); [|done]. simplify_eq/=.
    apply (apart_same n); [by apply (sessions_update p c)|done|done].
  - destruct (own_turn e) eqn:He; [|done].
    destruct (SignalingServer.step e (signaling n)) as [s'|] eqn:Hst; [|done]. simplify_eq/=.
    destruct (own_turn_keeps _ _ _ He Hst) as [Heq _]. apply (apart_same n); [done| |done].
    simpl. by rewrite <-(length_fmap id (actors s')), Heq, length_fmap.
Qed.

Lemma reachable_apart k n : reachable net_step (net_init k) n → apart n.
Proof.
  revert n. apply reachable_ind_inv; [|intros e n n' Hn Hs; by eapply net_step_apart].
  unfold apart, sessions_of. simpl. rewrite fmap_replicate.
  split; intros p *; intros [? _]%lookup_replicate; done.
Qed.

(** C2: However the pages and the server interleave: what a page receives is the
    welcome with the id of its own session, or an offer or answer addressed to
    that id, which a page of the network sent, and whose [from] is the id of
    the session of the page that sent it. *)
Theorem network_is_authentic k n c v :
  reachable net_step (net_init k) n → c ∈ clients n → v ∈ received (page_io c) →
  ∃ a x, session c = Some a ∧ actors (signaling n) !! a = Some x ∧
    (v = encode (WelcomeMessage (id x)) ∨
     isSDPMessage v = inr true ∧ get_prop v "to" = inr (JStr (id x)) ∧
     ∃ c' a' x' ws t, c' ∈ clients n ∧ session c' = Some a' ∧
       actors (signaling n) !! a' = Some x' ∧ get_prop v "from" = inr (JStr (id x')) ∧
       IoSend ws t ∈ page_io c' ∧ JSON_parse t = inr v).
Proof.
  intros Hr Hc Hv. pose proof (reachable_net k n Hr) as Hn.
  destruct (net_heard _ Hn c v Hc Hv) as (a & x & Ha & Hx & [Hw|(i & t & Hh & Ht)]);
    exists a, x; (split_and!; [done|done|]); [by left|right].
  destruct (honest_value _ _ _ _ _ Hh Ht) as (Hf & Hto & ty & Hty & Hcase).
  destruct Hh as (c' & a' & x' & ws & d & _ & Hc' & Ha' & Hx' & <- & Hio & _ & _).
  split_and!; [|done|by exists c', a', x', ws, t].
  unfold isSDPMessage, type_is. rewrite Hty. by destruct Hcase as [-> | ->].
Qed.

(** C14: A page that has an id has the one of its own session, in every render, and no
    two pages have the same. *)
Theorem network_ids_are_own k n p c env :
  reachable net_step (net_init k) n → clients n !! p = Some c →
  env ∈ hooks (world (page c)) :: renders (fiber (world (page c))) → clientId env ≠ JNull →
  (∃ a x, session c = Some a ∧ actors (signaling n) !! a = Some x ∧ clientId env = JStr (id x)) ∧
  ∀ q d env', clients n !! q = Some d →
    env' ∈ hooks (world (page d)) :: renders (fiber (world (page d))) →
    clientId env' = clientId env → q = p.
Proof.
  intros Hr Hp Henv Hnull. pose proof (reachable_net k n Hr) as Hn.
  assert (∀ q d e, clients n !! q = Some d →
    e ∈ hooks (world (page d)) :: renders (fiber (world (page d))) → clientId e ≠ JNull →
    ∃ a x, session d = Some a ∧ actors (signaling n) !! a = Some x ∧ clientId e = JStr (id x)) as Hown.
  { intros q d e Hq He Hne. pose proof (list_elem_of_lookup_2 _ _ _ Hq) as Hd.
    destruct (reachable_ok _ (net_pages _ Hn d Hd)) as [Hi _].
    assert (env_ok (world (page d)) e) as Hok
      by (apply elem_of_cons in He as [->|?]; [apply Hi|by apply (inv_renders _ Hi)]).
    destruct (env_id _ _ Hok) as [?|Hw]; [done|]. by apply network_welcomed. }
  split; [by apply (Hown p c)|]. intros q d env' Hq Henv' Heq.
  destruct (Hown p c env Hp Henv Hnull) as (a & x & Ha & Hx & Hid).
  destruct (Hown q d env' Hq Henv') as (b & y & Hb & Hy & Hid'); [congruence|].
  destruct (reachable_system _ (net_server _ Hn)) as [[Hnd _] _ _].
  assert (b = a) as -> by (apply (id_unique (signaling n) b a y x); [done..|congruence]).
  destruct (reachable_apart k n Hr) as [Hap _]. apply (Hap q p a); unfold sessions_of;
    by rewrite list_lookup_fmap, ?Hq, ?Hp; simpl; f_equal.
Qed.
End Authentic.

(** ** Examples *)

#[local] Existing Instance RefBrowser.
#[local] Existing Instance RefSerde.

(** Two pages meet: bob's user types alice's id, and alice's page gets the
    offer. *)
Definition ex_join (p : nat) (i : string) : list NetEvent :=
  [NetPage p ex_mount; NetOpen p i; NetServer (EvStarted p); NetServer EvServer;
   NetPage p (EvReadyState 0 WS_OPEN); NetDown p; NetPage p (EvSettle 0 ex_resolve); NetPage p EvRender].

Definition ex_calling : list NetEvent :=
  ex_join 0 "alice" ++ ex_join 1 "bob" ++
  [NetPage 1 (EvInput "alice"); NetPage 1 EvRender; NetPage 1 Page.EvConnect;
   NetPage 1 (EvSettle 1 ex_resolve); NetPage 1 (EvSettle 1 ex_resolve)].

Definition ex_meeting : list NetEvent :=
  ex_calling ++ [NetUp 1; NetServer EvServer; NetServer (EvWsMessage 0); NetDown 0; NetPage 0 EvRender].

Definition ex_network : Network := final net_step (net_init 2) ex_meeting.

Definition ex_message : jsval := JObj (sdp_fields "bob" "alice" (ex_sdp "offer") "offer").

Definition ex_client (p : nat) : Client := default (mkClient Page.init None 0 0) (clients ex_network !! p).

Example ex_alice_hears :
  received (page_io (ex_client 0)) = [encode (WelcomeMessage "alice"); ex_message].
Proof. vm_compute. reflexivity. Qed.

Lemma ex_client_lookup : clients ex_network !! 0 = Some (ex_client 0).
Proof.
  assert (bool_decide (is_Some (clients ex_network !! 0)) = true) as Hs%bool_decide_eq_true
    by (vm_compute; reflexivity).
  unfold ex_client. by destruct (clients ex_network !! 0); [|destruct Hs].
Qed.

Lemma network_is_authentic_witness :
  ∃ a x, session (ex_client 0) = Some a ∧ actors (signaling ex_network) !! a = Some x ∧
    (ex_message = encode (WelcomeMessage (id x)) ∨
     isSDPMessage ex_message = inr true ∧ get_prop ex_message "to" = inr (JStr (id x)) ∧
     ∃ c' a' x' ws t, c' ∈ clients ex_network ∧ session c' = Some a' ∧
       actors (signaling ex_network) !! a' = Some x' ∧ get_prop ex_message "from" = inr (JStr (id x')) ∧
       IoSend ws t ∈ page_io c' ∧ JSON_parse t = inr ex_message).
Proof.
  apply (network_is_authentic 2 ex_network (ex_client 0)).
  - apply reachable_final. vm_compute. reflexivity.
  - eapply list_elem_of_lookup_2, ex_client_lookup.
  - rewrite ex_alice_hears. right. by left.
Defined.

Lemma network_ids_are_own_witness :
  let env := hooks (world (page (ex_client 0))) in
  (∃ a x, session (ex_client 0) = Some a ∧ actors (signaling ex_network) !! a = Some x ∧
     clientId env = JStr (id x)) ∧
  ∀ q d env', clients ex_network !! q = Some d →
    env' ∈ hooks (world (page d)) :: renders (fiber (world (page d))) →
    clientId env' = clientId env → q = 0.
Proof.
  apply (network_ids_are_own 2 ex_network 0 (ex_client 0)).
  - apply reachable_final. vm_compute. reflexivity.
  - apply ex_client_lookup.
  - by left.
  - vm_compute. discriminate.
Defined.
