(* ===== verification/Delivery.v ===== *)
(** * A message on its way through the network

    What one page of a [Network] wrote reaches the page it is addressed to, and
    is processed there, by the steps that carry texts alone: no page and no user
    has to do anything else. *)
From S2P Require Import Prelude JsValue Json JsonRoundTrip SignalingTypes Async Browser Messages ReferenceBrowser React WebrtcHelpers Page PageHears PageExamples PageInvariant PageSdp SignalingServer SignalingServerProperties EndToEnd Network.

Section Delivery.
Context {B : BrowserAPI} {SJ : SerdeJson} {Hwire : Wire}.
Local Abbreviation Page := (Config Refs State Update Fiber unit).
Local Abbreviation page_reachable := (reachable Page.step Page.init).
Implicit Types (n : Network) (c d : Client) (s : System) (x y : WebSocketSession) (v : jsval).

(** The steps that carry what page [p] writes to page [q], whose session is the
    [b]-th. *)
Definition delivers (p q b : nat) (e : NetEvent) : Prop :=
  e ∈ [NetUp p; NetServer EvServer; NetServer (EvWsMessage b); NetDown q].

(** ** The ids the pages know *)

(** A page has at most the texts its session wrote, and its next render has the
    id of the session once it has one of them. *)
Record client_ok s c : Prop := {
  ok_closed : session c = None → down c = 0;
  ok_open a : session c = Some a →
    ∃ x, actors s !! a = Some x ∧ down c ≤ length (written x) ∧
      (down c ≠ 0 → next_id (world (page c)) = JStr (id x));
}.

Record net_ids n : Prop := {
  ids_named : Forall (λ i, i ≠ "") (id <$> actors (signaling n));
  ids_clients : Forall (client_ok (signaling n)) (clients n);
}.

Lemma client_ok_later s s' c : sessions_follow s s' → client_ok s c → client_ok s' c.
Proof.
  intros Hs [Hc Ho]. split; [done|]. intros a Ha. destruct (Ho a Ha) as (x & Hx & Hd & Hi).
  destruct (Hs a x Hx) as (x' & Hx' & Hid & Hw). exists x'. split_and!; [done| |by rewrite Hid].
  apply prefix_length in Hw. lia.
Qed.

(** One client changes, and the sessions go on. *)
Lemma net_ids_update n p c' s' :
  net_ids n → sessions_follow (signaling n) s' → Forall (λ i, i ≠ "") (id <$> actors s') →
  client_ok s' c' → net_ids (mkNetwork s' (<[p := c']> (clients n))).
Proof.
  intros [_ Hc] Hs Hn Hc'. split; [done|]. apply Forall_insert; [|done].
  eapply Forall_impl; [done|]. intros c. by apply client_ok_later.
Qed.

Lemma assigns_carried n x v old :
  carried n x v → assigns v old = old ∨ assigns v old = JStr (id x).
Proof.
  intros Hv. unfold assigns. destruct (isWelcomeMessage v) as [|[]] eqn:Hw; [by left| |by left].
  destruct (get_prop v "id") as [|i] eqn:Hi; [by left|right]. by eapply carried_welcome.
Qed.

(** The page after the next text of its session. *)
Lemma net_down_ok n n' p c' a x k t old :
  net_inv n' → clients n' !! p = Some c' → session c' = Some a → actors (signaling n) !! a = Some x →
  signaling n' = signaling n → written x !! k = Some t →
  (∀ v, JSON_parse t = inr v → v ∈ received (page_io c')) →
  (k ≠ 0 → old = JStr (id x)) →
  foldr assigns old (receives (EvMessage t)) = JStr (id x).
Proof.
  intros Hn Hp Ha Hx Hs Ht Hv Hold. simpl. destruct k as [|k].
  - rewrite (written_head (signaling n) a x t); [|rewrite <-Hs; apply Hn|done|done].
    rewrite wire_welcome; [done|]. apply (net_plain _ Hn). rewrite Hs. by eapply list_elem_of_lookup_2.
  - rewrite Hold by done. destruct (JSON_parse t) as [|v]; [done|]. simpl.
    destruct (net_heard _ Hn c' v) as (a' & x' & Ha' & Hx' & Hcar);
      [by eapply list_elem_of_lookup_2|by apply Hv|]. rewrite Hs in Hx'.
    assert (a' = a) as -> by congruence. assert (x' = x) as -> by congruence.
    by destruct (assigns_carried n' x v (JStr (id x)) Hcar).
Qed.

Lemma net_page_ids n p c pg e :
  net_inv n → net_ids n → clients n !! p = Some c → is_message e = false →
  Page.step e (page c) = Some pg → net_ids (set_client p (mkClient pg (session c) (up c) (down c)) n).
Proof.
  intros Hn Hi Hp He Hpg. apply (net_ids_update n); [done|done|apply Hi|].
  destruct (Forall_lookup_1 _ _ _ _ (ids_clients _ Hi) Hp) as [Hc Ho]. split; [done|].
  intros a Ha. destruct (Ho a Ha) as (x & Hx & Hd & Hid). exists x. split_and!; [done..|].
  intros Hd0. cbn [page]. pose proof (net_pages _ Hn c (list_elem_of_lookup_2 _ _ _ Hp)) as Hr.
  destruct (step_receives _ _ _ (reachable_hears _ Hr) Hpg) as (_ & _ & ->).
  destruct e; try done; by apply Hid.
Qed.

Lemma net_down_ids n p c a x t pg :
  net_inv n → net_ids n → clients n !! p = Some c → session c = Some a →
  actors (signaling n) !! a = Some x → written x !! down c = Some t →
  Page.step (EvMessage t) (page c) = Some pg →
  let n' := set_client p (mkClient pg (session c) (up c) (S (down c))) n in
  net_inv n' → net_ids n'.
Proof.
  intros Hn Hi Hp Ha Hx Ht Hpg n' Hn'. apply (net_ids_update n); [done|done|apply Hi|].
  destruct (Forall_lookup_1 _ _ _ _ (ids_clients _ Hi) Hp) as [_ Ho].
  split; [simpl; by rewrite Ha|]. simpl. intros b Hb. assert (b = a) as -> by congruence. exists x.
  split_and!; [done|apply lookup_lt_Some in Ht; lia|]. intros _.
  pose proof (net_pages _ Hn c (list_elem_of_lookup_2 _ _ _ Hp)) as Hr.
  destruct (step_receives _ _ _ (reachable_hears _ Hr) Hpg) as (_ & Hrec & ->).
  eapply (net_down_ok n _ p (mkClient pg (session c) (up c) (S (down c))) a x (down c) t _ Hn'); [|exact Ha|done|done|exact Ht| |].
  - apply list_lookup_insert_eq. by eapply lookup_lt_Some.
  - intros v Hv. unfold page_io. cbn [page]. unfold page_received in Hrec. rewrite Hrec.
    simpl. rewrite Hv. apply elem_of_app. right. by left.
  - intros Hd. destruct (Ho a Ha) as (x' & Hx' & _ & Hid). assert (x' = x) as -> by congruence. by apply Hid.
Qed.

Lemma net_step_ids e n n' :
  net_inv n → net_ids n → net_step e n = Some n' → net_ids n'.
Proof.
  intros Hn Hi Hs. pose proof (net_step_inv _ _ _ Hn Hs) as Hn'.
  assert (∀ p c, clients n !! p = Some c → client_ok (signaling n) c) as Hok.
  { intros p c Hp. eapply Forall_lookup_1; [apply Hi|done]. }
  destruct e as [p e|p i|p|p|e]; simpl in Hs;
    try (destruct (clients n !! p) as [c|] eqn:Hp; [simpl in Hs; specialize (Hok p c Hp)|done]).
  - destruct (is_message e) eqn:He; [done|]. destruct (Page.step e (page c)) as [pg|] eqn:Hpg; [|done].
    simplify_eq/=. by eapply net_page_ids.
  - case_bool_decide as Hopen; [|done]. destruct Hopen as (Hnone & _ & Hne & _).
    destruct (fresh i (signaling n)) eqn:Hf; [|done]. simplify_eq/=.
    apply (net_ids_update n); [done| | |].
    + by eapply (step_follows (EvConnect i)); simpl; rewrite Hf.
    + simpl. rewrite fmap_app. apply Forall_app. split; [apply Hi|by constructor].
    + split; [done|]. intros a [= <-]. exists (mkSession i Created [] []). simpl.
      rewrite lookup_snoc_new, (ok_closed _ _ Hok Hnone). split_and!; [done|simpl; lia|done].
  - destruct (session c) as [a|] eqn:Ha; [simpl in Hs|done].
    destruct (uploads (page_io c) !! up c) as [t|] eqn:Ht; [simpl in Hs|done].
    destruct (actors (signaling n) !! a) as [x|] eqn:Hx; [simpl in Hs|done].
    case_decide as Hl; [|done]. simpl in Hs. simplify_eq.
    assert (SignalingServer.step (EvFrame a (Text t)) (signaling n) =
      Some (handle_frame (Text t) (signaling n))) as Hst by (simpl; rewrite Hx; simpl; by rewrite decide_True).
    apply (net_ids_update n); [done|by eapply step_follows| |].
    + change (Forall (λ i, i ≠ "") (id <$> actors (handle_frame (Text t) (signaling n)))).
      rewrite frame_actors. apply Hi.
    + eapply client_ok_later; [by eapply step_follows|]. destruct Hok as [Hc Ho]. rewrite Ha in Ho.
      split; [done|]. intros b [= <-]. by apply Ho.
  - destruct (session c) as [a|] eqn:Ha; [simpl in Hs|done].
    destruct (actors (signaling n) !! a) as [x|] eqn:Hx; [simpl in Hs|done].
    destruct (written x !! down c) as [t|] eqn:Ht; [simpl in Hs|done].
    destruct (mount (fiber (world (page c)))) as [m|] eqn:Hm; [|done]. simplify_eq/=.
    rewrite <-Ha in *. eapply (net_down_ids n p c a x t); try done. simpl. by rewrite Hm.
  - destruct (own_turn e) eqn:He; [|done].
    destruct (SignalingServer.step e (signaling n)) as [s'|] eqn:Hst; [|done]. simplify_eq/=.
    destruct (own_turn_keeps _ _ _ He Hst) as [Heq _]. split; cbn [signaling clients set_server].
    + rewrite Heq. apply Hi.
    + eapply Forall_impl; [apply Hi|]. intros c. apply client_ok_later. by eapply step_follows.
Qed.

Lemma reachable_ids k n : reachable net_step (net_init k) n → net_ids n.
Proof.
  induction 1 as [|n e n' Hn IH Hs].
  - split; [constructor|]. apply Forall_replicate. by split.
  - by eapply net_step_ids; [eapply reachable_net| |].
Qed.

(** A page that got the welcome has an id. *)
Lemma known_id k n q d b y :
  reachable net_step (net_init k) n → clients n !! q = Some d → session d = Some b →
  actors (signaling n) !! b = Some y → down d ≠ 0 → truthy (next_id (world (page d))) = true.
Proof.
  intros Hn Hq Hb Hy Hd. destruct (reachable_ids k n Hn) as [Hnamed Hc].
  destruct (ok_open _ _ (Forall_lookup_1 _ _ _ _ Hc Hq) b Hb) as (x & Hx & _ & Hid).
  rewrite Hid by done. rewrite Forall_fmap in Hnamed.
  pose proof (Forall_lookup_1 _ _ _ _ Hnamed Hx) as Hne. simpl in *. by apply bool_decide_eq_true.
Qed.

(** ** The way of a text *)

Lemma run_net_inv es n n' : net_inv n → run net_step es n = Some n' → net_inv n'.
Proof.
  revert n. induction es as [|e es IH]; simpl; intros n Hn Hr; [by simplify_eq|].
  destruct (net_step e n) as [n1|] eqn:Hs; [|done]. eapply IH; [by eapply net_step_inv|done].
Qed.

Lemma run_snoc es e n n1 n2 :
  run net_step es n = Some n1 → net_step e n1 = Some n2 → run net_step (es ++ [e]) n = Some n2.
Proof. intros H1 H2. rewrite run_app, H1. simpl. by rewrite H2. Qed.

Lemma run_trans es1 es2 n n1 n2 :
  run net_step es1 n = Some n1 → run net_step es2 n1 = Some n2 → run net_step (es1 ++ es2) n = Some n2.
Proof. intros H1 H2. by rewrite run_app, H1. Qed.

(** The same page, perhaps after more of its texts went up. *)
Definition same_page c c' : Prop :=
  page c' = page c ∧ session c' = session c ∧ down c' = down c.

Lemma up_step n p c a x t :
  clients n !! p = Some c → session c = Some a → actors (signaling n) !! a = Some x →
  life x = Started → uploads (page_io c) !! up c = Some t →
  net_step (NetUp p) n =
    Some (set_client p (mkClient (page c) (session c) (S (up c)) (down c))
            (set_server (handle_frame (Text t) (signaling n)) n)).
Proof.
  intros Hp Ha Hx Hl Ht. unfold net_step. rewrite Hp. simpl. rewrite Ha. simpl. rewrite Ht. simpl.
  rewrite Hx. simpl. by rewrite decide_True.
Qed.

(** The page's next texts go up, in order. *)
Lemma ups_run k n p c a x :
  clients n !! p = Some c → session c = Some a → actors (signaling n) !! a = Some x →
  life x = Started → up c + k ≤ length (uploads (page_io c)) →
  ∃ n', run net_step (replicate k (NetUp p)) n = Some n' ∧ actors (signaling n') = actors (signaling n) ∧
    clients n' = <[p := mkClient (page c) (session c) (up c + k) (down c)]> (clients n).
Proof.
  revert n c. induction k as [|k IH]; intros n c Hp Ha Hx Hl Hk.
  - exists n. split_and!; [done..|]. rewrite Nat.add_0_r, list_insert_id; [done|].
    rewrite Hp. by destruct c.
  - destruct (lookup_lt_is_Some_2 (uploads (page_io c)) (up c)) as [t Ht]; [lia|].
    pose proof (up_step n p c a x t Hp Ha Hx Hl Ht) as Hs.
    set (c1 := mkClient (page c) (session c) (S (up c)) (down c)) in *.
    destruct (IH (set_client p c1 (set_server (handle_frame (Text t) (signaling n)) n)) c1)
      as (n' & Hr & Hac & Hcl); [|done| |done|simpl; change (page_io c1) with (page_io c); lia|].
    + apply list_lookup_insert_eq. by eapply lookup_lt_Some.
    + change (actors (handle_frame (Text t) (signaling n)) !! a = Some x). by rewrite frame_actors.
    + exists n'. cbn [replicate run]. rewrite Hs. split_and!; [done| |].
      * rewrite Hac. change (actors (handle_frame (Text t) (signaling n)) = actors (signaling n)).
        apply frame_actors.
      * rewrite Hcl. simpl. rewrite list_insert_insert_eq. simpl. by rewrite Nat.add_succ_r.
Qed.

Lemma same_page_insert n p q c c' d :
  clients n !! p = Some c → same_page c c' → clients n !! q = Some d →
  ∃ d', <[p := c']> (clients n) !! q = Some d' ∧ same_page d d'.
Proof.
  intros Hp Hc Hq. destruct (decide (q = p)) as [->|Hne].
  - exists c'. simplify_eq. split; [|done]. apply list_lookup_insert_eq. by eapply lookup_lt_Some.
  - exists d. split; [|done]. by rewrite list_lookup_insert_ne.
Qed.

#[export] Instance same_page_preorder : PreOrder same_page.
Proof.
  split; [by intros c|]. intros c1 c2 c3 (H1 & H2 & H3) (H4 & H5 & H6). split_and!; congruence.
Qed.

(** Turns of the actors are turns of the network. *)
Lemma server_run es n s :
  Forall (λ e, own_turn e = true) es → run SignalingServer.step es (signaling n) = Some s →
  run net_step (NetServer <$> es) n = Some (set_server s n).
Proof.
  intros Hes. revert n. induction Hes as [|e es He _ IH]; intros n Hr; simpl in Hr.
  - simplify_eq/=. by destruct n.
  - destruct (SignalingServer.step e (signaling n)) as [s1|] eqn:Hs; [|done]. simpl in Hr.
    cbn [fmap list_fmap run net_step]. rewrite He, Hs. simpl. by apply (IH (set_server s1 n)).
Qed.

Lemma down_step n q d b y t :
  clients n !! q = Some d → session d = Some b → actors (signaling n) !! b = Some y →
  written y !! down d = Some t → mount (fiber (world (page d))) ≠ None →
  ∃ pg, Page.step (EvMessage t) (page d) = Some pg ∧
    net_step (NetDown q) n = Some (set_client q (mkClient pg (session d) (up d) (S (down d))) n).
Proof.
  intros Hq Hb Hy Ht Hm. destruct (mount (fiber (world (page d)))) as [m|] eqn:Hmt; [|done].
  eexists. split; [by simpl; rewrite Hmt|]. unfold net_step. rewrite Hq. simpl. rewrite Hb. simpl.
  rewrite Hy. simpl. rewrite Ht. simpl. by rewrite Hmt.
Qed.

(** A message only adds to what the next render will do. *)
Lemma message_keeps (c c' : Page) t :
  page_reachable c → Page.step (EvMessage t) c = Some c' →
  fiber (world c') = fiber (world c) ∧ handled (world c') = handled (world c) ∧
  length (io (host (world c))) ≤ length (io (host (world c'))).
Proof.
  intros Hc Hs. pose proof (reachable_ok c Hc) as Hok.
  destruct (step_handler (EvMessage t) c c' Hok eq_refl Hs) as [_ Ha].
  destruct (acts_frame _ _ Ha) as [_ Hf]. destruct (reachable_sdp c Hc) as [_ Hsdp].
  destruct (acts_core _ _ Ha (sdp_is_core _ Hsdp)) as [Hh _]. split_and!; [done|done|].
  destruct (acts_grow _ _ Ha) as [Hio _ _ _]. by apply prefix_length.
Qed.

(** A page that waits for more of its session's texts gets them. *)
Lemma downs_run k n q d b y :
  clients n !! q = Some d → session d = Some b → actors (signaling n) !! b = Some y →
  page_reachable (page d) → mount (fiber (world (page d))) ≠ None → down d + k ≤ length (written y) →
  ∃ n' d', run net_step (replicate k (NetDown q)) n = Some n' ∧ signaling n' = signaling n ∧
    clients n' !! q = Some d' ∧ session d' = Some b ∧ down d' = down d + k ∧
    page_reachable (page d') ∧ fiber (world (page d')) = fiber (world (page d)) ∧
    handled (world (page d')) = handled (world (page d)) ∧ length (page_io d) ≤ length (page_io d').
Proof.
  revert n d. induction k as [|k IH]; intros n d Hq Hb Hy Hr Hm Hk.
  - exists n, d. by rewrite Nat.add_0_r.
  - destruct (lookup_lt_is_Some_2 (written y) (down d)) as [t Ht]; [lia|].
    destruct (down_step n q d b y t Hq Hb Hy Ht Hm) as (pg & Hpg & Hs).
    destruct (message_keeps _ _ _ Hr Hpg) as (Hf & Hh & Hl).
    pose proof (reach_step _ _ _ _ _ Hr Hpg) as Hr1.
    set (d1 := mkClient pg (session d) (up d) (S (down d))) in *.
    destruct (IH (set_client q d1 n) d1) as (n' & d' & Hrun & Hsg & Hq' & Hb' & Hd' & Hr' & Hf' & Hh' & Hl');
      [|done|done|done|simpl; by rewrite Hf|simpl; lia|].
    + apply list_lookup_insert_eq. by eapply lookup_lt_Some.
    + exists n', d'. cbn [replicate run]. rewrite Hs. split_and!; try done; simpl in *.
      * lia.
      * by rewrite Hf', Hf.
      * by rewrite Hh', Hh.
      * unfold page_io in *. simpl in Hl'. lia.
Qed.

(** The page's texts up to the [i]-th go up. *)
Lemma text_up n p q c d a x i t :
  net_inv n → clients n !! p = Some c → session c = Some a → actors (signaling n) !! a = Some x →
  life x = Started → clients n !! q = Some d → uploads (page_io c) !! i = Some t → up c ≤ i →
  ∃ s n' d', run net_step (replicate (S (i - up c)) (NetUp p)) n = Some n' ∧
    reachable SignalingServer.step SignalingServer.init s ∧ actors s = actors (signaling n) ∧
    SignalingServer.step (EvFrame a (Text t)) s = Some (signaling n') ∧
    clients n' !! q = Some d' ∧ same_page d d'.
Proof.
  intros Hn Hp Ha Hx Hxl Hq Ht Hi. pose proof (lookup_lt_Some _ _ _ Ht).
  destruct (ups_run (i - up c) n p c a x Hp Ha Hx Hxl) as (n1 & H1 & Hac1 & Hcl1); [lia|].
  rewrite (Nat.add_comm (up c)), Nat.sub_add in Hcl1 by done.
  set (c1 := mkClient (page c) (session c) i (down c)) in *.
  destruct (same_page_insert n p q c c1 d) as (d1 & Hd1 & Hs1); [done..|]. rewrite <-Hcl1 in Hd1.
  assert (clients n1 !! p = Some c1) as Hp1
    by (rewrite Hcl1; apply list_lookup_insert_eq; by eapply lookup_lt_Some).
  rewrite <-Hac1 in Hx. pose proof (up_step n1 p c1 a x t Hp1 Ha Hx Hxl Ht) as H2.
  set (c2 := mkClient (page c1) (session c1) (S (up c1)) (down c1)) in *.
  destruct (same_page_insert n1 p q c1 c2 d1) as (d2 & Hd2 & Hs2); [done..|].
  pose proof (run_net_inv _ _ _ Hn H1) as Hn1.
  exists (signaling n1), (set_client p c2 (set_server (handle_frame (Text t) (signaling n1)) n1)), d2.
  split_and!; [|apply Hn1|done| |exact Hd2|by etrans].
  - rewrite replicate_S_end. by eapply run_snoc.
  - simpl. rewrite Hx. simpl. by rewrite decide_True.
Qed.

(** A text the page has not sent up yet is the last one its addressee's session
    writes, once the actors have made their turns. *)
Lemma text_written n p q c d a b x y i t (m : Message Value) :
  net_inv n →
  clients n !! p = Some c → session c = Some a → actors (signaling n) !! a = Some x → life x = Started →
  clients n !! q = Some d → actors (signaling n) !! b = Some y → life y = Started →
  uploads (page_io c) !! i = Some t → up c ≤ i → from_str t = Some m → to m = id y →
  ∃ es n' d' y', Forall (delivers p q b) es ∧ run net_step es n = Some n' ∧
    clients n' !! q = Some d' ∧ same_page d d' ∧ actors (signaling n') !! b = Some y' ∧
    id y' = id y ∧ last (written y') = Some t ∧ length (written y) < length (written y').
Proof.
  intros Hn Hp Ha Hx Hxl Hq Hy Hyl Ht Hi Hm Hto.
  destruct (text_up n p q c d a x i t) as (s & n1 & d1 & H1 & Hs & Hac & Hst & Hd1 & Hsame); [done..|].
  destruct (deliver_written s a t m b y (signaling n1)) as (es & s2 & y2 & Hes & Hr & Hy2 & Hid & Hl & Hlen);
    [done|done|done|by rewrite Hac|done|done|].
  exists (replicate (S (i - up c)) (NetUp p) ++ (NetServer <$> es)), (set_server s2 n1), d1, y2.
  split_and!; try done.
  - apply Forall_app. split; [apply Forall_replicate; by left|]. apply Forall_fmap.
    eapply Forall_impl; [done|]. intros e [->| ->]; right; [left|right; left].
  - eapply run_trans; [done|]. apply server_run; [|done].
    eapply Forall_impl; [done|]. by intros e [->| ->].
Qed.

(** ** The value of a text *)

Lemma sdp_value a b dsc ty v :
  ty = "offer" ∨ ty = "answer" → JSON_parse (JSON_stringify (sdp_fields a b dsc ty)) = inr v →
  get_prop v "from" = inr (JStr a) ∧ get_prop v "to" = inr (JStr b) ∧
  (canonical dsc = true → get_prop v "sdp" = inr dsc) ∧
  isWelcomeMessage v = inr false ∧ isSDPMessage v = inr true.
Proof.
  intros Hty Hv. destruct (wire_fields (sdp_fields a b dsc ty)) as (v' & Hv' & Hf);
    [apply sdp_fields_nodup|]. rewrite Hv in Hv'. injection Hv' as <-.
  split_and!; [by apply Hf..|by apply Hf| |]; unfold isWelcomeMessage, isSDPMessage, type_is;
    rewrite (Hf "type" (JStr ty)) by done; by destruct Hty as [-> | ->].
Qed.

(** ** Processing *)

(** A page that gets an offer or answer last processes it in its next render. *)
Lemma text_processed k n q d b y t v :
  reachable net_step (net_init k) n →
  clients n !! q = Some d → session d = Some b → actors (signaling n) !! b = Some y →
  mount (fiber (world (page d))) ≠ None → mounted (fiber (world (page d))) = true →
  down d < length (written y) → last (written y) = Some t →
  JSON_parse t = inr v → isWelcomeMessage v = inr false → isSDPMessage v = inr true →
  ∃ j n' d' m, run net_step (replicate j (NetDown q) ++ [NetPage q EvRender]) n = Some n' ∧
    clients n' !! q = Some d' ∧
    length (page_io d) ≤ m ∧ page_io d' !! m = Some (IoReceive v) ∧
    handled (world (page d')) = handled (world (page d)) ++ [m].
Proof.
  intros Hn Hq Hb Hy Hm Hmt Hd Hl Hv Hw Hsdp. pose proof (reachable_net k n Hn) as Hi.
  pose proof (net_pages _ Hi d (list_elem_of_lookup_2 _ _ _ Hq)) as Hpd.
  destruct (downs_run (length (written y) - 1 - down d) n q d b y Hq Hb Hy Hpd Hm)
    as (n1 & d1 & H1 & Hsg & Hq1 & Hb1 & Hd1 & Hp1 & Hf1 & Hh1 & Hio); [lia|].
  rewrite <-Hsg in Hy. rewrite <-Hf1 in Hm, Hmt.
  destruct (down_step n1 q d1 b y t Hq1 Hb1 Hy) as (pg & Hpg & H2); [|done|].
  { rewrite Hd1, <-Hl, last_lookup. f_equal. lia. }
  destruct (sdp_message_is_queued (page d1) t v Hm Hv Hw Hsdp)
    as (pg' & Hpg' & Hf2 & Hh2 & Hp2 & _ & Hio2). rewrite Hpg in Hpg'. injection Hpg' as <-.
  set (d2 := mkClient pg (session d1) (up d1) (S (down d1))) in *.
  set (n2 := set_client q d2 n1) in *.
  pose proof (run_snoc _ _ _ _ _ H1 H2) as H12.
  assert (reachable net_step (net_init k) n2) as Hn2 by by eapply run_reachable.
  assert (clients n2 !! q = Some d2) as Hq2
    by (apply list_lookup_insert_eq; by eapply lookup_lt_Some).
  assert (truthy (next_id (world pg)) = true) as Hid by by eapply (known_id k n2 q d2 b y).
  destruct (mount (fiber (world pg))) as [mt|] eqn:Hmt2; [|by rewrite Hf2 in Hmt2].
  pose proof (reach_step _ _ _ _ _ Hp1 Hpg) as Hpg'.
  destruct (render_sdp pg mt (reachable_sdp pg Hpg') Hmt2) as [_ Hh3].
  destruct (render_ok pg mt (reachable_ok pg Hpg') Hmt2) as (_ & [[tail Htail] _ _ _] & _).
  exists (S (length (written y) - 1 - down d)).
  exists (set_client q (mkClient (render pg) (session d2) (up d2) (down d2)) n2).
  eexists. exists (length (page_io d1)). split_and!.
  - rewrite replicate_S_end. eapply run_snoc; [done|]. unfold net_step. rewrite Hq2. simpl.
    rewrite Hmt2, Hf2, Hmt. done.
  - apply list_lookup_insert_eq. by eapply lookup_lt_Some.
  - done.
  - unfold page_io. cbn [page]. rewrite Htail, Hio2, <-app_assoc. by apply list_lookup_middle.
  - cbn [page]. rewrite Hh3, Hp2. unfold next_id in Hid. by rewrite Hid, Hh2, Hh1.
Qed.

(** C1: A text that one page wrote and whose [to] is the id of another page's
    started session is processed by that page: the steps that carry texts,
    which are always possible, and a render lead to a state in which the other
    page has received the value of the text and started to process exactly this
    receipt.  The text is an offer or answer, the value names the id of the
    session of the page that wrote it as its sender, and carries the description
    that page put in. *)
Theorem sdp_message_reaches_peer k n p q c d a b x y i t v :
  reachable net_step (net_init k) n →
  clients n !! p = Some c → session c = Some a → actors (signaling n) !! a = Some x → life x = Started →
  clients n !! q = Some d → session d = Some b → actors (signaling n) !! b = Some y → life y = Started →
  mount (fiber (world (page d))) ≠ None → mounted (fiber (world (page d))) = true →
  uploads (page_io c) !! i = Some t → up c ≤ i →
  JSON_parse t = inr v → get_prop v "to" = inr (JStr (id y)) →
  (∃ es n' d' m, Forall (delivers p q b) es ∧ run net_step (es ++ [NetPage q EvRender]) n = Some n' ∧
     clients n' !! q = Some d' ∧
     length (page_io d) ≤ m ∧ page_io d' !! m = Some (IoReceive v) ∧
     handled (world (page d')) = handled (world (page d)) ++ [m]) ∧
  isSDPMessage v = inr true ∧ get_prop v "from" = inr (JStr (id x)) ∧
  ∃ dsc ty, t = JSON_stringify (sdp_fields (id x) (id y) dsc ty) ∧
    (canonical dsc = true → get_prop v "sdp" = inr dsc).
Proof.
  intros Hn Hp Ha Hx Hxl Hq Hb Hy Hyl Hm Hmt Ht Hi Hv Hto. pose proof (reachable_net k n Hn) as Hinv.
  destruct (elem_of_uploads (page_io c) t) as [ws Hsend]; [by eapply list_elem_of_lookup_2|].
  destruct (page_texts n c ws t Hinv) as (a' & x' & to' & dsc & ty & Ha' & Hx' & Hty & ->);
    [by eapply list_elem_of_lookup_2|done|].
  assert (a' = a) as -> by congruence. assert (x' = x) as -> by congruence.
  destruct (sdp_value _ _ _ _ _ Hty Hv) as (Hfrom & Hto' & Hdsc & Hw & Hsdp).
  assert (to' = id y) as -> by congruence.
  split; [|split_and!; [done..|by exists dsc, ty]].
  destruct (wire_serde (sdp_fields (id x) (id y) dsc ty) (id x) (id y)) as (m & Hms & _ & Hmto);
    [apply sdp_fields_nodup|done..|].
  destruct (text_written n p q c d a b x y i _ m Hinv Hp Ha Hx Hxl Hq Hy Hyl Ht Hi Hms Hmto)
    as (es & n1 & d1 & y1 & Hes & H1 & Hq1 & (Hpg & Hses & Hdn) & Hy1 & Hid1 & Hl1 & Hlen).
  pose proof (run_reachable net_step (net_init k) es n n1 Hn H1) as Hn1.
  pose proof (Forall_lookup_1 _ _ _ _ (ids_clients _ (reachable_ids k n Hn)) Hq) as [_ Hopen].
  destruct (Hopen b Hb) as (y' & Hy' & Hdle & _). rewrite Hy in Hy'. injection Hy' as <-.
  rewrite <-Hpg in Hm, Hmt. rewrite <-Hses in Hb. rewrite <-Hpg.
  destruct (text_processed k n1 q d1 b y1 (JSON_stringify (sdp_fields (id x) (id y) dsc ty)) v Hn1 Hq1)
    as (j & n2 & d2 & m' & H2 & Hq2 & Hio & Hrec & Hh); [done..|lia|done|done|done|done|].
  exists (es ++ replicate j (NetDown q)), n2, d2, m'. split_and!; try done.
  - apply Forall_app. split; [done|]. apply Forall_replicate. do 3 right. by left.
  - rewrite <-app_assoc. by eapply run_trans.
  - unfold page_io in *. by rewrite <-Hpg.
Qed.
End Delivery.

(** ** Examples *)

#[local] Existing Instance RefBrowser.
#[local] Existing Instance RefSerde.

(** Bob's page wrote its offer to alice, which is not on its way yet. *)
Definition ex_waiting : Network := final net_step (net_init 2) ex_calling.

Definition ex_page (p : nat) : Client := default (mkClient Page.init None 0 0) (clients ex_waiting !! p).

Lemma ex_page_lookup p : bool_decide (is_Some (clients ex_waiting !! p)) = true →
  clients ex_waiting !! p = Some (ex_page p).
Proof. unfold ex_page. by destruct (clients ex_waiting !! p). Qed.

Lemma ex_mounted_page : mount (fiber (world (page (ex_page 0)))) ≠ None.
Proof.
  assert (bool_decide (is_Some (mount (fiber (world (page (ex_page 0)))))) = true) as Hs%bool_decide_eq_true
    by (vm_compute; reflexivity).
  by destruct (mount (fiber (world (page (ex_page 0))))); [|destruct Hs].
Qed.

Definition ex_offer_text : string := JSON_stringify (sdp_fields "bob" "alice" (ex_sdp "offer") "offer").

Lemma sdp_message_reaches_peer_witness :
  let d := ex_page 0 in let v := ex_message in
  (∃ es n' d' m, Forall (delivers 1 0 0) es ∧
     run net_step (es ++ [NetPage 0 EvRender]) ex_waiting = Some n' ∧ clients n' !! 0 = Some d' ∧
     length (page_io d) ≤ m ∧ page_io d' !! m = Some (IoReceive v) ∧
     handled (world (page d')) = handled (world (page d)) ++ [m]) ∧
  isSDPMessage v = inr true ∧ get_prop v "from" = inr (JStr "bob") ∧
  ∃ dsc ty, ex_offer_text = JSON_stringify (sdp_fields "bob" "alice" dsc ty) ∧
    (canonical dsc = true → get_prop v "sdp" = inr dsc).
Proof.
  apply (sdp_message_reaches_peer 2 ex_waiting 1 0 (ex_page 1) (ex_page 0) 1 0
    (mkSession "bob" Started [] [welcome_text "bob"]) (mkSession "alice" Started [] [welcome_text "alice"])
    0 ex_offer_text ex_message).
  - apply reachable_final. vm_compute. reflexivity.
  - apply ex_page_lookup. vm_compute. reflexivity.
  - vm_compute. reflexivity.
  - vm_compute. reflexivity.
  - reflexivity.
  - apply ex_page_lookup. vm_compute. reflexivity.
  - vm_compute. reflexivity.
  - vm_compute. reflexivity.
  - reflexivity.
  - apply ex_mounted_page.
  - vm_compute. reflexivity.
  - vm_compute. reflexivity.
  - apply (bool_decide_unpack _). vm_compute. exact I.
  - vm_compute. reflexivity.
  - vm_compute. reflexivity.
Defined.
