(* ===== verification/Utf8.v ===== *)
(** * JavaScript strings as bytes

    A JavaScript string is the list of its UTF-16 code units.  [encode] is
    [TextEncoder.encode], [encode_into] [TextEncoder.encodeInto] and [decode]
    [TextDecoder.decode] with [fatal] and [ignoreBOM], as the Encoding Standard
    defines them; bytes, code units and code points are integers. *)
From S2P Require Import Prelude.

Open Scope Z_scope.

(** ** UTF-16 *)

Definition is_high (u : Z) : bool := (0xD800 <=? u) && (u <=? 0xDBFF).
Definition is_low (u : Z) : bool := (0xDC00 <=? u) && (u <=? 0xDFFF).

Definition surrogate_pair (u v : Z) : Z := 0x10000 + (u - 0xD800) * 0x400 + (v - 0xDC00).

(** The scalar values of a string: a lone surrogate becomes U+FFFD. *)
Fixpoint scalars (s : list Z) : list Z :=
  match s with
  | [] => []
  | u :: s' =>
      if is_high u then
        match s' with
        | v :: s'' => if is_low v then surrogate_pair u v :: scalars s'' else 0xFFFD :: scalars s'
        | [] => [0xFFFD]
        end
      else if is_low u then 0xFFFD :: scalars s' else u :: scalars s'
  end.

Definition units (c : Z) : list Z :=
  if c <? 0x10000 then [c]
  else [0xD800 + Z.shiftr (c - 0x10000) 10; 0xDC00 + Z.land (c - 0x10000) 0x3FF].

(** [String.prototype.toWellFormed] *)
Definition toWellFormed (s : list Z) : list Z := flat_map units (scalars s).

(** A string without lone surrogates. *)
Fixpoint well_formed (s : list Z) : bool :=
  match s with
  | [] => true
  | u :: s' =>
      if is_high u then
        match s' with v :: s'' => is_low v && well_formed s'' | [] => false end
      else negb (is_low u) && well_formed s'
  end.

Definition is_unit (u : Z) : Prop := 0 <= u < 0x10000.

Definition is_scalar (c : Z) : Prop := 0 <= c < 0xD800 ∨ 0xDFFF < c <= 0x10FFFF.

(** ** UTF-8 *)

Definition continuation (c : Z) : Z := 0x80 + Z.land c 0x3F.

Definition utf8 (c : Z) : list Z :=
  if c <? 0x80 then [c]
  else if c <? 0x800 then [0xC0 + Z.shiftr c 6; continuation c]
  else if c <? 0x10000 then
    [0xE0 + Z.shiftr c 12; continuation (Z.shiftr c 6); continuation c]
  else
    [0xF0 + Z.shiftr c 18; continuation (Z.shiftr c 12); continuation (Z.shiftr c 6);
     continuation c].

Definition encode (s : list Z) : list Z := flat_map utf8 (scalars s).

(** [encodeInto]: the code points that fit in [room] bytes, with the number of
    code units read. *)
Fixpoint encode_scalars (cs : list Z) (room : Z) : Z * list Z :=
  match cs with
  | [] => (0, [])
  | c :: cs =>
      let bs := utf8 c in
      let n := Z.of_nat (length bs) in
      if n <=? room then
        let '(read, out) := encode_scalars cs (room - n) in
        ((if 0xFFFF <? c then 2 else 1) + read, bs ++ out)
      else (0, [])
  end.

Definition encode_into (s : list Z) (room : Z) : Z * list Z := encode_scalars (scalars s) room.

Definition between (lo hi b : Z) : bool := (lo <=? b) && (b <=? hi).

(** The code points of a byte sequence; [None] on the first error. *)
Fixpoint decode_scalars (l : list Z) : option (list Z) :=
  match l with
  | [] => Some []
  | b :: l =>
      if b <=? 0x7F then cons b <$> decode_scalars l
      else if between 0xC2 0xDF b then
        match l with
        | c1 :: l =>
            if between 0x80 0xBF c1 then
              cons (Z.shiftl (b - 0xC0) 6 + (c1 - 0x80)) <$> decode_scalars l
            else None
        | [] => None
        end
      else if between 0xE0 0xEF b then
        match l with
        | c1 :: c2 :: l =>
            if between (if b =? 0xE0 then 0xA0 else 0x80) (if b =? 0xED then 0x9F else 0xBF) c1 &&
               between 0x80 0xBF c2 then
              cons (Z.shiftl (b - 0xE0) 12 + Z.shiftl (c1 - 0x80) 6 + (c2 - 0x80)) <$> decode_scalars l
            else None
        | _ => None
        end
      else if between 0xF0 0xF4 b then
        match l with
        | c1 :: c2 :: c3 :: l =>
            if between (if b =? 0xF0 then 0x90 else 0x80) (if b =? 0xF4 then 0x8F else 0xBF) c1 &&
               between 0x80 0xBF c2 && between 0x80 0xBF c3 then
              cons (Z.shiftl (b - 0xF0) 18 + Z.shiftl (c1 - 0x80) 12 + Z.shiftl (c2 - 0x80) 6 +
                    (c3 - 0x80)) <$> decode_scalars l
            else None
        | _ => None
        end
      else None
  end.

Definition decode (bs : list Z) : option (list Z) := flat_map units <$> decode_scalars bs.

(** ** Arithmetic of the bit operations *)

Lemma land_low x n : 0 <= n → Z.land x (Z.ones n) = x mod 2 ^ n.
Proof. intros. by rewrite Z.land_ones. Qed.

Ltac bits_to_arith :=
  unfold continuation in *;
  change 0x3F with (Z.ones 6) in *; change 0x3FF with (Z.ones 10) in *;
  rewrite ?land_low, ?Z.shiftr_div_pow2, ?Z.shiftl_mul_pow2 in * by lia;
  change (2 ^ 6) with 64 in *; change (2 ^ 10) with 1024 in *;
  change (2 ^ 12) with 4096 in *; change (2 ^ 18) with 262144 in *;
  Z.to_euclidean_division_equations.

(** Evaluate the conditions of the goal whose value the hypotheses fix. *)
Ltac decide_ifs :=
  repeat match goal with
  | |- context [if ?b then _ else _] =>
      first [replace b with true by lia | replace b with false by lia]; cbv iota
  end.

Ltac split_eqbs :=
  repeat match goal with |- context [?a =? ?b] => destruct (Z.eqb_spec a b) end; try lia.

(** ** UTF-16 *)

(** Induction over a string, a code unit or a pair at a time. *)
Lemma utf16_ind (P : list Z → Prop) :
  P [] → (∀ u s, P s → (∀ v s', s = v :: s' → P s') → P (u :: s)) → ∀ s, P s.
Proof.
  intros H0 H1 s. assert (P s ∧ ∀ v s', s = v :: s' → P s') as [? _]; [|done].
  induction s as [|u s [IH IH']]; [done|]. split; [by apply H1|]. by intros ?? [= <- <-].
Qed.

Lemma scalars_is_scalar s : Forall is_unit s → Forall is_scalar (scalars s).
Proof.
  induction s as [|u s IH IH'] using utf16_ind; [by constructor|]. intros Hs.
  inversion_clear Hs as [|?? Hu Hs']. cbn [scalars].
  destruct (is_high u) eqn:Hh; [|destruct (is_low u) eqn:Hl].
  - destruct s as [|v s]; [constructor; [unfold is_scalar; lia|constructor]|].
    inversion_clear Hs' as [|?? Hv Hs'']. destruct (is_low v) eqn:Hl.
    + constructor; [|by eapply IH'].
      unfold is_high, is_low, surrogate_pair, is_scalar in *. lia.
    + constructor; [unfold is_scalar; lia|apply IH; by constructor].
  - constructor; [unfold is_scalar; lia|auto].
  - constructor; [unfold is_high, is_low, is_unit, is_scalar in *; lia|auto].
Qed.

Lemma units_are_units c : is_scalar c → Forall is_unit (units c).
Proof.
  unfold is_scalar, units, is_unit. intros Hc. destruct (Z.ltb_spec c 0x10000);
    repeat constructor; bits_to_arith; lia.
Qed.

(** The scalars of a code point's units, whatever follows. *)
Lemma scalars_units c s : is_scalar c → scalars (units c ++ s) = c :: scalars s.
Proof.
  unfold is_scalar, units. intros Hc. destruct (Z.ltb_spec c 0x10000); cbn [app scalars].
  - unfold is_high, is_low. by decide_ifs.
  - assert (is_high (0xD800 + Z.shiftr (c - 0x10000) 10) = true) as ->.
    { unfold is_high. bits_to_arith. lia. }
    assert (is_low (0xDC00 + Z.land (c - 0x10000) 0x3FF) = true) as ->.
    { unfold is_low. bits_to_arith. lia. }
    f_equal. unfold surrogate_pair. bits_to_arith. lia.
Qed.

Lemma scalars_flat_units cs : Forall is_scalar cs → scalars (flat_map units cs) = cs.
Proof.
  induction 1 as [|c cs Hc _ IH]; [done|]. cbn [flat_map]. rewrite scalars_units by done.
  by rewrite IH.
Qed.

Lemma units_surrogate_pair u v :
  is_high u = true → is_low v = true → units (surrogate_pair u v) = [u; v].
Proof.
  unfold is_high, is_low, surrogate_pair, units. intros Hu Hv. decide_ifs.
  repeat f_equal; bits_to_arith; lia.
Qed.

Lemma toWellFormed_id s : Forall is_unit s → well_formed s = true → toWellFormed s = s.
Proof.
  unfold toWellFormed.
  induction s as [|u s IH IH'] using utf16_ind; [done|]. intros Hs Hw.
  inversion_clear Hs as [|?? Hu Hs']. cbn [well_formed scalars] in *.
  destruct (is_high u) eqn:Hh.
  - destruct s as [|v s]; [done|]. inversion_clear Hs' as [|?? Hv Hs''].
    apply andb_true_iff in Hw as [Hl Hw]. rewrite Hl. cbn [flat_map].
    rewrite units_surrogate_pair by done. simpl. do 2 f_equal. by eapply IH'.
  - apply andb_true_iff in Hw as [Hl Hw]. destruct (is_low u); [done|]. cbn [flat_map].
    rewrite IH by done. unfold units, is_unit in *. by decide_ifs.
Qed.

(** ** UTF-8 *)

Lemma utf8_bytes c : is_scalar c → Forall (λ b, 0 <= b < 256) (utf8 c).
Proof.
  unfold is_scalar, utf8. intros Hc.
  destruct (Z.ltb_spec c 0x80), (Z.ltb_spec c 0x800), (Z.ltb_spec c 0x10000); try lia;
    repeat constructor; bits_to_arith; lia.
Qed.

(** The six-bit groups of a code point. *)
Lemma sextets c : ∃ q0 r0 q1 r1 q2 r2,
  c = 64 * q0 + r0 ∧ q0 = 64 * q1 + r1 ∧ q1 = 64 * q2 + r2 ∧
  0 <= r0 < 64 ∧ 0 <= r1 < 64 ∧ 0 <= r2 < 64 ∧
  Z.shiftr c 6 = q0 ∧ Z.shiftr c 12 = q1 ∧ Z.shiftr c 18 = q2 ∧
  Z.land c 0x3F = r0 ∧ Z.land q0 0x3F = r1 ∧ Z.land q1 0x3F = r2.
Proof.
  exists (c / 64), (c mod 64), (c / 64 / 64), (c / 64 mod 64), (c / 64 / 64 / 64), (c / 64 / 64 mod 64).
  change 0x3F with (Z.ones 6). rewrite !land_low, !Z.shiftr_div_pow2 by lia.
  change (2 ^ 6) with 64. change (2 ^ 12) with (64 * 64). change (2 ^ 18) with (64 * 64 * 64).
  rewrite <-!Z.div_div by lia.
  split_and!; try done; try apply Z.div_mod; try apply Z.mod_pos_bound; lia.
Qed.

Ltac in_sextets c :=
  unfold continuation;
  let H6 := fresh in let H12 := fresh in let H18 := fresh in
  let L0 := fresh in let L1 := fresh in let L2 := fresh in
  destruct (sextets c) as (? & ? & ? & ? & ? & ? & ? & ? & ? & ? & ? & ? &
    H6 & H12 & H18 & L0 & L1 & L2);
  rewrite ?H6, ?H12, ?H18, ?L0, ?L1, ?L2, ?Z.shiftl_mul_pow2 by lia;
  change (2 ^ 6) with 64; change (2 ^ 12) with 4096; change (2 ^ 18) with 262144;
  clear H6 H12 H18 L0 L1 L2.

Lemma between_true lo hi b : lo <= b <= hi → between lo hi b = true.
Proof. unfold between. lia. Qed.

Lemma between_below lo hi b : b < lo → between lo hi b = false.
Proof. unfold between. lia. Qed.

Lemma between_above lo hi b : hi < b → between lo hi b = false.
Proof. unfold between. lia. Qed.

Lemma decode_utf8 c l :
  is_scalar c → decode_scalars (utf8 c ++ l) = cons c <$> decode_scalars l.
Proof.
  unfold is_scalar, utf8. intros Hc.
  destruct (Z.ltb_spec c 0x80); [|destruct (Z.ltb_spec c 0x800);
    [|destruct (Z.ltb_spec c 0x10000)]]; cbn [app decode_scalars].
  - by rewrite (proj2 (Z.leb_le c 0x7F)) by lia.
  - in_sextets c. rewrite (proj2 (Z.leb_gt _ 0x7F)), !between_true by lia. do 2 f_equal. lia.
  - in_sextets c. rewrite (proj2 (Z.leb_gt _ 0x7F)), (between_above 0xC2), (between_true 0xE0) by lia.
    rewrite !between_true by (try split_eqbs; lia). simpl. do 2 f_equal. lia.
  - in_sextets c. rewrite (proj2 (Z.leb_gt _ 0x7F)), (between_above 0xC2), (between_above 0xE0),
      (between_true 0xF0) by lia.
    rewrite !between_true by (try split_eqbs; lia). simpl. do 2 f_equal. lia.
Qed.

Lemma decode_flat_utf8 cs : Forall is_scalar cs → decode_scalars (flat_map utf8 cs) = Some cs.
Proof.
  induction 1 as [|c cs Hc _ IH]; [done|]. cbn [flat_map]. by rewrite decode_utf8, IH.
Qed.

(** What was encoded is decoded to the string with its lone surrogates
    replaced. *)
Lemma decode_encode s : Forall is_unit s → decode (encode s) = Some (toWellFormed s).
Proof. intros Hs. unfold decode, encode. by rewrite decode_flat_utf8 by by apply scalars_is_scalar. Qed.

(** ** Lengths *)

Lemma utf8_length c : is_scalar c → (length (utf8 c) <= 3 * length (units c) ∧ 0 < length (utf8 c))%nat.
Proof.
  unfold is_scalar, utf8, units. intros Hc.
  destruct (Z.ltb_spec c 0x80), (Z.ltb_spec c 0x800), (Z.ltb_spec c 0x10000); simpl; lia.
Qed.

Lemma units_length c : Z.of_nat (length (units c)) = if 0xFFFF <? c then 2 else 1.
Proof. unfold units. destruct (Z.ltb_spec c 0x10000); simpl; by decide_ifs. Qed.

Lemma encode_scalars_all cs room :
  Forall is_scalar cs → 3 * Z.of_nat (length (flat_map units cs)) <= room →
  encode_scalars cs room = (Z.of_nat (length (flat_map units cs)), flat_map utf8 cs).
Proof.
  intros Hcs. revert room. induction Hcs as [|c cs Hc _ IH]; intros room Hr; [done|].
  cbn [flat_map encode_scalars] in *. rewrite length_app in *. pose proof (utf8_length c Hc).
  decide_ifs. rewrite IH by lia. f_equal. rewrite <-units_length. lia.
Qed.

Lemma toWellFormed_length s : Forall is_unit s → length (toWellFormed s) = length s.
Proof.
  unfold toWellFormed. induction s as [|u s IH IH'] using utf16_ind; [done|]. cbn [scalars].
  intros Hs. inversion_clear Hs as [|?? Hu Hs']. destruct (is_high u) eqn:Hh.
  - destruct s as [|v s]; [done|]. destruct (is_low v) eqn:Hl; cbn [flat_map].
    + rewrite units_surrogate_pair by done. simpl. do 2 f_equal. eapply IH'; [done|].
      by inversion_clear Hs'.
    + rewrite length_app, IH; done.
  - destruct (is_low u) eqn:Hl; cbn [flat_map]; rewrite length_app, IH by done; [done|].
    unfold units, is_unit in *. by decide_ifs.
Qed.

(** Three bytes per code unit are enough for the whole string. *)
Lemma encode_into_all s room :
  Forall is_unit s → 3 * Z.of_nat (length s) <= room →
  encode_into s room = (Z.of_nat (length s), encode s).
Proof.
  intros Hs Hr. pose proof (toWellFormed_length s Hs) as Hl. unfold toWellFormed in Hl.
  unfold encode_into. rewrite encode_scalars_all, Hl; [done|by apply scalars_is_scalar|by rewrite Hl].
Qed.

Lemma encode_length s :
  Forall is_unit s → Z.of_nat (length (encode s)) <= 3 * Z.of_nat (length s).
Proof.
  intros Hs. rewrite <-(toWellFormed_length s Hs). unfold encode, toWellFormed.
  induction (scalars_is_scalar s Hs) as [|c cs Hc _ IH]; [done|]. cbn [flat_map].
  rewrite !length_app. pose proof (utf8_length c Hc). lia.
Qed.

(** ASCII is its own encoding. *)
Definition is_ascii (u : Z) : Prop := 0 <= u <= 0x7F.

Lemma encode_ascii_app s1 s2 : Forall is_ascii s1 → encode (s1 ++ s2) = s1 ++ encode s2.
Proof.
  unfold encode, is_ascii. induction 1 as [|u s1 Hu _ IH]; [done|].
  cbn [app scalars]. unfold is_high, is_low. decide_ifs. cbn [flat_map app]. rewrite IH.
  unfold utf8. by decide_ifs.
Qed.

Lemma encode_nonempty s : Forall is_unit s → s ≠ [] → (0 < length (encode s))%nat.
Proof.
  intros Hs Hne. unfold encode. pose proof (scalars_is_scalar s Hs) as Hc.
  assert (scalars s ≠ []) as Hn.
  { destruct s as [|u s]; [done|]. simpl. repeat case_match; done. }
  destruct Hc as [|c cs Hc _]; [done|]. cbn [flat_map]. rewrite length_app.
  pose proof (utf8_length c Hc). lia.
Qed.

Lemma encode_bytes s : Forall is_unit s → Forall (λ b, 0 <= b < 256) (encode s).
Proof.
  intros Hs. unfold encode. induction (scalars_is_scalar s Hs) as [|c cs Hc _ IH]; [done|].
  cbn [flat_map]. apply Forall_app. split; [by apply utf8_bytes|done].
Qed.
