(* ===== verification/WasmGlue.v ===== *)
(** * The WebAssembly bindings ([wasm/web_rtccam.js])

    The module variables of the bindings are [Glue].  The instance behind them
    is not code of the repository: [WasmModule] has its exports, and the memory
    and the table it shares with JavaScript are the fields of [Wasm].  Growing
    the memory replaces its buffer and detaches the old one, so a [View] names
    the buffer it was made of.  [JSHost] is the rest of the browser, which may
    call back into the module. *)
From S2P Require Import Prelude JsValue Async Utf8.

Open Scope Z_scope.

(** ** Values *)

(** A JavaScript value in the bindings: a string is its UTF-16 code units, an
    object or function an identity. *)
Inductive ext : Type :=
| Val (v : jsval)
| Str (s : list Z)
| Obj (n : nat)
| Err (name : string) (message : list Z).

#[global] Instance ext_eq_dec : EqDecision ext.
Proof. solve_decision. Defined.

Definition undefined : ext := Val JUndef.
Definition null : ext := Val JNull.

Definition error (name : string) : ext := Err name [].

Definition isLikeNone (x : ext) : bool := bool_decide (x = undefined) || bool_decide (x = null).

(** [x >>> 0] *)
Definition uint32 (x : Z) : Z := x mod 2 ^ 32.

(** ** The instance *)

Record Wasm (Inner : Type) := mkWasm {
  instance_id : nat;
  inner : Inner;
  buffer : nat;
  memory : list Z;
  table : list ext;
}.
Arguments mkWasm {Inner} _ _ _ _ _.
Arguments instance_id {Inner} _.
Arguments inner {Inner} _.
Arguments buffer {Inner} _.
Arguments memory {Inner} _.
Arguments table {Inner} _.

(** A typed array on a buffer. *)
Record View := mkView { view_buffer : nat; view_start : Z; view_len : Z }.

(** The exports that do not call back into JavaScript: each returns or throws,
    and changes the instance. *)
Class WasmModule := {
  Inner : Type;
  export_malloc : Z → Z → Wasm Inner → Wasm Inner * (ext + Z);
  export_realloc : Z → Z → Z → Z → Wasm Inner → Wasm Inner * (ext + Z);
  export_table_alloc : Wasm Inner → Wasm Inner * (ext + Z);
  export_exn_store : Z → Wasm Inner → Wasm Inner * (ext + unit);
}.

(** What the module found when it was loaded. *)
Inductive Encoder := NoEncoder | EncodeOnly | EncodeInto.

Class Platform := { cachedTextEncoder : Encoder; hasTextDecoder : bool }.

Record Glue {WM : WasmModule} := mkGlue {
  wasm : option (Wasm Inner);
  cachedUint8ArrayMemory0 : option View;
  WASM_VECTOR_LEN : Z;
}.
Arguments Glue WM : clear implicits.

(** The exports that run the program of the module, with its imports. *)
Class Program {WM : WasmModule} := {
  export_start_camera : Z → Z → Glue WM → Glue WM * (ext + ext);
  export_start : Glue WM → Glue WM * (ext + unit);
}.

(** What the bindings ask of the values they are given. *)
Inductive HostOp :=
| Get (o : ext) (name : string)
| Invoke (o : ext) (name : string) (args : list ext)
| Construct (constructor : string) (args : list ext)
| CallFunction (f : ext) (args : list ext).

Class JSHost {WM : WasmModule} := {
  host_run : HostOp → Glue WM → Glue WM * (ext + ext);
  instance_of : ext → string → ext + bool;
  typeof_function : ext → bool;
  global : string → option ext;
}.

(** ** Bytes of the memory *)

Definition write_bytes {I} (a : Z) (bs : list Z) (w : Wasm I) : Wasm I :=
  mkWasm (instance_id w) (inner w) (buffer w) (list_inserts (Z.to_nat a) bs (memory w)) (table w).

Definition block {I} (w : Wasm I) (a n : Z) : list Z :=
  take (Z.to_nat n) (drop (Z.to_nat a) (memory w)).

Definition set_table {I} (t : list ext) (w : Wasm I) : Wasm I :=
  mkWasm (instance_id w) (inner w) (buffer w) (memory w) t.

(** A detached typed array has no bytes. *)
Definition byteLength {I} (v : View) (w : Wasm I) : Z :=
  if decide (view_buffer v = buffer w) then view_len v else 0.

(** [new Uint8Array(wasm.memory.buffer)] *)
Definition whole {I} (w : Wasm I) : View := mkView (buffer w) 0 (Z.of_nat (length (memory w))).

(** An index of an array of length [n] as its methods read it: a negative one
    counts from the end, and it is cut off at both ends. *)
Definition relative_index (k n : Z) : Z := if k <? 0 then Z.max 0 (n + k) else Z.min k n.

Lemma relative_index_pos k n : 0 <= k → relative_index k n = Z.min k n.
Proof. intros Hk. unfold relative_index. by rewrite (proj2 (Z.ltb_ge k 0) Hk). Qed.

Section Glue.
Context {PF : Platform} {WM : WasmModule} {PR : Program} {JH : JSHost} {Req : Type} {Reply : Req → Type}.
Local Abbreviation M := (@JS (Glue WM) ext Req Reply).
Local Abbreviation Instance' := (Wasm Inner).
Implicit Types (g : Glue WM) (w : Instance').

Definition set_wasm (o : option Instance') g : Glue WM :=
  mkGlue WM o (cachedUint8ArrayMemory0 g) (WASM_VECTOR_LEN g).
Definition set_cache (v : option View) g : Glue WM := mkGlue WM (wasm g) v (WASM_VECTOR_LEN g).
Definition set_vector_len (n : Z) g : Glue WM := mkGlue WM (wasm g) (cachedUint8ArrayMemory0 g) n.

(** An access through the variable [wasm]. *)
Definition on_wasm {X} (f : Instance' → Instance' * (ext + X)) : M X := λ g,
  match wasm g with
  | None => (g, Threw (error "TypeError"))
  | Some w => let '(w', r) := f w in
      (set_wasm (Some w') g, match r with inl e => Threw e | inr x => Returned x end)
  end.

(** Code that may run any of the bindings' functions. *)
Definition on_glue {X} (f : Glue WM → Glue WM * (ext + X)) : M X := λ g,
  let '(g', r) := f g in (g', match r with inl e => Threw e | inr x => Returned x end).

Definition host (op : HostOp) : M ext := on_glue (host_run op).

Definition __wbindgen_malloc (len align : Z) : M Z := on_wasm (export_malloc len align).
Definition __wbindgen_realloc (p old new align : Z) : M Z :=
  on_wasm (export_realloc p old new align).

(** ** Views *)

Definition getUint8ArrayMemory0 : M View :=
  cached <- gets cachedUint8ArrayMemory0 ;;
  w <- on_wasm (λ w, (w, inr w)) ;;
  match cached with
  | Some v => if decide (byteLength v w = 0) then modify (set_cache (Some (whole w))) ;; ret (whole w)
              else ret v
  | None => modify (set_cache (Some (whole w))) ;; ret (whole w)
  end.

(** [v.subarray(from, to)] *)
Definition subarray (v : View) (from to : Z) : M View :=
  on_wasm (λ w, (w,
    if decide (view_buffer v = buffer w) then
      let b := relative_index from (view_len v) in
      inr (mkView (view_buffer v) (view_start v + b) (Z.max 0 (relative_index to (view_len v) - b)))
    else inl (error "TypeError"))).

(** [v.set(bs)] *)
Definition set_array (v : View) (bs : list Z) : M unit :=
  on_wasm (λ w,
    if decide (view_buffer v = buffer w) then
      if decide (Z.of_nat (length bs) <= view_len v) then (write_bytes (view_start v) bs w, inr tt)
      else (w, inl (error "RangeError"))
    else (w, inl (error "TypeError"))).

(** [v[i] = x]: nothing happens outside of the array *)
Definition set_element (v : View) (i x : Z) : M unit :=
  on_wasm (λ w,
    (if decide (0 <= i < byteLength v w) then write_bytes (view_start v + i) [x mod 256] w else w,
     inr tt)).

(** ** Strings *)

(** [cachedTextEncoder.encode(arg)] *)
Definition encoder_encode (arg : list Z) : M (list Z) :=
  match cachedTextEncoder with
  | NoEncoder => throw (error "Error")
  | _ => ret (encode arg)
  end.

(** The function returns the number of bytes written. *)
Definition encodeString (arg : list Z) (view : View) : M Z :=
  match cachedTextEncoder with
  | EncodeInto =>
      on_wasm (λ w,
        let '(_, out) := encode_into arg (byteLength view w) in
        (write_bytes (view_start view) out w, inr (Z.of_nat (length out))))
  | _ =>
      buf <- encoder_encode arg ;;
      set_array view buf ;;
      ret (Z.of_nat (length buf))
  end.

(** The [for] loop: the offset of the first code unit that is not ASCII. *)
Fixpoint copy_ascii (mem : View) (ptr offset : Z) (arg : list Z) : M Z :=
  match arg with
  | [] => ret offset
  | code :: arg =>
      if 0x7F <? code then ret offset
      else set_element mem (ptr + offset) code ;; copy_ascii mem ptr (offset + 1) arg
  end.

(** The part under [if (offset !== len)]: pointer and offset. *)
Definition encode_rest (arg : list Z) (ptr offset : Z) (realloc : Z → Z → Z → Z → M Z)
    : M (Z * Z) :=
  let len := Z.of_nat (length arg) in
  if decide (offset = len) then ret (ptr, offset)
  else
    let arg := drop (Z.to_nat offset) arg in
    let len' := offset + Z.of_nat (length arg) * 3 in
    p <- realloc ptr len len' 1 ;;
    let ptr := uint32 p in
    mem <- getUint8ArrayMemory0 ;;
    view <- subarray mem (ptr + offset) (ptr + len') ;;
    written <- encodeString arg view ;;
    let offset := offset + written in
    p <- realloc ptr len' offset 1 ;;
    ret (uint32 p, offset).

Definition passStringToWasm0 (arg : list Z) (malloc : Z → Z → M Z)
    (realloc : option (Z → Z → Z → Z → M Z)) : M Z :=
  match realloc with
  | None =>
      buf <- encoder_encode arg ;;
      let n := Z.of_nat (length buf) in
      p <- malloc n 1 ;;
      let ptr := uint32 p in
      mem <- getUint8ArrayMemory0 ;;
      dst <- subarray mem ptr (ptr + n) ;;
      set_array dst buf ;;
      modify (set_vector_len n) ;;
      ret ptr
  | Some realloc =>
      p <- malloc (Z.of_nat (length arg)) 1 ;;
      let ptr := uint32 p in
      mem <- getUint8ArrayMemory0 ;;
      offset <- copy_ascii mem ptr 0 arg ;;
      r <- encode_rest arg ptr offset realloc ;;
      modify (set_vector_len (snd r)) ;;
      ret (fst r)
  end.

Definition getStringFromWasm0 (ptr len : Z) : M (list Z) :=
  let ptr := uint32 ptr in
  mem <- getUint8ArrayMemory0 ;;
  view <- subarray mem ptr (ptr + len) ;;
  if hasTextDecoder then
    on_wasm (λ w, (w,
      match decode (block w (view_start view) (view_len view)) with
      | Some s => inr s
      | None => inl (error "TypeError")
      end))
  else throw (error "Error").

Definition start_camera (video_id : list Z) : M ext :=
  ptr0 <- passStringToWasm0 video_id __wbindgen_malloc (Some __wbindgen_realloc) ;;
  len0 <- gets WASM_VECTOR_LEN ;;
  on_glue (export_start_camera ptr0 len0).

(** ** The table of references *)

(** [table.set(i, x)] *)
Definition table_set (i : Z) (x : ext) : M unit :=
  on_wasm (λ w,
    if decide (0 <= i < Z.of_nat (length (table w))) then
      (set_table (<[Z.to_nat i := x]> (table w)) w, inr tt)
    else (w, inl (error "RangeError"))).

(** [table.grow(n)] *)
Definition table_grow (n : nat) : M Z :=
  on_wasm (λ w, (set_table (table w ++ replicate n undefined) w, inr (Z.of_nat (length (table w))))).

Definition addToExternrefTable0 (obj : ext) : M Z :=
  idx <- on_wasm export_table_alloc ;;
  table_set idx obj ;;
  ret idx.

(** [isLikeNone(ret) ? 0 : addToExternrefTable0(ret)] *)
Definition optional_ref (r : ext) : M Z :=
  if isLikeNone r then ret 0 else addToExternrefTable0 r.

Definition handleError (f : M ext) : M ext :=
  try_catch f (λ e,
    idx <- addToExternrefTable0 e ;;
    on_wasm (export_exn_store idx) ;;
    ret undefined).

(** ** The imports of the module *)

Definition __wbg_call_672a4d21634d4a24 (arg0 arg1 : ext) : M ext :=
  handleError (host (Invoke arg0 "call" [arg1])).

Definition __wbg_call_7cccdd69e0791ae2 (arg0 arg1 arg2 : ext) : M ext :=
  handleError (host (Invoke arg0 "call" [arg1; arg2])).

Definition __wbg_document_d249400bd7bd996d (arg0 : ext) : M Z :=
  r <- host (Get arg0 "document") ;;
  optional_ref r.

Definition __wbg_getElementById_f827f0d6648718a8 (arg0 : ext) (arg1 arg2 : Z) : M Z :=
  id <- getStringFromWasm0 arg1 arg2 ;;
  r <- host (Invoke arg0 "getElementById" [Str id]) ;;
  optional_ref r.

Definition __wbg_getUserMedia_4f859ded1ab1bd02 (arg0 : ext) : M ext :=
  handleError (host (Invoke arg0 "getUserMedia" [])).

(** [arg0 instanceof C], [false] when it throws *)
Definition instanceof (arg0 : ext) (constructor : string) : M bool :=
  try_catch (λ g, (g, match instance_of arg0 constructor with
                      | inl e => Threw e
                      | inr b => Returned b
                      end))
    (λ _, ret false).

Definition __wbg_instanceof_HtmlVideoElement_7f414b32f362e317 (arg0 : ext) : M bool :=
  instanceof arg0 "HTMLVideoElement".

Definition __wbg_instanceof_MediaStream_f7b6ed97ba2864c8 (arg0 : ext) : M bool :=
  instanceof arg0 "MediaStream".

Definition __wbg_instanceof_Window_def73ea0955fc569 (arg0 : ext) : M bool :=
  instanceof arg0 "Window".

Definition __wbg_mediaDevices_e9977f249e2ef5d8 (arg0 : ext) : M ext :=
  handleError (host (Get arg0 "mediaDevices")).

Definition __wbg_navigator_1577371c070c8947 (arg0 : ext) : M ext := host (Get arg0 "navigator").

Definition __wbg_newnoargs_105ed471475aaf50 (arg0 arg1 : Z) : M ext :=
  body <- getStringFromWasm0 arg0 arg1 ;;
  host (Construct "Function" [Str body]).

Definition __wbg_queueMicrotask_97d92b4fcc8a61c5 (queueMicrotask arg0 : ext) : M unit :=
  host (CallFunction queueMicrotask [arg0]) ;;
  ret tt.

Definition __wbg_queueMicrotask_d3219def82552485 (arg0 : ext) : M ext :=
  host (Get arg0 "queueMicrotask").

Definition __wbg_resolve_4851785c9c5f573d (promise arg0 : ext) : M ext :=
  host (Invoke promise "resolve" [arg0]).

Definition __wbg_set_bb8cecf6a62b9f46 (reflect arg0 arg1 arg2 : ext) : M ext :=
  handleError (host (Invoke reflect "set" [arg0; arg1; arg2])).

(** [typeof name === 'undefined' ? null : name] *)
Definition static_accessor (name : string) : M Z :=
  optional_ref (default null (global name)).

Definition __wbg_static_accessor_GLOBAL_88a902d13a557d07 : M Z := static_accessor "global".
Definition __wbg_static_accessor_GLOBAL_THIS_56578be7e9f832b0 : M Z := static_accessor "globalThis".
Definition __wbg_static_accessor_SELF_37c5d418e4bf5819 : M Z := static_accessor "self".
Definition __wbg_static_accessor_WINDOW_5de37043a91a9c40 : M Z := static_accessor "window".

Definition __wbg_then_44b73946d2fb3e7d (arg0 arg1 : ext) : M ext :=
  host (Invoke arg0 "then" [arg1]).

Definition __wbg_then_48b406749878a531 (arg0 arg1 arg2 : ext) : M ext :=
  host (Invoke arg0 "then" [arg1; arg2]).

Definition __wbindgen_init_externref_table : M unit :=
  offset <- table_grow 4 ;;
  table_set 0 undefined ;;
  table_set (offset + 0) undefined ;;
  table_set (offset + 1) null ;;
  table_set (offset + 2) (Val (JBool true)) ;;
  table_set (offset + 3) (Val (JBool false)).

Definition __wbindgen_is_function (arg0 : ext) : bool := typeof_function arg0.

Definition __wbindgen_is_undefined (arg0 : ext) : bool := bool_decide (arg0 = undefined).

Definition __wbindgen_string_new (arg0 arg1 : Z) : M ext :=
  s <- getStringFromWasm0 arg0 arg1 ;;
  ret (Str s).

Definition __wbindgen_throw (arg0 arg1 : Z) : M unit :=
  s <- getStringFromWasm0 arg0 arg1 ;;
  throw (Err "Error" s).
End Glue.
