(* ===== verification/WasmStrings.v ===== *)
(** * Strings between JavaScript and the WebAssembly module

    [Allocator] is what [malloc] and [realloc] of the module promise: blocks of
    bytes that do not overlap, and that nobody else changes.  Against it,
    [passStringToWasm0] puts the UTF-8 encoding of a string into a block of its
    own, whether the text encoder can write in place or not. *)
From S2P Require Import Prelude JsValue Async Utf8 WasmGlue.

Open Scope Z_scope.

(** The memory is the same, or it has grown and has a new buffer. *)
Definition grown {I} (w w' : Wasm I) : Prop :=
  table w' = table w ∧ instance_id w' = instance_id w ∧
  (buffer w' = buffer w ∧ length (memory w') = length (memory w) ∨ (buffer w < buffer w')%nat).

Class Allocator {WM : WasmModule} := {
  heap_ok : Wasm Inner → Prop;
  (** the block of the given positive size at an address is in use *)
  owned : Wasm Inner → Z → Z → Prop;
  (** out of memory *)
  trap : ext → Prop;
  owned_bounds w p n :
    heap_ok w → owned w p n → 0 <= p ∧ 0 < n ∧ p + n <= Z.of_nat (length (memory w)) <= 2 ^ 32;
  owned_disjoint w p n q m :
    heap_ok w → owned w p n → owned w q m → (p = q ∧ n = m) ∨ p + n <= q ∨ q + m <= p;
  owned_write w p n a bs :
    heap_ok w → owned w p n → p <= a → a + Z.of_nat (length bs) <= p + n →
    heap_ok (write_bytes a bs w) ∧ ∀ q m, owned (write_bytes a bs w) q m ↔ owned w q m;
  malloc_spec w n w' r :
    heap_ok w → 0 <= n → export_malloc n 1 w = (w', r) →
    match r with
    | inl e => trap e
    | inr p => heap_ok w' ∧ grown w w' ∧
        (0 < n → owned w' (uint32 p) n ∧ ¬ owned w (uint32 p) n) ∧
        ∀ q m, owned w q m → owned w' q m ∧ block w' q m = block w q m
    end;
  realloc_spec w p old new w' r :
    heap_ok w → owned w p old → 0 < new → export_realloc p old new 1 w = (w', r) →
    match r with
    | inl e => trap e
    | inr p' => heap_ok w' ∧ grown w w' ∧ owned w' (uint32 p') new ∧
        block w' (uint32 p') (Z.min old new) = block w p (Z.min old new) ∧
        ∀ q m, owned w q m → (q, m) ≠ (p, old) →
          (q, m) ≠ (uint32 p', new) ∧ owned w' q m ∧ block w' q m = block w q m
    end;
}.

(** ** Reading what was written *)

Section Blocks.
Context {I : Type}.
Implicit Types (w : Wasm I).

Lemma block_length w a n :
  0 <= a → 0 <= n → a + n <= Z.of_nat (length (memory w)) → length (block w a n) = Z.to_nat n.
Proof. intros. unfold block. rewrite length_take, length_drop. lia. Qed.

Lemma lookup_block w a n i :
  (i < Z.to_nat n)%nat → block w a n !! i = memory w !! (Z.to_nat a + i)%nat.
Proof. intros. unfold block. rewrite lookup_take_lt by done. by rewrite lookup_drop. Qed.

Lemma block_write_in w a bs n :
  0 <= a → n = Z.of_nat (length bs) → a + n <= Z.of_nat (length (memory w)) →
  block (write_bytes a bs w) a n = bs.
Proof.
  intros Ha -> Hn. apply list_eq. intros i. destruct (decide (i < length bs)%nat) as [Hi|Hi].
  - rewrite lookup_block by lia. unfold write_bytes. simpl.
    rewrite list_lookup_inserts by lia. f_equal. lia.
  - rewrite !lookup_ge_None_2; [done|lia|]. rewrite block_length by (simpl; rewrite ?length_inserts; lia). lia.
Qed.

Lemma block_write_out w a bs q m :
  0 <= a → 0 <= q → a + Z.of_nat (length bs) <= q ∨ q + m <= a →
  block (write_bytes a bs w) q m = block w q m.
Proof.
  intros Ha Hq Hd. apply list_eq. intros i. destruct (decide (i < Z.to_nat m)%nat) as [Hi|Hi].
  - rewrite !lookup_block by done. unfold write_bytes. simpl. destruct Hd.
    + rewrite list_lookup_inserts_ge by lia. done.
    + rewrite list_lookup_inserts_lt by lia. done.
  - unfold block. by rewrite !lookup_take_ge by lia.
Qed.

Lemma block_app w a n m :
  0 <= a → 0 <= n → 0 <= m → block w a (n + m) = block w a n ++ block w (a + n) m.
Proof.
  intros. unfold block. rewrite !Z2Nat.inj_add, <-drop_drop by lia.
  by rewrite take_take_drop.
Qed.

Lemma block_prefix w a n m : 0 <= m <= n → block w a m = take (Z.to_nat m) (block w a n).
Proof. intros. unfold block. rewrite take_take. f_equal. lia. Qed.

Lemma write_bytes_app a bs1 bs2 w :
  0 <= a →
  write_bytes a (bs1 ++ bs2) w = write_bytes (a + Z.of_nat (length bs1)) bs2 (write_bytes a bs1 w).
Proof.
  intros. unfold write_bytes. simpl. rewrite list_inserts_app_l. do 2 f_equal. lia.
Qed.
End Blocks.

Section Strings.
Context {PF : Platform} {WM : WasmModule} {AL : Allocator} {Req : Type} {Reply : Req → Type}.
Local Abbreviation M := (@JS (Glue WM) ext Req Reply).
Local Abbreviation W := (Wasm Inner).
Implicit Types (g : Glue WM) (w : W).

(** A cached view that is not detached is the whole memory. *)
Definition cache_ok g w : Prop :=
  ∀ v, cachedUint8ArrayMemory0 g = Some v →
    (view_buffer v <= buffer w)%nat ∧ (view_buffer v = buffer w → v = whole w).

(** The bindings hold the instance [w]. *)
Definition holds g w : Prop := wasm g = Some w ∧ heap_ok w ∧ cache_ok g w.

(** The block of [n] bytes at [p] is the caller's, and all others are as they
    were in [w0]. *)
Definition mine (w0 w : W) (p n : Z) : Prop :=
  owned w p n ∧
  ∀ q m, owned w0 q m → (q, m) ≠ (p, n) ∧ owned w q m ∧ block w q m = block w0 q m.

Lemma cache_grown g w w' : grown w w' → cache_ok g w → cache_ok (set_wasm (Some w') g) w'.
Proof.
  intros (_ & _ & Hg) Hc v Hv. destruct (Hc v Hv) as [Hle Heq].
  destruct Hg as [[Hb Hl]|Hlt]; (split; [lia|]).
  - intros Hvb. rewrite Heq by congruence. unfold whole. by rewrite Hb, Hl.
  - lia.
Qed.

Lemma holds_write g w p n a bs :
  holds g w → owned w p n → p <= a → a + Z.of_nat (length bs) <= p + n →
  holds (set_wasm (Some (write_bytes a bs w)) g) (write_bytes a bs w) ∧
  whole (write_bytes a bs w) = whole w ∧ owned (write_bytes a bs w) p n.
Proof.
  intros (Hw & Hh & Hc) Ho Ha Hb. destruct (owned_write w p n a bs Hh Ho Ha Hb) as [Hh' Ho'].
  split_and!; [|by unfold whole, write_bytes; simpl; rewrite length_inserts|by apply Ho'].
  split_and!; [done|done|]. apply (cache_grown g w); [|done].
  split_and!; [done|done|left]. simpl. by rewrite length_inserts.
Qed.

Lemma mine_write w0 w p n a bs :
  heap_ok w → mine w0 w p n → p <= a → a + Z.of_nat (length bs) <= p + n →
  mine w0 (write_bytes a bs w) p n.
Proof.
  intros Hh [Ho Hm] Ha Hb. destruct (owned_write w p n a bs Hh Ho Ha Hb) as [Hh' Ho'].
  split; [by apply Ho'|]. intros q m Hq. destruct (Hm q m Hq) as (Hne & Hq' & Hbl).
  split_and!; [done|by apply Ho'|]. rewrite <-Hbl.
  pose proof (owned_bounds w p n Hh Ho). pose proof (owned_bounds w q m Hh Hq').
  apply block_write_out; [lia|lia|].
  destruct (owned_disjoint w p n q m Hh Ho Hq') as [[-> ->]|[?|?]]; [done|left; lia|right; lia].
Qed.

Lemma holds_vector_len g w n : holds g w → holds (set_vector_len n g) w.
Proof. done. Qed.

(** ** The operations *)

Lemma runs_malloc w n (Q : Z → _) (E : ext → Glue WM → Prop) g :
  holds g w → 0 <= n → (∀ e g', trap e → E e g') →
  (∀ p g' w', holds g' w' → (0 < n → mine w w' (uint32 p) n) →
     (∀ q m, owned w q m → owned w' q m ∧ block w' q m = block w q m) → Q p g') →
  runs (__wbindgen_malloc n 1 : M Z) Q E g.
Proof.
  intros (Hw & Hh & Hc) Hn HE HQ. unfold runs, __wbindgen_malloc, on_wasm. rewrite Hw.
  destruct (export_malloc n 1 w) as [w' r] eqn:Hr. pose proof (malloc_spec w n w' r Hh Hn Hr) as Hs.
  destruct r as [e|p]; [by apply HE|]. destruct Hs as (Hh' & Hg & Ho & Hk).
  apply (HQ _ _ w'); [|intros Hpos; destruct (Ho Hpos) as [? Hn']|done].
  - split_and!; [done|done|by eapply cache_grown].
  - split; [done|]. intros q m Hq. split; [|by apply Hk]. intros [= -> ->]. done.
Qed.

Lemma runs_realloc w0 w p old new (Q : Z → _) (E : ext → Glue WM → Prop) g :
  holds g w → mine w0 w p old → 0 < new → (∀ e g', trap e → E e g') →
  (∀ p' g' w', holds g' w' → mine w0 w' (uint32 p') new →
     block w' (uint32 p') (Z.min old new) = block w p (Z.min old new) → Q p' g') →
  runs (__wbindgen_realloc p old new 1 : M Z) Q E g.
Proof.
  intros (Hw & Hh & Hc) [Ho Hm] Hn HE HQ. unfold runs, __wbindgen_realloc, on_wasm. rewrite Hw.
  destruct (export_realloc p old new 1 w) as [w' r] eqn:Hr.
  pose proof (realloc_spec w p old new w' r Hh Ho Hn Hr) as Hs.
  destruct r as [e|p']; [by apply HE|]. destruct Hs as (Hh' & Hg & Ho' & Hb & Hk).
  apply (HQ _ _ w'); [split_and!; [done|done|by eapply cache_grown]| |done].
  split; [done|]. intros q m Hq. destruct (Hm q m Hq) as (Hne & Hq' & Hbl).
  destruct (Hk q m Hq' Hne) as (? & ? & ->). done.
Qed.

Lemma runs_memory w (Q : View → _) (E : ext → Glue WM → Prop) g :
  holds g w → (∀ g', holds g' w → Q (whole w) g') → runs (getUint8ArrayMemory0 : M View) Q E g.
Proof.
  intros (Hw & Hh & Hc) HQ. apply runs_bind, runs_gets, runs_bind. unfold runs at 1, on_wasm.
  rewrite Hw. assert (set_wasm (Some w) g = g) as -> by (rewrite <-Hw; by destruct g).
  assert (holds (set_cache (Some (whole w)) g) w) as Hs.
  { split_and!; [done|done|]. intros v [= <-]. done. }
  destruct (cachedUint8ArrayMemory0 g) as [v|] eqn:Hv; [|by apply runs_bind, runs_modify, runs_ret, HQ].
  case_decide as Hb; [by apply runs_bind, runs_modify, runs_ret, HQ|].
  apply runs_ret. unfold byteLength in Hb. case_decide as Hbuf; [|done].
  destruct (Hc v Hv) as [_ Heq]. rewrite Heq by done. by apply HQ.
Qed.

Lemma uint32_range x : 0 <= uint32 x < 2 ^ 32.
Proof. by apply Z.mod_pos_bound. Qed.

Lemma set_wasm_same g w : wasm g = Some w → set_wasm (Some w) g = g.
Proof. intros <-. by destruct g. Qed.

Lemma runs_subarray w from to (Q : View → _) (E : ext → Glue WM → Prop) g :
  holds g w → 0 <= from <= to → to <= Z.of_nat (length (memory w)) →
  Q (mkView (buffer w) from (to - from)) g →
  runs (subarray (whole w) from to : M View) Q E g.
Proof.
  intros (Hw & _ & _) Hf Ht HQ. unfold runs, subarray, on_wasm. rewrite Hw. simpl.
  rewrite decide_True by done. rewrite set_wasm_same by done.
  rewrite !relative_index_pos, !Z.min_l, Z.max_r by lia. done.
Qed.

Lemma runs_set_array w0 w p n a m bs (Q : unit → _) (E : ext → Glue WM → Prop) g :
  holds g w → mine w0 w p n → p <= a → a + Z.of_nat (length bs) <= p + n →
  Z.of_nat (length bs) <= m →
  (∀ g', holds g' (write_bytes a bs w) → mine w0 (write_bytes a bs w) p n → Q tt g') →
  runs (set_array (mkView (buffer w) a m) bs : M unit) Q E g.
Proof.
  intros Hg Hm Ha Hb Hl HQ. pose proof Hg as (Hw & Hh & _). pose proof Hm as [Ho _].
  unfold runs, set_array, on_wasm. rewrite Hw. simpl. rewrite !decide_True by done.
  apply HQ; [by eapply holds_write|by apply mine_write].
Qed.

Lemma byteLength_whole w : byteLength (whole w) w = Z.of_nat (length (memory w)).
Proof. unfold byteLength. by rewrite decide_True. Qed.

(** An empty array fits everywhere. *)
Lemma runs_set_nothing {X} w a (k : M X) (Q : X → _) (E : ext → Glue WM → Prop) g :
  holds g w → runs k Q E g →
  runs (dst <- subarray (whole w) a (a + 0) ;; set_array dst [] ;; k) Q E g.
Proof.
  intros (Hw & _ & _) HQ. apply runs_bind. unfold runs at 1, subarray, on_wasm. rewrite Hw. simpl.
  rewrite decide_True, set_wasm_same by done.
  apply runs_bind. unfold runs at 1, set_array, on_wasm. rewrite Hw. simpl.
  rewrite decide_True, decide_True by (done || lia).
  assert (∀ i, write_bytes i [] w = w) as -> by by destruct w.
  by rewrite set_wasm_same.
Qed.

(** The loop stops at the end or at a code unit that is not ASCII, with the
    units before it in the memory. *)
Lemma runs_copy_ascii w0 w p n offset arg (Q : Z → _) (E : ext → Glue WM → Prop) g :
  holds g w → mine w0 w p n → 0 <= offset → offset + Z.of_nat (length arg) <= n →
  Forall is_unit arg →
  (∀ pre rest g', arg = pre ++ rest → Forall is_ascii pre →
     holds g' (write_bytes (p + offset) pre w) → mine w0 (write_bytes (p + offset) pre w) p n →
     Q (offset + Z.of_nat (length pre)) g') →
  runs (copy_ascii (whole w) p offset arg : M Z) Q E g.
Proof.
  intros Hg Hm Hoff Hlen Hu HQ. revert g w offset Hg Hm Hoff Hlen HQ.
  induction Hu as [|c arg Hc Hu IH]; intros g w offset Hg Hm Hoff Hlen HQ; simpl copy_ascii.
  { apply runs_ret. specialize (HQ [] [] g). rewrite Z.add_0_r in HQ. apply HQ; try done.
    - by destruct w.
    - by destruct w. }
  pose proof Hg as (Hw & Hh & _). pose proof Hm as [Ho _].
  destruct (Z.ltb_spec 0x7F c) as [Hgt|Hle].
  { apply runs_ret. specialize (HQ [] (c :: arg) g). rewrite Z.add_0_r in HQ. apply HQ; try done.
    - by destruct w.
    - by destruct w. }
  cbn [length] in Hlen. pose proof (owned_bounds w p n Hh Ho) as Hb.
  assert (p + offset + Z.of_nat (length [c]) <= p + n) as Hfit by (simpl; lia).
  destruct (holds_write g w p n (p + offset) [c] Hg Ho ltac:(lia) Hfit) as (Hg' & Hwh & _).
  pose proof (mine_write w0 w p n (p + offset) [c] Hh Hm ltac:(lia) Hfit) as Hm'.
  apply runs_bind. unfold runs at 1, set_element, on_wasm. rewrite Hw.
  rewrite byteLength_whole, decide_True by lia. unfold is_unit in Hc. rewrite Z.mod_small by lia.
  change (view_start (whole w)) with 0. rewrite Z.add_0_l, <-Hwh. apply IH; [done|done|lia|lia|].
  intros pre rest g1 -> Hpre Hg1 Hm1. specialize (HQ (c :: pre) rest g1).
  replace (offset + 1 + Z.of_nat (length pre)) with (offset + Z.of_nat (length (c :: pre))) by (simpl; lia).
  pose proof (write_bytes_app (p + offset) [c] pre w ltac:(lia)) as Happ. simpl app in Happ.
  replace (p + offset + Z.of_nat (length [c])) with (p + (offset + 1)) in Happ by (simpl; lia).
  rewrite Happ in HQ. apply HQ; try done. constructor; [unfold is_ascii; lia|done].
Qed.
Context (Henc : cachedTextEncoder ≠ NoEncoder).

Lemma runs_encoder arg (Q : list Z → _) (E : ext → Glue WM → Prop) g :
  Q (encode arg) g → runs (encoder_encode arg : M (list Z)) Q E g.
Proof. unfold encoder_encode. by destruct cachedTextEncoder. Qed.

Lemma runs_encodeString w0 w p n a m arg (Q : Z → _) (E : ext → Glue WM → Prop) g :
  holds g w → mine w0 w p n → p <= a → a + m <= p + n →
  3 * Z.of_nat (length arg) <= m → Forall is_unit arg →
  (∀ g', holds g' (write_bytes a (encode arg) w) →
     mine w0 (write_bytes a (encode arg) w) p n → Q (Z.of_nat (length (encode arg))) g') →
  runs (encodeString arg (mkView (buffer w) a m) : M Z) Q E g.
Proof.
  intros Hg Hm Ha Hb Hl Hu HQ. pose proof (encode_length arg Hu).
  unfold encodeString. assert (runs (buf <- encoder_encode arg ;;
    set_array (mkView (buffer w) a m) buf ;; ret (Z.of_nat (length buf)) : M Z) Q E g) as Hslow.
  { apply runs_bind, runs_encoder, runs_bind.
    eapply (runs_set_array w0 w p n); [done|done|done|lia|lia|]. intros g' Hg' Hm'.
    apply runs_ret. by apply HQ. }
  destruct cachedTextEncoder; [done|done|].
  pose proof Hg as (Hw & Hh & _). pose proof Hm as [Ho _]. unfold runs, on_wasm. rewrite Hw.
  unfold byteLength. simpl. rewrite decide_True, encode_into_all by done.
  apply HQ; [eapply holds_write; try done; lia|apply mine_write; [done|done|done|lia]].
Qed.

(** The result of passing a string: its encoding in a block of its own. *)
Definition passed (w0 : W) (arg : list Z) (p n : Z) g : Prop :=
  ∃ w, holds g w ∧ 0 <= p < 2 ^ 32 ∧ n = Z.of_nat (length (encode arg)) ∧
    block w p n = encode arg ∧
    (arg ≠ [] → mine w0 w p n) ∧
    ∀ q m, owned w0 q m → owned w q m ∧ block w q m = block w0 q m.

Lemma runs_encode_rest w0 w pre rest p (Q : Z * Z → _) (E : ext → Glue WM → Prop) g :
  holds g w → pre ++ rest ≠ [] →
  mine w0 w p (Z.of_nat (length (pre ++ rest))) → Forall is_ascii pre → Forall is_unit rest →
  block w p (Z.of_nat (length pre)) = pre →
  (∀ e g', trap e → E e g') →
  (∀ r g', passed w0 (pre ++ rest) (fst r) (snd r) g' → Q r g') →
  runs (encode_rest (pre ++ rest) p (Z.of_nat (length pre)) __wbindgen_realloc : M (Z * Z)) Q E g.
Proof.
  intros Hg Hne Hm Hpre Hrest Hbl HE HQ. pose proof (encode_ascii_app pre rest Hpre) as Henc'.
  unfold encode_rest. case_decide as Hend.
  - apply runs_ret, HQ. exists w. rewrite length_app in Hend.
    assert (rest = []) as -> by (apply nil_length_inv; lia).
    rewrite !app_nil_r in *. rewrite Henc'. simpl. pose proof Hg as (_ & Hh & _).
    pose proof (owned_bounds w _ _ Hh (proj1 Hm)). split_and!; try done; try lia.
    intros q m Hq. by apply Hm in Hq as (_ & ? & ?).
  - assert (0 < Z.of_nat (length rest)) by (rewrite length_app in Hend; lia).
    assert (drop (Z.to_nat (Z.of_nat (length pre))) (pre ++ rest) = rest) as ->
      by (by rewrite Nat2Z.id, drop_app_length). cbv zeta.
    set (len' := Z.of_nat (length pre) + Z.of_nat (length rest) * 3).
    apply runs_bind. eapply runs_realloc; [done|done|lia|done|].
    intros p1 g1 w1 Hg1 Hm1 Hb1. rewrite length_app, Z.min_l in Hb1 by lia.
    pose proof Hg1 as (_ & Hh1 & _). pose proof (owned_bounds w1 _ _ Hh1 (proj1 Hm1)).
    set (ptr := uint32 p1) in *.
    assert (block w1 ptr (Z.of_nat (length pre)) = pre) as Hpre1.
    { assert (0 <= Z.of_nat (length pre) <= Z.of_nat (length pre + length rest)) as Hle by lia.
      rewrite (block_prefix w1 ptr _ _ Hle), Hb1. by rewrite <-(block_prefix w p _ _ Hle). }
    apply runs_bind. eapply runs_memory; [done|]. intros g2 Hg2.
    apply runs_bind. apply runs_subarray; [done|lia|lia|].
    apply runs_bind. eapply runs_encodeString; [done|done|lia|lia|lia|done|].
    intros g3 Hg3 Hm3. set (w3 := write_bytes (ptr + Z.of_nat (length pre)) (encode rest) w1) in *.
    pose proof (encode_length rest Hrest).
    assert (0 < length (encode rest))%nat by (apply encode_nonempty; [done|by intros ->]).
    apply runs_bind. eapply runs_realloc; [done|done|lia|done|].
    intros p4 g4 w4 Hg4 Hm4 Hb4. apply runs_ret, HQ. exists w4. rewrite Z.min_r in Hb4 by lia.
    simpl. rewrite Henc', length_app. split_and!; [done|apply uint32_range..|lia| |done|].
    + rewrite Hb4, block_app by lia. f_equal.
      * rewrite <-Hpre1 at 2. apply block_write_out; [lia|lia|right; lia].
      * apply block_write_in; lia.
    + intros q m Hq. by apply Hm4 in Hq as (_ & ? & ?).
Qed.

(** A string passed to the module is there as UTF-8, in a block of its own:
    with and without [realloc], with every text encoder, and whether or not an
    allocation makes the memory grow.  The only failure is a trap of the
    allocator. *)
Lemma runs_passString w arg (inplace : bool) (E : ext → Glue WM → Prop) g :
  holds g w → Forall is_unit arg → (∀ e g', trap e → E e g') →
  runs (passStringToWasm0 arg __wbindgen_malloc
          (if inplace then Some __wbindgen_realloc else None) : M Z)
    (λ p g', passed w arg p (WASM_VECTOR_LEN g') g') E g.
Proof.
  intros Hg Hu HE. destruct inplace; simpl.
  - apply runs_bind. eapply runs_malloc; [done|lia|done|]. intros p g1 w1 Hg1 Hm1 Hk1.
    set (ptr := uint32 p) in *. apply runs_bind. eapply runs_memory; [done|]. intros g2 Hg2.
    destruct (decide (arg = [])) as [->|Hne].
    { apply runs_bind, runs_ret, runs_bind, runs_ret, runs_bind, runs_modify, runs_ret.
      exists w1. split_and!; try done; apply uint32_range. }
    assert (0 < Z.of_nat (length arg)) as Hpos by (destruct arg; [done|simpl; lia]).
    specialize (Hm1 Hpos). pose proof Hg1 as (_ & Hh1 & _).
    pose proof (owned_bounds w1 _ _ Hh1 (proj1 Hm1)).
    apply runs_bind. eapply runs_copy_ascii; [done|done|lia|lia|done|].
    intros pre rest g3 -> Hpre Hg3 Hm3. rewrite Z.add_0_r in *.
    apply Forall_app in Hu as [_ Hrest]. rewrite length_app in *.
    apply runs_bind. eapply runs_encode_rest; [done|done|by rewrite length_app|done|done| |done|].
    { apply block_write_in; lia. }
    intros r g4 Hp. apply runs_bind, runs_modify, runs_ret. exact Hp.
  - apply runs_bind, runs_encoder. set (n := Z.of_nat (length (encode arg))).
    apply runs_bind. eapply runs_malloc; [done|lia|done|]. intros p g1 w1 Hg1 Hm1 Hk1.
    set (ptr := uint32 p) in *. apply runs_bind. eapply runs_memory; [done|]. intros g2 Hg2.
    destruct (decide (arg = [])) as [->|Hne].
    { apply runs_set_nothing; [done|]. apply runs_bind, runs_modify, runs_ret.
      exists w1. split_and!; try done; apply uint32_range. }
    assert (0 < n) as Hpos by (pose proof (encode_nonempty arg Hu Hne); lia).
    specialize (Hm1 Hpos). pose proof Hg1 as (_ & Hh1 & _).
    pose proof (owned_bounds w1 _ _ Hh1 (proj1 Hm1)).
    apply runs_bind, runs_subarray; [done|lia|lia|].
    apply runs_bind. eapply runs_set_array; [done|done|lia|lia|lia|]. intros g3 Hg3 Hm3.
    apply runs_bind, runs_modify, runs_ret. exists (write_bytes ptr (encode arg) w1).
    simpl. split_and!; [done|lia|lia|done|apply block_write_in; [lia|done|lia]|done|].
    intros q m Hq. by apply Hm3 in Hq as (_ & ? & ?).
Qed.

(** ** Reading a string back *)

Lemma runs_getString w p n (Q : list Z → _) (E : ext → Glue WM → Prop) g :
  hasTextDecoder = true → holds g w → 0 <= p < 2 ^ 32 → 0 <= n →
  p + n <= Z.of_nat (length (memory w)) ∨ n = 0 →
  match decode (block w p n) with
  | Some s => ∀ g', holds g' w → Q s g'
  | None => ∀ g', holds g' w → E (error "TypeError") g'
  end →
  runs (getStringFromWasm0 p n : M (list Z)) Q E g.
Proof.
  intros Hdec Hg Hp Hn Hin HQ. unfold getStringFromWasm0. cbv zeta.
  unfold uint32. rewrite Z.mod_small by done.
  apply runs_bind. eapply runs_memory; [done|]. intros g' Hg'. pose proof Hg' as (Hw & _ & _).
  apply runs_bind. unfold runs at 1, subarray, on_wasm. rewrite Hw. simpl.
  rewrite decide_True, set_wasm_same, Hdec by done. unfold runs, on_wasm. rewrite Hw.
  rewrite !relative_index_pos by lia.
  assert (∀ a m, a = p `min` Z.of_nat (length (memory w)) →
    m = 0 `max` ((p + n) `min` Z.of_nat (length (memory w)) - a) →
    block w a m = block w p n) as Hblock.
  { intros a m -> ->. destruct Hin as [Hin| ->].
    - rewrite Z.min_l, Z.min_l, Z.max_r, Z.add_simpl_l by lia. done.
    - rewrite Z.add_0_r, Z.sub_diag. done. }
  rewrite Hblock by done.
  rewrite set_wasm_same by done. destruct (decode _); auto.
Qed.

(** ** Properties *)

(** C26: A string passed to the module is there as UTF-8: the result is the address
    and [WASM_VECTOR_LEN] the length of a block of its own that holds the
    encoding, and every other block is unchanged.  It holds with and without
    [realloc], for both text encoders, and whether or not an allocation replaces
    the buffer of the memory; the only failure is a trap of the allocator. *)
Theorem passString_encodes w arg (inplace : bool) g :
  holds g w → Forall is_unit arg →
  runs (passStringToWasm0 arg __wbindgen_malloc
          (if inplace then Some __wbindgen_realloc else None) : M Z)
    (λ p g', passed w arg p (WASM_VECTOR_LEN g') g') (λ e _, trap e) g.
Proof. intros Hg Hu. by apply runs_passString. Qed.

Lemma passed_readable w arg p n g :
  Forall is_unit arg → passed w arg p n g →
  ∃ w', holds g w' ∧ 0 <= p < 2 ^ 32 ∧ 0 <= n ∧
    (p + n <= Z.of_nat (length (memory w')) ∨ n = 0) ∧ block w' p n = encode arg.
Proof.
  intros Hu (w' & Hg & Hp & Hn & Hb & Hm & _). exists w'. split_and!; try done; try lia.
  destruct (decide (arg = [])) as [->|Hne]; [by right|left]. pose proof Hg as (_ & Hh & _).
  destruct (Hm Hne) as [Ho _]. pose proof (owned_bounds w' p n Hh Ho). lia.
Qed.

(** C27: What is passed is read back: exactly, when the string is well formed, and
    with U+FFFD for every lone surrogate otherwise. *)
Theorem string_roundtrip w arg (inplace : bool) g :
  hasTextDecoder = true → holds g w → Forall is_unit arg →
  runs (p <- passStringToWasm0 arg __wbindgen_malloc
               (if inplace then Some __wbindgen_realloc else None) ;;
        n <- gets WASM_VECTOR_LEN ;;
        getStringFromWasm0 p n : M (list Z))
    (λ s _, s = toWellFormed arg ∧ (well_formed arg = true → s = arg)) (λ e _, trap e) g.
Proof.
  intros Hdec Hg Hu. apply runs_bind.
  eapply runs_mono; [by apply (runs_passString w arg inplace (λ e _, trap e))| |done].
  intros p g' Hp. destruct (passed_readable w arg p _ g' Hu Hp) as (w' & Hg' & Hr & Hn & Hin & Hb).
  apply runs_bind, runs_gets. eapply runs_getString; [done..|]. rewrite Hb, decode_encode by done.
  intros _ _. split; [done|]. by apply toWellFormed_id.
Qed.

(** C28: The bytes of a passed string lie inside the memory, and are at most three
    for each code unit: the block the slow path asks for is large enough. *)
Theorem passString_bounds w arg (inplace : bool) g :
  holds g w → Forall is_unit arg →
  runs (passStringToWasm0 arg __wbindgen_malloc
          (if inplace then Some __wbindgen_realloc else None) : M Z)
    (λ p g', let n := WASM_VECTOR_LEN g' in
       0 <= p < 2 ^ 32 ∧ 0 <= n <= 3 * Z.of_nat (length arg) ∧
       (n = 0 ↔ arg = []) ∧
       ∀ w', wasm g' = Some w' → arg ≠ [] →
         p + n <= Z.of_nat (length (memory w')) <= 2 ^ 32 ∧
         Forall (λ b, 0 <= b < 256) (block w' p n)) (λ e _, trap e) g.
Proof.
  intros Hg Hu. eapply runs_mono; [by apply (runs_passString w arg inplace (λ e _, trap e))| |done].
  intros p g' (w1 & (Hw & Hh & _) & Hp & Hn & Hb & Hm & _). cbv zeta.
  pose proof (encode_length arg Hu). split_and!; try lia.
  - split; [|intros ->; by rewrite Hn]. intros Hz. destruct (decide (arg = [])) as [|Hne]; [done|].
    pose proof (encode_nonempty arg Hu Hne). lia.
  - intros w' Hw' Hne. rewrite Hw in Hw'. injection Hw' as <-. destruct (Hm Hne) as [Ho _].
    pose proof (owned_bounds w1 _ _ Hh Ho). split; [lia|]. rewrite Hb. by apply encode_bytes.
Qed.

(** [start_camera] calls the module with the address and the length of the
    UTF-8 encoding of the id it was given, or an allocation trapped. *)
Theorem start_camera_passes_id {PR : Program} w video_id g :
  holds g w → Forall is_unit video_id →
  (∃ p n g', passed w video_id p n g' ∧
     (start_camera video_id : M ext) g = (on_glue (export_start_camera p n) : M ext) g') ∨
  (∃ e g', trap e ∧ (start_camera video_id : M ext) g = (g', Threw e)).
Proof.
  intros Hg Hu. pose proof (runs_passString w video_id true (λ e _, trap e) g Hg Hu) as Hr.
  specialize (Hr ltac:(done)). unfold runs in Hr. unfold start_camera, bind.
  destruct (passStringToWasm0 _ _ _ g) as [g' [p|e|]]; [left|right; by exists e, g'|done].
  exists p, (WASM_VECTOR_LEN g'), g'. split; [exact Hr|]. simpl.
  unfold on_glue. by destruct (export_start_camera _ _ _) as [? []].
Qed.
End Strings.
