(* ===== verification/WasmReference.v ===== *)
(** * A concrete module

    A bump allocator, on which the examples of the bindings compute, with the
    proof that it keeps the promises of [Allocator]. *)
From S2P Require Import Prelude JsValue Async Utf8 WasmGlue WasmStrings.

Open Scope Z_scope.

Record RefInner := mkRefInner { ref_blocks : list (Z * Z); ref_brk : Z; ref_exn : option Z }.
Local Abbreviation W := (Wasm RefInner).

Definition ref_trap : ext := error "RuntimeError".

(** The JavaScript number for an [i32] result. *)
Definition int32 (x : Z) : Z := if x <? 2 ^ 31 then x else x - 2 ^ 32.

(** The state with the blocks [bs] and a new one of [n] bytes; the memory grows
    when it does not fit. *)
Definition ref_add (bs : list (Z * Z)) (n : Z) (w : W) : W :=
  let i := inner w in
  let top := ref_brk i + n in
  let missing := Z.to_nat (top - Z.of_nat (length (memory w))) in
  mkWasm (instance_id w) (mkRefInner ((ref_brk i, n) :: bs) top (ref_exn i))
    (if decide (missing = 0%nat) then buffer w else S (buffer w))
    (memory w ++ replicate missing 0) (table w).

Definition ref_malloc (n align : Z) (w : W) : W * (ext + Z) :=
  if decide (n <= 0) then (w, inr align)
  else if decide (2 ^ 32 < ref_brk (inner w) + n) then (w, inl ref_trap)
  else (ref_add (ref_blocks (inner w)) n w, inr (int32 (ref_brk (inner w)))).

(** A block that is moved is copied. *)
Definition ref_realloc (p old new align : Z) (w : W) : W * (ext + Z) :=
  if decide (2 ^ 32 < ref_brk (inner w) + new) then (w, inl ref_trap)
  else
    let rest := filter (λ b, b ≠ (p, old)) (ref_blocks (inner w)) in
    (write_bytes (ref_brk (inner w)) (block w p (Z.min old new)) (ref_add rest new w),
     inr (int32 (ref_brk (inner w)))).

Definition ref_table_alloc (w : W) : W * (ext + Z) :=
  (set_table (table w ++ [undefined]) w, inr (Z.of_nat (length (table w)))).

Definition ref_exn_store (i : Z) (w : W) : W * (ext + unit) :=
  (mkWasm (instance_id w) (mkRefInner (ref_blocks (inner w)) (ref_brk (inner w)) (Some i))
     (buffer w) (memory w) (table w), inr tt).

#[export] Instance RefModule : WasmModule := {|
  Inner := RefInner;
  export_malloc := ref_malloc;
  export_realloc := ref_realloc;
  export_table_alloc := ref_table_alloc;
  export_exn_store := ref_exn_store;
|}.

(** ** Its promises *)

Definition ref_disjoint (bs : list (Z * Z)) : Prop :=
  ∀ p n q m, (p, n) ∈ bs → (q, m) ∈ bs → (p = q ∧ n = m) ∨ p + n <= q ∨ q + m <= p.

Record ref_ok (w : W) : Prop := {
  ref_ok_blocks p n : (p, n) ∈ ref_blocks (inner w) → 0 <= p ∧ 0 < n ∧ p + n <= ref_brk (inner w);
  ref_ok_brk : 0 <= ref_brk (inner w) <= Z.of_nat (length (memory w));
  ref_ok_memory : Z.of_nat (length (memory w)) <= 2 ^ 32;
  ref_ok_disjoint : ref_disjoint (ref_blocks (inner w));
}.

Lemma uint32_int32 x : 0 <= x < 2 ^ 32 → uint32 (int32 x) = x.
Proof.
  intros Hx. unfold uint32, int32. destruct (Z.ltb_spec x (2 ^ 31)).
  - by rewrite Z.mod_small.
  - rewrite <-(Z.mod_add _ 1) by lia. rewrite Z.mod_small; lia.
Qed.

Lemma ref_add_ok bs n w :
  ref_ok w → 0 < n → ref_brk (inner w) + n <= 2 ^ 32 →
  (∀ b, b ∈ bs → b ∈ ref_blocks (inner w)) →
  ref_ok (ref_add bs n w).
Proof.
  intros [Hb Hbrk Hm Hd] Hn Hmax Hsub. split; simpl.
  - intros p m [[= -> ->]|Hin]%elem_of_cons; [lia|]. pose proof (Hb p m (Hsub _ Hin)). lia.
  - rewrite length_app, length_replicate. lia.
  - rewrite length_app, length_replicate. lia.
  - intros p k q m [[= -> ->]|Hp]%elem_of_cons [[= -> ->]|Hq]%elem_of_cons.
    + by left.
    + pose proof (Hb q m (Hsub _ Hq)). lia.
    + pose proof (Hb p k (Hsub _ Hp)). lia.
    + apply Hd; auto.
Qed.

Lemma ref_add_grown bs n w : grown w (ref_add bs n w).
Proof.
  split_and!; [done|done|]. simpl. case_decide as Hz; [left|right; lia].
  split; [done|]. rewrite Hz, app_nil_r. done.
Qed.

Lemma ref_add_block bs n w q m :
  0 <= q → q + m <= Z.of_nat (length (memory w)) → block (ref_add bs n w) q m = block w q m.
Proof.
  intros Hq Hm. unfold block. simpl. apply list_eq. intros i.
  destruct (decide (i < Z.to_nat m)%nat); [|by rewrite !lookup_take_ge by lia].
  rewrite !lookup_take_lt, !lookup_drop by done. apply lookup_app_l. lia.
Qed.

Lemma ref_write_ok a bs w : ref_ok w → ref_ok (write_bytes a bs w).
Proof. intros [? ? ? ?]. split; simpl; rewrite ?length_inserts; auto. Qed.

Lemma ref_owned_bounds (w : W) p n :
  ref_ok w → (p, n) ∈ ref_blocks (inner w) →
  0 <= p ∧ 0 < n ∧ p + n <= Z.of_nat (length (memory w)) <= 2 ^ 32.
Proof. intros [Hb Hbrk Hm _] Hin. pose proof (Hb p n Hin). lia. Qed.

Lemma ref_malloc_spec (w : W) n w' r :
  ref_ok w → 0 <= n → ref_malloc n 1 w = (w', r) →
  match r with
  | inl e => e = ref_trap
  | inr p => ref_ok w' ∧ grown w w' ∧
      (0 < n → (uint32 p, n) ∈ ref_blocks (inner w') ∧ (uint32 p, n) ∉ ref_blocks (inner w)) ∧
      ∀ q m, (q, m) ∈ ref_blocks (inner w) →
        (q, m) ∈ ref_blocks (inner w') ∧ block w' q m = block w q m
  end.
Proof.
  intros Hw Hn Hr. unfold ref_malloc in Hr. pose proof Hw as [Hb Hbrk Hm _].
  case_decide; [simplify_eq; split_and!; [done|by split_and!; [..|left]|lia|done]|].
  case_decide; simplify_eq; [done|].
  split_and!; [apply ref_add_ok; try done; lia|apply ref_add_grown| |].
  - intros _. rewrite uint32_int32 by lia. split; [by left|]. intros Hin. pose proof (Hb _ _ Hin). lia.
  - intros q m Hq. split; [by right|]. pose proof (Hb q m Hq). apply ref_add_block; lia.
Qed.

Lemma ref_realloc_spec (w : W) p old new w' r :
  ref_ok w → (p, old) ∈ ref_blocks (inner w) → 0 < new → ref_realloc p old new 1 w = (w', r) →
  match r with
  | inl e => e = ref_trap
  | inr p' => ref_ok w' ∧ grown w w' ∧ (uint32 p', new) ∈ ref_blocks (inner w') ∧
      block w' (uint32 p') (Z.min old new) = block w p (Z.min old new) ∧
      ∀ q m, (q, m) ∈ ref_blocks (inner w) → (q, m) ≠ (p, old) →
        (q, m) ≠ (uint32 p', new) ∧ (q, m) ∈ ref_blocks (inner w') ∧ block w' q m = block w q m
  end.
Proof.
  intros Hw Ho Hn Hr. unfold ref_realloc in Hr.
  pose proof Hw as [Hb Hbrk Hm Hd]. pose proof (Hb p old Ho) as Hold.
  case_decide as Hmax; simplify_eq; [done|].
  set (brk := ref_brk (inner w)) in *. set (rest := filter _ _).
  assert (∀ b, b ∈ rest → b ∈ ref_blocks (inner w)) as Hsub.
  { intros b. unfold rest. rewrite list_elem_of_filter. by intros []. }
  pose proof (ref_add_ok rest new w Hw Hn ltac:(unfold brk in *; lia) Hsub) as Hok.
  assert (length (block w p (Z.min old new)) = Z.to_nat (Z.min old new)) as Hlen
    by (apply block_length; lia).
  assert (brk + new <= Z.of_nat (length (memory (ref_add rest new w)))) as Hfit
    by apply (ref_ok_brk _ Hok).
  rewrite uint32_int32 by lia. split_and!.
  - by apply ref_write_ok.
  - destruct (ref_add_grown rest new w) as (Ht & Hi & Hg). split_and!; [done|done|].
    unfold write_bytes. cbn [buffer memory]. by rewrite length_inserts.
  - simpl. by left.
  - apply block_write_in; [lia|lia|lia].
  - intros q m Hq Hne. pose proof (Hb q m Hq). split_and!.
    + intros [= -> ->]. lia.
    + simpl. right. unfold rest. by apply list_elem_of_filter.
    + rewrite block_write_out by lia. apply ref_add_block; lia.
Qed.

#[export] Instance RefAllocator : Allocator := {|
  heap_ok := ref_ok;
  owned w p n := (p, n) ∈ ref_blocks (inner w);
  trap e := e = ref_trap;
  owned_bounds := ref_owned_bounds;
  owned_disjoint w p n q m Hw := ref_ok_disjoint w Hw p n q m;
  owned_write w p n a bs Hw _ _ _ := conj (ref_write_ok a bs w Hw) (λ q m, iff_refl _);
  malloc_spec := ref_malloc_spec;
  realloc_spec := ref_realloc_spec;
|}.

(** An empty instance. *)
Definition ref_wasm (pages : nat) : Wasm (@Inner RefModule) :=
  mkWasm 0 (mkRefInner [] 8 None) 0 (replicate (8 + pages) 0) [undefined].

Definition ref_glue (pages : nat) : Glue RefModule := mkGlue _ (Some (ref_wasm pages)) None 0.

Lemma ref_glue_holds pages : (pages < 1000)%nat → holds (ref_glue pages) (ref_wasm pages).
Proof.
  intros Hp. split_and!; [done| |by intros v].
  split; simpl; try (rewrite ?length_replicate; lia).
  - intros p n Hin. by apply not_elem_of_nil in Hin.
  - intros p n q m Hin. by apply not_elem_of_nil in Hin.
Qed.

Definition RefPlatform (e : Encoder) : Platform := {| cachedTextEncoder := e; hasTextDecoder := true |}.

(** [vi], an [e] with an accent, an emoji and a lone surrogate *)
Definition ex_string : list Z := [0x76; 0x69; 0xE9; 0xD83D; 0xDE00; 0xD800].

Lemma ex_string_units : Forall is_unit ex_string.
Proof. repeat constructor; done. Qed.

Local Abbreviation M := (@JS (Glue RefModule) ext unit (λ _, unit)).

Definition result {A} (m : M A) (g : Glue RefModule) : option A :=
  match snd (m g) with Returned a => Some a | _ => None end.

(** The memory grows at each of the three allocations. *)
Example ex_pass :
  result (p <- passStringToWasm0 (PF := RefPlatform EncodeInto) ex_string __wbindgen_malloc
                 (Some __wbindgen_realloc) ;;
          n <- gets WASM_VECTOR_LEN ;;
          on_wasm (λ w, (w, inr (p, n, block w p n, buffer w)))) (ref_glue 4) =
  Some (28, 11, [0x76; 0x69; 0xC3; 0xA9; 0xF0; 0x9F; 0x98; 0x80; 0xEF; 0xBF; 0xBD], 3%nat).
Proof. vm_compute. reflexivity. Qed.

Lemma passString_encodes_witness :
  let P := RefPlatform EncodeOnly in
  runs (passStringToWasm0 (PF := P) ex_string __wbindgen_malloc (Some __wbindgen_realloc) : M Z)
    (λ p g', passed (ref_wasm 4) ex_string p (WASM_VECTOR_LEN g') g') (λ e _, trap e) (ref_glue 4).
Proof.
  intros P. apply (passString_encodes (PF := P) ltac:(done) (ref_wasm 4) ex_string true).
  - apply ref_glue_holds. lia.
  - apply ex_string_units.
Defined.

Lemma string_roundtrip_witness :
  let P := RefPlatform EncodeInto in
  runs (p <- passStringToWasm0 (PF := P) [0x76; 0xE9] __wbindgen_malloc None ;;
        n <- gets WASM_VECTOR_LEN ;;
        getStringFromWasm0 (PF := P) p n : M (list Z))
    (λ s _, s = toWellFormed [0x76; 0xE9] ∧ (well_formed [0x76; 0xE9] = true → s = [0x76; 0xE9]))
    (λ e _, trap e) (ref_glue 0).
Proof.
  intros P. apply (string_roundtrip (PF := P) ltac:(done) (ref_wasm 0) [0x76; 0xE9] false (ref_glue 0) eq_refl).
  - apply ref_glue_holds. lia.
  - repeat constructor; done.
Defined.

Lemma passString_bounds_witness :
  let P := RefPlatform EncodeInto in
  runs (passStringToWasm0 (PF := P) ex_string __wbindgen_malloc (Some __wbindgen_realloc) : M Z)
    (λ p g', let n := WASM_VECTOR_LEN g' in
       0 <= p < 2 ^ 32 ∧ 0 <= n <= 3 * Z.of_nat (length ex_string) ∧ (n = 0 ↔ ex_string = []) ∧
       ∀ w', wasm g' = Some w' → ex_string ≠ [] →
         p + n <= Z.of_nat (length (memory w')) <= 2 ^ 32 ∧
         Forall (λ b, 0 <= b < 256) (block w' p n)) (λ e _, trap e) (ref_glue 4).
Proof.
  intros P. apply (passString_bounds (PF := P) ltac:(done) (ref_wasm 4) ex_string true).
  - apply ref_glue_holds. lia.
  - apply ex_string_units.
Defined.

(** A program that does nothing. *)
Definition RefProgram : Program := {|
  export_start_camera _ _ g := (g, inr undefined);
  export_start g := (g, inr tt);
|}.

Lemma start_camera_passes_id_witness :
  let P := RefPlatform EncodeInto in let R := RefProgram in
  (∃ p n g', passed (ref_wasm 4) ex_string p n g' ∧
     (start_camera (PF := P) (PR := R) ex_string : M ext) (ref_glue 4) = (on_glue (export_start_camera (Program := R) p n) : M ext) g') ∨
  (∃ e g', trap e ∧ (start_camera (PF := P) (PR := R) ex_string : M ext) (ref_glue 4) = (g', Threw e)).
Proof.
  intros P R. apply (start_camera_passes_id (PF := P) ltac:(done) (PR := R) (ref_wasm 4) ex_string).
  - apply ref_glue_holds. lia.
  - apply ex_string_units.
Defined.
