(* ===== verification/WasmTable.v ===== *)
(** * Values and exceptions handed to the WebAssembly module

    A value the module cannot hold is put into a table, and its index handed
    over.  [TableAllocator] is what the module promises of the indices it
    gives out. *)
From S2P Require Import Prelude JsValue Async Utf8 WasmGlue WasmStrings WasmReference.

Open Scope Z_scope.

Class TableAllocator {WM : WasmModule} := {
  (** the slot is in use *)
  used : Wasm Inner → Z → Prop;
  exhausted : ext → Prop;
  table_alloc_spec w w' r :
    used w 0 → export_table_alloc w = (w', r) →
    match r with
    | inl e => exhausted e
    | inr i => 0 <= i < Z.of_nat (length (table w')) ∧ ¬ used w i ∧ used w' i ∧
        ∀ j, used w j → used w' j ∧ table w' !! Z.to_nat j = table w !! Z.to_nat j
    end;
  used_set w t i : length t = length (table w) → used (set_table t w) i ↔ used w i;
  used_bounds w i : used w i → 0 <= i;
  exn_store_spec i w : ∃ w', export_exn_store i w = (w', inr tt) ∧ table w' = table w ∧
    ∀ j, used w j → used w' j;
}.

Section Table.
Context {PF : Platform} {WM : WasmModule} {JH : JSHost} {TA : TableAllocator}.
Context {Req : Type} {Reply : Req → Type}.
Local Abbreviation M := (@JS (Glue WM) ext Req Reply).
Local Abbreviation W := (Wasm Inner).
Implicit Types (g : Glue WM) (w : W).

(** The module may read what is in the slot. *)
Definition slot w (i : Z) (x : ext) : Prop := used w i ∧ table w !! Z.to_nat i = Some x.

(** Slot 0 is for [undefined]. *)
Definition table_ok g w : Prop := wasm g = Some w ∧ slot w 0 undefined.

Definition slots_kept w w' : Prop := ∀ i x, slot w i x → slot w' i x.

#[export] Instance slots_kept_preorder : PreOrder slots_kept.
Proof. split; [by intros w i x|]. intros w1 w2 w3 H1 H2 i x Hi. by apply H2, H1. Qed.

Lemma runs_addToExternrefTable0 w obj (Q : Z → _) (E : ext → Glue WM → Prop) g :
  table_ok g w → (∀ e g', exhausted e → E e g') →
  (∀ i g' w', table_ok g' w' → slots_kept w w' → ¬ used w i → slot w' i obj → Q i g') →
  runs (addToExternrefTable0 obj : M Z) Q E g.
Proof.
  intros [Hw H0] HE HQ. apply runs_bind. unfold runs at 1, on_wasm. rewrite Hw.
  destruct (export_table_alloc w) as [w1 r] eqn:Hr.
  pose proof (table_alloc_spec w w1 r (proj1 H0) Hr) as Hs. destruct r as [e|i]; [by apply HE|].
  destruct Hs as (Hi & Hn & Hu & Hk). apply runs_bind. unfold runs at 1, table_set, on_wasm. simpl.
  rewrite decide_True by done. apply runs_ret.
  set (w2 := set_table (<[Z.to_nat i:=obj]> (table w1)) w1).
  assert (slots_kept w w2) as Hkept.
  { intros j x [Hj Hx]. destruct (Hk j Hj) as [Hj' Hjx]. split.
    - apply used_set; [|done]. by rewrite length_insert.
    - simpl. assert (i ≠ j) by (by intros ->). pose proof (used_bounds w j Hj).
      rewrite list_lookup_insert_ne by lia. by rewrite Hjx. }
  apply (HQ i _ w2); [|done|done|].
  - split; [done|by apply Hkept].
  - split; [apply used_set; [by rewrite length_insert|done]|]. simpl.
    apply list_lookup_insert_eq. lia.
Qed.

(** An optional result arrives as the index of a slot that holds it; [null] and
    [undefined] arrive as slot 0, which holds [undefined]. *)
Theorem optional_ref_reads w r g :
  table_ok g w →
  runs (optional_ref r : M Z)
    (λ i g', ∃ w', table_ok g' w' ∧ slots_kept w w' ∧
       slot w' i (if isLikeNone r then undefined else r)) (λ e _, exhausted e) g.
Proof.
  intros Hg. unfold optional_ref. destruct (isLikeNone r).
  - apply runs_ret. exists w. split_and!; [done|done|apply Hg].
  - eapply runs_addToExternrefTable0; [done|done|]. intros i g' w' Hg' Hk _ Hs. by exists w'.
Qed.

(** C33: An exception of the wrapped function does not reach the module's code: it
    is put into a slot that was free, the module is told its index, and the
    import returns; the only exception that passes is an exhausted table.  A
    function that returns is not affected. *)
Theorem handleError_reports (f : M ext) w g g1 :
  (∀ x, f g = (g1, Returned x) → (handleError f : M ext) g = (g1, Returned x)) ∧
  (∀ e, f g = (g1, Threw e) → table_ok g1 w →
     runs (handleError f : M ext)
       (λ x g', x = undefined ∧ ∃ i w1 w', wasm g' = Some w' ∧
          export_exn_store i w1 = (w', inr tt) ∧ ¬ used w i ∧ slot w' i e ∧ slots_kept w w')
       (λ e' _, exhausted e') g).
Proof.
  unfold handleError. split; [intros x Hf; unfold try_catch; by rewrite Hf|].
  intros e Hf Hg. apply runs_try. unfold runs at 1. rewrite Hf. apply runs_bind.
  eapply runs_addToExternrefTable0; [done|done|]. intros i g' w1 [Hw1 _] Hk Hn Hs.
  apply runs_bind. destruct (exn_store_spec i w1) as (w' & He & Ht & Hu).
  unfold runs at 1, on_wasm. rewrite Hw1, He. apply runs_ret. split; [done|].
  assert (slots_kept w1 w') as Hk'.
  { intros j y [Hj Hy]. split; [auto|by rewrite Ht]. }
  exists i, w1, w'. split_and!; [done|done|done|by apply Hk'|by etrans].
Qed.

(** The table the module starts with: the four constants behind what was there,
    and [undefined] in slot 0. *)
Theorem init_externref_table w g :
  wasm g = Some w → table w ≠ [] →
  ∃ g', (__wbindgen_init_externref_table : M unit) g = (g', Returned tt) ∧
    table <$> wasm g' = Some (<[0%nat := undefined]> (table w) ++
      [undefined; null; Val (JBool true); Val (JBool false)]).
Proof.
  intros Hw Hne. assert (0 < length (table w))%nat as Hpos by (destruct (table w); [done|simpl; lia]).
  assert (∀ g1 i y w1, wasm g1 = Some w1 → 0 <= i < Z.of_nat (length (table w1)) →
    (table_set i y : M unit) g1 =
      (set_wasm (Some (set_table (<[Z.to_nat i := y]> (table w1)) w1)) g1, Returned tt)) as Hset.
  { intros g1 i y w1 Hg1 Hi. unfold table_set, on_wasm. rewrite Hg1. by rewrite decide_True by done. }
  set (n := length (table w)) in *. eexists. split.
  - unfold __wbindgen_init_externref_table.
    erewrite bind_returned; [|unfold table_grow, on_wasm; rewrite Hw; reflexivity].
    do 4 (erewrite bind_returned; [|eapply Hset; [reflexivity|];
      cbn [table set_table]; rewrite ?length_insert, ?length_app, ?length_replicate; lia]).
    eapply Hset; [reflexivity|].
    cbn [table set_table]. rewrite ?length_insert, ?length_app, ?length_replicate. lia.
  - cbn [wasm set_wasm table set_table fmap option_fmap option_map]. f_equal. fold n.
    rewrite (insert_app_l (table w)) by lia.
    rewrite !insert_app_r_alt by (rewrite length_insert; lia). f_equal.
    rewrite length_insert. fold n.
    replace (Z.to_nat (Z.of_nat n + 0) - n)%nat with 0%nat by lia.
    replace (Z.to_nat (Z.of_nat n + 1) - n)%nat with 1%nat by lia.
    replace (Z.to_nat (Z.of_nat n + 2) - n)%nat with 2%nat by lia.
    by replace (Z.to_nat (Z.of_nat n + 3) - n)%nat with 3%nat by lia.
Qed.
End Table.

(** ** The concrete module *)

Definition ref_used (w : Wasm RefInner) (i : Z) : Prop := 0 <= i < Z.of_nat (length (table w)).

#[export] Program Instance RefTable : TableAllocator := {|
  used := ref_used;
  exhausted e := False;
|}.
Next Obligation.
  intros w w' r _ [= <- <-]. unfold ref_used. simpl. rewrite length_app. simpl.
  split_and!; try lia. intros j Hj. split; [lia|]. apply lookup_app_l. lia.
Qed.
Next Obligation. intros w t i Hl. unfold ref_used. simpl. by rewrite Hl. Qed.
Next Obligation. intros w i. unfold ref_used. lia. Qed.
Next Obligation. intros i w. by eexists. Qed.

Local Abbreviation M := (@JS (Glue RefModule) ext unit (λ _, unit)).

Lemma optional_ref_reads_witness :
  runs (optional_ref (Obj 7) : M Z)
    (λ i g', ∃ w', table_ok g' w' ∧ slots_kept (ref_wasm 0) w' ∧
       slot w' i (if isLikeNone (Obj 7) then undefined else Obj 7)) (λ e _, exhausted e) (ref_glue 0).
Proof. apply (optional_ref_reads (ref_wasm 0) (Obj 7) (ref_glue 0)). by split_and!. Defined.

Lemma init_externref_table_witness :
  ∃ g', (__wbindgen_init_externref_table : M unit) (ref_glue 0) = (g', Returned tt) ∧
    table <$> wasm g' = Some (<[0%nat := undefined]> [undefined] ++
      [undefined; null; Val (JBool true); Val (JBool false)]).
Proof. by apply (init_externref_table (ref_wasm 0) (ref_glue 0)). Defined.

Example ex_init_then_add :
  (result (__wbindgen_init_externref_table ;; optional_ref null) (ref_glue 0),
   result (__wbindgen_init_externref_table ;; optional_ref (Obj 7)) (ref_glue 0)) =
  (Some 0, Some 5).
Proof. vm_compute. reflexivity. Qed.

Lemma handleError_reports_witness :
  runs (handleError (throw (Obj 3)) : M ext)
    (λ x g', x = undefined ∧ ∃ i w1 w', wasm g' = Some w' ∧
       export_exn_store i w1 = (w', inr tt) ∧ ¬ used (ref_wasm 0) i ∧ slot w' i (Obj 3) ∧
       slots_kept (ref_wasm 0) w') (λ e' _, exhausted e') (ref_glue 0).
Proof.
  apply (handleError_reports (throw (Obj 3) : M ext) (ref_wasm 0) (ref_glue 0) (ref_glue 0)).
  - reflexivity.
  - by split_and!.
Defined.
