(* ===== verification/WasmClosures.v ===== *)
(** * Closures of the WebAssembly module ([makeMutClosure])

    A JavaScript function that stands for a closure of the module holds the
    address of its environment.  [step] is one event in its life: a call that
    enters or leaves it, the module dropping its handle ([__wbindgen_cb_drop])
    or leaving it to JavaScript, and the finalizer.  [spec_step] is what the code promises of
    the environment, and the code refines it. *)
From S2P Require Import Prelude Async React.

Open Scope Z_scope.

(** What is done with the environment: [f] is called with an address, the
    destructor of the module is called with one, or the module is told to free
    its own. *)
Inductive Action :=
| Invoke (a : Z)
| Destroy (a : Z)
| Free.

#[global] Instance Action_eq_dec : EqDecision Action.
Proof. solve_decision. Defined.

(** [state] of the closure with the frames of the calls on the stack (the
    constant [a] of each, the innermost first), whether the finalization
    registry still watches the function, whether the module holds it, and
    whether it was collected. *)
Record Closure := mkClosure {
  state_a : Z;
  cnt : Z;
  frames : list Z;
  registered : bool;
  held : bool;
  collected : bool;
  actions : list Action;
}.

Definition makeMutClosure (arg0 : Z) : Closure := mkClosure arg0 1 [] true true false [].

(** The second word of the environment, the destructor's index and the shim that
    [real] calls stay as they are for the life of the closure. *)
Definition __wbindgen_closure_wrapper236 (arg0 : Z) : Closure := makeMutClosure arg0.

(** The body of [real] up to the call of [f]. *)
Definition real_enter (c : Closure) : Closure :=
  mkClosure 0 (cnt c + 1) (state_a c :: frames c) (registered c) (held c) (collected c)
    (actions c ++ [Invoke (state_a c)]).

(** The [finally] block, for the call with the constant [a]. *)
Definition real_leave (a : Z) (rest : list Z) (c : Closure) : Closure :=
  let cnt := cnt c - 1 in
  if decide (cnt = 0) then
    mkClosure (state_a c) cnt rest false (held c) (collected c) (actions c ++ [Destroy a])
  else mkClosure a cnt rest (registered c) (held c) (collected c) (actions c).

(** [__wbindgen_cb_drop]: the module frees the environment when the result is
    [true]. *)
Definition __wbindgen_cb_drop (c : Closure) : bool * Closure :=
  if decide (cnt c = 1) then
    (true, mkClosure 0 (cnt c - 1) (frames c) (registered c) (held c) (collected c) (actions c))
  else
    (false, mkClosure (state_a c) (cnt c - 1) (frames c) (registered c) (held c) (collected c)
              (actions c)).

Definition release_handle (c : Closure) : Closure :=
  mkClosure (state_a c) (cnt c) (frames c) (registered c) false (collected c) (actions c).

Definition drop (c : Closure) : Closure :=
  let '(freed, c) := __wbindgen_cb_drop (release_handle c) in
  if freed : bool then
    mkClosure (state_a c) (cnt c) (frames c) (registered c) (held c) (collected c)
      (actions c ++ [Free])
  else c.

(** The callback of [CLOSURE_DTORS]. *)
Definition finalize (c : Closure) : Closure :=
  mkClosure (state_a c) (cnt c) (frames c) false (held c) true (actions c ++ [Destroy (state_a c)]).

Inductive Event := EvEnter | EvLeave | EvDrop | EvForget | EvFinalize.

(** A function is collected when nothing holds it and none of its calls runs. *)
Definition step (e : Event) (c : Closure) : option Closure :=
  match e with
  | EvEnter => enabled (negb (collected c)) (real_enter c)
  | EvLeave =>
      match frames c with
      | a :: rest => Some (real_leave a rest c)
      | [] => None
      end
  | EvDrop => enabled (held c) (drop c)
  | EvForget => enabled (held c) (release_handle c)
  | EvFinalize =>
      enabled (registered c && negb (held c) && negb (collected c) && bool_decide (frames c = []))
        (finalize c)
  end.

(** ** The executor of a promise ([__wbg_new_23a2665fac83c611])

    [state0] with the constants [a] of the running calls of [cb0], and the
    environments [__wbg_adapter_46] was called with. *)
Record Executor := mkExecutor {
  state0 : Z * Z;
  saved : list Z;
  adapter_calls : list (Z * Z);
}.

Definition cb0_enter (e : Executor) : Executor :=
  mkExecutor (0, snd (state0 e)) (fst (state0 e) :: saved e) (adapter_calls e ++ [state0 e]).

(** The inner [finally] block. *)
Definition cb0_leave (e : Executor) : Executor :=
  match saved e with
  | a :: rest => mkExecutor (a, snd (state0 e)) rest (adapter_calls e)
  | [] => e
  end.

(** The constructor of [Promise] calls its executor once, before it returns, and
    keeps what it throws: both [finally] blocks run in any case. *)
Definition __wbg_new_23a2665fac83c611 (arg0 arg1 : Z) : Executor :=
  let e := cb0_leave (cb0_enter (mkExecutor (arg0, arg1) [] [])) in
  mkExecutor (0, 0) (saved e) (adapter_calls e).

(** ** What is promised *)

(** The environment is lent to one call at a time and given back; it is
    released once, when it is neither in use nor wanted. *)
Inductive Phase :=
| Alive (wanted : bool)
| Released.

Record Spec := mkSpec { phase : Phase; depth : nat; uses : list Action }.

Definition spec_init : Spec := mkSpec (Alive true) 0 [].

Section Spec.
Context (env : Z).

Definition lend (s : Spec) : Action :=
  match phase s, depth s with
  | Alive _, O => Invoke env
  | _, _ => Invoke 0
  end.

Definition spec_step (e : Event) (s : Spec) : Spec :=
  match e, phase s, depth s with
  | EvEnter, p, d => mkSpec p (S d) (uses s ++ [lend s])
  | EvLeave, Alive false, 1%nat => mkSpec Released 0 (uses s ++ [Destroy env])
  | EvLeave, p, d => mkSpec p (pred d) (uses s)
  | EvDrop, Alive _, O => mkSpec Released 0 (uses s ++ [Free])
  | EvDrop, Alive _, d => mkSpec (Alive false) d (uses s)
  | EvFinalize, Alive _, d => mkSpec Released d (uses s ++ [Destroy env])
  | _, p, d => mkSpec p d (uses s)
  end.

Definition spec_run (es : list Event) (s : Spec) : Spec := foldl (λ s e, spec_step e s) s es.

(** A call is given the environment when no other call has it: the outermost. *)
Definition stack (n : nat) : list Z :=
  match n with O => [] | S n => replicate n 0 ++ [env] end.

(** The state of the closure for what is promised. *)
Definition alive (wanted : bool) (c : Closure) : Prop :=
  frames c = stack (length (frames c)) ∧ state_a c = (if frames c is [] then env else 0) ∧
  cnt c = Z.of_nat (length (frames c)) + (if wanted then 1 else 0) ∧
  registered c = true ∧ collected c = false ∧ (wanted = false → frames c ≠ [] ∧ held c = false).

Definition released (c : Closure) : Prop :=
  held c = false ∧ frames c = replicate (length (frames c)) 0 ∧
  (collected c = true ∧ frames c = [] ∨
   state_a c = 0 ∧ cnt c = Z.of_nat (length (frames c))).

Record refines (c : Closure) (s : Spec) : Prop := {
  ref_depth : depth s = length (frames c);
  ref_phase : match phase s with Alive wanted => alive wanted c | Released => released c end;
  ref_uses : filter (λ a, a ≠ Destroy 0) (actions c) = uses s;
}.
End Spec.

Arguments spec_step : simpl nomatch.

Section Refinement.
Context (env : Z) (Henv : env ≠ 0).

Lemma visible_snoc l a u :
  filter (λ a, a ≠ Destroy 0) l = u → a ≠ Destroy 0 →
  filter (λ a, a ≠ Destroy 0) (l ++ [a]) = u ++ [a].
Proof. intros <- Ha. rewrite filter_app. f_equal. by rewrite filter_cons_True. Qed.

Lemma invisible_snoc l u :
  filter (λ a, a ≠ Destroy 0) l = u → filter (λ a, a ≠ Destroy 0) (l ++ [Destroy 0]) = u.
Proof. intros <-. rewrite filter_app, filter_cons_False, filter_nil, app_nil_r; naive_solver. Qed.

Lemma init_refines : refines env (makeMutClosure env) spec_init.
Proof. by split. Qed.

Lemma enter_refines c s :
  refines env c s → collected c = false → refines env (real_enter c) (spec_step env EvEnter s).
Proof.
  destruct c as [a n fs r h col acts], s as [p d u]. intros [Hd Hp Hu] Hcol. simpl in *. subst d col.
  destruct p as [wanted|].
  - destruct Hp as (Hfs & Ha & Hn & Hr & Hc & Hw). simpl in *. split; simpl; [done| |].
    + split_and!; simpl; try done; [|lia|]; [|intros Hf; by destruct (Hw Hf)].
      destruct fs as [|f fs]; subst a; [done|]. by rewrite Hfs at 1.
    + unfold lend. destruct fs; subst a; by apply visible_snoc.
  - destruct Hp as (Hh & Hfs & [[? _]|[Ha Hn]]); [done|]. simpl in *. subst a n.
    split; simpl; [done| |].
    + split_and!; simpl; [done|by rewrite Hfs at 1|right]. split; [done|lia].
    + unfold lend. by apply visible_snoc.
Qed.

Lemma leave_refines a rest c s :
  refines env c s → frames c = a :: rest →
  refines env (real_leave a rest c) (spec_step env EvLeave s).
Proof.
  destruct c as [sa n fs r h col acts], s as [p d u]. intros [Hd Hp Hu] Hfs0. simpl in *. subst d fs.
  destruct p as [wanted|].
  - destruct Hp as (Hfs & Ha & Hn & Hr & Hc & Hw). simpl in *. subst sa n. unfold real_leave. simpl.
    destruct rest as [|b rest]; simpl in Hfs.
    + injection Hfs as ->. destruct wanted; simpl.
      * split; simpl; [done| |done]. by split_and!.
      * split; simpl; [done| |].
        { split_and!; simpl; [by apply Hw|done|by right]. }
        { by apply visible_snoc; [|intros [= ->]]. }
    + injection Hfs as -> Hrest. cbn [length]. case_decide; [destruct wanted; lia|].
      split; simpl; [by destruct wanted| |by destruct wanted].
      assert (alive env wanted (mkClosure 0 (Z.of_nat (S (S (length rest))) + (if wanted then 1 else 0) - 1)
        (b :: rest) r h col acts)) by (split_and!; simpl; [done|done|destruct wanted; lia|done|done|naive_solver]).
      by destruct wanted.
  - destruct Hp as (Hh & Hfs & [[_ ?]|[Ha Hn]]); [done|]. simpl in *. subst sa n. injection Hfs as -> Hrest.
    unfold real_leave. simpl. case_decide as Hz; split; simpl; try done.
    + split_and!; simpl; [done|done|right]. split; [done|lia].
    + by apply invisible_snoc.
    + split_and!; simpl; [done|done|right]. split; [done|lia].
Qed.

Lemma drop_refines c s :
  refines env c s → held c = true → refines env (drop c) (spec_step env EvDrop s).
Proof.
  destruct c as [sa n fs r h col acts], s as [p d u]. intros [Hd Hp Hu] Hh. simpl in *. subst d h.
  destruct p as [wanted|]; [|by destruct Hp].
  destruct Hp as (Hfs & Ha & Hn & Hr & Hc & Hw). simpl in *. subst sa n.
  destruct wanted; [|by destruct Hw].
  unfold drop, __wbindgen_cb_drop. simpl. destruct fs as [|f fs]; simpl.
  - split; simpl; [done| |by apply visible_snoc]. split_and!; simpl; [done|done|by right].
  - case_decide; [lia|]. split; simpl; [done| |done]. split_and!; simpl; try done. lia.
Qed.

Lemma forget_refines c s :
  refines env c s → held c = true → refines env (release_handle c) (spec_step env EvForget s).
Proof.
  destruct c as [sa n fs r h col acts], s as [p d u]. intros [Hd Hp Hu] Hh. simpl in *. subst d h.
  destruct p as [wanted|]; [|by destruct Hp].
  destruct Hp as (Hfs & Ha & Hn & Hr & Hc & Hw). simpl in *.
  split; simpl; [done| |done]. split_and!; simpl; try done. naive_solver.
Qed.

Lemma finalize_refines c s :
  refines env c s → held c = false → collected c = false → frames c = [] →
  refines env (finalize c) (spec_step env EvFinalize s).
Proof.
  destruct c as [sa n fs r h col acts], s as [p d u]. intros [Hd Hp Hu] Hh Hcol Hfs. simpl in *.
  subst d h col fs. destruct p as [wanted|].
  - destruct Hp as (_ & Ha & Hn & Hr & Hc & Hw). simpl in *. subst sa.
    split; simpl; [done| |by apply visible_snoc; [|intros [= ->]]]. split_and!; simpl; [done|done|by left].
  - destruct Hp as (_ & _ & [[? _]|[Ha Hn]]); [done|]. simpl in *. subst sa.
    split; simpl; [done| |by apply invisible_snoc]. split_and!; simpl; [done|done|by left].
Qed.

Lemma step_refines e c c' s :
  refines env c s → step e c = Some c' → refines env c' (spec_step env e s).
Proof.
  intros Hr Hs. destruct e; simpl in Hs.
  - apply enabled_Some in Hs as [Hc%negb_true_iff <-]. by apply enter_refines.
  - destruct (frames c) as [|a rest] eqn:Hf; [done|]. injection Hs as <-. by apply leave_refines.
  - apply enabled_Some in Hs as [Hh <-]. by apply drop_refines.
  - apply enabled_Some in Hs as [Hh <-]. by apply forget_refines.
  - apply enabled_Some in Hs as [Hb <-]. rewrite !andb_true_iff, !negb_true_iff in Hb.
    destruct Hb as [[[_ Hh] Hc] Hf%bool_decide_eq_true]. by apply finalize_refines.
Qed.

Lemma run_refines es c c' s :
  refines env c s → run step es c = Some c' → refines env c' (spec_run env es s).
Proof.
  revert c s. induction es as [|e es IH]; simpl; intros c s Hr Hrun; [by simplify_eq|].
  destruct (step e c) as [c1|] eqn:He; [|done]. eapply IH; [|done]. by eapply step_refines.
Qed.
End Refinement.

(** ** What the specification gives *)

Section Ownership.
Context (env : Z).

Definition is_release (a : Action) : Prop := a = Free ∨ a = Destroy env.

#[export] Instance is_release_dec a : Decision (is_release a).
Proof. unfold is_release. apply _. Defined.

Definition spec_ok (s : Spec) : Prop :=
  match phase s with
  | Alive _ => Forall (λ a, ¬ is_release a) (uses s)
  | Released => ∃ l1 r l2, uses s = l1 ++ r :: l2 ∧ Forall (λ a, ¬ is_release a) l1 ∧
      is_release r ∧ Forall (λ a, a = Invoke 0) l2
  end.

Lemma not_release_invoke a : ¬ is_release (Invoke a).
Proof. by intros [|]. Qed.

(** The release of a live environment. *)
Lemma release_ok u r : Forall (λ a, ¬ is_release a) u → is_release r →
  ∃ l1 r' l2, u ++ [r] = l1 ++ r' :: l2 ∧ Forall (λ a, ¬ is_release a) l1 ∧
    is_release r' ∧ Forall (λ a, a = Invoke 0) l2.
Proof. intros Hu Hr. by exists u, r, []. Qed.

Lemma spec_step_ok e s : spec_ok s → spec_ok (spec_step env e s).
Proof.
  destruct s as [[wanted|] d u]; unfold spec_ok; simpl.
  - intros Hu. destruct e, d as [|[|d]], wanted; simpl; try done;
      try (apply Forall_snoc; [done|apply not_release_invoke]);
      by apply release_ok; [|first [by left|by right]].
  - intros (l1 & r & l2 & -> & Hl1 & Hr & Hl2). destruct e; simpl; try (by exists l1, r, l2).
    exists l1, r, (l2 ++ [Invoke 0]). split_and!; try done; [by rewrite <-app_assoc|].
    by apply Forall_snoc.
Qed.

Lemma spec_run_ok es s : spec_ok s → spec_ok (spec_run env es s).
Proof. revert s. induction es as [|e es IH]; intros s Hs; [done|]. by apply IH, spec_step_ok. Qed.

(** Once dropped, an environment that is not in use has been released. *)
Lemma spec_dropped es s :
  phase s ≠ Alive true ∨ EvDrop ∈ es → phase (spec_run env es s) ≠ Alive true.
Proof.
  revert s. induction es as [|e es IH]; intros s Hs; simpl.
  { destruct Hs as [|Hin]; [done|by apply not_elem_of_nil in Hin]. }
  apply IH. destruct Hs as [Hs|[<-|?]%elem_of_cons]; [left|left|by right].
  - destruct s as [[[]|] [|[|d]] u]; try done; by destruct e.
  - by destruct s as [[[]|] [|[|d]] u].
Qed.

Lemma filter_zeros n : env ≠ 0 → filter (eq env) (replicate n 0) = [].
Proof. intros He. induction n as [|n IH]; [done|]. simpl. by rewrite filter_cons_False. Qed.

Lemma filter_stack n : env ≠ 0 → (length (filter (eq env) (stack env n)) <= 1)%nat.
Proof.
  intros He. destruct n as [|n]; simpl; [lia|]. rewrite filter_app, filter_zeros by done.
  simpl. rewrite filter_cons_True by done. simpl. lia.
Qed.

(** C29: A wrapped closure does what is promised of its environment, in any order of
    calls (also recursive), returns, the module's drop, and collection. *)
Theorem closure_refines es c :
  env ≠ 0 → run step es (makeMutClosure env) = Some c → refines env c (spec_run env es spec_init).
Proof. intros He Hr. eapply run_refines; [done|by apply init_refines|done]. Qed.

(** The environment is never in two calls at once, so a call owns it while it
    runs: whoever has it on the stack has taken it out of [state.a]. *)
Theorem closure_exclusive es c :
  env ≠ 0 → run step es (makeMutClosure env) = Some c →
  (length (filter (eq env) (frames c)) <= 1)%nat ∧ (env ∈ frames c → state_a c = 0).
Proof.
  intros He Hr.
  destruct (run_refines env He es _ _ _ (init_refines env) Hr) as [_ Hp _].
  destruct (phase _).
  - destruct Hp as (Hfs & Ha & _). split; [rewrite Hfs; by apply filter_stack|].
    intros Hin. rewrite Ha. destruct (frames c); [by apply not_elem_of_nil in Hin|done].
  - destruct Hp as (_ & Hfs & _). rewrite Hfs. split.
    + rewrite filter_zeros by done. simpl. lia.
    + intros Hin%elem_of_replicate_inv. by destruct He.
Qed.

(** C30: The environment is released at most once, by the module's drop or by its
    destructor, and no call gets it afterwards; it is released for certain when
    the closure is dropped and idle, or collected. *)
Theorem closure_released_once es c :
  env ≠ 0 → run step es (makeMutClosure env) = Some c →
  let visible := filter (λ a, a ≠ Destroy 0) (actions c) in
  (Forall (λ a, ¬ is_release a) visible ∨
   ∃ l1 r l2, visible = l1 ++ r :: l2 ∧ Forall (λ a, ¬ is_release a) l1 ∧ is_release r ∧
     Forall (λ a, a = Invoke 0) l2) ∧
  (frames c = [] → EvDrop ∈ es ∨ collected c = true → ∃ r, r ∈ visible ∧ is_release r).
Proof.
  intros He Hr. cbv zeta.
  destruct (run_refines env He es _ _ _ (init_refines env) Hr) as [_ Hp Hu].
  assert (spec_ok (spec_run env es spec_init)) as Hok by by apply spec_run_ok; constructor.
  unfold spec_ok in Hok. rewrite Hu. split.
  - destruct (phase _); auto.
  - intros Hf Hwhy. destruct (phase (spec_run env es spec_init)) as [wanted|] eqn:Hph.
    + destruct Hp as (_ & _ & _ & _ & Hc & Hw). destruct Hwhy as [Hd|Hd]; [|congruence].
      destruct wanted; [|by destruct Hw].
      by destruct (spec_dropped es spec_init (or_intror Hd)).
    + destruct Hok as (l1 & r & l2 & -> & _ & Hrel & _). exists r. split; [|done].
      apply elem_of_app. right. by left.
Qed.
End Ownership.

(** The closure of the module that fills a promise gets its environment once, and
    nothing is left of it afterwards. *)
Lemma executor_called_once arg0 arg1 :
  __wbg_new_23a2665fac83c611 arg0 arg1 = mkExecutor (0, 0) [] [(arg0, arg1)].
Proof. done. Qed.

(** ** Examples *)

(** Dropped in a recursive call, called again later, and collected. *)
Definition ex_life : list Event :=
  [EvEnter; EvLeave; EvEnter; EvEnter; EvDrop; EvLeave; EvLeave; EvEnter; EvLeave].

Definition ex_forgotten : list Event := [EvForget; EvEnter; EvLeave; EvFinalize].

Example ex_life_actions :
  actions <$> run step ex_life (makeMutClosure 64) =
    Some [Invoke 64; Invoke 64; Invoke 0; Destroy 64; Invoke 0; Destroy 0].
Proof. vm_compute. reflexivity. Qed.

Lemma closure_refines_witness :
  refines 64 (after step ex_life (makeMutClosure 64)) (spec_run 64 ex_life spec_init).
Proof. by apply (closure_refines 64 ex_life); [|by_run]. Defined.

Lemma closure_exclusive_witness :
  let c := after step (take 4 ex_life) (makeMutClosure 64) in
  (length (filter (eq (64 : Z)) (frames c)) <= 1)%nat ∧ (64 ∈ frames c → state_a c = 0).
Proof. by apply (closure_exclusive 64 (take 4 ex_life)); [|by_run]. Defined.

Lemma closure_released_once_witness :
  let c := after step ex_forgotten (makeMutClosure 64) in
  let visible := filter (λ a, a ≠ Destroy 0) (actions c) in
  (Forall (λ a, ¬ is_release 64 a) visible ∨
   ∃ l1 r l2, visible = l1 ++ r :: l2 ∧ Forall (λ a, ¬ is_release 64 a) l1 ∧ is_release 64 r ∧
     Forall (λ a, a = Invoke 0) l2) ∧
  (frames c = [] → EvDrop ∈ ex_forgotten ∨ collected c = true →
   ∃ r, r ∈ visible ∧ is_release 64 r).
Proof. by apply (closure_released_once 64 ex_forgotten); [|by_run]. Defined.
