(* ===== verification/WasmLoader.v ===== *)
(** * Loading the WebAssembly module ([wasm/web_rtccam.js], [__wbg_init])

    [__wbg_init] is asynchronous and may be called several times; [step] is one
    call, or one settled promise of a call.  The compiler and the network are
    the requests of the monad. *)
From S2P Require Import Prelude JsValue Async Utf8 WasmGlue React WasmReference.

(** What the initialization functions are called with, and what they make of
    it.  A plain object has the property they read, or [undefined]. *)
Inductive Source :=
| SUndefined
| SNull
| SPlain (field : Source)
| SString (url : string)
| SURL (url : string)
| SRequest (n : nat)
| SResponse (n : nat)
| SModule (n : nat)
| SBytes (n : nat)
| SPromise (n : nat).

#[global] Instance Source_eq_dec : EqDecision Source.
Proof. solve_decision. Defined.

(** The parts of the platform the code asks for, the header of a response, and
    the synchronous constructors. *)
Class LoaderEnv {WM : WasmModule} := {
  hasResponse : bool;
  hasInstantiateStreaming : bool;
  hasRequest : bool;
  hasURL : bool;
  content_type : nat → option string;
  new_Module : Source → ext + nat;
  new_Instance : nat → ext + Wasm Inner;
}.

Inductive Request :=
| Fetch (s : Source)
| AwaitPromise (n : nat)
| Tick
| InstantiateStreaming (response : nat)
| ArrayBuffer (response : nat)
| InstantiateModule (m : nat)
| InstantiateSource (s : Source).

Section Loader.
Context {WM : WasmModule} {PR : Program} {LE : LoaderEnv}.

(** Instantiating a compiled module resolves with the instance, anything else
    with the instance and its module. *)
Definition Reply (r : Request) : Type :=
  match r with
  | Fetch _ => nat
  | AwaitPromise _ => Source
  | Tick => unit
  | ArrayBuffer _ => nat
  | InstantiateModule _ => Wasm Inner
  | InstantiateStreaming _ | InstantiateSource _ => Wasm Inner * nat
  end.

(** The module variables of the bindings, the module saved on [__wbg_init], and
    the instances whose [__wbindgen_start] was called. *)
Record Loader := mkLoader {
  glue : Glue WM;
  __wbindgen_wasm_module : option Source;
  started : list nat;
}.

Local Abbreviation M := (@JS Loader ext Request Reply).
Local Abbreviation Init := (@Outcome Loader ext Request Reply nat).

Definition request (r : Request) : M (Reply r) := await r.

(** [await] on a value that is there: the code goes on in a later turn. *)
Definition tick : M unit := λ l, (l, Awaiting Tick (λ _ l', (l', Returned tt))).

(** [wasm] as the value of the functions: the identity of the exports. *)
Definition wasm_id (l : Loader) : option nat := instance_id <$> wasm (glue l).

(** [Object.getPrototypeOf(x) === Object.prototype]; the other values the
    functions are called with are objects of other classes. *)
Definition plain_object (x : Source) : M bool :=
  match x with
  | SPlain _ => ret true
  | SUndefined | SNull => throw (error "TypeError")
  | _ => ret false
  end.

(** The argument without the object around it; [undefined] stays. *)
Definition unwrap_argument (x : Source) : M Source :=
  match x with
  | SUndefined => ret x
  | _ =>
      plain <- plain_object x ;;
      match plain, x with
      | true, SPlain field => ret field
      | _, _ => ret x
      end
  end.

(** The pair [{ instance, module }]. *)
Definition __wbg_load (module : Source) : M (Wasm Inner * Source) :=
  match module with
  | SResponse r =>
      if hasResponse then
        streamed <- (if hasInstantiateStreaming then
                       try_catch
                         (p <- request (InstantiateStreaming r) ;;
                          ret (Some p))
                         (λ e, if decide (content_type r = Some "application/wasm") then throw e
                               else ret None)
                     else ret None) ;;
        match streamed with
        | Some (instance, m) => ret (instance, SModule m)
        | None =>
            bytes <- request (ArrayBuffer r) ;;
            p <- request (InstantiateSource (SBytes bytes)) ;;
            ret (fst p, SModule (snd p))
        end
      else
        p <- request (InstantiateSource module) ;;
        ret (fst p, SModule (snd p))
  | SModule m =>
      instance <- request (InstantiateModule m) ;;
      ret (instance, module)
  | _ =>
      p <- request (InstantiateSource module) ;;
      ret (fst p, SModule (snd p))
  end.

(** [wasm.__wbindgen_start()] *)
Definition call_start : M unit := λ l,
  let '(g, r) := export_start (glue l) in
  (mkLoader g (__wbindgen_wasm_module l)
     (started l ++ match wasm_id l with Some i => [i] | None => [] end),
   match r with inl e => Threw e | inr u => Returned u end).

Definition get_wasm : M nat := sync (λ l,
  match wasm_id l with Some i => inr (l, i) | None => inl (error "TypeError") end).

Definition __wbg_finalize_init (instance : Wasm Inner) (module : Source) : M nat :=
  modify (λ l, mkLoader (mkGlue WM (Some instance) None (WASM_VECTOR_LEN (glue l))) (Some module)
                 (started l)) ;;
  call_start ;;
  get_wasm.

(** Leave with the exports when they are there. *)
Definition unless_loaded (m : M nat) : M nat :=
  loaded <- gets wasm_id ;;
  match loaded with Some i => ret i | None => m end.

Definition lift_sync {X} (r : ext + X) : M X := sync (λ l, match r with inl e => inl e | inr x => inr (l, x) end).

Definition initSync (module : Source) : M nat :=
  unless_loaded (
    module <- unwrap_argument module ;;
    m <- match module with
         | SModule m => ret m
         | _ => lift_sync (new_Module module)
         end ;;
    instance <- lift_sync (new_Instance m) ;;
    __wbg_finalize_init instance (SModule m)).

(** [new URL('web_rtccam_bg.wasm', import.meta.url)] *)
Definition default_url : M Source :=
  if hasURL then ret (SURL "web_rtccam_bg.wasm") else throw (error "ReferenceError").

(** Whether [module_or_path] is fetched. *)
Definition is_path (x : Source) : bool :=
  match x with
  | SString _ => true
  | SRequest _ => hasRequest
  | SURL _ => hasURL
  | _ => false
  end.

(** [await module_or_path], after the call of [fetch] *)
Definition resolve_source (x : Source) : M Source :=
  if is_path x then
    r <- request (Fetch x) ;;
    ret (SResponse r)
  else
    match x with
    | SPromise n => request (AwaitPromise n)
    | _ => tick ;; ret x
    end.

Definition __wbg_init (module_or_path : Source) : M nat :=
  unless_loaded (
    module_or_path <- unwrap_argument module_or_path ;;
    module_or_path <- match module_or_path with SUndefined => default_url | _ => ret module_or_path end ;;
    source <- resolve_source module_or_path ;;
    p <- __wbg_load source ;;
    tick ;;
    __wbg_finalize_init (fst p) (snd p)).

(** A call that is alone on the page: each of its promises settles with the
    answer of [f]. *)
Fixpoint settled_run {A} (f : ∀ r, ext + Reply r) (l : Loader) (o : @Outcome Loader ext Request Reply A)
    : Loader * (ext + A) :=
  match o with
  | Returned a => (l, inr a)
  | Threw e => (l, inl e)
  | Awaiting r k => let '(l', o') := k (f r) l in settled_run f l' o'
  end.

Definition call_alone {A} (f : ∀ r, ext + Reply r) (m : M A) (l : Loader) : Loader * (ext + A) :=
  let '(l', o) := m l in settled_run f l' o.

(** ** The calls of a page *)

Record Bindings := mkBindings { loader : Loader; inits : list Init }.

Definition Answers : Type := ∀ r, ext + Reply r.

Inductive Event :=
| EvInit (s : Source)
| EvInitSync (s : Source)
| EvSettle (i : nat) (f : Answers).

Definition step (e : Event) (b : Bindings) : option Bindings :=
  match e with
  | EvInit s => let '(l, o) := __wbg_init s (loader b) in Some (mkBindings l (inits b ++ [o]))
  | EvInitSync s => let '(l, o) := initSync s (loader b) in Some (mkBindings l (inits b ++ [o]))
  | EvSettle i f =>
      o ← inits b !! i;
      '(l, o') ← resume f o (loader b);
      Some (mkBindings l (<[i := o']> (inits b)))
  end.

Definition init : Bindings := mkBindings (mkLoader (mkGlue WM None None 0) None []) [].
End Loader.
Arguments Loader WM : clear implicits.

(** The program has no way to assign the variable [wasm]. *)
Class KeepsInstance {WM : WasmModule} {PR : Program} : Prop :=
  start_keeps g g' r :
    export_start g = (g', r) → instance_id <$> wasm g' = instance_id <$> wasm g.

Section Properties.
Context {WM : WasmModule} {PR : Program} {LE : LoaderEnv} {KI : KeepsInstance}.
Local Abbreviation M := (@JS (Loader WM) ext Request Reply).
Local Abbreviation Init := (@Outcome (Loader WM) ext Request Reply nat).
Implicit Types (l : Loader WM) (b : Bindings).

(** ** The atomic part *)

Lemma finalize_run w m l :
  ∃ l' r, __wbg_finalize_init w m l = (l', r) ∧
    wasm_id l' = Some (instance_id w) ∧ started l' = started l ++ [instance_id w] ∧
    match r with Returned i => i = instance_id w | Threw _ => True | Awaiting _ _ => False end.
Proof.
  unfold __wbg_finalize_init, bind at 1. cbn [modify bind_out]. unfold bind, call_start.
  cbn [glue]. destruct (export_start _) as [g r] eqn:Hs. pose proof (start_keeps _ _ _ Hs) as Hk.
  simpl in Hk. destruct r as [e|[]]; cbn [bind_out].
  - eexists _, _. split; [done|]. split_and!; done.
  - unfold get_wasm, sync, wasm_id. cbn [glue]. rewrite Hk. eexists _, _. split; [done|].
    split_and!; done.
Qed.

(** ** What every call keeps *)

(** The instance in use is the one whose start function was called last. *)
Definition loader_ok l : Prop := wasm_id l = last (started l).

Definition later l l' : Prop := started l `prefix_of` started l'.

#[export] Instance later_preorder : PreOrder later.
Proof. split; [by intros l; red|]. intros l1 l2 l3. unfold later. by etrans. Qed.

#[export] Instance later_guarantee : RelyGuarantee later later.
Proof. split; [apply _..|done]. Qed.

Local Abbreviation wpl := (@wp (Loader WM) ext Request Reply loader_ok later later _).

Definition resolved (i : nat) l : Prop := i ∈ started l.

Lemma wp_finalize w m l : loader_ok l → wpl (__wbg_finalize_init w m) resolved (λ _ _, True) l.
Proof.
  intros _. destruct (finalize_run w m l) as (l' & r & Hf & Hw & Hs & Hr). unfold wp. rewrite Hf.
  split_and!.
  - unfold loader_ok. by rewrite Hw, Hs, last_snoc.
  - unfold later. rewrite Hs. by apply prefix_app_r.
  - destruct r as [i| |]; simpl; [|done..]. subst i. unfold resolved. rewrite Hs.
    apply elem_of_app. right. by left.
Qed.

Lemma wp_unless_loaded m l :
  loader_ok l → (loader_ok l → wpl m resolved (λ _ _, True) l) →
  wpl (unless_loaded m) resolved (λ _ _, True) l.
Proof.
  intros Hl Hm. js wp_bind. js wp_gets; [done|]. destruct (wasm_id l) as [i|] eqn:Hi; [|auto].
  js wp_ret; [done|]. unfold resolved. unfold loader_ok in Hl. rewrite Hi in Hl.
  by apply last_Some_elem_of.
Qed.

(** Code that only waits. *)
Local Abbreviation quiet := (@safe (Loader WM) ext Request Reply loader_ok later later _).

Lemma quiet_tick : quiet tick.
Proof. intros l Hl. split_and!; [done|done|]. intros v l' _ Hl'. by split_and!. Qed.

Lemma quiet_throw {X} e : quiet (throw e : M X).
Proof. intros l Hl. by js wp_throw. Qed.

Lemma quiet_lift {X} (r : ext + X) : quiet (lift_sync r).
Proof. apply safe_sync; [apply _|]. intros l l' x Hl. destruct r; intros; by simplify_eq. Qed.

Lemma quiet_unwrap x : quiet (unwrap_argument x).
Proof.
  unfold unwrap_argument. case_match; try (apply safe_ret; apply _);
    (apply safe_bind; [apply _|unfold plain_object; first [apply quiet_throw|apply safe_ret; apply _]|]);
    intros b; repeat case_match; apply safe_ret; apply _.
Qed.

Lemma quiet_then {X Y} (m : M X) (f : X → M Y) Q l :
  quiet m → loader_ok l → (∀ x l', loader_ok l' → wpl (f x) Q (λ _ _, True) l') →
  wpl (bind m f) Q (λ _ _, True) l.
Proof.
  intros Hm Hl Hf. js wp_bind. eapply wp_mono; [by apply Hm| |done]. intros x l' Hl' _. by apply Hf.
Qed.

Lemma quiet_ask r : quiet (request r).
Proof. apply safe_await. apply _. Qed.

Lemma quiet_request {X} r (f : Reply r → M X) : (∀ x, quiet (f x)) → quiet (bind (request r) f).
Proof. intros Hf. apply safe_bind; [apply _|apply quiet_ask|done]. Qed.

Lemma quiet_load x : quiet (__wbg_load x).
Proof.
  unfold __wbg_load. repeat case_match; try (apply quiet_request; intros ?; apply safe_ret; apply _).
  all: apply safe_bind; [apply _| |intros [[]|]];
    try (apply safe_ret; apply _);
    try (apply quiet_request; intros ?; apply quiet_request; intros ?; apply safe_ret; apply _).
  all: apply safe_try; [apply _|apply quiet_request; intros ?; apply safe_ret; apply _|];
    intros ?; first [apply quiet_throw|apply safe_ret; apply _].
Qed.

Lemma quiet_resolve x : quiet (resolve_source x).
Proof.
  unfold resolve_source. destruct (is_path x).
  - apply quiet_request; intros ?; apply safe_ret; apply _.
  - destruct x; try (apply safe_bind; [apply _|apply quiet_tick|intros ?; apply safe_ret; apply _]).
    exact (quiet_ask (AwaitPromise _)).
Qed.

Lemma wp_wbg_init x l : loader_ok l → wpl (__wbg_init x) resolved (λ _ _, True) l.
Proof.
  intros Hl. apply wp_unless_loaded; [done|]. intros _.
  apply quiet_then; [apply quiet_unwrap|done|]. intros y l1 Hl1.
  apply quiet_then; [|done|].
  { unfold default_url. repeat case_match; first [apply quiet_throw|apply safe_ret; apply _]. }
  intros z l2 Hl2. apply quiet_then; [apply quiet_resolve|done|]. intros source l3 Hl3.
  apply quiet_then; [apply quiet_load|done|]. intros p l4 Hl4.
  apply quiet_then; [apply quiet_tick|done|]. intros _ l5 Hl5. by apply wp_finalize.
Qed.

Lemma wp_initSync x l : loader_ok l → wpl (initSync x) resolved (λ _ _, True) l.
Proof.
  intros Hl. apply wp_unless_loaded; [done|]. intros _.
  apply quiet_then; [apply quiet_unwrap|done|]. intros y l1 Hl1.
  apply quiet_then; [|done|].
  { case_match; first [apply quiet_lift|apply safe_ret; apply _]. }
  intros m l2 Hl2. apply quiet_then; [apply quiet_lift|done|]. intros w l3 Hl3. by apply wp_finalize.
Qed.

(** ** The length of a call *)

Lemma bounded_tick {X} n (f : unit → M X) : (∀ x, bounded n (f x)) → bounded (S n) (bind tick f).
Proof. apply (bounded_bind 1 n). intros l v l'. done. Qed.

Lemma bounded_finalize w m : bounded 0 (__wbg_finalize_init w m).
Proof.
  intros l. destruct (finalize_run w m l) as (l' & r & -> & _ & _ & Hr). by destruct r.
Qed.

Lemma bounded_unwrap x : bounded 0 (unwrap_argument x : M Source).
Proof.
  unfold unwrap_argument. case_match; try apply bounded_ret;
    (apply (bounded_bind 0 0); [unfold plain_object; first [apply bounded_throw|apply bounded_ret]|]);
    intros b; repeat case_match; apply bounded_ret.
Qed.

Lemma bounded_ask {X} n r (f : Reply r → M X) :
  (∀ x, bounded n (f x)) → bounded (S n) (bind (request r) f).
Proof. apply (bounded_bind 1 n). apply bounded_await. Qed.

Lemma bounded_load x : bounded 3 (__wbg_load x).
Proof.
  unfold __wbg_load.
  assert (∀ s, bounded 3 (p <- request (InstantiateSource s) ;; ret (fst p, SModule (snd p)) : M _)) as H.
  { intros s. apply bounded_ask. intros ?. apply bounded_ret. }
  repeat case_match; try apply H; try (apply bounded_ask; intros ?; apply bounded_ret).
  all: apply (bounded_bind 1 2);
    [first [apply bounded_ret|apply (bounded_try 1 0)]
    |intros [[]|]; [apply bounded_ret|do 2 (apply bounded_ask; intros ?); apply bounded_ret]].
  all: first [apply bounded_ask; intros ?; apply bounded_ret
             |intros ?; first [apply bounded_throw|apply bounded_ret]].
Qed.

Lemma bounded_unless n (m : M nat) : bounded n m → bounded n (unless_loaded m).
Proof.
  intros Hm. apply (bounded_bind 0 n); [apply bounded_gets|]. intros [i|]; [apply bounded_ret|done].
Qed.

Lemma bounded_resolve x : bounded 1 (resolve_source x : M Source).
Proof.
  unfold resolve_source. destruct (is_path x); [apply bounded_ask; intros ?; apply bounded_ret|].
  destruct x; try (apply bounded_tick; intros ?; apply bounded_ret).
  exact (bounded_await (AwaitPromise _)).
Qed.

Lemma bounded_init x : bounded 5 (__wbg_init x).
Proof.
  apply bounded_unless. apply (bounded_bind 0 5); [apply bounded_unwrap|intros y].
  apply (bounded_bind 0 5).
  { unfold default_url. repeat case_match; first [apply bounded_throw|apply bounded_ret]. }
  intros z. apply (bounded_bind 1 4); [apply bounded_resolve|intros source].
  apply (bounded_bind 3 1); [apply bounded_load|intros p]. apply bounded_tick. intros _.
  apply bounded_finalize.
Qed.

Lemma bounded_initSync x : bounded 0 (initSync x).
Proof.
  apply bounded_unless. apply (bounded_bind 0 0); [apply bounded_unwrap|intros y].
  apply (bounded_bind 0 0); [case_match; first [apply bounded_sync|apply bounded_ret]|intros m].
  apply (bounded_bind 0 0); [apply bounded_sync|intros w]. apply bounded_finalize.
Qed.
(** ** The calls together *)

Definition init_ok l (o : Init) : Prop :=
  out_ok loader_ok later later resolved (λ _ _, True) l o ∧ within 5 o.

Record bindings_inv b : Prop := {
  inv_loader : loader_ok (loader b);
  inv_inits : Forall (init_ok (loader b)) (inits b);
}.

Lemma init_ok_later l l' o : later l l' → init_ok l o → init_ok l' o.
Proof.
  intros Hl [Ho Hw]. split; [|done]. destruct o as [i| |r k]; simpl in *; [|done|].
  - unfold resolved in *. destruct Hl as [more ->]. apply elem_of_app. by left.
  - intros v l1 Hl1. apply Ho. by etrans.
Qed.

Lemma call_inv n (m : M nat) b l o :
  bindings_inv b → wpl m resolved (λ _ _, True) (loader b) → bounded n m → (n ≤ 5)%nat →
  m (loader b) = (l, o) → bindings_inv (mkBindings l (inits b ++ [o])).
Proof.
  intros [Hl Hi] Hm Hn Hle Hr. unfold wp in Hm. specialize (Hn (loader b)). rewrite Hr in Hm, Hn.
  destruct Hm as (? & ? & ?). split; [done|]. simpl. apply Forall_app. split.
  - eapply Forall_impl; [done|]. intros. by eapply init_ok_later.
  - apply Forall_singleton. split; [done|]. by eapply within_mono.
Qed.

Lemma step_inv e b b' : bindings_inv b → step e b = Some b' → bindings_inv b'.
Proof.
  intros Hb He. pose proof (inv_loader _ Hb) as Hl. destruct e as [s|s|i f]; simpl in He.
  - destruct (__wbg_init s _) eqn:Hr. simplify_eq.
    eapply (call_inv 5); eauto using wp_wbg_init, bounded_init.
  - destruct (initSync s _) eqn:Hr. simplify_eq.
    eapply (call_inv 0); eauto using wp_initSync, bounded_initSync with lia.
  - destruct Hb as [_ Hi]. destruct (inits b !! i) as [o|] eqn:Ho; [|done]. simpl in He.
    destruct (resume f o (loader b)) as [[l o']|] eqn:Hr; [|done]. simpl in He. simplify_eq.
    pose proof (Forall_lookup_1 _ _ _ _ Hi Ho) as [Hok Hw].
    destruct (within_resume _ _ _ _ _ _ Hw Hr) as (n & Hn & Hw').
    destruct o as [| |r k]; [done..|]. injection Hr as Hr.
    specialize (Hok (f r) (loader b) (reflexivity _) Hl). rewrite Hr in Hok.
    destruct Hok as (? & ? & ?). split; [done|]. simpl. apply Forall_insert.
    + eapply Forall_impl; [done|]. intros. by eapply init_ok_later.
    + split; [done|]. eapply within_mono; [|done]. lia.
Qed.

Lemma reachable_bindings b : reachable step init b → bindings_inv b.
Proof. revert b. apply reachable_ind_inv; [|intros; by eapply step_inv]. split; [done|constructor]. Qed.

(** C31: Whatever the order in which the calls and their requests settle, the
    instance in use is the one whose start function ran last, every call that
    resolved did so with an instance that was started, and every call settles
    after at most five turns. *)
Theorem inits_resolve_started b :
  reachable step init b →
  wasm_id (loader b) = last (started (loader b)) ∧
  (∀ i, Returned i ∈ inits b → i ∈ started (loader b)) ∧
  Forall (within 5) (inits b).
Proof.
  intros [Hl Hi]%reachable_bindings. split_and!; [done| |].
  - intros i Hin. rewrite Forall_forall in Hi. by destruct (Hi _ Hin).
  - eapply Forall_impl; [done|]. by intros o [].
Qed.

(** Once an instance is there, both functions resolve with it at once, and the
    state stays as it is. *)
Lemma loaded_is_returned s l i :
  wasm_id l = Some i → __wbg_init s l = (l, Returned i) ∧ initSync s l = (l, Returned i).
Proof. intros Hi. unfold __wbg_init, initSync, unless_loaded, bind, gets. by rewrite !Hi. Qed.

(** A start function that throws leaves the instance in use: the call fails and
    the next one resolves with the instance that did not start. *)
Lemma failed_start_is_kept w m l l' e s :
  __wbg_finalize_init w m l = (l', Threw e) → __wbg_init s l' = (l', Returned (instance_id w)).
Proof.
  intros Hf. destruct (finalize_run w m l) as (l1 & r & Hf' & Hw & _).
  rewrite Hf in Hf'. injection Hf' as -> _. apply (loaded_is_returned s _ _ Hw).
Qed.
(** The instance and its module the answers [f] give a call of [init] without an
    argument: the module next to the bindings is fetched and streamed; a response
    that does not stream is compiled from its bytes unless its type is that of
    WebAssembly. *)
Definition default_module (f : Answers) : ext + Wasm Inner * nat :=
  match f (Fetch (SURL "web_rtccam_bg.wasm")) with
  | inl e => inl e
  | inr response =>
      match f (InstantiateStreaming response) with
      | inr p => inr p
      | inl e =>
          if decide (content_type response = Some "application/wasm") then inl e
          else match f (ArrayBuffer response) with
               | inl e => inl e
               | inr bytes => f (InstantiateSource (SBytes bytes))
               end
      end
  end.

Lemma finalize_alone f w m l :
  call_alone f (__wbg_finalize_init w m) l =
    let '(g, r) := export_start (mkGlue WM (Some w) None (WASM_VECTOR_LEN (glue l))) in
    (mkLoader g (Some m) (started l ++ [instance_id w]),
     match r with inl e => inl e | inr _ => inr (instance_id w) end).
Proof.
  unfold call_alone, __wbg_finalize_init, bind at 1. cbn [modify bind_out]. unfold bind, call_start.
  cbn [glue]. destruct (export_start _) as [g r] eqn:Hs. pose proof (start_keeps _ _ _ Hs) as Hk.
  simpl in Hk. destruct r as [e|[]]; cbn [bind_out]; [done|].
  unfold get_wasm, sync, wasm_id. cbn [glue]. by rewrite Hk.
Qed.

(** C32: Called without an argument while there is no instance, [init] fetches,
    streams or compiles the module next to the bindings.  An error of the
    fetch, the stream or the compilation is the error of the call and leaves
    the state as it was.  Otherwise the call saves the module and starts the
    instance, which is then the one in use, and resolves with it; when the
    start function throws, the call fails with its error and the instance stays. *)
Theorem default_init_loads f l :
  wasm_id l = None → hasURL = true → hasResponse = true → hasInstantiateStreaming = true →
  match default_module f with
  | inl e => call_alone f (__wbg_init SUndefined) l = (l, inl e)
  | inr (w, m) => ∃ l' r,
      call_alone f (__wbg_init SUndefined) l =
        (l', match r with inl e => inl e | inr _ => inr (instance_id w) end) ∧
      export_start (mkGlue WM (Some w) None (WASM_VECTOR_LEN (glue l))) = (glue l', r) ∧
      wasm_id l' = Some (instance_id w) ∧ started l' = started l ++ [instance_id w] ∧
      __wbindgen_wasm_module l' = Some (SModule m)
  end.
Proof.
  intros Hw Hu Hr Hs.
  assert (call_alone f (__wbg_init SUndefined) l =
    match default_module f with
    | inl e => (l, inl e)
    | inr (w, m) => call_alone f (__wbg_finalize_init w (SModule m)) l
    end) as ->.
  { unfold default_module, call_alone, __wbg_init, unless_loaded, bind at 1, gets. rewrite Hw.
    cbn [bind_out unwrap_argument]. unfold default_url, resolve_source, is_path. rewrite Hu.
    unfold bind, ret, request, await, tick. cbn [bind_out settled_run Reply].
    destruct (f (Fetch _)) as [|response]; [done|].
    cbn [bind_out settled_run]. unfold __wbg_load. rewrite Hr, Hs.
    unfold bind, try_catch, request, await, ret, throw. cbn [bind_out catch_out settled_run].
    destruct (f (InstantiateStreaming _)) as [e|[w m]]; cbn [bind_out catch_out settled_run fst snd]; [|done].
    case_decide; [done|]. cbn [bind_out catch_out settled_run].
    destruct (f (ArrayBuffer _)) as [|bytes]; cbn [bind_out settled_run]; [done|].
    by destruct (f (InstantiateSource _)) as [|[]]. }
  destruct (default_module f) as [e|[w m]]; [done|]. rewrite finalize_alone.
  destruct (export_start _) as [g r] eqn:Hst. pose proof (start_keeps _ _ _ Hst) as Hk.
  by eexists (mkLoader g _ _), r.
Qed.
End Properties.

(** ** Examples *)

(** A browser that can do everything; the server names the type [mime]. *)
Definition RefEnv (mime : string) : LoaderEnv (WM := RefModule) := {|
  hasResponse := true;
  hasInstantiateStreaming := true;
  hasRequest := true;
  hasURL := true;
  content_type _ := Some mime;
  new_Module _ := inr 0%nat;
  new_Instance _ := inr (ref_wasm 0);
|}.

Lemma ref_keeps : KeepsInstance (PR := RefProgram).
Proof. intros g g' r [= <- _]. done. Qed.

(** The instance [i] comes out of every compilation, and streams fail when
    [streams] is [false]. *)
Definition ex_answers (streams : bool) (i : nat) : Answers (WM := RefModule) := λ r,
  let w := mkWasm i (inner (ref_wasm 0)) 0 [] [] in
  match r with
  | Fetch _ => inr 0%nat
  | AwaitPromise _ => inr (SBytes 0)
  | Tick => inr tt
  | InstantiateStreaming _ => if streams then inr (w, 0%nat) else inl (error "TypeError")
  | ArrayBuffer _ => inr 0%nat
  | InstantiateModule _ => inr w
  | InstantiateSource _ => inr (w, 0%nat)
  end.

(** Two components call [init] before the module is there; the requests of the
    second settle after the first is done. *)
Definition ex_concurrent : list (Event (WM := RefModule)) :=
  [EvInit SUndefined; EvInit SUndefined] ++
  replicate 3 (EvSettle 0 (ex_answers true 0)) ++ replicate 3 (EvSettle 1 (ex_answers true 1)).

Definition ex_step := step (WM := RefModule) (PR := RefProgram) (LE := RefEnv "application/wasm").

Definition ex_summary (es : list (Event (WM := RefModule))) : option nat * list nat * list (option nat) :=
  let b := final ex_step init es in
  (wasm_id (loader b), started (loader b),
   (λ o, match o with Returned i => Some i | _ => None end) <$> inits b).

(** Both calls instantiate the module, and the instance of the second replaces
    the one the first call resolved with. *)
Example concurrent_inits_replace : ex_summary ex_concurrent = (Some 1, [0; 1], [Some 0; Some 1])%nat.
Proof. vm_compute. reflexivity. Qed.

Lemma inits_resolve_started_witness :
  let b := final ex_step init ex_concurrent in
  wasm_id (loader b) = last (started (loader b)) ∧
  (∀ i, Returned i ∈ inits b → i ∈ started (loader b)) ∧
  Forall (within 5) (inits b).
Proof.
  apply (inits_resolve_started (PR := RefProgram) (LE := RefEnv "application/wasm") (KI := ref_keeps)
           (final ex_step init ex_concurrent)).
  apply reachable_final. vm_compute. done.
Defined.

Definition ex_loader : Loader RefModule := loader init.

Lemma default_init_loads_witness :
  let P := RefProgram in let E := RefEnv "application/octet-stream" in
  let f := ex_answers false 7 in
  let w := mkWasm 7 (inner (ref_wasm 0)) 0 [] [] in
  ∃ l' r,
    call_alone f (__wbg_init (PR := P) (LE := E) SUndefined) ex_loader =
      (l', match r with inl e => inl e | inr _ => inr 7%nat end) ∧
    export_start (mkGlue RefModule (Some w) None (WASM_VECTOR_LEN (glue ex_loader))) = (glue l', r) ∧
    wasm_id l' = Some 7%nat ∧ started l' = started ex_loader ++ [7%nat] ∧
    __wbindgen_wasm_module l' = Some (SModule 0).
Proof.
  intros P E f w.
  apply (default_init_loads (PR := P) (LE := E) (KI := ref_keeps) f ex_loader); reflexivity.
Defined.
